(** * pixz: the tar-to-xz writer (write.c) and the lister (list.c)

    A shallow embedding of the sequential parts of the writer pipeline:
    file registration with multi-header collapse, the tar pull callback,
    the in-order block writer, the file-index serialiser with its
    CHUNKSIZE staging buffer, the start-up of the buffer pool, and the
    lister's main routine.

    Conventions.  The target is taken to be LP64: [size_t] is 64 bits wide
    and [int] is 32 bits wide.  Unsigned machine integers are values of [Z]
    with their reduction written out.  Bytes are [Byte.byte].  A C string
    is the list of bytes found at the pointer; reading past the end of the
    list yields NUL (the terminator is implicit), and an earlier NUL byte
    ends the string exactly as in C.

    Part I holds the embedding, Part II the properties. *)

From Stdlib Require Import ZArith List Lia Bool.
From Stdlib Require Import Strings.Ascii Strings.String Strings.Byte.
From Stdlib Require Import Numbers.DecimalString Numbers.DecimalN.
From Equations Require Import Equations.
From Equations.Prop Require Import Logic.
From stdpp Require Import base list sorting.
Import ListNotations.

#[local] Open Scope byte_scope.
#[local] Open Scope nat_scope.

(* ================================================================== *)
(** * Part I: the embedding                                            *)
(* ================================================================== *)

(** ** Machine integers *)

Definition SIZE_MAX_plus_1 : Z := 2 ^ 64.
Definition INT_MAX : Z := 2 ^ 31 - 1.

(** Conversion to [size_t]: reduction modulo 2^64. *)
Definition to_size_t (z : Z) : Z := (z mod SIZE_MAX_plus_1)%Z.

(** Conversion to [int]: reduction modulo 2^32 into the signed range. *)
Definition to_int (z : Z) : Z :=
  let r := (z mod 2 ^ 32)%Z in
  if (r <=? INT_MAX)%Z then r else (r - 2 ^ 32)%Z.

Definition byte_val (b : byte) : Z := Z.of_N (Byte.to_N b).

Definition byte_of_Z (z : Z) : byte :=
  match Byte.of_N (Z.to_N (z mod 256)) with
  | Some b => b
  | None => x00
  end.

(** ** Outcomes of a routine *)

Inductive outcome (A : Type) : Type :=
| Done (a : A)   (* normal return *)
| Died           (* die(): fatal error, the process exits *)
| Fault          (* undefined behaviour: access outside a buffer *)
| Blocked        (* waits on an empty queue *)
| OutOfFuel.     (* the loop bound of the model is exhausted *)

Arguments Done {A} a.
Arguments Died {A}.
Arguments Fault {A}.
Arguments Blocked {A}.
Arguments OutOfFuel {A}.

#[global] Instance outcome_bind : MBind outcome := fun A B k o =>
  match o with
  | Done a => k a
  | Died => Died
  | Fault => Fault
  | Blocked => Blocked
  | OutOfFuel => OutOfFuel
  end.

(** ** Buffers and files *)

(** [memcpy(dst + dpos, src + spos, len)]; leaving either buffer is
    undefined behaviour. *)
Definition memcpy (dst : list byte) (dpos : Z) (src : list byte) (spos len : Z)
  : outcome (list byte) :=
  if ((dpos + len <=? Z.of_nat (length dst)) &&
      (spos + len <=? Z.of_nat (length src)))%Z
  then Done (take (Z.to_nat dpos) dst
             ++ take (Z.to_nat len) (drop (Z.to_nat spos) src)
             ++ drop (Z.to_nat (dpos + len)) dst)
  else Fault.

(** [fread(buf + pos, 1, space, f)] on a stream without read errors: the
    next [space] bytes, fewer only at end of file.  Returns the bytes read,
    the buffer and the rest of the stream. *)
Definition fread (buf : list byte) (pos space : Z) (f : list byte)
  : outcome (list byte * list byte * list byte) :=
  let data := take (Z.to_nat space) f in
  if (pos + space <=? Z.of_nat (length buf))%Z
  then Done (data,
             take (Z.to_nat pos) buf ++ data
             ++ drop (Z.to_nat pos + length data) buf,
             drop (Z.to_nat space) f)
  else Fault.

(** [fwrite(p, size, 1, f) != 1] is fatal; one item of size 0 is never
    reported as written. *)
Definition fwrite (p : list byte) (size : Z) (f : list byte)
  : outcome (list byte) :=
  if (size =? 0)%Z then Died
  else if (size <=? Z.of_nat (length p))%Z
       then Done (f ++ take (Z.to_nat size) p)
       else Fault.

(** ** pixz.h and liblzma *)

(** The header pixz.h is not part of the sources at hand; the one constant
    taken from it is a parameter. *)
Class pixz_h := { CHUNKSIZE : Z }.

Inductive lzma_action := LZMA_RUN | LZMA_FINISH.

(** [LZMA_ERROR] stands for every return code other than the two below. *)
Inductive lzma_ret := LZMA_OK | LZMA_STREAM_END | LZMA_ERROR.

Record lzma_block := {
  header_size : Z;
  compressed_size : Z;
  uncompressed_size : Z
}.

(** What one call of [lzma_code] did: its return code, how many of the
    [avail_in] bytes at [next_in] it took, what it stored at [next_out],
    and the coder afterwards. *)
Record lzma_result (coder : Type) := {
  ret : lzma_ret;
  consumed : nat;
  produced : list byte;
  next_coder : coder
}.

Arguments ret {coder}.
Arguments consumed {coder}.
Arguments produced {coder}.
Arguments next_coder {coder}.

(** The codec is an external collaborator, used through this interface. *)
Class liblzma := {
  lzma_coder : Type;
  (** the coder set up by [lzma_block_encoder] *)
  lzma_block_encoder : lzma_coder;
  (** [lzma_code] on the [avail_in] bytes at [next_in], with [avail_out]
      bytes of room at [next_out] *)
  lzma_code : lzma_coder -> lzma_action -> list byte -> Z
              -> lzma_result lzma_coder;
  (** the block descriptor as the coder has filled it in *)
  coder_block : lzma_coder -> lzma_block;
  (** the bytes stored by [lzma_block_header_encode] *)
  block_header : list byte;
  lzma_block_unpadded_size : lzma_block -> Z;
  lzma_block_buffer_bound : Z -> Z
}.

(** ** C strings *)

Module CString.

(** [s[i]]; the implicit terminator is read past the end. *)
Definition char_at (s : list byte) (i : nat) : byte := nth i s x00.

Fixpoint strlen (s : list byte) : nat :=
  match s with
  | [] => 0
  | c :: s' => if Byte.eqb c x00 then 0 else S (strlen s')
  end.

(** The string value denoted by the pointer: the bytes before the first
    NUL. *)
Definition c_str (s : list byte) : list byte := take (strlen s) s.

(** [strncmp]: compares at most [n] characters as unsigned bytes and stops
    after a NUL. *)
Fixpoint strncmp (s1 s2 : list byte) (n : nat) : Z :=
  match n with
  | O => 0%Z
  | S n' =>
      let c1 := hd x00 s1 in
      let c2 := hd x00 s2 in
      if negb (Byte.eqb c1 c2) then (byte_val c1 - byte_val c2)%Z
      else if Byte.eqb c1 x00 then 0%Z
      else strncmp (tl s1) (tl s2) n'
  end.

(** [xstrdup]: a fresh copy of the string value. *)
Definition xstrdup (s : list byte) : list byte := c_str s.

(** The memory at the pointer with the implicit terminator made explicit. *)
Definition with_nul (s : list byte) : list byte := s ++ [x00].

End CString.

Import CString.

(** ** Multi-header detection (write.c, is_multi_header) *)

(** The loop [while (i != 0 && name[i - 1] != '/') --i;]. *)
Fixpoint component_start (name : list byte) (i : nat) : nat :=
  match i with
  | O => 0
  | S j => if Byte.eqb (char_at name j) "/" then i else component_start name j
  end.

Definition is_multi_header (name : list byte) : bool :=
  let i := component_start name (strlen name) in
  (strncmp (drop i name) ["."; "_"] 2 =? 0)%Z.

(** The final path component, in the words of the specification: the suffix
    after the last ['/'], or the whole name when it has no ['/']. *)
Definition is_final_component (s t : list byte) : Prop :=
  (~ In "/" s /\ t = s) \/
  (exists pre, s = pre ++ "/" :: t /\ ~ In "/" t).

(** The same, computed by one left-to-right pass. *)
Definition final_component (s : list byte) : list byte :=
  fold_left (fun acc c => if Byte.eqb c "/" then [] else acc ++ [c]) s [].

Definition begins_with_dot_underscore (t : list byte) : Prop :=
  exists rest, t = "." :: "_" :: rest.

(** ** The file index (write.c, add_file) *)

Module FileIndex.

(** A node of the chain, with the fields of [file_index_t] (pixz.h) that
    write.c uses; [next] is the address of the following node. *)
Record file_index_t := {
  name : option (list byte);
  offset : Z;
  next : option nat
}.

(** The globals touched by [add_file].  Nodes live in [heap]; an address
    is an index into it and [malloc] extends it at the end.  Storing
    through a [gLastFile] that is not an address of the heap would be
    undefined; [wf] below excludes it and [alter] then leaves the heap
    alone. *)
Record globals := {
  heap : list file_index_t;
  gFileIndex : option nat;
  gLastFile : option nat;
  gMultiHeaderStart : Z;
  gMultiHeader : bool
}.

Definition init : globals :=
  {| heap := []; gFileIndex := None; gLastFile := None;
     gMultiHeaderStart := 0; gMultiHeader := false |}.

Definition set_next (n : option nat) (f : file_index_t) : file_index_t :=
  {| name := name f; offset := offset f; next := n |}.

Definition add_file (off : Z) (nm : option (list byte)) (g : globals)
  : globals :=
  if match nm with Some n => is_multi_header n | None => false end then
    {| heap := heap g; gFileIndex := gFileIndex g; gLastFile := gLastFile g;
       gMultiHeaderStart :=
         if gMultiHeader g then gMultiHeaderStart g else off;
       gMultiHeader := true |}
  else
    let f := length (heap g) in
    let node :=
      {| offset := if gMultiHeader g then gMultiHeaderStart g else off;
         name := match nm with Some n => Some (xstrdup n) | None => None end;
         next := None |} in
    let h := heap g ++ [node] in
    match gLastFile g with
    | Some l =>
        {| heap := alter (set_next (Some f)) l h;
           gFileIndex := gFileIndex g; gLastFile := Some f;
           gMultiHeaderStart := gMultiHeaderStart g; gMultiHeader := false |}
    | None => (* new index *)
        {| heap := h; gFileIndex := Some f; gLastFile := Some f;
           gMultiHeaderStart := gMultiHeaderStart g; gMultiHeader := false |}
    end.

(** The walk [for (f = gFileIndex; f != NULL; f = f->next)]. *)
Fixpoint chain (fuel : nat) (h : list file_index_t) (p : option nat)
  : list file_index_t :=
  match fuel, p with
  | S k, Some a =>
      match h !! a with
      | Some f => f :: chain k h (next f)
      | None => []
      end
  | _, _ => []
  end.

Definition file_index (g : globals) : list file_index_t :=
  chain (length (heap g)) (heap g) (gFileIndex g).

(** An entry as the index shows it: name and offset. *)
Definition entry : Type := option (list byte) * Z.

Definition entries (g : globals) : list entry :=
  map (fun f => (name f, offset f)) (file_index g).

(** One registration call: offset and pathname (or NULL). *)
Definition call : Type := Z * option (list byte).

Definition is_fragment (c : call) : bool :=
  match snd c with
  | Some n => is_multi_header n
  | None => false
  end.

Definition add_files (calls : list call) (g : globals) : globals :=
  fold_left (fun g c => add_file (fst c) (snd c) g) calls g.

(** A run of fragments that starts right after [before] is maximal when
    the call before it, if any, is not a fragment. *)
Definition run_can_start (before : list call) : Prop :=
  match last before with
  | Some c => is_fragment c = false
  | None => True
  end.

(** The shape of the chain kept by [add_file]: nodes are linked in the
    order of their allocation, and [gLastFile] is the last one. *)
Definition wf (g : globals) : Prop :=
  gFileIndex g = (if length (heap g) =? 0 then None else Some 0) /\
  gLastFile g =
    (if length (heap g) =? 0 then None else Some (length (heap g) - 1)) /\
  forall i f, heap g !! i = Some f ->
    next f = if S i <? length (heap g) then Some (S i) else None.

End FileIndex.

(** ** Block records and queue messages *)

Record io_block_t := {
  seq : Z;
  block : lzma_block;
  input : list byte;
  output : list byte;
  insize : Z;
  outsize : Z
}.

Inductive msg :=
| MSG_BLOCK (ib : io_block_t)
| MSG_STOP.

(** ** Start-up of the buffer pool (write.c, main) *)

Module Setup.

(** [malloc(n)]: a buffer of [n] bytes.  Its content is indeterminate; the
    model picks NUL bytes. *)
Definition malloc (n : Z) : list byte := repeat x00 (Z.to_nat n).

(** A record as [malloc] and the two assignments of the loop leave it; the
    fields not yet assigned are given the value 0. *)
Definition new_block (in_size out_size : Z) : io_block_t :=
  {| seq := 0;
     block := {| header_size := 0; compressed_size := 0;
                 uncompressed_size := 0 |};
     input := malloc in_size; output := malloc out_size;
     insize := 0; outsize := 0 |}.

Record pool := {
  gBlockInSize : Z;
  gBlockOutSize : Z;
  gNumEncodeThreads : Z;
  gReadQ : list io_block_t
}.

(** [gBlockInSize = lzma_opts.dict_size * 2.0]: the product of a 32-bit
    value and 2.0 is exact in double precision, and so is its conversion
    to [size_t]. *)
Definition block_in_size (dict_size : Z) : Z := to_size_t (dict_size * 2).

(** The bound of [for (size_t i = 0; i < (int)(gNumEncodeThreads * 2 + 4);
    ++i)]: the [size_t] product is cut to [int], and the comparison with
    [i] takes it back to [size_t]. *)
Definition pool_size (n : Z) : Z :=
  to_size_t (to_int (to_size_t (n * 2 + 4))).

Definition main_setup `{liblzma} (dict_size n : Z) : pool :=
  let bin := block_in_size dict_size in
  let bout := lzma_block_buffer_bound bin in
  {| gBlockInSize := bin;
     gBlockOutSize := bout;
     gNumEncodeThreads := n;
     gReadQ := repeat (new_block bin bout) (Z.to_nat (pool_size n)) |}.

End Setup.

(** ** The reader (write.c, read_thread and tar_read) *)

Module Reader.

Record reader := {
  gBlockInSize : Z;
  gBlockOutSize : Z;
  gNumEncodeThreads : Z;
  gReadQ : list io_block_t;     (* the free queue *)
  gEncodeQ : list msg;          (* what was pushed to the encode queue *)
  gWriteQ : list msg;           (* what the reader pushed to the write queue *)
  gReadBlock : option io_block_t;
  gBlockNum : Z;
  gTotalRead : Z;
  gInFile : list byte;          (* the bytes not yet read *)
  files : FileIndex.globals
}.

(** The reader's view of the state right after the start-up of [main]. *)
Definition start (p : Setup.pool) (tar : list byte) : reader :=
  {| gBlockInSize := Setup.gBlockInSize p;
     gBlockOutSize := Setup.gBlockOutSize p;
     gNumEncodeThreads := Setup.gNumEncodeThreads p;
     gReadQ := Setup.gReadQ p;
     gEncodeQ := []; gWriteQ := [];
     gReadBlock := None; gBlockNum := 0; gTotalRead := 0;
     gInFile := tar;
     files := FileIndex.init |}.

Definition set_block (ib : io_block_t) (sq sz : Z) (buf : list byte)
  : io_block_t :=
  {| seq := sq; block := block ib; input := buf; output := output ib;
     insize := sz; outsize := outsize ib |}.

(** The block that [tar_read] fills: the current one, or else the head of
    the free queue with [insize] and [seq] assigned.  Also the free queue
    and the block counter afterwards. *)
Definition acquire (st : reader) : outcome (io_block_t * list io_block_t * Z) :=
  match gReadBlock st with
  | Some ib => Done (ib, gReadQ st, gBlockNum st)
  | None =>
      match gReadQ st with
      | ib :: q =>
          Done (set_block ib (gBlockNum st) 0 (input ib), q,
                to_size_t (gBlockNum st + 1))
      | [] => Blocked
      end
  end.

(** The pull callback.  Returns [rd] and the new state. *)
Definition tar_read `{pixz_h} (st : reader) : outcome (Z * reader) :=
  '(ib, q, num) ← acquire st;
  let space := to_size_t (gBlockInSize st - insize ib) in
  let space := if (space >? CHUNKSIZE)%Z then CHUNKSIZE else space in
  '(data, buf, rest) ← fread (input ib) (insize ib) space (gInFile st);
  let rd := Z.of_nat (length data) in
  let ib' := set_block ib (seq ib) (to_size_t (insize ib + rd)) buf in
  let full := (insize ib' =? gBlockInSize st)%Z in
  Done (rd,
        {| gBlockInSize := gBlockInSize st;
           gBlockOutSize := gBlockOutSize st;
           gNumEncodeThreads := gNumEncodeThreads st;
           gReadQ := q;
           gEncodeQ := if full then gEncodeQ st ++ [MSG_BLOCK ib']
                       else gEncodeQ st;
           gWriteQ := gWriteQ st;
           gReadBlock := if full then None else Some ib';
           gBlockNum := num;
           gTotalRead := (gTotalRead st + rd)%Z;
           gInFile := rest;
           files := files st |}).

Definition register (off : Z) (nm : option (list byte)) (st : reader)
  : reader :=
  {| gBlockInSize := gBlockInSize st;
     gBlockOutSize := gBlockOutSize st;
     gNumEncodeThreads := gNumEncodeThreads st;
     gReadQ := gReadQ st; gEncodeQ := gEncodeQ st; gWriteQ := gWriteQ st;
     gReadBlock := gReadBlock st; gBlockNum := gBlockNum st;
     gTotalRead := gTotalRead st; gInFile := gInFile st;
     files := FileIndex.add_file off nm (files st) |}.

(** What the tar parser does between its creation and end-of-archive, seen
    from the reader: it pulls bytes and it reports headers.  The pathname
    reported with a header is a string, never NULL. *)
Inductive tar_event :=
| Pull
| Header (position : Z) (pathname : list byte).

(** The header loop of [read_thread], driven by the parser's events. *)
Fixpoint parse `{pixz_h} (evs : list tar_event) (st : reader)
  : outcome reader :=
  match evs with
  | [] => Done st
  | Pull :: evs' => r ← tar_read st; parse evs' (snd r)
  | Header pos nm :: evs' => parse evs' (register pos (Some nm) st)
  end.

(** The last block, if there is one: to the encode queue when it holds
    data, back to the free queue otherwise. *)
Definition last_block (st : reader) : list io_block_t * list msg :=
  match gReadBlock st with
  | Some ib =>
      if (insize ib =? 0)%Z
      then (gReadQ st ++ [ib], gEncodeQ st)
      else (gReadQ st, gEncodeQ st ++ [MSG_BLOCK ib])
  | None => (gReadQ st, gEncodeQ st)
  end.

(** [read_thread] from end-of-archive on. *)
Definition finish (st : reader) : reader :=
  let st1 := register (gTotalRead st) None st in
  let '(rq, eq) := last_block st1 in
  {| gBlockInSize := gBlockInSize st1;
     gBlockOutSize := gBlockOutSize st1;
     gNumEncodeThreads := gNumEncodeThreads st1;
     gReadQ := rq;
     gEncodeQ := eq ++ repeat MSG_STOP (Z.to_nat (gNumEncodeThreads st1));
     gWriteQ := gWriteQ st1 ++ [MSG_STOP];
     gReadBlock := None;
     gBlockNum := gBlockNum st1;
     gTotalRead := gTotalRead st1;
     gInFile := [];
     files := files st1 |}.

Definition read_thread `{pixz_h} (evs : list tar_event) (st : reader)
  : outcome reader :=
  st' ← parse evs st; Done (finish st').

(** The blocks a queue log holds. *)
Definition blocks_of (q : list msg) : list io_block_t :=
  flat_map (fun m => match m with MSG_BLOCK ib => [ib] | MSG_STOP => [] end) q.

(** The block [tar_read] is about to fill, as [acquire] yields it. *)
Definition current_block (st : reader) : option io_block_t :=
  match acquire st with
  | Done (ib, _, _) => Some ib
  | _ => None
  end.

(** The registration calls that the header loop makes. *)
Definition headers (evs : list tar_event) : list FileIndex.call :=
  flat_map (fun ev => match ev with
                      | Pull => []
                      | Header pos nm => [(pos, Some nm)]
                      end) evs.

Definition is_sentinel (e : FileIndex.entry) : bool :=
  match fst e with None => true | Some _ => false end.

(** The sentinel law in the words of the specification: exactly one entry
    has a NULL name, it is the last one, and its offset is [total]. *)
Definition sentinel_law (total : Z) (es : list FileIndex.entry) : Prop :=
  length (List.filter is_sentinel es) = 1 /\
  last es = Some (None, total).

(** A message that is not an empty block. *)
Definition holds_data (m : msg) : Prop :=
  match m with
  | MSG_BLOCK ib => (0 < insize ib)%Z
  | MSG_STOP => True
  end.

Definition STOPs (st : reader) : list msg :=
  repeat MSG_STOP (Z.to_nat (gNumEncodeThreads st)).

(** The invariant of the reader's buffers. *)
Definition inv (st : reader) : Prop :=
  (0 < gBlockInSize st < SIZE_MAX_plus_1)%Z /\
  (forall ib, gReadBlock st = Some ib ->
     (0 <= insize ib < gBlockInSize st)%Z /\
     Z.of_nat (length (input ib)) = gBlockInSize st) /\
  (forall ib, In ib (gReadQ st) ->
     Z.of_nat (length (input ib)) = gBlockInSize st).

End Reader.

(** ** The writer (write.c, main loop and write_blocks) *)

Module Writer.

(** [next_seq] and [ibs] are the locals [seq] and [ibs] of [main];
    [gReadQ] logs the blocks handed back to the free queue. *)
Record writer := {
  next_seq : Z;
  ibs : list io_block_t;
  gOutFile : list byte;
  gIndex : list (Z * Z);
  gReadQ : list io_block_t
}.

Definition start : writer :=
  {| next_seq := 0; ibs := []; gOutFile := []; gIndex := []; gReadQ := [] |}.

(** The scan [for (ib = *ibs; ib; ib = ib->next)]: the first block with
    the wanted [seq], and the list with that block unlinked. *)
Fixpoint find_block (sq : Z) (l : list io_block_t)
  : option (io_block_t * list io_block_t) :=
  match l with
  | [] => None
  | ib :: rest =>
      if (seq ib =? sq)%Z then Some (ib, rest)
      else match find_block sq rest with
           | Some (found, rest') => Some (found, ib :: rest')
           | None => None
           end
  end.

Lemma find_block_length sq l ib rest :
  find_block sq l = Some (ib, rest) -> length rest < length l.
Proof.
  revert ib rest. induction l as [| a l IH]; intros ib rest; simpl.
  - discriminate.
  - destruct (seq a =? sq)%Z.
    + intros [= <- <-]. lia.
    + destruct (find_block sq l) as [[found rest'] |]; [| discriminate].
      intros [= <- <-]. simpl. specialize (IH _ _ eq_refl). lia.
Qed.

(** What the writer does with the block it found. *)
Definition emit `{liblzma} (ib : io_block_t) (rest : list io_block_t)
  (st : writer) : outcome writer :=
  f ← fwrite (output ib) (outsize ib) (gOutFile st);
  Done {| next_seq := to_size_t (next_seq st + 1);
          ibs := rest;
          gOutFile := f;
          gIndex := gIndex st ++
            [(lzma_block_unpadded_size (block ib),
              uncompressed_size (block ib))];
          gReadQ := gReadQ st ++ [ib] |}.

Equations? write_blocks `{liblzma} (st : writer) : outcome writer
  by wf (length (ibs st)) lt :=
  write_blocks st with inspect (find_block (next_seq st) (ibs st)) := {
    | exist _ (Some (ib, rest)) Hfind with inspect (emit ib rest st) := {
        | exist _ (Done st') Hemit => write_blocks st'
        | exist _ Died _ => Died
        | exist _ Fault _ => Fault
        | exist _ Blocked _ => Blocked
        | exist _ OutOfFuel _ => OutOfFuel }
    | exist _ None _ => Done st }.
Proof.
  unfold emit in Hemit.
  destruct (fwrite (output ib) (outsize ib) (gOutFile st)); try discriminate.
  injection Hemit as <-. simpl. eapply find_block_length. eassumption.
Qed.

(** One turn of the main loop on a block popped from the write queue. *)
Definition receive `{liblzma} (ib : io_block_t) (st : writer)
  : outcome writer :=
  write_blocks {| next_seq := next_seq st; ibs := ib :: ibs st;
                  gOutFile := gOutFile st; gIndex := gIndex st;
                  gReadQ := gReadQ st |}.

(** The main loop over the blocks in their order of arrival. *)
Fixpoint main_loop `{liblzma} (arrivals : list io_block_t) (st : writer)
  : outcome writer :=
  match arrivals with
  | [] => Done st
  | ib :: rest => st' ← receive ib st; main_loop rest st'
  end.

(** The bytes of a block as they go to the output file. *)
Definition block_bytes (ib : io_block_t) : list byte :=
  take (Z.to_nat (outsize ib)) (output ib).

Definition index_record `{liblzma} (ib : io_block_t) : Z * Z :=
  (lzma_block_unpadded_size (block ib), uncompressed_size (block ib)).

(** A block as an encoder leaves it: some output, inside its buffer. *)
Definition encoded (ib : io_block_t) : Prop :=
  (0 < outsize ib <= Z.of_nat (length (output ib)))%Z.

(** What has been written so far, read off the blocks handed back in
    their order: their [seq] count up from 0 to [next_seq], the output
    file is their bytes and the stream index their size pairs. *)
Definition wrote `{liblzma} (st : writer) : Prop :=
  map seq (gReadQ st) = seqZ 0 (next_seq st) /\
  next_seq st = Z.of_nat (length (gReadQ st)) /\
  gOutFile st = concat (map block_bytes (gReadQ st)) /\
  gIndex st = map index_record (gReadQ st).

(** No pending block is the next one. *)
Definition drained (st : writer) : Prop :=
  Forall (fun ib => seq ib <> next_seq st) (ibs st).

End Writer.

(** ** The file-index block (write.c, write_file_index and helpers) *)

Module IndexWriter.

(** What happens to the staging buffer, in order: [Fill p] after a
    [memcpy] left the position at [p], [Flush a p] when
    [write_file_index_buf] is entered with action [a] and position [p]. *)
Inductive event :=
| Fill (pos : Z)
| Flush (action : lzma_action) (pos : Z).

(** The globals of the file-index writer.  [delivered] and [events] are
    ghost fields: the bytes [lzma_code] has taken from [next_in] since the
    block encoder was set up, and the history of the staging buffer. *)
Record state `{liblzma} := {
  gFileIndexBuf : list byte;
  gFileIndexBufPos : Z;
  gStream : lzma_coder;
  gOutFile : list byte;
  gIndex : list (Z * Z);
  delivered : list byte;
  events : list event
}.

Definition is_stream_end (r : lzma_ret) : bool :=
  match r with LZMA_STREAM_END => true | _ => false end.

Definition is_finish (a : lzma_action) : bool :=
  match a with LZMA_FINISH => true | LZMA_RUN => false end.

Definition is_nil (l : list byte) : bool :=
  match l with [] => true | _ => false end.

(** The loop of [write_file_index_buf].  [avail] is the slice of
    [avail_in] bytes at [next_in]; consuming [n] bytes drops them from the
    slice.  A coder never takes more than it is offered. *)
Fixpoint code_loop `{pixz_h} `{liblzma} (fuel : nat) (action : lzma_action)
  (err : lzma_ret) (avail : list byte) (c : lzma_coder)
  (out dl : list byte) : outcome (lzma_coder * list byte * list byte) :=
  if negb (is_stream_end err) && (is_finish action || negb (is_nil avail))
  then
    match fuel with
    | O => OutOfFuel
    | S k =>
        let r := lzma_code c action avail CHUNKSIZE in
        match ret r with
        | LZMA_ERROR => Died
        | e =>
            out' ← (if is_nil (produced r) then Done out
                    else fwrite (produced r)
                           (Z.of_nat (length (produced r))) out);
            code_loop k action e (drop (consumed r) avail) (next_coder r)
              out' (dl ++ take (consumed r) avail)
        end
    end
  else Done (c, out, dl).

Definition write_file_index_buf `{pixz_h} `{liblzma} (fuel : nat)
  (action : lzma_action) (st : state) : outcome state :=
  if (gFileIndexBufPos st <=? Z.of_nat (length (gFileIndexBuf st)))%Z then
    '(c, out, dl) ←
      code_loop fuel action LZMA_OK
        (take (Z.to_nat (gFileIndexBufPos st)) (gFileIndexBuf st))
        (gStream st) (gOutFile st) (delivered st);
    Done {| gFileIndexBuf := gFileIndexBuf st;
            gFileIndexBufPos := 0;
            gStream := c;
            gOutFile := out;
            gIndex := gIndex st;
            delivered := dl;
            events := events st ++ [Flush action (gFileIndexBufPos st)] |}
  else Fault.

Definition set_buf `{liblzma} (buf : list byte) (pos : Z) (ev : list event)
  (st : state) : state :=
  {| gFileIndexBuf := buf; gFileIndexBufPos := pos;
     gStream := gStream st; gOutFile := gOutFile st; gIndex := gIndex st;
     delivered := delivered st; events := events st ++ ev |}.

(** The loop of [write_file_index_bytes], from [bufpos] on. *)
Fixpoint write_file_index_bytes_from `{pixz_h} `{liblzma} (fuel : nat)
  (size : Z) (buf : list byte) (bufpos : Z) (st : state) : outcome state :=
  if (bufpos <? size)%Z then
    match fuel with
    | O => OutOfFuel
    | S k =>
        let len := to_size_t (size - bufpos) in
        let space := to_size_t (CHUNKSIZE - gFileIndexBufPos st) in
        let len := if (len >? space)%Z then space else len in
        b ← memcpy (gFileIndexBuf st) (gFileIndexBufPos st) buf bufpos len;
        let pos := to_size_t (gFileIndexBufPos st + len) in
        let st1 := set_buf b pos [Fill pos] st in
        st2 ← (if (pos =? CHUNKSIZE)%Z
               then st' ← write_file_index_buf k LZMA_RUN st1;
                    Done (set_buf (gFileIndexBuf st') 0 [] st')
               else Done st1);
        write_file_index_bytes_from k size buf (to_size_t (bufpos + len)) st2
    end
  else Done st.

Definition write_file_index_bytes `{pixz_h} `{liblzma} (fuel : nat)
  (size : Z) (buf : list byte) (st : state) : outcome state :=
  write_file_index_bytes_from fuel size buf 0 st.

(** Modelled from the spec: [xle64enc], which pixz.h declares and the
    sources at hand do not define; it stores the 64-bit value as 8 bytes,
    least significant first. *)
Definition xle64enc (v : Z) : list byte :=
  map (fun i => byte_of_Z (Z.shiftr (to_size_t v) (8 * Z.of_nat i)))
      (List.seq 0 8).

(** The value that 8 little-endian bytes denote. *)
Definition le64dec (bs : list byte) : Z :=
  fold_right (fun b acc => (byte_val b + 256 * acc)%Z) 0%Z bs.

(** The body of the loop over the chain. *)
Fixpoint write_entries `{pixz_h} `{liblzma} (fuel : nat)
  (fs : list FileIndex.file_index_t) (st : state) : outcome state :=
  match fs with
  | [] => Done st
  | f :: rest =>
      let name := match FileIndex.name f with Some n => n | None => [] end in
      let len := Z.of_nat (strlen name) in
      st1 ← write_file_index_bytes fuel (to_size_t (len + 1))
              (with_nul name) st;
      st2 ← write_file_index_bytes fuel 8 (xle64enc (FileIndex.offset f)) st1;
      write_entries fuel rest st2
  end.

Definition write_file_index `{pixz_h} `{liblzma} (fuel : nat)
  (fs : list FileIndex.file_index_t) (st : state) : outcome state :=
  out ← fwrite block_header (Z.of_nat (length block_header)) (gOutFile st);
  let st0 :=
    {| gFileIndexBuf := gFileIndexBuf st;
       gFileIndexBufPos := gFileIndexBufPos st;
       gStream := lzma_block_encoder;
       gOutFile := out;
       gIndex := gIndex st;
       delivered := [];
       events := events st |} in
  st1 ← write_entries fuel fs st0;
  st2 ← write_file_index_buf fuel LZMA_FINISH st1;
  let b := coder_block (gStream st2) in
  Done {| gFileIndexBuf := gFileIndexBuf st2;
          gFileIndexBufPos := gFileIndexBufPos st2;
          gStream := gStream st2;
          gOutFile := gOutFile st2;
          gIndex := gIndex st2 ++
                    [(lzma_block_unpadded_size b, uncompressed_size b)];
          delivered := delivered st2;
          events := events st2 |}.

(** The globals before the file index is written: a zeroed staging buffer
    of CHUNKSIZE bytes at position 0. *)
Definition start `{pixz_h} `{liblzma} (out : list byte) (idx : list (Z * Z))
  : state :=
  {| gFileIndexBuf := repeat x00 (Z.to_nat CHUNKSIZE);
     gFileIndexBufPos := 0;
     gStream := lzma_block_encoder;
     gOutFile := out;
     gIndex := idx;
     delivered := [];
     events := [] |}.

(** A sequence of writes followed by the final flush. *)
Fixpoint write_all `{pixz_h} `{liblzma} (fuel : nat)
  (arrays : list (list byte)) (st : state) : outcome state :=
  match arrays with
  | [] => write_file_index_buf fuel LZMA_FINISH st
  | a :: rest =>
      st' ← write_file_index_bytes fuel (Z.of_nat (length a)) a st;
      write_all fuel rest st'
  end.

(** The record of one entry, in the words of the specification: the name
    bytes, one NUL byte, the offset as 8 bytes little-endian. *)
Definition record_of (f : FileIndex.file_index_t) : list byte :=
  match FileIndex.name f with Some n => c_str n | None => [] end
  ++ [x00] ++ xle64enc (FileIndex.offset f).

Definition payload (fs : list FileIndex.file_index_t) : list byte :=
  flat_map record_of fs.

(** The discipline of the staging buffer as an automaton over the events:
    the state tells whether the buffer is full.  A fill leaves a position
    in 1..CHUNKSIZE and needs a buffer that is not full; a RUN flush needs
    a full buffer, a FINISH flush one that is not full. *)
Definition step `{pixz_h} (full : bool) (e : event) : option bool :=
  match e with
  | Fill p =>
      if negb full && (0 <? p)%Z && (p <=? CHUNKSIZE)%Z
      then Some (p =? CHUNKSIZE)%Z else None
  | Flush LZMA_RUN p =>
      if full && (p =? CHUNKSIZE)%Z then Some false else None
  | Flush LZMA_FINISH p =>
      if negb full && (0 <=? p)%Z && (p <? CHUNKSIZE)%Z
      then Some false else None
  end.

Fixpoint run `{pixz_h} (full : bool) (t : list event) : option bool :=
  match t with
  | [] => Some full
  | e :: t' =>
      match step full e with
      | Some full' => run full' t'
      | None => None
      end
  end.

(** The history is disciplined and ends with a buffer that is not full. *)
Definition disciplined `{pixz_h} (t : list event) : Prop :=
  run false t = Some false.

(** The bytes staged and not yet flushed. *)
Definition pending `{liblzma} (st : state) : list byte :=
  take (Z.to_nat (gFileIndexBufPos st)) (gFileIndexBuf st).

(** The staging buffer between two calls. *)
Definition ready `{pixz_h} `{liblzma} (st : state) : Prop :=
  Z.of_nat (length (gFileIndexBuf st)) = CHUNKSIZE /\
  (0 <= gFileIndexBufPos st < CHUNKSIZE)%Z /\
  disciplined (events st).

(** The contract of [lzma_code] that the writer relies on; [work] bounds
    the calls still needed for the input offered. *)
Record codec_contract `{liblzma} (work : lzma_coder -> nat -> nat) : Prop := {
  header_present : block_header <> [];
  no_error : forall c a i o, ret (lzma_code c a i o) <> LZMA_ERROR;
  within_input : forall c a i o, consumed (lzma_code c a i o) <= length i;
  end_takes_all : forall c a i o,
    ret (lzma_code c a i o) = LZMA_STREAM_END ->
    consumed (lzma_code c a i o) = length i;
  progress : forall c a i o,
    a = LZMA_FINISH \/ i <> [] ->
    ret (lzma_code c a i o) = LZMA_OK ->
    work (next_coder (lzma_code c a i o))
         (length i - consumed (lzma_code c a i o))
    < work c (length i)
}.

(** [f] returns [a] whenever it is given enough fuel. *)
Definition returns {A : Type} (f : nat -> outcome A) (a : A) : Prop :=
  exists n, forall fuel, n <= fuel -> f fuel = Done a.

(** What the coder itself went through, from [c] to [c']: calls of
    [lzma_code], one after another, each with CHUNKSIZE bytes of room at
    [next_out]; [taken] is what the calls consumed of the input they were
    offered and [made] what they stored at [next_out], both in order. *)
Inductive coded `{pixz_h} `{liblzma}
  : lzma_coder -> list byte -> list byte -> lzma_coder -> Prop :=
| coded_none (c : lzma_coder) : coded c [] [] c
| coded_call (c c1 : lzma_coder) (taken made : list byte)
    (action : lzma_action) (avail : list byte) :
    coded c taken made c1 ->
    coded c
      (taken ++ take (consumed (lzma_code c1 action avail CHUNKSIZE)) avail)
      (made ++ produced (lzma_code c1 action avail CHUNKSIZE))
      (next_coder (lzma_code c1 action avail CHUNKSIZE)).

(** The coder was run to the end of the stream: the last of the calls had
    the action FINISH and returned LZMA_STREAM_END. *)
Definition finished `{pixz_h} `{liblzma} (c : lzma_coder)
  (taken made : list byte) (c' : lzma_coder) : Prop :=
  exists c1 taken1 made1 avail,
    coded c taken1 made1 c1 /\
    ret (lzma_code c1 LZMA_FINISH avail CHUNKSIZE) = LZMA_STREAM_END /\
    taken
    = taken1 ++ take (consumed (lzma_code c1 LZMA_FINISH avail CHUNKSIZE))
                  avail /\
    made = made1 ++ produced (lzma_code c1 LZMA_FINISH avail CHUNKSIZE) /\
    c' = next_coder (lzma_code c1 LZMA_FINISH avail CHUNKSIZE).

(** The coder and the output file of [st] against those of an earlier
    state: the coder has gone on from where it was, and what it made is
    what the file has grown by. *)
Definition tracks `{pixz_h} `{liblzma} (st0 st : state) : Prop :=
  exists taken made,
    coded (gStream st0) taken made (gStream st) /\
    delivered st = delivered st0 ++ taken /\
    gOutFile st = gOutFile st0 ++ made.

End IndexWriter.

(** ** The lister (list.c, main) *)

Module Lister.

#[local] Open Scope string_scope.

Inductive input_file := Stdin | File (path : string).

(** The collaborators from the rest of the program and from libc, as far
    as [main] depends on them: whether [fopen] succeeds, the blocks that
    [decode_index] finds in the stream index, and what [read_file_index]
    and [dump_file_index] make of the input. *)
Class env := {
  fopen : string -> bool;
  decode_index : input_file -> outcome (list (Z * Z));
  read_file_index : input_file -> bool;
  dump_file_index : input_file -> string
}.

(** What [getopt(argc, argv, "t")] does over its successive calls: the
    option characters it returns before -1, [optind] at that point, and
    the array [argv] as it leaves it (an implementation may move the
    operands behind the options). *)
Record getopt_run := {
  options : list byte;
  optind : Z;
  permuted : list string
}.

Fixpoint spaces (n : nat) : string :=
  match n with
  | O => ""
  | S k => String " "%char (spaces k)
  end.

Definition decimal (v : Z) : string :=
  NilEmpty.string_of_uint (N.to_uint (Z.to_N v)).

(** The conversion ["%9ju"]: decimal digits, padded on the left with
    blanks to a width of at least 9. *)
Definition fmt_9ju (v : Z) : string :=
  let d := decimal v in
  spaces (9 - String.length d) ++ d.

(** [printf("%9ju / %9ju\n", (uintmax_t)unpadded_size,
    (uintmax_t)uncompressed_size)]. *)
Definition print_block (b : Z * Z) : string :=
  fmt_9ju (to_size_t (fst b)) ++ " / " ++ fmt_9ju (to_size_t (snd b))
  ++ String "010"%char "".

(** The option loop: [tar] after it, unless an option is unknown. *)
Fixpoint option_loop (tar : bool) (chs : list byte) : outcome bool :=
  match chs with
  | [] => Done tar
  | ch :: rest =>
      if Byte.eqb ch "t"%byte then option_loop false rest else Died
  end.

(** [main]; returns the input that was read and what went to stdout.
    [argv] is the array as the program gets it; after the option loop
    [main] reads the array as [getopt] has left it. *)
Definition main `{env} (argc : Z) (argv : list string) (g : getopt_run)
  : outcome (input_file * string) :=
  tar ← option_loop true (options g);
  let argc' := (argc - (optind g - 1))%Z in
  let argv' := drop (Z.to_nat (optind g - 1)) (permuted g) in
  gInFile ←
    (if (argc' =? 1)%Z then Done Stdin
     else if (argc' =? 2)%Z then
       let path := nth 1 argv' "" in
       if fopen path then Done (File path) else Died
     else Died);
  blocks ← decode_index gInFile;
  let out := String.concat "" (map print_block blocks) in
  if tar && read_file_index gInFile
  then Done (gInFile, out ++ String "010"%char "" ++ dump_file_index gInFile)
  else Done (gInFile, out).


(** The number of operands left after the options. *)
Definition operands (argc : Z) (g : getopt_run) : Z := (argc - optind g)%Z.

(** A string is [s] right-aligned in [w] columns: blanks, then [s], with
    no blank more than the width asks for. *)
Definition right_aligned (w : nat) (s field : string) : Prop :=
  exists k, field = spaces k ++ s /\
            String.length field = Nat.max w (String.length s).

(** The numeral [s], read as a decimal number, is [v]. *)
Definition reads_as (s : string) (v : Z) : Prop :=
  option_map (fun d => Z.of_N (N.of_uint d)) (NilEmpty.uint_of_string s)
  = Some v.

(** [s] is the decimal numeral of [v]: digits that read as [v], at least
    one, and no zero in front of another digit. *)
Definition is_numeral (s : string) (v : Z) : Prop :=
  reads_as s v /\ s <> "" /\
  forall rest, s = String "0"%char rest -> rest = "".

(** The line of one block, in the words of the specification: the two
    sizes as decimal numerals, each right-aligned in 9 columns, with
    [" / "] between them. *)
Definition is_block_line (b : Z * Z) (line : string) : Prop :=
  exists dl dr l r,
    is_numeral dl (to_size_t (fst b)) /\
    is_numeral dr (to_size_t (snd b)) /\
    right_aligned 9 dl l /\
    right_aligned 9 dr r /\
    line = l ++ " / " ++ r ++ String "010"%char "".

End Lister.

(** ** Small instances on which the model runs *)

Module Small.

Definition h : pixz_h := {| CHUNKSIZE := 4 |}.

(** A coder that stores: it takes at most 3 bytes per call and keeps them;
    once FINISH finds no more input it hands out what it kept, at most
    [avail_out] bytes per call. *)
Definition store_code (c : list byte) (a : lzma_action) (i : list byte)
  (o : Z) : lzma_result (list byte) :=
  match i, a with
  | [], LZMA_RUN =>
      {| ret := LZMA_OK; consumed := 0; produced := []; next_coder := c |}
  | [], LZMA_FINISH =>
      let k := Z.to_nat (Z.max 1 o) in
      {| ret := if length c <=? k then LZMA_STREAM_END else LZMA_OK;
         consumed := 0; produced := take k c; next_coder := drop k c |}
  | _, _ =>
      {| ret := LZMA_OK; consumed := Nat.min 3 (length i); produced := [];
         next_coder := c ++ take 3 i |}
  end.

Definition store : liblzma :=
  {| lzma_coder := list byte;
     lzma_block_encoder := [];
     lzma_code := store_code;
     coder_block := fun c =>
       {| header_size := 12; compressed_size := 0; uncompressed_size := 0 |};
     block_header := repeat x00 12;
     lzma_block_unpadded_size := fun b => (header_size b + compressed_size b)%Z;
     lzma_block_buffer_bound := fun n => (n + 64)%Z |}.

Definition store_work (c : list byte) (avail : nat) : nat :=
  2 * avail + length c.

Definition bytes (s : string) : list byte := list_byte_of_string s.

(** A stream with two blocks and a file index, found in one file. *)
Definition lister_env : Lister.env :=
  {| Lister.fopen := fun p => String.eqb p "a.tpxz";
     Lister.decode_index := fun _ => Done [(100, 4096); (1234567890, 7)]%Z;
     Lister.read_file_index := fun _ => true;
     Lister.dump_file_index := fun _ => "foo"%string |}.

(** A pool for one encoder with blocks of 4 bytes, and a ten-byte input. *)
Definition pool : Setup.pool := @Setup.main_setup store 2 1.

Definition reader0 : Reader.reader :=
  Reader.start pool (bytes "0123456789").

(** An archive whose last member is a fragment. *)
Definition trailing_fragment : list Reader.tar_event :=
  [Reader.Pull; Reader.Header 0 (bytes "._foo"); Reader.Pull].

(** An encoded block with sequence number [sq] and output [o]. *)
Definition encoded_block (sq : Z) (o : string) : io_block_t :=
  {| seq := sq;
     block := {| header_size := 12; compressed_size := sq + 1;
                 uncompressed_size := 4 |};
     input := []; output := bytes o; insize := 4;
     outsize := Z.of_nat (String.length o) |}.

(** Four blocks as three encoders may deliver them. *)
Definition arrivals : list io_block_t :=
  [encoded_block 2 "cc"; encoded_block 0 "a"; encoded_block 3 "dddd";
   encoded_block 1 "bbb"].

(** An archive with one plain member. *)
Definition one_member : list Reader.tar_event :=
  [Reader.Pull; Reader.Header 0 (bytes "hello.txt"); Reader.Pull;
   Reader.Pull; Reader.Pull].

End Small.

(** ** The order of the offsets in the file index *)

Module FileIndexOrder.
Import FileIndex.

(** The offsets of the index, and the offset remembered for a run of
    fragments, stay below [o]. *)
Definition bounded_by (o : Z) (g : globals) : Prop :=
  Forall (fun e => (snd e < o)%Z) (entries g) /\
  (gMultiHeader g = true -> (gMultiHeaderStart g < o)%Z).

(** The offsets of the index increase, and the offset remembered for a run
    of fragments lies above them. *)
Definition ascending (g : globals) : Prop :=
  StronglySorted Z.lt (map snd (entries g)) /\
  (gMultiHeader g = true ->
   Forall (fun e => (snd e < gMultiHeaderStart g)%Z) (entries g)).

End FileIndexOrder.

(** ** The reader among the other threads *)

Module ReaderRun.
Import Reader.

(** What happens to the reader's globals, in order: the parser pulls
    bytes or reports a header, or the writer hands a block back to the
    free queue ([queue_push(gReadQ, MSG_BLOCK, ib)] in [write_blocks]). *)
Inductive event :=
| Parser (ev : tar_event)
| Recycle (ib : io_block_t).

Definition recycle (ib : io_block_t) (st : reader) : reader :=
  {| gBlockInSize := gBlockInSize st;
     gBlockOutSize := gBlockOutSize st;
     gNumEncodeThreads := gNumEncodeThreads st;
     gReadQ := gReadQ st ++ [ib];
     gEncodeQ := gEncodeQ st; gWriteQ := gWriteQ st;
     gReadBlock := gReadBlock st; gBlockNum := gBlockNum st;
     gTotalRead := gTotalRead st; gInFile := gInFile st;
     files := files st |}.

(** The header loop of [read_thread] while blocks come back. *)
Fixpoint run `{pixz_h} (evs : list event) (st : reader) : outcome reader :=
  match evs with
  | [] => Done st
  | Parser Pull :: evs' => r ← tar_read st; run evs' (snd r)
  | Parser (Header pos nm) :: evs' => run evs' (register pos (Some nm) st)
  | Recycle ib :: evs' => run evs' (recycle ib st)
  end.

Definition read_thread `{pixz_h} (evs : list event) (st : reader)
  : outcome reader :=
  st' ← run evs st; Done (finish st').

(** The bytes a block holds: [input[0..insize)]. *)
Definition block_data (ib : io_block_t) : list byte :=
  take (Z.to_nat (insize ib)) (input ib).

(** The blocks taken from the free queue so far, in the order in which
    they were taken: those posted, then the current one. *)
Definition acquired (st : reader) : list io_block_t :=
  blocks_of (gEncodeQ st)
  ++ match gReadBlock st with Some ib => [ib] | None => [] end.

(** The blocks that the writer hands back during the run. *)
Definition recycled (evs : list event) : list io_block_t :=
  flat_map (fun e => match e with Recycle ib => [ib] | Parser _ => [] end) evs.

(** The buffers of a block have the sizes chosen at start-up. *)
Definition sized (bin bout : Z) (ib : io_block_t) : Prop :=
  Z.of_nat (length (input ib)) = bin /\ Z.of_nat (length (output ib)) = bout.

(** The blocks taken hold the bytes read, in order, and carry the sequence
    numbers from 0 on; those posted are full; no STOP is posted yet. *)
Definition splits (tar : list byte) (st : reader) : Prop :=
  concat (map block_data (acquired st)) ++ gInFile st = tar /\
  gTotalRead st = Z.of_nat (length (concat (map block_data (acquired st)))) /\
  map seq (acquired st) = seqZ 0 (Z.of_nat (length (acquired st))) /\
  gBlockNum st = Z.of_nat (length (acquired st)) /\
  Forall (fun ib => insize ib = gBlockInSize st /\
                    Z.of_nat (length (input ib)) = gBlockInSize st)
         (blocks_of (gEncodeQ st)) /\
  gEncodeQ st = map MSG_BLOCK (blocks_of (gEncodeQ st)).

(** The free queue has room for the bytes not yet read. *)
Definition roomy (st : reader) : Prop :=
  (Z.of_nat (length (gInFile st))
   < match gReadBlock st with
     | Some ib => gBlockInSize st - insize ib
     | None => 0
     end + gBlockInSize st * Z.of_nat (length (gReadQ st)))%Z.

End ReaderRun.

(** ** The encoder threads (write.c, encode_thread and block_init) *)

Module Encoder.

(** [LZMA_VLI_UNKNOWN] is [UINT64_MAX]. *)
Definition LZMA_VLI_UNKNOWN : Z := (SIZE_MAX_plus_1 - 1)%Z.

(** The single-shot part of the codec.  The fields [version], [check] and
    [filters] of a block descriptor get the same constants in every call
    of [block_init]; they are left to the codec. *)
Class block_codec := {
  (** [lzma_block_header_size(block)]: the return code and the
      [header_size] stored in the descriptor *)
  lzma_block_header_size : lzma_block -> lzma_ret * Z;
  (** [lzma_block_buffer_encode(block, NULL, in, in_size, out, &out_pos,
      out_size)] entered with [out_pos = 0], on the bytes [in[0..in_size)]
      and with room for [out_size] bytes: the return code, the descriptor
      afterwards and the bytes stored from [out[0]] on *)
  lzma_block_buffer_encode : lzma_block -> list byte -> Z
                             -> lzma_ret * lzma_block * list byte
}.

Definition block_init `{block_codec} (b : lzma_block) : outcome lzma_block :=
  let b1 := {| header_size := header_size b;
               compressed_size := LZMA_VLI_UNKNOWN;
               uncompressed_size := LZMA_VLI_UNKNOWN |} in
  match lzma_block_header_size b1 with
  | (LZMA_OK, hs) =>
      Done {| header_size := hs;
              compressed_size := compressed_size b1;
              uncompressed_size := uncompressed_size b1 |}
  | _ => Died
  end.

(** The body of the loop of [encode_thread] between the pop and the push.
    Reading [input] beyond its end or storing beyond the end of [output]
    is undefined behaviour. *)
Definition encode `{block_codec} (gBlockOutSize : Z) (ib : io_block_t)
  : outcome io_block_t :=
  blk ← block_init (block ib);
  if (insize ib <=? Z.of_nat (length (input ib)))%Z then
    let '(r, blk', bytes) :=
      lzma_block_buffer_encode blk (take (Z.to_nat (insize ib)) (input ib))
        gBlockOutSize in
    if length bytes <=? length (output ib) then
      match r with
      | LZMA_OK =>
          Done {| seq := seq ib; block := blk'; input := input ib;
                  output := bytes ++ drop (length bytes) (output ib);
                  insize := insize ib;
                  outsize := Z.of_nat (length bytes) |}
      | _ => Died
      end
    else Fault
  else Fault.

(** Where an encoder thread stands: before [queue_pop], before
    [queue_push] with the block it has encoded, or after its loop.  The
    encoding touches nothing shared and is taken in one step with the
    pop. *)
Inductive thread :=
| Popping
| Pushing (ib : io_block_t)
| Exited.

Record pool := {
  gEncodeQ : list msg;
  gWriteQ : list msg;
  threads : list thread
}.

(** The encoders right after their creation. *)
Definition start (n : nat) : pool :=
  {| gEncodeQ := []; gWriteQ := []; threads := repeat Popping n |}.

(** What happens to the two queues, in order: the reader pushes a message
    to the encode queue, or the thread with the given number takes its
    next step. *)
Inductive event :=
| Push (m : msg)
| Turn (i : nat).

(** Modelled from the spec: [queue_pop] and [queue_push], which the
    sources at hand do not define; a queue is first-in first-out, a pop
    from an empty queue waits and a push never fails. *)
Definition step `{block_codec} (gBlockOutSize : Z) (e : event) (s : pool)
  : outcome pool :=
  match e with
  | Push m =>
      Done {| gEncodeQ := gEncodeQ s ++ [m]; gWriteQ := gWriteQ s;
              threads := threads s |}
  | Turn i =>
      match threads s !! i with
      | Some Popping =>
          match gEncodeQ s with
          | [] => Done s
          | MSG_STOP :: q =>
              Done {| gEncodeQ := q; gWriteQ := gWriteQ s;
                      threads := <[i := Exited]> (threads s) |}
          | MSG_BLOCK ib :: q =>
              ib' ← encode gBlockOutSize ib;
              Done {| gEncodeQ := q; gWriteQ := gWriteQ s;
                      threads := <[i := Pushing ib']> (threads s) |}
          end
      | Some (Pushing ib) =>
          Done {| gEncodeQ := gEncodeQ s;
                  gWriteQ := gWriteQ s ++ [MSG_BLOCK ib];
                  threads := <[i := Popping]> (threads s) |}
      | Some Exited | None => Done s
      end
  end.

Fixpoint run `{block_codec} (gBlockOutSize : Z) (evs : list event) (s : pool)
  : outcome pool :=
  match evs with
  | [] => Done s
  | e :: evs' => s' ← step gBlockOutSize e s; run gBlockOutSize evs' s'
  end.

(** The messages that the reader pushes during a schedule. *)
Definition pushes (evs : list event) : list msg :=
  flat_map (fun e => match e with Push m => [m] | Turn _ => [] end) evs.

(** The blocks that the threads hold. *)
Definition holding (ts : list thread) : list io_block_t :=
  flat_map (fun t => match t with Pushing ib => [ib] | _ => [] end) ts.

Definition is_exited (t : thread) : bool :=
  match t with Exited => true | _ => false end.

Definition is_stop (m : msg) : bool :=
  match m with MSG_STOP => true | MSG_BLOCK _ => false end.

(** The codec meets its bound: on a descriptor as [block_init] prepares
    it and on at most [bin] bytes it succeeds and stores at least one and
    at most [bout] bytes. *)
Record buffer_contract `{block_codec} (bin bout : Z) : Prop := {
  header_size_ok : forall b, fst (lzma_block_header_size b) = LZMA_OK;
  buffer_encode_ok : forall b d,
    (Z.of_nat (length d) <= bin)%Z ->
    fst (fst (lzma_block_buffer_encode b d bout)) = LZMA_OK /\
    (0 < Z.of_nat (length (snd (lzma_block_buffer_encode b d bout)))
       <= bout)%Z
}.

(** A block whose buffers suit the codec: [insize] bytes are there to be
    read, at most [bin], and [output] has room for [bout] bytes. *)
Definition fits (bin bout : Z) (ib : io_block_t) : Prop :=
  (0 <= insize ib <= Z.of_nat (length (input ib)))%Z /\
  (insize ib <= bin)%Z /\
  (bout <= Z.of_nat (length (output ib)))%Z.

(** What the encoders have popped and what became of it. *)
Definition accounts `{block_codec} (gBlockOutSize : Z) (n : nat)
  (pushed : list msg) (s : pool) : Prop :=
  exists popped outs,
    pushed = popped ++ gEncodeQ s /\
    Forall2 (fun ib ib' => encode gBlockOutSize ib = Done ib')
            (Reader.blocks_of popped) outs /\
    Reader.blocks_of (gWriteQ s) ++ holding (threads s) ≡ₚ outs /\
    gWriteQ s = map MSG_BLOCK (Reader.blocks_of (gWriteQ s)) /\
    length (List.filter is_stop popped)
    = length (List.filter is_exited (threads s)) /\
    length (threads s) = n.

(** What is left to do: two steps for a block in the queue, one for a
    block held, one for the exit of a thread. *)
Definition todo (s : pool) : nat :=
  2 * length (Reader.blocks_of (gEncodeQ s)) + length (holding (threads s))
  + length (List.filter (fun t => negb (is_exited t)) (threads s)).

End Encoder.

(** ** The main loop on the write queue (write.c, main) *)

Module WriterQueue.
Import Writer.

(** The loop [while (true)] of [main]: it pops a message from the write
    queue, leaves at STOP and else drains the pending list; on an empty
    queue [queue_pop] waits. *)
Fixpoint main_loop `{liblzma} (q : list msg) (st : writer) : outcome writer :=
  match q with
  | [] => Blocked
  | MSG_STOP :: _ => Done st
  | MSG_BLOCK ib :: q' => st' ← receive ib st; main_loop q' st'
  end.

End WriterQueue.

(** ** The three stages together *)

Module Pipeline.

(** The output buffers of the reader's blocks have the size chosen at
    start-up. *)
Definition outputs_sized (st : Reader.reader) : Prop :=
  let ok ib := Z.of_nat (length (output ib)) = Reader.gBlockOutSize st in
  Forall ok (Reader.gReadQ st) /\
  (forall ib, Reader.gReadBlock st = Some ib -> ok ib) /\
  Forall ok (Reader.blocks_of (Reader.gEncodeQ st)).

End Pipeline.

(** ** The stream edges, the stream index and [main] (write.c) *)

Module Main.

(** From lzma.h. *)
Definition LZMA_STREAM_HEADER_SIZE : Z := 12.

(** The part of the codec that frames the stream.  The fields [version]
    and [check] of the stream flags are the same constants in every call;
    only [backward_size] varies. *)
Class liblzma_stream `{liblzma} := {
  (** [lzma_stream_header_encode(&flags, buf)]: the return code and the
      bytes stored from [buf[0]] on *)
  lzma_stream_header_encode : Z -> lzma_ret * list byte;
  lzma_stream_footer_encode : Z -> lzma_ret * list byte;
  lzma_index_size : list (Z * Z) -> Z;
  (** [lzma_index_encoder(&gStream, gIndex)]: the return code and the
      coder set up *)
  lzma_index_encoder : list (Z * Z) -> lzma_ret * lzma_coder
}.

(** [stream_edge]; storing beyond the 12 bytes of [buf] is undefined
    behaviour. *)
Definition stream_edge `{liblzma_stream} (backward_size : Z)
  (gOutFile : list byte) : outcome (list byte) :=
  let buf := Setup.malloc LZMA_STREAM_HEADER_SIZE in
  let '(r, bytes) :=
    if (backward_size =? Encoder.LZMA_VLI_UNKNOWN)%Z
    then lzma_stream_header_encode backward_size
    else lzma_stream_footer_encode backward_size in
  if length bytes <=? length buf then
    match r with
    | LZMA_OK =>
        fwrite (bytes ++ drop (length bytes) buf) LZMA_STREAM_HEADER_SIZE
          gOutFile
    | _ => Died
    end
  else Fault.

(** The loop of [encode_index].  [avail] is what the stream was left with
    at [next_in]; the loop never refills it. *)
Fixpoint index_loop `{pixz_h} `{liblzma} (fuel : nat) (err : lzma_ret)
  (avail : list byte) (c : lzma_coder) (out : list byte)
  : outcome (list byte) :=
  if IndexWriter.is_stream_end err then Done out
  else
    match fuel with
    | O => OutOfFuel
    | S k =>
        let r := lzma_code c LZMA_RUN avail CHUNKSIZE in
        match ret r with
        | LZMA_ERROR => Died
        | e =>
            out' ← (if IndexWriter.is_nil (produced r) then Done out
                    else fwrite (produced r)
                           (Z.of_nat (length (produced r))) out);
            index_loop k e (drop (consumed r) avail) (next_coder r) out'
        end
    end.

Definition encode_index `{pixz_h} `{liblzma_stream} (fuel : nat)
  (gIndex : list (Z * Z)) (avail : list byte) (gOutFile : list byte)
  : outcome (list byte) :=
  match lzma_index_encoder gIndex with
  | (LZMA_OK, c) => index_loop fuel LZMA_OK avail c gOutFile
  | _ => Died
  end.

(** [main] from the stream header on: the header, the loop on the write
    queue, the file-index block, the stream index and the footer.
    [gWriteQ] is what arrives on the write queue, [gFileIndex] the chain
    that the reader has built by the time it posts its STOP, and [avail]
    what the last flush of the file index leaves at [next_in].  Returns
    the output file. *)
Definition main `{pixz_h} `{liblzma_stream} (fuel : nat) (gWriteQ : list msg)
  (gFileIndex : list FileIndex.file_index_t) (avail : list byte)
  : outcome (list byte) :=
  out0 ← stream_edge Encoder.LZMA_VLI_UNKNOWN [];
  w ← WriterQueue.main_loop gWriteQ
         {| Writer.next_seq := 0; Writer.ibs := [];
            Writer.gOutFile := out0; Writer.gIndex := [];
            Writer.gReadQ := [] |};
  st ← IndexWriter.write_file_index fuel gFileIndex
         (IndexWriter.start (Writer.gOutFile w) (Writer.gIndex w));
  out1 ← encode_index fuel (IndexWriter.gIndex st) avail
           (IndexWriter.gOutFile st);
  stream_edge (lzma_index_size (IndexWriter.gIndex st)) out1.

(** The contract of the framing functions that [main] relies on: the
    edges are encoded in 12 bytes, the index encoder is set up, and an
    index coder ends after finitely many calls; [index_coder] tells the
    coders that [lzma_index_encoder] sets up and their successors, and
    [index_work] bounds the calls still needed. *)
Record stream_contract `{liblzma_stream} (index_coder : lzma_coder -> Prop)
  (index_work : lzma_coder -> nat) : Prop := {
  header_ok : forall b,
    fst (lzma_stream_header_encode b) = LZMA_OK /\
    Z.of_nat (length (snd (lzma_stream_header_encode b)))
    = LZMA_STREAM_HEADER_SIZE;
  footer_ok : forall b,
    fst (lzma_stream_footer_encode b) = LZMA_OK /\
    Z.of_nat (length (snd (lzma_stream_footer_encode b)))
    = LZMA_STREAM_HEADER_SIZE;
  index_size_known : forall idx,
    lzma_index_size idx <> Encoder.LZMA_VLI_UNKNOWN;
  index_encoder_ok : forall idx,
    fst (lzma_index_encoder idx) = LZMA_OK /\
    index_coder (snd (lzma_index_encoder idx));
  index_no_error : forall c i o,
    index_coder c -> ret (lzma_code c LZMA_RUN i o) <> LZMA_ERROR;
  index_progress : forall c i o,
    index_coder c ->
    ret (lzma_code c LZMA_RUN i o) = LZMA_OK ->
    index_coder (next_coder (lzma_code c LZMA_RUN i o)) /\
    index_work (next_coder (lzma_code c LZMA_RUN i o)) < index_work c
}.

(** The same routine behind something already written: [pre] in front of
    the output file and [ipre] in front of the stream index. *)
Definition behind_writer (pre : list byte) (ipre : list (Z * Z))
  (w : Writer.writer) : Writer.writer :=
  {| Writer.next_seq := Writer.next_seq w; Writer.ibs := Writer.ibs w;
     Writer.gOutFile := pre ++ Writer.gOutFile w;
     Writer.gIndex := ipre ++ Writer.gIndex w;
     Writer.gReadQ := Writer.gReadQ w |}.

Definition behind `{liblzma} (pre : list byte) (ipre : list (Z * Z))
  (st : IndexWriter.state) : IndexWriter.state :=
  {| IndexWriter.gFileIndexBuf := IndexWriter.gFileIndexBuf st;
     IndexWriter.gFileIndexBufPos := IndexWriter.gFileIndexBufPos st;
     IndexWriter.gStream := IndexWriter.gStream st;
     IndexWriter.gOutFile := pre ++ IndexWriter.gOutFile st;
     IndexWriter.gIndex := ipre ++ IndexWriter.gIndex st;
     IndexWriter.delivered := IndexWriter.delivered st;
     IndexWriter.events := IndexWriter.events st |}.

(** The outcome with its result changed by [f]. *)
Definition outcome_map {A B : Type} (f : A -> B) (o : outcome A) : outcome B :=
  x ← o; Done (f x).

End Main.

(** ** The program as a whole: one reader, the encoders and [main] *)

Module System.

(** The globals of the three stages.  [rd] holds the reader's globals,
    its [gReadQ] being the free queue and its [gEncodeQ] the log of what
    it has pushed; [enc] holds the encode queue and the threads, its
    [gWriteQ] being the log of what the threads have pushed; [wr] holds
    the locals of the loop of [main].  [popped] counts the messages that
    [main] has popped from the write queue. *)
Record state := {
  rd : Reader.reader;
  enc : Encoder.pool;
  wr : Writer.writer;
  popped : nat;
  reading : bool;     (* the reader is in its header loop *)
  joined : bool;      (* the reader has joined the encoders *)
  stopped : bool      (* [main] has popped STOP *)
}.

Definition start (p : Setup.pool) (tar : list byte) : state :=
  {| rd := Reader.start p tar;
     enc := Encoder.start (Z.to_nat (Setup.gNumEncodeThreads p));
     wr := Writer.start;
     popped := 0; reading := true; joined := false; stopped := false |}.

(** What one of the threads does next.  A pop together with the work on
    the message popped is one step: that work touches nothing shared
    before the next push. *)
Inductive event :=
| Read (ev : Reader.tar_event)  (* the parser pulls or reports a header *)
| EndOfArchive                  (* the parser reports end-of-archive *)
| Join                          (* the reader gets past [pthread_join] *)
| Turn (i : nat)                (* encoder [i] pops or pushes *)
| Pop.                          (* [main] pops from the write queue *)

(** The messages pushed since the log was [old] reach the encode queue. *)
Definition deliver (old new : list msg) (e : Encoder.pool) : Encoder.pool :=
  {| Encoder.gEncodeQ := Encoder.gEncodeQ e ++ drop (length old) new;
     Encoder.gWriteQ := Encoder.gWriteQ e;
     Encoder.threads := Encoder.threads e |}.

(** The blocks handed back since the log was [old] reach the free queue. *)
Definition give_back (old new : list io_block_t) (r : Reader.reader)
  : Reader.reader :=
  fold_left (fun r ib => ReaderRun.recycle ib r) (drop (length old) new) r.

Definition with_reader (r : Reader.reader) (on : bool) (s : state) : state :=
  {| rd := r;
     enc := deliver (Reader.gEncodeQ (rd s)) (Reader.gEncodeQ r) (enc s);
     wr := wr s; popped := popped s; reading := on;
     joined := joined s; stopped := stopped s |}.

(** The write queue: what the threads have pushed and, once the reader
    has joined them, its STOP. *)
Definition write_queue (s : state) : list msg :=
  Encoder.gWriteQ (enc s) ++ (if joined s then [MSG_STOP] else []).

Definition step `{pixz_h} `{liblzma} `{Encoder.block_codec} (e : event)
  (s : state) : outcome state :=
  match e with
  | Read ev =>
      if reading s then
        match ev with
        | Reader.Pull =>
            match Reader.tar_read (rd s) with
            | Blocked => Done s
            | o => r ← o; Done (with_reader (snd r) true s)
            end
        | Reader.Header pos nm =>
            Done (with_reader (Reader.register pos (Some nm) (rd s)) true s)
        end
      else Done s
  | EndOfArchive =>
      if reading s then Done (with_reader (Reader.finish (rd s)) false s)
      else Done s
  | Join =>
      if negb (reading s)
         && forallb Encoder.is_exited (Encoder.threads (enc s))
      then Done {| rd := rd s; enc := enc s; wr := wr s; popped := popped s;
                   reading := reading s; joined := true;
                   stopped := stopped s |}
      else Done s
  | Turn i =>
      e' ← Encoder.step (Reader.gBlockOutSize (rd s)) (Encoder.Turn i) (enc s);
      Done {| rd := rd s; enc := e'; wr := wr s; popped := popped s;
              reading := reading s; joined := joined s;
              stopped := stopped s |}
  | Pop =>
      if stopped s then Done s
      else
        match write_queue s !! popped s with
        | None => Done s
        | Some MSG_STOP =>
            Done {| rd := rd s; enc := enc s; wr := wr s;
                    popped := S (popped s); reading := reading s;
                    joined := joined s; stopped := true |}
        | Some (MSG_BLOCK ib) =>
            w ← Writer.receive ib (wr s);
            Done {| rd := give_back (Writer.gReadQ (wr s)) (Writer.gReadQ w)
                            (rd s);
                    enc := enc s; wr := w; popped := S (popped s);
                    reading := reading s; joined := joined s;
                    stopped := stopped s |}
        end
  end.

Fixpoint run `{pixz_h} `{liblzma} `{Encoder.block_codec} (evs : list event)
  (s : state) : outcome state :=
  match evs with
  | [] => Done s
  | e :: evs' => s' ← step e s; run evs' s'
  end.

(** The blocks of the pool, wherever they are. *)
Definition everywhere (s : state) : list io_block_t :=
  Reader.gReadQ (rd s)
  ++ match Reader.gReadBlock (rd s) with Some ib => [ib] | None => [] end
  ++ Reader.blocks_of (Encoder.gEncodeQ (enc s))
  ++ Encoder.holding (Encoder.threads (enc s))
  ++ Reader.blocks_of (drop (popped s) (Encoder.gWriteQ (enc s)))
  ++ Writer.ibs (wr s).

(** The steps of the tar parser, as against those of the threads. *)
Definition is_parser (e : event) : bool :=
  match e with
  | Read _ | EndOfArchive => true
  | Join | Turn _ | Pop => false
  end.

Definition parser_events (evs : list event) : list event :=
  List.filter is_parser evs.

(** A pull of the reader would not wait for a free block. *)
Definition can_pull `{pixz_h} (s : state) : bool :=
  match Reader.tar_read (rd s) with
  | Blocked => false
  | _ => true
  end.

(** The schedule runs through and never keeps the parser waiting: at each
    step of the parser, while the reader is in its header loop, a pull
    would return without waiting for a free block. *)
Fixpoint smooth `{pixz_h} `{liblzma} `{Encoder.block_codec}
  (evs : list event) (s : state) : bool :=
  match evs with
  | [] => true
  | e :: evs' =>
      (negb (is_parser e) || negb (reading s) || can_pull s)
      && match step e s with
         | Done s' => smooth evs' s'
         | _ => false
         end
  end.

(** The reader, once out of its header loop, holds no block. *)
Definition idle (s : state) : Prop :=
  reading s = false -> Reader.gReadBlock (rd s) = None.

(** What holds of the reader's globals at any time; [on] tells whether
    the reader is still in its header loop. *)
Definition reader_ok (p : Setup.pool) (tar : list byte) (on : bool)
  (r : Reader.reader) : Prop :=
  let B := Setup.gBlockInSize p in
  let O := Setup.gBlockOutSize p in
  Reader.gBlockInSize r = B /\ Reader.gBlockOutSize r = O /\
  Reader.gNumEncodeThreads r = Setup.gNumEncodeThreads p /\
  Pipeline.outputs_sized r /\
  Forall (fun ib => Z.of_nat (length (input ib)) = B) (Reader.gReadQ r) /\
  (if on then Reader.inv r /\ ReaderRun.splits tar r
   else exists blocks,
     Reader.gEncodeQ r
     = map MSG_BLOCK blocks
       ++ repeat MSG_STOP (Z.to_nat (Setup.gNumEncodeThreads p)) /\
     concat (map ReaderRun.block_data blocks)
     = take (Z.to_nat (Reader.gTotalRead r)) tar /\
     map seq blocks = seqZ 0 (Z.of_nat (length blocks))) /\
  Forall (fun ib => ReaderRun.sized B O ib /\ (0 <= insize ib <= B)%Z)
         (Reader.blocks_of (Reader.gEncodeQ r)) /\
  (Z.of_nat (length (Reader.blocks_of (Reader.gEncodeQ r)))
   <= Z.of_nat (length tar) + 1)%Z.

(** What holds of the three stages together at any time. *)
Definition consistent `{liblzma} `{Encoder.block_codec} (p : Setup.pool)
  (tar : list byte) (s : state) : Prop :=
  reader_ok p tar (reading s) (rd s) /\
  Encoder.accounts (Setup.gBlockOutSize p)
    (Z.to_nat (Setup.gNumEncodeThreads p)) (Reader.gEncodeQ (rd s)) (enc s) /\
  Writer.wrote (wr s) /\
  Forall Writer.encoded (Writer.ibs (wr s)) /\
  Writer.drained (wr s) /\
  Writer.gReadQ (wr s) ++ Writer.ibs (wr s)
    ≡ₚ Reader.blocks_of (take (popped s) (Encoder.gWriteQ (enc s))) /\
  (joined s = true ->
   reading s = false /\
   Forall (fun t => t = Encoder.Exited) (Encoder.threads (enc s)) /\
   Encoder.gEncodeQ (enc s) = []) /\
  (if stopped s
   then joined s = true /\ popped s = S (length (Encoder.gWriteQ (enc s)))
   else popped s <= length (Encoder.gWriteQ (enc s))).

End System.

(** ** Small runs of the three stages *)

Module SmallRun.

(** The parser pulls four times and reports a header; after the second
    pull the writer hands a block back. *)
Definition recycling : list ReaderRun.event :=
  [ReaderRun.Parser Reader.Pull; ReaderRun.Parser Reader.Pull;
   ReaderRun.Recycle (Setup.new_block 4 68);
   ReaderRun.Parser (Reader.Header 0 (Small.bytes "hello.txt"));
   ReaderRun.Parser Reader.Pull; ReaderRun.Parser Reader.Pull].

(** A codec that stores: one zero byte, then the input. *)
Definition codec : Encoder.block_codec :=
  {| Encoder.lzma_block_header_size := fun _ => (LZMA_OK, 12%Z);
     Encoder.lzma_block_buffer_encode := fun b d _ =>
       (LZMA_OK,
        {| header_size := header_size b;
           compressed_size := Z.of_nat (length d) + 1;
           uncompressed_size := Z.of_nat (length d) |},
        x00 :: d) |}.

(** A block as the reader posts it, with buffers of 4 and 68 bytes. *)
Definition posted_block (sq : Z) (data : string) (n : Z) : io_block_t :=
  Reader.set_block (Setup.new_block 4 68) sq n (Small.bytes data).

Definition posted : list io_block_t :=
  [posted_block 0 "0123" 4; posted_block 1 "4567" 4; posted_block 2 "89__" 2].

(** Two threads; the second one is faster with its first block. *)
Definition schedule : list Encoder.event :=
  [Encoder.Push (MSG_BLOCK (posted_block 0 "0123" 4));
   Encoder.Push (MSG_BLOCK (posted_block 1 "4567" 4));
   Encoder.Turn 0; Encoder.Turn 1; Encoder.Turn 1;
   Encoder.Push (MSG_BLOCK (posted_block 2 "89__" 2));
   Encoder.Turn 0;
   Encoder.Push MSG_STOP; Encoder.Push MSG_STOP;
   Encoder.Turn 1; Encoder.Turn 0; Encoder.Turn 1; Encoder.Turn 1].

(** A pool for two encoders with blocks of 4 bytes. *)
Definition pool2 : Setup.pool := @Setup.main_setup Small.store 2 2.

(** The reader has pushed everything in [q]; then the two threads take
    turns so that the second block is pushed before the first one. *)
Definition late_turns (q : list msg) : list Encoder.event :=
  map Encoder.Push q ++ map Encoder.Turn [0; 1; 1; 1; 0; 1; 0; 1].

(** A codec with two kinds of coders: block coders that store as those
    of [Small.store] do, and index coders that hold the bytes of the
    encoded index, ignore their input and hand out at most [avail_out]
    bytes per call. *)
Definition framed_code (c : bool * list byte) (a : lzma_action)
  (i : list byte) (o : Z) : lzma_result (bool * list byte) :=
  if fst c then
    let k := Z.to_nat (Z.max 1 o) in
    {| ret := if length (snd c) <=? k then LZMA_STREAM_END else LZMA_OK;
       consumed := length i; produced := take k (snd c);
       next_coder := (true, drop k (snd c)) |}
  else
    let r := Small.store_code (snd c) a i o in
    {| ret := ret r; consumed := consumed r; produced := produced r;
       next_coder := (false, next_coder r) |}.

Definition framed : liblzma :=
  {| lzma_coder := bool * list byte;
     lzma_block_encoder := (false, []);
     lzma_code := framed_code;
     coder_block := fun c =>
       {| header_size := 12; compressed_size := 0; uncompressed_size := 0 |};
     block_header := repeat x00 12;
     lzma_block_unpadded_size := fun b => (header_size b + compressed_size b)%Z;
     lzma_block_buffer_bound := fun n => (n + 64)%Z |}.

Definition framed_work (c : bool * list byte) (avail : nat) : nat :=
  if fst c then length (snd c) else Small.store_work (snd c) avail.

Definition stream : @Main.liblzma_stream framed :=
  {| Main.lzma_stream_header_encode := fun _ =>
       (LZMA_OK, Small.bytes "HEADERheader");
     Main.lzma_stream_footer_encode := fun b =>
       (LZMA_OK, byte_of_Z b :: Small.bytes "FOOTERfoote");
     Main.lzma_index_size := fun idx => (4 * Z.of_nat (length idx) + 4)%Z;
     Main.lzma_index_encoder := fun idx =>
       (LZMA_OK,
        ((true,
          flat_map (fun r => [byte_of_Z (fst r); byte_of_Z (snd r)]) idx)
         : @lzma_coder framed)) |}.

(** The chain of an archive with two members and a fragment. *)
Definition chain : list FileIndex.file_index_t :=
  FileIndex.file_index
    (FileIndex.add_files
       [(0%Z, Some (Small.bytes "a"));
        (512%Z, Some (Small.bytes "._foo"));
        (1536%Z, Some (Small.bytes "foo"));
        (4096%Z, None)] FileIndex.init).

(** The set-up of [pool2] with no block allocated. *)
Definition no_pool : Setup.pool :=
  {| Setup.gBlockInSize := Setup.gBlockInSize pool2;
     Setup.gBlockOutSize := Setup.gBlockOutSize pool2;
     Setup.gNumEncodeThreads := 2;
     Setup.gReadQ := [] |}.

(** The three stages interleaved: the second block is encoded and popped
    by [main] before the first one, and the reader meets end-of-archive
    while the encoders are at work. *)
Definition interleaved : list System.event :=
  [System.Read Reader.Pull; System.Turn 0; System.Read Reader.Pull;
   System.Turn 1; System.Turn 1; System.Pop;
   System.Read (Reader.Header 0 (Small.bytes "hello.txt"));
   System.Read Reader.Pull; System.Read Reader.Pull; System.EndOfArchive;
   System.Turn 1; System.Turn 0; System.Pop; System.Turn 0; System.Turn 1;
   System.Turn 1; System.Join; System.Pop; System.Pop].

End SmallRun.

(* ================================================================== *)
(** * Part II: properties                                              *)
(* ================================================================== *)

(** ** Bytes and C strings *)

Lemma byte_eqb_refl (b : byte) : Byte.eqb b b = true.
Proof. now apply Byte.byte_dec_lb. Qed.

Lemma byte_eqb_true (a b : byte) : Byte.eqb a b = true <-> a = b.
Proof.
  split; [apply Byte.byte_dec_bl | intros ->; apply byte_eqb_refl].
Qed.

Lemma byte_eqb_false (a b : byte) : Byte.eqb a b = false <-> a <> b.
Proof.
  split; [apply Byte.eqb_false |].
  intros Hne. destruct (Byte.eqb a b) eqn:E; [| reflexivity].
  apply byte_eqb_true in E. contradiction.
Qed.

Lemma byte_val_inj (a b : byte) : byte_val a = byte_val b -> a = b.
Proof.
  unfold byte_val. intros Hv.
  assert (Hn : Byte.to_N a = Byte.to_N b) by lia.
  apply (f_equal Byte.of_N) in Hn. rewrite !Byte.of_to_N in Hn. congruence.
Qed.

Lemma strlen_le (s : list byte) : strlen s <= length s.
Proof.
  induction s as [| c s IH]; simpl; [lia |].
  destruct (Byte.eqb c x00); simpl; lia.
Qed.

Lemma c_str_length (s : list byte) : length (c_str s) = strlen s.
Proof.
  unfold c_str. rewrite length_take. pose proof (strlen_le s). lia.
Qed.

Lemma c_str_no_nul (s : list byte) : ~ In x00 (c_str s).
Proof.
  unfold c_str. induction s as [| c s IH]; simpl; [tauto |].
  destruct (Byte.eqb c x00) eqn:E; simpl; [tauto |].
  apply byte_eqb_false in E. intros [H | H]; [congruence | tauto].
Qed.

(** What follows the string value in memory is nothing or starts with NUL. *)
Lemma c_str_rest (s : list byte) :
  drop (strlen s) s = [] \/ exists tl, drop (strlen s) s = x00 :: tl.
Proof.
  induction s as [| c s IH]; simpl; [now left |].
  destruct (Byte.eqb c x00) eqn:E; simpl; [| exact IH].
  apply byte_eqb_true in E. subst c. right. now exists s.
Qed.

Lemma c_str_split (s : list byte) : s = c_str s ++ drop (strlen s) s.
Proof. unfold c_str. now rewrite take_drop. Qed.

Lemma c_str_id (s : list byte) : ~ In x00 s -> c_str s = s.
Proof.
  unfold c_str. induction s as [| c s IH]; simpl; [reflexivity |].
  intros Hn. destruct (Byte.eqb c x00) eqn:E.
  - apply byte_eqb_true in E. subst c. tauto.
  - simpl. f_equal. apply IH. tauto.
Qed.

Lemma c_str_idem (s : list byte) : c_str (c_str s) = c_str s.
Proof. apply c_str_id, c_str_no_nul. Qed.

(** ** The scan of is_multi_header finds the final component *)

Lemma component_start_le (s : list byte) (i : nat) : component_start s i <= i.
Proof.
  induction i as [| j IH]; simpl; [lia |].
  destruct (Byte.eqb (char_at s j) "/"); lia.
Qed.

Lemma component_start_app (s t : list byte) (i : nat) :
  i <= length s -> component_start (s ++ t) i = component_start s i.
Proof.
  induction i as [| j IH]; simpl; [reflexivity |].
  intros Hi. unfold char_at. rewrite app_nth1 by lia.
  rewrite IH by lia. reflexivity.
Qed.

Lemma final_component_snoc (s : list byte) (c : byte) :
  final_component (s ++ [c]) =
  if Byte.eqb c "/" then [] else final_component s ++ [c].
Proof. unfold final_component. now rewrite fold_left_app. Qed.

Lemma component_start_final (s : list byte) :
  drop (component_start s (length s)) s = final_component s.
Proof.
  induction s as [| c s IH] using rev_ind; [reflexivity |].
  rewrite length_app, Nat.add_comm. simpl.
  rewrite final_component_snoc.
  unfold char_at. rewrite app_nth2 by lia. rewrite Nat.sub_diag. simpl.
  destruct (Byte.eqb c "/").
  - replace (S (length s)) with (length (s ++ [c]))
      by (rewrite length_app; simpl; lia).
    apply drop_all.
  - rewrite component_start_app by lia.
    rewrite drop_app_le by apply component_start_le.
    now rewrite IH.
Qed.

Lemma final_component_is_final (s : list byte) :
  is_final_component s (final_component s).
Proof.
  induction s as [| c s IH] using rev_ind.
  - left. split; [intros [] | reflexivity].
  - rewrite final_component_snoc.
    destruct (Byte.eqb c "/") eqn:E.
    + apply byte_eqb_true in E. subst c. right. exists s.
      split; [reflexivity | intros []].
    + apply byte_eqb_false in E.
      destruct IH as [[Hno Heq] | [pre [Heq Hno]]].
      * left. rewrite Heq. split; [| reflexivity].
        rewrite in_app_iff. simpl. intros [H | [H | []]]; [tauto | congruence].
      * right. exists pre. split.
        -- rewrite Heq at 1. now rewrite <- app_assoc.
        -- rewrite in_app_iff. simpl.
           intros [H | [H | []]]; [tauto | congruence].
Qed.

Lemma final_component_no_slash (acc s : list byte) :
  ~ In "/" s ->
  fold_left (fun acc c => if Byte.eqb c "/" then [] else acc ++ [c]) s acc
  = acc ++ s.
Proof.
  revert acc. induction s as [| c s IH]; intros acc Hno; simpl.
  - now rewrite app_nil_r.
  - destruct (Byte.eqb c "/") eqn:E.
    + apply byte_eqb_true in E. subst c. simpl in Hno. tauto.
    + rewrite IH by (simpl in Hno; tauto). now rewrite <- app_assoc.
Qed.

Lemma is_final_component_unique (s t : list byte) :
  is_final_component s t -> t = final_component s.
Proof.
  intros [[Hno ->] | [pre [-> Hno]]]; unfold final_component.
  - now rewrite final_component_no_slash.
  - rewrite fold_left_app. simpl.
    now rewrite final_component_no_slash.
Qed.

Lemma strncmp_dot_underscore (s : list byte) :
  strncmp s ["."; "_"] 2 = 0%Z <-> begins_with_dot_underscore s.
Proof.
  unfold begins_with_dot_underscore. split.
  - destruct s as [| a [| b rest]]; simpl.
    + discriminate.
    + destruct (Byte.eqb a ".") eqn:Ea; simpl.
      * apply byte_eqb_true in Ea. subst a. simpl. discriminate.
      * intros H. apply byte_eqb_false in Ea. exfalso. apply Ea.
        apply byte_val_inj. lia.
    + destruct (Byte.eqb a ".") eqn:Ea; simpl.
      * apply byte_eqb_true in Ea. subst a. simpl.
        destruct (Byte.eqb b "_") eqn:Eb; simpl.
        -- apply byte_eqb_true in Eb. subst b. intros _. now exists rest.
        -- intros H. apply byte_eqb_false in Eb. exfalso. apply Eb.
           apply byte_val_inj. lia.
      * intros H. apply byte_eqb_false in Ea. exfalso. apply Ea.
        apply byte_val_inj. lia.
  - intros [rest ->]. reflexivity.
Qed.

Lemma is_multi_header_final (name : list byte) :
  is_multi_header name = true <->
  begins_with_dot_underscore (final_component (c_str name)).
Proof.
  unfold is_multi_header. rewrite Z.eqb_eq, strncmp_dot_underscore.
  assert (Hi : component_start name (strlen name)
               = component_start (c_str name) (length (c_str name))).
  { rewrite (c_str_split name) at 1.
    rewrite component_start_app by (rewrite c_str_length; lia).
    now rewrite c_str_length. }
  assert (Hd : drop (component_start name (strlen name)) name
               = final_component (c_str name) ++ drop (strlen name) name).
  { rewrite Hi. rewrite (c_str_split name) at 3.
    rewrite drop_app_le by apply component_start_le.
    now rewrite component_start_final. }
  rewrite Hd. clear Hi Hd.
  unfold begins_with_dot_underscore.
  destruct (c_str_rest name) as [-> | [tl ->]].
  - now rewrite app_nil_r.
  - destruct (final_component (c_str name)) as [| a [| b r]]; simpl.
    + split; intros [rest H]; discriminate.
    + split; intros [rest H]; discriminate.
    + split; intros [rest H]; injection H as -> -> _; eauto.
Qed.

Lemma is_multi_header_c_str (name : list byte) :
  is_multi_header (c_str name) = is_multi_header name.
Proof.
  apply eq_true_iff_eq. rewrite !is_multi_header_final.
  now rewrite c_str_idem.
Qed.

(** C5.  [is_multi_header] answers true exactly when the final path
    component of the name (the suffix after the last ['/'], or the whole
    name when there is none) begins with the two characters ["._"]. *)
Theorem is_multi_header_correct (name : list byte) :
  is_multi_header name = true <->
  exists t, is_final_component (c_str name) t /\ begins_with_dot_underscore t.
Proof.
  rewrite is_multi_header_final. split.
  - intros H. exists (final_component (c_str name)).
    split; [apply final_component_is_final | exact H].
  - intros [t [Ht Hb]]. apply is_final_component_unique in Ht. now subst t.
Qed.

(** ** The file index: the chain and its collapse rule *)

Module FileIndexFacts.
Import FileIndex.

Lemma chain_links (h : list file_index_t) :
  (forall i f, h !! i = Some f ->
     next f = if S i <? length h then Some (S i) else None) ->
  forall k i, i <= length h -> length h - i <= k ->
    chain k h (if i <? length h then Some i else None) = drop i h.
Proof.
  intros Hlinks k. induction k as [| k IH]; intros i Hi Hk.
  - assert (i = length h) by lia. subst i.
    rewrite Nat.ltb_irrefl. simpl. now rewrite drop_all.
  - destruct (i <? length h) eqn:E.
    + apply Nat.ltb_lt in E.
      destruct (lookup_lt_is_Some_2 h i E) as [f Hf].
      simpl. rewrite Hf. rewrite (Hlinks _ _ Hf).
      rewrite IH by lia. symmetry. now apply drop_S.
    + apply Nat.ltb_ge in E. assert (i = length h) by lia. subst i.
      simpl. now rewrite drop_all.
Qed.

Lemma file_index_heap (g : globals) : wf g -> file_index g = heap g.
Proof.
  intros (Hfirst & _ & Hlinks). unfold file_index. rewrite Hfirst.
  pose proof (chain_links (heap g) Hlinks (length (heap g)) 0) as Hc.
  destruct (length (heap g) =? 0) eqn:E.
  - apply Nat.eqb_eq in E. apply nil_length_inv in E. now rewrite E.
  - apply Nat.eqb_neq in E.
    assert (Hlt : (0 <? length (heap g)) = true) by (apply Nat.ltb_lt; lia).
    rewrite Hlt in Hc. rewrite Hc by lia. reflexivity.
Qed.

Lemma wf_init : wf init.
Proof.
  repeat split. intros i f Hf. simpl in Hf. now rewrite lookup_nil in Hf.
Qed.

Lemma wf_add_file (off : Z) (nm : option (list byte)) (g : globals) :
  wf g -> wf (add_file off nm g).
Proof.
  intros (Hfirst & Hlast & Hlinks). unfold add_file.
  destruct (match nm with Some n => is_multi_header n | None => false end).
  { now repeat split. }
  rewrite Hlast. destruct (length (heap g) =? 0) eqn:E0.
  - apply Nat.eqb_eq in E0. apply nil_length_inv in E0. rewrite E0.
    repeat split. simpl. intros [| i] f Hf; simpl in Hf; [| easy].
    injection Hf as <-. reflexivity.
  - apply Nat.eqb_neq in E0.
    assert (Hpos : 0 < length (heap g)) by lia.
    set (node := {| name := _; offset := _; next := None |}).
    assert (Hlen : length (alter (set_next (Some (length (heap g))))
                      (length (heap g) - 1) (heap g ++ [node]))
                   = S (length (heap g))).
    { rewrite length_alter, length_app. simpl. lia. }
    unfold wf. cbn [heap gFileIndex gLastFile]. rewrite Hlen.
    cbn [Nat.eqb].
    split; [exact Hfirst |]. split; [f_equal; lia |].
    intros i f Hf.
    destruct (decide (i = length (heap g) - 1)) as [-> | Hne].
    + rewrite list_lookup_alter_eq in Hf.
      rewrite lookup_app_l in Hf by lia.
      destruct (heap g !! (length (heap g) - 1)) as [f' |] eqn:Ef;
        [| discriminate].
      injection Hf as <-. simpl.
      replace (S (length (heap g) - 1)) with (length (heap g)) by lia.
      assert (E : (length (heap g) <? S (length (heap g))) = true)
        by (apply Nat.ltb_lt; lia).
      now rewrite E.
    + rewrite list_lookup_alter_ne in Hf by congruence.
      destruct (decide (i < length (heap g))) as [Hlt | Hge].
      * rewrite lookup_app_l in Hf by lia.
        rewrite (Hlinks _ _ Hf).
        assert (E1 : (S i <? length (heap g)) = true)
          by (apply Nat.ltb_lt; lia).
        assert (E2 : (S i <? S (length (heap g))) = true)
          by (apply Nat.ltb_lt; lia).
        now rewrite E1, E2.
      * rewrite lookup_app_r in Hf by lia.
        destruct (i - length (heap g)) as [| j] eqn:Ej; simpl in Hf;
          [| easy].
        injection Hf as <-. simpl.
        assert (E : (S i <? S (length (heap g))) = false)
          by (apply Nat.ltb_ge; lia).
        now rewrite E.
Qed.

Lemma wf_add_files (calls : list call) (g : globals) :
  wf g -> wf (add_files calls g).
Proof.
  revert g. induction calls as [| c calls IH]; intros g Hg; [exact Hg |].
  simpl. apply IH. now apply wf_add_file.
Qed.

Lemma map_alter_set_next (n : option nat) (i : nat) (h : list file_index_t) :
  map (fun f => (name f, offset f)) (alter (set_next n) i h)
  = map (fun f => (name f, offset f)) h.
Proof.
  revert i. induction h as [| f h IH]; intros [| i]; simpl; try reflexivity.
  f_equal. apply IH.
Qed.

(** A fragment leaves the chain alone and is remembered by its offset. *)
Lemma add_file_fragment (off : Z) (n : list byte) (g : globals) :
  is_multi_header n = true ->
  add_file off (Some n) g =
  {| heap := heap g; gFileIndex := gFileIndex g; gLastFile := gLastFile g;
     gMultiHeaderStart := if gMultiHeader g then gMultiHeaderStart g else off;
     gMultiHeader := true |}.
Proof. intros H. unfold add_file. now rewrite H. Qed.

(** Any other call appends one entry at the end of the chain. *)
Lemma add_file_entry (off : Z) (nm : option (list byte)) (g : globals) :
  wf g -> is_fragment (off, nm) = false ->
  entries (add_file off nm g) =
  entries g ++
  [(match nm with Some n => Some (xstrdup n) | None => None end,
    if gMultiHeader g then gMultiHeaderStart g else off)]
  /\ gMultiHeader (add_file off nm g) = false.
Proof.
  intros Hg Hfrag. unfold entries.
  rewrite (file_index_heap _ (wf_add_file off nm g Hg)).
  rewrite (file_index_heap _ Hg).
  unfold is_fragment in Hfrag. simpl in Hfrag.
  unfold add_file. rewrite Hfrag.
  destruct (gLastFile g); simpl.
  - split; [| reflexivity]. rewrite map_alter_set_next, map_app.
    reflexivity.
  - split; [| reflexivity]. now rewrite map_app.
Qed.

Lemma add_files_app (c1 c2 : list call) (g : globals) :
  add_files (c1 ++ c2) g = add_files c2 (add_files c1 g).
Proof. unfold add_files. apply fold_left_app. Qed.

Lemma gMultiHeader_add_file (off : Z) (nm : option (list byte)) (g : globals) :
  gMultiHeader (add_file off nm g) = is_fragment (off, nm).
Proof.
  unfold add_file, is_fragment. simpl.
  destruct (match nm with Some n => is_multi_header n | None => false end);
    [reflexivity |].
  now destruct (gLastFile g).
Qed.

Lemma run_can_start_flag (before : list call) :
  run_can_start before -> gMultiHeader (add_files before init) = false.
Proof.
  unfold run_can_start. destruct (last before) as [c |] eqn:El.
  - apply last_Some in El. destruct El as [b ->]. intros Hc.
    rewrite add_files_app. simpl. destruct c as [off nm].
    now rewrite gMultiHeader_add_file.
  - apply last_None in El. now subst before.
Qed.

(** A run of fragments only sets the two multi-header globals. *)
Lemma add_files_fragments (run : list call) (g : globals) :
  Forall (fun c => is_fragment c = true) run -> run <> [] ->
  add_files run g =
  {| heap := heap g; gFileIndex := gFileIndex g; gLastFile := gLastFile g;
     gMultiHeaderStart :=
       if gMultiHeader g then gMultiHeaderStart g
       else match run with c :: _ => fst c | [] => 0%Z end;
     gMultiHeader := true |}.
Proof.
  intros Hall Hne. destruct run as [| [o1 n1] run]; [congruence |]. clear Hne.
  apply Forall_cons in Hall as [H1 Hall].
  assert (Hstep : forall r g', Forall (fun c => is_fragment c = true) r ->
            gMultiHeader g' = true -> add_files r g' = g').
  { clear. intros r. induction r as [| [o n] r IH]; intros g' Hall Hg';
      [reflexivity |].
    apply Forall_cons in Hall as [H1 Hall]. simpl.
    unfold is_fragment in H1. simpl in H1. destruct n as [n |]; [| easy].
    rewrite add_file_fragment by exact H1. rewrite Hg'.
    rewrite <- Hg'. destruct g'. simpl in *. now apply IH. }
  simpl. unfold is_fragment in H1. simpl in H1.
  destruct n1 as [n1 |]; [| easy].
  rewrite add_file_fragment by exact H1. now rewrite Hstep.
Qed.

Lemma entries_not_fragment (calls : list call) (e : entry) (n : list byte) :
  In e (entries (add_files calls init)) -> fst e = Some n ->
  c_str n = n /\ is_multi_header n = false.
Proof.
  revert e n. induction calls as [| [off nm] calls IH] using rev_ind;
    intros e n Hin Hn.
  - destruct Hin.
  - rewrite add_files_app in Hin. simpl in Hin.
    destruct (is_fragment (off, nm)) eqn:Ef.
    + unfold is_fragment in Ef. simpl in Ef. destruct nm as [m |]; [| easy].
      rewrite add_file_fragment in Hin by exact Ef.
      apply (IH e n); [| exact Hn].
      unfold entries, file_index in *. exact Hin.
    + destruct (add_file_entry off nm (add_files calls init)
                  (wf_add_files _ _ wf_init) Ef) as [He _].
      rewrite He in Hin. apply in_app_or in Hin as [Hin | [<- | []]].
      * now apply (IH e n).
      * simpl in Hn. destruct nm as [m |]; [| discriminate].
        injection Hn as <-. unfold xstrdup. split; [apply c_str_idem |].
        rewrite is_multi_header_c_str. exact Ef.
Qed.

End FileIndexFacts.

(** C1.  A maximal run of one or more multi-header fragments followed by
    a call that is not a fragment adds exactly one entry to the file
    index: its offset is the offset passed with the first fragment of the
    run and its name is the name of the last call.  And whatever the
    calls, no entry of the file index has a pathname whose final component
    begins with ["._"]. *)
Theorem add_file_collapses_fragment_runs
  (before run : list FileIndex.call) (off : Z) (nm : option (list byte)) :
  FileIndex.run_can_start before ->
  run <> [] ->
  Forall (fun c => FileIndex.is_fragment c = true) run ->
  FileIndex.is_fragment (off, nm) = false ->
  FileIndex.entries
    (FileIndex.add_files (before ++ run ++ [(off, nm)]) FileIndex.init)
  = FileIndex.entries (FileIndex.add_files before FileIndex.init)
    ++ [(match nm with Some n => Some (xstrdup n) | None => None end,
         fst (hd (off, nm) run))]
  /\ forall calls e n,
       In e (FileIndex.entries (FileIndex.add_files calls FileIndex.init)) ->
       fst e = Some n ->
       ~ exists t, is_final_component n t /\ begins_with_dot_underscore t.
Proof.
  intros Hstart Hne Hrun Hlast. split.
  - rewrite !FileIndexFacts.add_files_app.
    rewrite (FileIndexFacts.add_files_fragments run _ Hrun Hne).
    rewrite (FileIndexFacts.run_can_start_flag before Hstart).
    set (g := FileIndex.add_files before FileIndex.init).
    assert (Hg : FileIndex.wf g)
      by apply FileIndexFacts.wf_add_files, FileIndexFacts.wf_init.
    set (g' := {| FileIndex.heap := FileIndex.heap g |}).
    assert (Hg' : FileIndex.wf g') by exact Hg.
    simpl.
    destruct (FileIndexFacts.add_file_entry off nm g' Hg' Hlast) as [He _].
    rewrite He. unfold g'. simpl.
    destruct run as [| c run]; [congruence |]. reflexivity.
  - intros calls e n Hin Hn Hex.
    destruct (FileIndexFacts.entries_not_fragment calls e n Hin Hn)
      as [Hc Hm].
    apply not_true_iff_false in Hm. apply Hm.
    apply is_multi_header_final. rewrite Hc.
    destruct Hex as [t [Ht Hb]].
    apply is_final_component_unique in Ht. now subst t.
Qed.

(** A witness of C1: ["._foo"] and ["._bar"] before ["foo"]. *)
Lemma add_file_collapses_fragment_runs_witness :
  FileIndex.entries
    (FileIndex.add_files
       ([(0%Z, Some (Small.bytes "a"))]
        ++ [(512%Z, Some (Small.bytes "._foo"));
            (1024%Z, Some (Small.bytes "d/._bar"))]
        ++ [(1536%Z, Some (Small.bytes "foo"))]) FileIndex.init)
  = [(Some (Small.bytes "a"), 0%Z); (Some (Small.bytes "foo"), 512%Z)].
Proof.
  assert (H1 : FileIndex.run_can_start [(0%Z, Some (Small.bytes "a"))])
    by reflexivity.
  assert (H2 : [(512%Z, Some (Small.bytes "._foo"));
                (1024%Z, Some (Small.bytes "d/._bar"))] <> [])
    by discriminate.
  assert (H3 : Forall (fun c => FileIndex.is_fragment c = true)
                 [(512%Z, Some (Small.bytes "._foo"));
                  (1024%Z, Some (Small.bytes "d/._bar"))])
    by (repeat constructor).
  assert (H4 : FileIndex.is_fragment (1536%Z, Some (Small.bytes "foo"))
               = false) by reflexivity.
  destruct (add_file_collapses_fragment_runs _ _ _ _ H1 H2 H3 H4) as [H _].
  exact (eq_trans H eq_refl).
Defined.

(** ** The reader *)

Module ReaderFacts.
Import Reader.

Lemma to_size_t_id (z : Z) :
  (0 <= z < SIZE_MAX_plus_1)%Z -> to_size_t z = z.
Proof. intros Hz. unfold to_size_t. now apply Z.mod_small. Qed.

Lemma to_size_t_range (z : Z) : (0 <= to_size_t z < SIZE_MAX_plus_1)%Z.
Proof. unfold to_size_t. apply Z.mod_pos_bound. reflexivity. Qed.

(** What a call of [tar_read] that returns has done. *)
Lemma tar_read_done `{pixz_h} (st : reader) (rd : Z) (st' : reader) :
  tar_read st = Done (rd, st') ->
  exists ib q num data buf rest space,
    acquire st = Done (ib, q, num) /\
    space = (let s := to_size_t (gBlockInSize st - insize ib) in
             if (s >? CHUNKSIZE)%Z then CHUNKSIZE else s) /\
    fread (input ib) (insize ib) space (gInFile st) = Done (data, buf, rest) /\
    rd = Z.of_nat (length data) /\
    let ib' := set_block ib (seq ib) (to_size_t (insize ib + rd)) buf in
    let full := (insize ib' =? gBlockInSize st)%Z in
    st' = {| gBlockInSize := gBlockInSize st;
             gBlockOutSize := gBlockOutSize st;
             gNumEncodeThreads := gNumEncodeThreads st;
             gReadQ := q;
             gEncodeQ := if full then gEncodeQ st ++ [MSG_BLOCK ib']
                         else gEncodeQ st;
             gWriteQ := gWriteQ st;
             gReadBlock := if full then None else Some ib';
             gBlockNum := num;
             gTotalRead := (gTotalRead st + rd)%Z;
             gInFile := rest;
             files := files st |}.
Proof.
  unfold tar_read, mbind, outcome_bind.
  destruct (acquire st) as [[[ib q] num] | | | |]; try discriminate.
  destruct (fread _ _ _ _) as [[[data buf] rest] | | | |] eqn:Ef;
    try discriminate.
  intros [= <- <-]. exists ib, q, num, data, buf, rest. eexists.
  repeat split; try reflexivity. exact Ef.
Qed.

Lemma tar_read_files `{pixz_h} (st : reader) (rd : Z) (st' : reader) :
  tar_read st = Done (rd, st') ->
  files st' = files st /\ gBlockInSize st' = gBlockInSize st /\
  gBlockOutSize st' = gBlockOutSize st /\
  gNumEncodeThreads st' = gNumEncodeThreads st.
Proof.
  intros Hd. apply tar_read_done in Hd.
  destruct Hd as (ib & q & num & data & buf & rest & space & _ & _ & _ & _ & ->).
  now repeat split.
Qed.

Lemma parse_files `{pixz_h} (evs : list tar_event) (st st' : reader) :
  parse evs st = Done st' ->
  files st' = FileIndex.add_files (headers evs) (files st).
Proof.
  revert st. induction evs as [| [| pos nm] evs IH]; intros st; simpl.
  - now intros [= <-].
  - unfold mbind, outcome_bind.
    destruct (tar_read st) as [[rd st1] | | | |] eqn:Et; try discriminate.
    intros Hp. rewrite (IH _ Hp). simpl.
    now destruct (tar_read_files _ _ _ Et) as [-> _].
  - intros Hp. rewrite (IH _ Hp). reflexivity.
Qed.

Lemma read_thread_done `{pixz_h} (evs : list tar_event) (st st' : reader) :
  read_thread evs st = Done st' ->
  exists st1, parse evs st = Done st1 /\ st' = finish st1.
Proof.
  unfold read_thread, mbind, outcome_bind.
  destruct (parse evs st) as [st1 | | | |]; try discriminate.
  intros [= <-]. now exists st1.
Qed.

Lemma finish_files (st : reader) :
  files (finish st) = FileIndex.add_file (gTotalRead st) None (files st) /\
  gTotalRead (finish st) = gTotalRead st.
Proof.
  unfold finish. destruct (last_block _) as [rq eq]. now split.
Qed.

(** Pathnames reported by the parser never yield a NULL entry. *)
Lemma headers_named (evs : list tar_event) (e : FileIndex.entry) :
  In e (FileIndex.entries
          (FileIndex.add_files (headers evs) FileIndex.init)) ->
  is_sentinel e = false.
Proof.
  revert e. induction evs as [| ev evs IH] using rev_ind; intros e Hin.
  - destruct Hin.
  - unfold headers in Hin. rewrite flat_map_app in Hin. simpl in Hin.
    rewrite app_nil_r in Hin. fold (headers evs) in Hin.
    destruct ev as [| pos nm].
    + rewrite app_nil_r in Hin. now apply IH.
    + rewrite FileIndexFacts.add_files_app in Hin. simpl in Hin.
      destruct (FileIndex.is_fragment (pos, Some nm)) eqn:Ef.
      * unfold FileIndex.is_fragment in Ef. simpl in Ef.
        rewrite FileIndexFacts.add_file_fragment in Hin by exact Ef.
        apply IH. exact Hin.
      * destruct (FileIndexFacts.add_file_entry pos (Some nm) _
                    (FileIndexFacts.wf_add_files (headers evs) _
                       FileIndexFacts.wf_init) Ef) as [He _].
        rewrite He in Hin. apply in_app_or in Hin as [Hin | [<- | []]].
        -- now apply IH.
        -- reflexivity.
Qed.

Lemma filter_none {A : Type} (p : A -> bool) (l : list A) :
  (forall x, In x l -> p x = false) -> List.filter p l = [].
Proof.
  induction l as [| a l IH]; intros Hall; simpl; [reflexivity |].
  rewrite (Hall a) by now left. apply IH. intros x Hx. apply Hall. now right.
Qed.

(** The index at end-of-archive: the entries of the headers, then the
    sentinel with the offset that [add_file] picks. *)
Lemma read_thread_entries `{pixz_h} (evs : list tar_event) (st st' : reader) :
  files st = FileIndex.init ->
  read_thread evs st = Done st' ->
  let g := FileIndex.add_files (headers evs) FileIndex.init in
  FileIndex.entries (files st') =
  FileIndex.entries g ++
  [(None, if FileIndex.gMultiHeader g then FileIndex.gMultiHeaderStart g
          else gTotalRead st')].
Proof.
  intros Hinit Hrun. apply read_thread_done in Hrun as (st1 & Hp & ->).
  destruct (finish_files st1) as [-> ->].
  rewrite (parse_files _ _ _ Hp), Hinit.
  destruct (FileIndexFacts.add_file_entry (gTotalRead st1) None
              (FileIndex.add_files (headers evs) FileIndex.init)) as [He _].
  - apply FileIndexFacts.wf_add_files, FileIndexFacts.wf_init.
  - reflexivity.
  - exact He.
Qed.

End ReaderFacts.

Module ReaderSteps.
Import Reader ReaderFacts.

Lemma acquire_block (st : reader) (ib : io_block_t)
  (q : list io_block_t) (num : Z) :
  inv st -> acquire st = Done (ib, q, num) ->
  (0 <= insize ib < gBlockInSize st)%Z /\
  Z.of_nat (length (input ib)) = gBlockInSize st /\
  (forall b, In b q -> In b (gReadQ st)) /\
  (gReadBlock st = None -> insize ib = 0%Z).
Proof.
  intros (HB & Hcur & Hfree). unfold acquire.
  destruct (gReadBlock st) as [cur |] eqn:Ec.
  - intros [= <- <- <-]. destruct (Hcur cur eq_refl) as [Hi Hl].
    repeat split; try lia; try tauto. discriminate.
  - destruct (gReadQ st) as [| b0 q0] eqn:Eq; [discriminate |].
    intros [= <- <- <-]. simpl.
    repeat split; try lia.
    + apply Hfree. now left.
    + intros b Hb. now right.
Qed.

Lemma take_length_take {A : Type} (n : nat) (l : list A) :
  take (length (take n l)) l = take n l.
Proof.
  rewrite length_take. destruct (decide (n <= length l)).
  - now rewrite Nat.min_l.
  - rewrite Nat.min_r by lia. rewrite !take_ge by lia. reflexivity.
Qed.

Lemma drop_length_take {A : Type} (n : nat) (l : list A) :
  drop (length (take n l)) l = drop n l.
Proof.
  rewrite length_take. destruct (decide (n <= length l)).
  - now rewrite Nat.min_l.
  - rewrite Nat.min_r by lia. rewrite !drop_ge by lia. reflexivity.
Qed.

(** One call of the pull callback, from a state that satisfies the
    invariant and has a block at hand: the call returns, and this is what
    it returns. *)
Lemma tar_read_runs `{pixz_h} (st : reader) (ib : io_block_t) :
  (0 < CHUNKSIZE < SIZE_MAX_plus_1)%Z ->
  inv st ->
  current_block st = Some ib ->
  let space := Z.min CHUNKSIZE (gBlockInSize st - insize ib) in
  let data := take (Z.to_nat space) (gInFile st) in
  let rd := Z.of_nat (length data) in
  let buf := take (Z.to_nat (insize ib)) (input ib) ++ data
             ++ drop (Z.to_nat (insize ib) + length data) (input ib) in
  let ib' := set_block ib (seq ib) (insize ib + rd)%Z buf in
  let full := (insize ib' =? gBlockInSize st)%Z in
  (0 <= insize ib < gBlockInSize st)%Z /\
  Z.of_nat (length (input ib)) = gBlockInSize st /\
  exists q num,
    (forall b, In b q -> In b (gReadQ st)) /\
    tar_read st =
    Done (rd,
      {| gBlockInSize := gBlockInSize st;
         gBlockOutSize := gBlockOutSize st;
         gNumEncodeThreads := gNumEncodeThreads st;
         gReadQ := q;
         gEncodeQ := if full then gEncodeQ st ++ [MSG_BLOCK ib']
                     else gEncodeQ st;
         gWriteQ := gWriteQ st;
         gReadBlock := if full then None else Some ib';
         gBlockNum := num;
         gTotalRead := (gTotalRead st + rd)%Z;
         gInFile := drop (Z.to_nat space) (gInFile st);
         files := files st |}).
Proof.
  intros HC Hinv Hcur space data rd buf ib' full.
  unfold current_block in Hcur.
  destruct (acquire st) as [[[ib0 q] num] | | | |] eqn:Ea; try discriminate.
  injection Hcur as ->.
  destruct (acquire_block _ _ _ _ Hinv Ea) as (Hi & Hl & Hq & _).
  pose proof Hinv as (HB & _ & _).
  split; [exact Hi |]. split; [exact Hl |].
  exists q, num. split; [exact Hq |].
  assert (Hrd : (0 <= rd <= space)%Z).
  { unfold rd, data. rewrite length_take. lia. }
  assert (Hspace : (let s := to_size_t (gBlockInSize st - insize ib) in
                    if (s >? CHUNKSIZE)%Z then CHUNKSIZE else s) = space).
  { cbv zeta. rewrite to_size_t_id by lia. unfold space.
    destruct (Z.gtb_spec (gBlockInSize st - insize ib) CHUNKSIZE); lia. }
  assert (Hread : fread (input ib) (insize ib) space (gInFile st)
                  = Done (data, buf, drop (Z.to_nat space) (gInFile st))).
  { unfold fread.
    assert (E : (insize ib + space <=? Z.of_nat (length (input ib)))%Z = true)
      by (apply Z.leb_le; unfold space; lia).
    now rewrite E. }
  unfold tar_read. rewrite Ea. cbn [mbind outcome_bind].
  cbv zeta in Hspace. rewrite Hspace, Hread. cbn [mbind outcome_bind].
  fold rd. rewrite (to_size_t_id (insize ib + rd)) by (unfold space in *; lia).
  reflexivity.
Qed.

(** The call keeps the invariant, and if it posts a block, the block is
    full. *)
Lemma tar_read_keeps `{pixz_h} (st st' : reader) (rd : Z) :
  (0 < CHUNKSIZE < SIZE_MAX_plus_1)%Z ->
  inv st ->
  tar_read st = Done (rd, st') ->
  inv st' /\
  (gEncodeQ st' = gEncodeQ st \/
   exists ib', gEncodeQ st' = gEncodeQ st ++ [MSG_BLOCK ib'] /\
               insize ib' = gBlockInSize st).
Proof.
  intros HC Hinv Hrun.
  assert (Hcur : exists ib, current_block st = Some ib).
  { unfold current_block. unfold tar_read, mbind, outcome_bind in Hrun.
    destruct (acquire st) as [[[ib q] num] | | | |]; try discriminate.
    now exists ib. }
  destruct Hcur as [ib Hcur].
  destruct (tar_read_runs st ib HC Hinv Hcur)
    as (Hi & Hl & q & num & Hq & Hrun').
  set (space := Z.min CHUNKSIZE (gBlockInSize st - insize ib)) in *.
  set (data := take (Z.to_nat space) (gInFile st)) in *.
  set (buf := take (Z.to_nat (insize ib)) (input ib) ++ data
              ++ drop (Z.to_nat (insize ib) + length data) (input ib)) in *.
  set (ib' := set_block ib (seq ib)
                (insize ib + Z.of_nat (length data))%Z buf) in *.
  rewrite Hrun in Hrun'. injection Hrun' as Hrd Hst. subst st'.
  pose proof Hinv as (HB & _ & Hfree).
  assert (Hlen : length data <= Z.to_nat (gBlockInSize st - insize ib)).
  { unfold data. rewrite length_take. unfold space. lia. }
  unfold inv. cbn [Reader.gBlockInSize gReadBlock Reader.gReadQ gEncodeQ].
  destruct (Z.eqb_spec (insize ib + Z.of_nat (length data))
              (gBlockInSize st)) as [Hfull | Hpart].
  - split; [| right; exists ib'; split; [reflexivity | exact Hfull]].
    split; [exact HB |]. split; [discriminate |].
    intros b Hb. apply Hfree. now apply Hq.
  - split; [| now left].
    split; [exact HB |]. split.
    + intros b [= <-]. cbn [ib' insize input set_block] in *.
      split; [lia |]. unfold buf.
      rewrite !length_app, length_take, length_drop. lia.
    + intros b Hb. apply Hfree. now apply Hq.
Qed.

(** Along the header loop the invariant is kept and every block posted
    to the encode queue holds data. *)
Lemma parse_keeps `{pixz_h} (evs : list tar_event) (st st' : reader) :
  (0 < CHUNKSIZE < SIZE_MAX_plus_1)%Z ->
  inv st -> Forall holds_data (gEncodeQ st) ->
  parse evs st = Done st' ->
  inv st' /\ Forall holds_data (gEncodeQ st') /\
  gBlockInSize st' = gBlockInSize st /\
  gBlockOutSize st' = gBlockOutSize st.
Proof.
  intros HC. revert st. induction evs as [| [| pos nm] evs IH];
    intros st Hinv Hq; simpl.
  - intros [= <-]. split; [exact Hinv |]. split; [exact Hq |]. now split.
  - unfold mbind, outcome_bind.
    destruct (tar_read st) as [[rd st1] | | | |] eqn:Et; try discriminate.
    simpl. intros Hp.
    destruct (tar_read_keeps st st1 rd HC Hinv Et) as [Hinv' Hpost].
    destruct (tar_read_files _ _ _ Et) as (_ & HB & HO & _).
    destruct (IH st1 Hinv') as (H1 & H2 & H3 & H4); [| exact Hp |].
    + destruct Hpost as [-> | (ib' & -> & Hfull)]; [exact Hq |].
      apply Forall_app. split; [exact Hq |].
      constructor; [| constructor]. simpl.
      destruct Hinv as (HBpos & _). lia.
    + split; [exact H1 |]. split; [exact H2 |]. split; congruence.
  - intros Hp. apply (IH (register pos (Some nm) st)); assumption.
Qed.

End ReaderSteps.

(** C9.  A call of the pull callback reads at most
    min(CHUNKSIZE, BlockInSize - insize) bytes, stores them in the input
    buffer of the current block from position [insize] on without changing
    the length of the buffer, returns the number of bytes it appended, keeps
    [insize] within [BlockInSize], and posts the block to the encode queue
    exactly when [insize] has reached [BlockInSize]; the invariant that
    makes this hold is kept for the next call. *)
Theorem tar_read_stays_in_block `{pixz_h} (st : Reader.reader)
  (ib : io_block_t) :
  (0 < CHUNKSIZE < SIZE_MAX_plus_1)%Z ->
  Reader.inv st ->
  Reader.current_block st = Some ib ->
  exists rd st' ib',
    Reader.tar_read st = Done (rd, st') /\
    (0 <= rd <= Z.min CHUNKSIZE (Reader.gBlockInSize st - insize ib))%Z /\
    input ib' =
      take (Z.to_nat (insize ib)) (input ib)
      ++ take (Z.to_nat rd) (Reader.gInFile st)
      ++ drop (Z.to_nat (insize ib + rd)) (input ib) /\
    length (input ib') = length (input ib) /\
    insize ib' = (insize ib + rd)%Z /\
    (insize ib' <= Reader.gBlockInSize st)%Z /\
    Reader.gTotalRead st' = (Reader.gTotalRead st + rd)%Z /\
    Reader.gInFile st' = drop (Z.to_nat rd) (Reader.gInFile st) /\
    ((insize ib' = Reader.gBlockInSize st /\
      Reader.gEncodeQ st' = Reader.gEncodeQ st ++ [MSG_BLOCK ib'] /\
      Reader.gReadBlock st' = None) \/
     ((insize ib' < Reader.gBlockInSize st)%Z /\
      Reader.gEncodeQ st' = Reader.gEncodeQ st /\
      Reader.gReadBlock st' = Some ib')) /\
    Reader.inv st'.
Proof.
  intros HC Hinv Hcur.
  destruct (ReaderSteps.tar_read_runs st ib HC Hinv Hcur)
    as (Hi & Hl & q & num & _ & Hrun).
  set (space := Z.min CHUNKSIZE (Reader.gBlockInSize st - insize ib)) in *.
  set (data := take (Z.to_nat space) (Reader.gInFile st)) in *.
  set (rd := Z.of_nat (length data)) in *.
  set (buf := take (Z.to_nat (insize ib)) (input ib) ++ data
              ++ drop (Z.to_nat (insize ib) + length data) (input ib)) in *.
  set (ib' := Reader.set_block ib (seq ib) (insize ib + rd)%Z buf) in *.
  assert (Hrd : (0 <= rd <= space)%Z).
  { unfold rd, data. rewrite length_take. lia. }
  destruct (ReaderSteps.tar_read_keeps st _ rd HC Hinv Hrun) as [Hinv' _].
  eexists rd, _, ib'. split; [exact Hrun |].
  split; [exact Hrd |].
  split.
  { cbn [ib' input Reader.set_block]. unfold buf. f_equal. f_equal.
    - unfold rd. rewrite Nat2Z.id. unfold data.
      apply eq_sym, ReaderSteps.take_length_take.
    - f_equal. unfold rd. lia. }
  split.
  { cbn [ib' input Reader.set_block]. unfold buf.
    rewrite !length_app, length_take, length_drop. unfold space in *. lia. }
  split; [reflexivity |].
  split; [cbn [ib' insize Reader.set_block]; unfold space in *; lia |].
  split; [reflexivity |].
  split.
  { cbn [Reader.gInFile]. unfold rd. rewrite Nat2Z.id. unfold data.
    apply eq_sym, ReaderSteps.drop_length_take. }
  split; [| exact Hinv'].
  cbn [Reader.gEncodeQ Reader.gReadBlock].
  destruct (Z.eqb_spec (insize ib') (Reader.gBlockInSize st))
    as [Hfull | Hpart].
  - left. now repeat split.
  - right. split; [| now split].
    cbn [ib' insize Reader.set_block] in *. unfold space in *. lia.
Qed.

(** ** The reader at end-of-archive *)

Module ReaderEnd.
Import Reader ReaderFacts ReaderSteps.

Lemma start_inv `{liblzma} (dict_size n : Z) (tar : list byte) :
  (0 < dict_size < 2 ^ 32)%Z ->
  inv (start (Setup.main_setup dict_size n) tar).
Proof.
  intros Hd. unfold inv, start, Setup.main_setup. cbn.
  assert (HB : Setup.block_in_size dict_size = (dict_size * 2)%Z).
  { unfold Setup.block_in_size. apply to_size_t_id.
    unfold SIZE_MAX_plus_1. lia. }
  rewrite HB. split; [unfold SIZE_MAX_plus_1; lia |].
  split; [discriminate |].
  intros ib Hin. apply repeat_spec in Hin. subst ib. cbn.
  unfold Setup.malloc. rewrite repeat_length. lia.
Qed.

Lemma parse_sizes `{pixz_h} (evs : list tar_event) (st st' : reader) :
  parse evs st = Done st' ->
  gBlockInSize st' = gBlockInSize st /\ gBlockOutSize st' = gBlockOutSize st.
Proof.
  revert st. induction evs as [| [| pos nm] evs IH]; intros st; simpl.
  - now intros [= <-].
  - unfold mbind, outcome_bind.
    destruct (tar_read st) as [[rd st1] | | | |] eqn:Et; try discriminate.
    simpl. intros Hp. destruct (IH _ Hp) as [-> ->].
    now destruct (tar_read_files _ _ _ Et) as (_ & -> & -> & _).
  - intros Hp. now destruct (IH _ Hp) as [-> ->].
Qed.

Lemma finish_sizes (st : reader) :
  gBlockInSize (finish st) = gBlockInSize st /\
  gBlockOutSize (finish st) = gBlockOutSize st.
Proof. unfold finish. destruct (last_block _). now split. Qed.

(** What [finish] does with the queues. *)
Lemma finish_queues (st : reader) :
  match gReadBlock st with
  | Some ib =>
      if (insize ib =? 0)%Z
      then gEncodeQ (finish st) = gEncodeQ st ++ STOPs st /\
           gReadQ (finish st) = gReadQ st ++ [ib]
      else gEncodeQ (finish st) = gEncodeQ st ++ [MSG_BLOCK ib] ++ STOPs st /\
           gReadQ (finish st) = gReadQ st
  | None => gEncodeQ (finish st) = gEncodeQ st ++ STOPs st /\
            gReadQ (finish st) = gReadQ st
  end.
Proof.
  unfold finish, last_block, STOPs. cbn.
  destruct (gReadBlock st) as [ib |]; [| now split].
  destruct (insize ib =? 0)%Z; cbn; [now split |].
  split; [now rewrite <- app_assoc | reflexivity].
Qed.

Lemma STOPs_hold_data (st : reader) : Forall holds_data (STOPs st).
Proof.
  unfold STOPs. apply Forall_forall. intros m Hm.
  apply list_elem_of_In, repeat_spec in Hm. now subst m.
Qed.

End ReaderEnd.

(** A witness of C9: the first pull of a ten-byte input into 4-byte
    blocks with CHUNKSIZE 4. *)
Lemma tar_read_stays_in_block_witness :
  exists rd st' ib',
    @Reader.tar_read Small.h Small.reader0 = Done (rd, st') /\
    rd = 4%Z /\ insize ib' = 4%Z /\
    Reader.gEncodeQ st' = [MSG_BLOCK ib'].
Proof.
  assert (HC : (0 < @CHUNKSIZE Small.h < SIZE_MAX_plus_1)%Z)
    by (split; reflexivity).
  assert (Hinv : Reader.inv Small.reader0).
  { apply (@ReaderEnd.start_inv Small.store). lia. }
  destruct (@tar_read_stays_in_block Small.h Small.reader0 _ HC Hinv eq_refl)
    as (rd & st' & ib' & Hrun & Hrd & Hin & Hlen & Hsz & Hle & Ht & Hf & Hq
        & Hinv').
  exists rd, st', ib'. split; [exact Hrun |].
  vm_compute in Hrun. injection Hrun as <- <-.
  split; [reflexivity |].
  destruct Hq as [(Hfull & Hq & _) | (Hlt & Hq & Hb)].
  - split; [exact Hfull |]. vm_compute in Hq. injection Hq as <-.
    reflexivity.
  - vm_compute in Hb. discriminate.
Defined.

(** C2 as the claim states it fails: when the last pathname is a
    fragment, the sentinel carries the offset of that fragment run and not
    the number of bytes read. *)
Lemma sentinel_offset_counterexample :
  exists st',
    @Reader.read_thread Small.h Small.trailing_fragment Small.reader0
      = Done st' /\
    Reader.gTotalRead st' = 8%Z /\
    last (FileIndex.entries (Reader.files st')) = Some (None, 0%Z) /\
    ~ Reader.sentinel_law (Reader.gTotalRead st')
        (FileIndex.entries (Reader.files st')).
Proof.
  eexists. split; [vm_compute; reflexivity |].
  split; [reflexivity |]. split; [reflexivity |].
  intros [_ Hlast]. vm_compute in Hlast. discriminate.
Qed.

(** C2, amended.  At end-of-archive the file index has exactly one entry
    with a NULL name and it is the last one.  Its offset is the number of
    bytes read when the pathnames reported do not end with a fragment; when
    they end with a run of fragments it is the offset of the first fragment
    of that run. *)
Theorem sentinel_entry_at_end_of_archive `{pixz_h}
  (evs : list Reader.tar_event) (st st' : Reader.reader) :
  Reader.files st = FileIndex.init ->
  Reader.read_thread evs st = Done st' ->
  let es := FileIndex.entries (Reader.files st') in
  length (List.filter Reader.is_sentinel es) = 1 /\
  exists off,
    last es = Some (None, off) /\
    (FileIndex.run_can_start (Reader.headers evs) ->
     off = Reader.gTotalRead st') /\
    (forall before run,
       Reader.headers evs = before ++ run ->
       FileIndex.run_can_start before ->
       run <> [] ->
       Forall (fun c => FileIndex.is_fragment c = true) run ->
       off = fst (hd (0%Z, None) run)).
Proof.
  intros Hinit Hrun es. unfold es.
  rewrite (ReaderFacts.read_thread_entries evs st st' Hinit Hrun).
  set (g := FileIndex.add_files (Reader.headers evs) FileIndex.init).
  split.
  - rewrite List.filter_app, ReaderFacts.filter_none.
    + reflexivity.
    + intros e He. now apply (ReaderFacts.headers_named evs).
  - eexists. split; [apply last_snoc |]. split.
    + intros Hstart. unfold g.
      now rewrite (FileIndexFacts.run_can_start_flag _ Hstart).
    + intros before run Heq Hstart Hne Hall. unfold g. rewrite Heq.
      rewrite FileIndexFacts.add_files_app.
      rewrite (FileIndexFacts.add_files_fragments run _ Hall Hne).
      rewrite (FileIndexFacts.run_can_start_flag _ Hstart). simpl.
      destruct run; [congruence | reflexivity].
Qed.

(** A witness of C2 amended: one plain member, ten bytes read. *)
Lemma sentinel_entry_at_end_of_archive_witness :
  exists st',
    @Reader.read_thread Small.h Small.one_member Small.reader0 = Done st' /\
    FileIndex.entries (Reader.files st')
    = [(Some (Small.bytes "hello.txt"), 0%Z); (None, 10%Z)] /\
    length (List.filter Reader.is_sentinel
              (FileIndex.entries (Reader.files st'))) = 1.
Proof.
  destruct (@Reader.read_thread Small.h Small.one_member Small.reader0)
    as [st' | | | |] eqn:Hrun; try (vm_compute in Hrun; discriminate).
  exists st'. split; [reflexivity |].
  pose proof (@sentinel_entry_at_end_of_archive Small.h Small.one_member
                Small.reader0 st' eq_refl Hrun) as [Hone _].
  split; [| exact Hone].
  vm_compute in Hrun. injection Hrun as <-. reflexivity.
Defined.

(** C6.  No block with [insize = 0] is posted to the encode queue: along
    the header loop every block posted holds data, and at end-of-archive
    the current block goes to the encode queue exactly when its [insize]
    is not 0 and back to the free queue otherwise, so that every block the
    encoders get holds data. *)
Theorem empty_block_never_encoded `{pixz_h}
  (evs : list Reader.tar_event) (st st' : Reader.reader) :
  (0 < CHUNKSIZE < SIZE_MAX_plus_1)%Z ->
  Reader.inv st ->
  Forall Reader.holds_data (Reader.gEncodeQ st) ->
  Reader.parse evs st = Done st' ->
  Forall Reader.holds_data (Reader.gEncodeQ st') /\
  Forall Reader.holds_data (Reader.gEncodeQ (Reader.finish st')) /\
  forall ib, Reader.gReadBlock st' = Some ib ->
    ((0 < insize ib)%Z ->
       Reader.gEncodeQ (Reader.finish st')
       = Reader.gEncodeQ st' ++ [MSG_BLOCK ib] ++ Reader.STOPs st' /\
       Reader.gReadQ (Reader.finish st') = Reader.gReadQ st') /\
    (insize ib = 0%Z ->
       Reader.gEncodeQ (Reader.finish st')
       = Reader.gEncodeQ st' ++ Reader.STOPs st' /\
       Reader.gReadQ (Reader.finish st') = Reader.gReadQ st' ++ [ib]).
Proof.
  intros HC Hinv Hq Hp.
  destruct (ReaderSteps.parse_keeps evs st st' HC Hinv Hq Hp)
    as (Hinv' & Hq' & _ & _).
  pose proof (ReaderEnd.finish_queues st') as Hfin.
  pose proof (ReaderEnd.STOPs_hold_data st') as Hstop.
  destruct Hinv' as (_ & Hcur & _).
  split; [exact Hq' |]. split.
  - destruct (Reader.gReadBlock st') as [ib |].
    + destruct (Hcur ib eq_refl) as [Hi _].
      destruct (Z.eqb_spec (insize ib) 0) as [Hz | Hnz];
        destruct Hfin as [-> _].
      * apply Forall_app. now split.
      * apply Forall_app. split; [exact Hq' |].
        apply Forall_app. split; [| exact Hstop].
        constructor; [simpl; lia | constructor].
    + destruct Hfin as [-> _]. apply Forall_app. now split.
  - intros ib Hib. rewrite Hib in Hfin. split.
    + intros Hpos. destruct (Z.eqb_spec (insize ib) 0); [lia | exact Hfin].
    + intros Hz. destruct (Z.eqb_spec (insize ib) 0); [exact Hfin | lia].
Qed.

(** A witness of C6: the ten-byte input leaves a last block of 2 bytes. *)
Lemma empty_block_never_encoded_witness :
  exists st',
    @Reader.parse Small.h Small.one_member Small.reader0 = Done st' /\
    Forall Reader.holds_data (Reader.gEncodeQ (Reader.finish st')).
Proof.
  assert (HC : (0 < @CHUNKSIZE Small.h < SIZE_MAX_plus_1)%Z)
    by (split; reflexivity).
  assert (Hinv : Reader.inv Small.reader0).
  { apply (@ReaderEnd.start_inv Small.store). lia. }
  assert (Hq : Forall Reader.holds_data (Reader.gEncodeQ Small.reader0))
    by constructor.
  destruct (@Reader.parse Small.h Small.one_member Small.reader0)
    as [st' | | | |] eqn:Hrun; try (vm_compute in Hrun; discriminate).
  exists st'. split; [reflexivity |].
  exact (proj1 (proj2 (@empty_block_never_encoded Small.h Small.one_member
                         Small.reader0 st' HC Hinv Hq Hrun))).
Defined.

(** ** The buffer pool *)

Module SetupFacts.
Import Setup.

Lemma to_int_id (z : Z) : (0 <= z <= INT_MAX)%Z -> to_int z = z.
Proof.
  unfold to_int, INT_MAX. intros Hz.
  rewrite Z.mod_small by lia.
  destruct (Z.leb_spec z (2 ^ 31 - 1)); lia.
Qed.

Lemma pool_size_small (n : Z) :
  (0 <= n)%Z -> (n * 2 + 4 <= INT_MAX)%Z -> pool_size n = (2 * n + 4)%Z.
Proof.
  intros Hn Hmax. unfold pool_size.
  assert (HI : (INT_MAX < SIZE_MAX_plus_1)%Z) by reflexivity.
  rewrite (ReaderFacts.to_size_t_id (n * 2 + 4)) by lia.
  rewrite to_int_id by lia.
  rewrite ReaderFacts.to_size_t_id by lia. lia.
Qed.

Lemma block_in_size_double (dict_size : Z) :
  (0 <= dict_size < 2 ^ 32)%Z -> block_in_size dict_size = (2 * dict_size)%Z.
Proof.
  intros Hd. unfold block_in_size. rewrite ReaderFacts.to_size_t_id.
  - lia.
  - unfold SIZE_MAX_plus_1. lia.
Qed.

End SetupFacts.

(** C7 as the claim states it fails for a thread count whose pool size
    does not fit [int]: with 2^31 - 2 encoder threads the bound of the
    allocation loop is cut to 0, and no block is allocated. *)
Lemma pool_size_counterexample :
  length (Setup.gReadQ (@Setup.main_setup Small.store 2 (2 ^ 31 - 2))) = 0
  /\ (2 * (2 ^ 31 - 2) + 4 = 4294967296)%Z.
Proof. split; vm_compute; reflexivity. Qed.

(** C7, amended.  For every encoder-thread count N whose pool size
    2N + 4 fits [int], the start-up allocates exactly 2N + 4 block records
    and puts them in the free queue, each with an input buffer of
    BlockInSize bytes and an output buffer of BlockOutSize bytes, where
    BlockInSize is twice the dictionary size and BlockOutSize is the
    codec's bound for BlockInSize; the reader leaves both sizes as they
    are. *)
Theorem pool_allocated_at_startup `{pixz_h} `{liblzma} (dict_size n : Z) :
  (0 <= dict_size < 2 ^ 32)%Z ->
  (0 <= n)%Z ->
  (n * 2 + 4 <= INT_MAX)%Z ->
  let p := Setup.main_setup dict_size n in
  Z.of_nat (length (Setup.gReadQ p)) = (2 * n + 4)%Z /\
  Setup.gBlockInSize p = (2 * dict_size)%Z /\
  Setup.gBlockOutSize p = lzma_block_buffer_bound (Setup.gBlockInSize p) /\
  Forall (fun ib =>
            length (input ib) = Z.to_nat (Setup.gBlockInSize p) /\
            length (output ib) = Z.to_nat (Setup.gBlockOutSize p))
         (Setup.gReadQ p) /\
  forall tar evs st',
    Reader.read_thread evs (Reader.start p tar) = Done st' ->
    Reader.gReadQ (Reader.start p tar) = Setup.gReadQ p /\
    Reader.gBlockInSize st' = Setup.gBlockInSize p /\
    Reader.gBlockOutSize st' = Setup.gBlockOutSize p.
Proof.
  intros Hd Hn Hmax p. unfold p, Setup.main_setup.
  cbn [Setup.gReadQ Setup.gBlockInSize Setup.gBlockOutSize].
  split.
  { rewrite repeat_length, SetupFacts.pool_size_small by assumption. lia. }
  split; [now apply SetupFacts.block_in_size_double |].
  split; [reflexivity |].
  split.
  { apply Forall_forall. intros ib Hin.
    apply list_elem_of_In, repeat_spec in Hin. subst ib. cbn.
    unfold Setup.malloc. now rewrite !repeat_length. }
  intros tar evs st' Hrun.
  apply ReaderFacts.read_thread_done in Hrun as (st1 & Hp & ->).
  destruct (ReaderEnd.finish_sizes st1) as [-> ->].
  destruct (ReaderEnd.parse_sizes _ _ _ Hp) as [-> ->].
  now repeat split.
Qed.

(** A witness of C7 amended: one encoder thread, dictionary of 2 bytes. *)
Lemma pool_allocated_at_startup_witness :
  Z.of_nat (length (Setup.gReadQ (@Setup.main_setup Small.store 2 1))) = 6%Z
  /\ Setup.gBlockInSize (@Setup.main_setup Small.store 2 1) = 4%Z.
Proof.
  assert (Hd : (0 <= 2 < 2 ^ 32)%Z) by lia.
  assert (Hn : (0 <= 1)%Z) by lia.
  assert (Hmax : (1 * 2 + 4 <= INT_MAX)%Z) by (vm_compute; discriminate).
  destruct (@pool_allocated_at_startup Small.h Small.store 2 1 Hd Hn Hmax)
    as (Hlen & Hin & _).
  split; [exact Hlen | exact Hin].
Defined.

(** ** The writer *)

Module WriterFacts.
Import Writer.

Lemma find_block_none (sq : Z) (l : list io_block_t) :
  find_block sq l = None -> Forall (fun ib => seq ib <> sq) l.
Proof.
  induction l as [| a l IH]; simpl; [constructor |].
  destruct (Z.eqb_spec (seq a) sq); [discriminate |].
  destruct (find_block sq l) as [[found rest] |]; [discriminate |].
  intros _. constructor; [assumption | now apply IH].
Qed.

Lemma find_block_some (sq : Z) (l : list io_block_t)
  (ib : io_block_t) (rest : list io_block_t) :
  find_block sq l = Some (ib, rest) -> seq ib = sq /\ l ≡ₚ ib :: rest.
Proof.
  revert ib rest. induction l as [| a l IH]; intros ib rest; simpl.
  - discriminate.
  - destruct (Z.eqb_spec (seq a) sq).
    + intros [= <- <-]. now split.
    + destruct (find_block sq l) as [[found rest'] |]; [| discriminate].
      intros [= <- <-]. destruct (IH _ _ eq_refl) as [Hs Hp].
      split; [exact Hs |]. rewrite Hp. apply Permutation_swap.
Qed.

Lemma emit_done `{liblzma} (ib : io_block_t) (rest : list io_block_t)
  (st : writer) :
  encoded ib ->
  emit ib rest st =
  Done {| next_seq := to_size_t (next_seq st + 1);
          ibs := rest;
          gOutFile := gOutFile st ++ block_bytes ib;
          gIndex := gIndex st ++ [index_record ib];
          gReadQ := gReadQ st ++ [ib] |}.
Proof.
  intros [Hpos Hfit]. unfold emit, fwrite.
  destruct (Z.eqb_spec (outsize ib) 0); [lia |].
  destruct (Z.leb_spec (outsize ib) (Z.of_nat (length (output ib)))); [| lia].
  reflexivity.
Qed.

Lemma wrote_emit `{liblzma} (ib : io_block_t) (rest : list io_block_t)
  (st : writer) :
  wrote st -> seq ib = next_seq st ->
  (next_seq st + 1 < SIZE_MAX_plus_1)%Z ->
  wrote {| next_seq := to_size_t (next_seq st + 1);
           ibs := rest;
           gOutFile := gOutFile st ++ block_bytes ib;
           gIndex := gIndex st ++ [index_record ib];
           gReadQ := gReadQ st ++ [ib] |}.
Proof.
  intros (Hseq & Hn & Hout & Hidx) Hib Hmax. unfold wrote. cbn.
  rewrite ReaderFacts.to_size_t_id by lia.
  repeat split.
  - rewrite map_app, Hseq. simpl. rewrite Hib, Hn.
    replace (Z.of_nat (length (gReadQ st)) + 1)%Z
      with (Z.of_nat (S (length (gReadQ st)))) by lia.
    now rewrite seqZ_S.
  - rewrite length_app. simpl. lia.
  - rewrite map_app, concat_app, Hout. simpl. now rewrite app_nil_r.
  - now rewrite map_app, Hidx.
Qed.

(** The drain: it returns, it writes the blocks that are next in order
    and stops at the first gap. *)
Lemma write_blocks_spec `{liblzma} (st : writer) :
  wrote st -> Forall encoded (ibs st) ->
  (Z.of_nat (length (gReadQ st) + length (ibs st)) < SIZE_MAX_plus_1)%Z ->
  exists st', write_blocks st = Done st' /\ wrote st' /\
    Forall encoded (ibs st') /\
    drained st' /\
    gReadQ st `prefix_of` gReadQ st' /\
    gReadQ st' ++ ibs st' ≡ₚ gReadQ st ++ ibs st.
Proof.
  funelim (write_blocks st); intros Hw Henc Hmax;
    repeat match goal with
           | Hs : sigmaI _ _ _ = _ |- _ => clear Hs
           end;
    try match goal with
        | Hf : find_block _ _ = Some (?ib, ?rest) |- _ =>
            destruct (find_block_some _ _ _ _ Hf) as [Hsq Hperm];
            assert (Hib : encoded ib)
              by (rewrite Hperm in Henc; now apply Forall_cons in Henc);
            assert (Hrest : Forall encoded rest)
              by (rewrite Hperm in Henc; now apply Forall_cons in Henc);
            assert (Hlen : length (ibs st) = S (length rest))
              by (now rewrite Hperm)
        end;
    try match goal with
        | He : emit ?ib ?rest ?s = _ |- _ =>
            rewrite (emit_done ib rest s Hib) in He; try discriminate
        end.
  - exists st. split; [reflexivity |]. split; [exact Hw |].
    split; [exact Henc |]. split; [now apply find_block_none |].
    split; reflexivity.
  - match goal with He : Done _ = Done _ |- _ => injection He as He end.
    subst st'.
    match goal with
    | IH : wrote _ -> _ |- _ =>
        destruct IH as (st2 & Hrun & Hw2 & Henc2 & Hdr & Hpre & Hp2)
    end.
    + apply wrote_emit; [exact Hw | exact Hsq |].
      destruct Hw as (_ & Hn & _). lia.
    + exact Hrest.
    + cbn. rewrite length_app. simpl. lia.
    + exists st2. split; [exact Hrun |]. split; [exact Hw2 |].
      split; [exact Henc2 |]. split; [exact Hdr |]. split.
      * cbn in Hpre. etrans; [| exact Hpre]. now apply prefix_app_r.
      * rewrite Hp2. cbn. rewrite Hperm, <- app_assoc. reflexivity.
Qed.

Lemma main_loop_app `{liblzma} (a1 a2 : list io_block_t) (st : writer) :
  main_loop (a1 ++ a2) st = st' ← main_loop a1 st; main_loop a2 st'.
Proof.
  revert st. induction a1 as [| ib a1 IH]; intros st; simpl.
  - reflexivity.
  - unfold mbind, outcome_bind.
    destruct (receive ib st) as [st1 | | | |]; try reflexivity.
    apply IH.
Qed.

(** The main loop over any arrivals, from any state the loop can be in. *)
Lemma main_loop_spec `{liblzma} (arrivals : list io_block_t) (st : writer) :
  wrote st -> Forall encoded (ibs st) -> drained st ->
  Forall encoded arrivals ->
  (Z.of_nat (length (gReadQ st) + length (ibs st) + length arrivals)
   < SIZE_MAX_plus_1)%Z ->
  exists st', main_loop arrivals st = Done st' /\ wrote st' /\
    Forall encoded (ibs st') /\
    drained st' /\
    gReadQ st `prefix_of` gReadQ st' /\
    gReadQ st' ++ ibs st' ≡ₚ gReadQ st ++ ibs st ++ arrivals.
Proof.
  revert st. induction arrivals as [| ib arrivals IH];
    intros st Hw Henc Hdr Harr Hmax.
  - exists st. simpl. rewrite app_nil_r.
    split; [reflexivity |]. split; [exact Hw |]. split; [exact Henc |].
    split; [exact Hdr |]. split; reflexivity.
  - apply Forall_cons in Harr as [Hib Harr]. simpl in Hmax.
    set (st0 := {| next_seq := next_seq st; ibs := ib :: ibs st;
                   gOutFile := gOutFile st; gIndex := gIndex st;
                   gReadQ := gReadQ st |}).
    destruct (write_blocks_spec st0)
      as (st1 & Hrun & Hw1 & Henc1 & Hdr1 & Hpre1 & Hp1).
    + exact Hw.
    + now constructor.
    + cbn. lia.
    + assert (Hlen1 : length (gReadQ st1) + length (ibs st1)
                      = length (gReadQ st) + S (length (ibs st))).
      { rewrite <- !length_app, Hp1. cbn. rewrite !length_app.
        simpl. lia. }
      destruct (IH st1 Hw1 Henc1 Hdr1 Harr)
        as (st2 & Hrun2 & Hw2 & Henc2 & Hdr2 & Hpre2 & Hp2); [lia |].
      exists st2. simpl. unfold receive. fold st0. rewrite Hrun.
      cbn [mbind outcome_bind]. split; [exact Hrun2 |].
      split; [exact Hw2 |]. split; [exact Henc2 |]. split; [exact Hdr2 |].
      split.
      * etrans; [exact Hpre1 | exact Hpre2].
      * rewrite Hp2, app_assoc, Hp1. cbn.
        rewrite <- app_assoc. apply Permutation_app_head.
        rewrite (Permutation_middle (ibs st) arrivals ib). reflexivity.
Qed.

Lemma wrote_start `{liblzma} : wrote start.
Proof. now repeat split. Qed.

End WriterFacts.

(** C3.  Whatever the order in which the encoded blocks arrive, after
    each drain the blocks written so far are those with [seq] 0, 1, ...
    up to the next expected number, in this order and without a gap; the
    output file holds their bytes and the stream index their size pairs in
    the same order; no pending block has the next expected number; the
    blocks written and pending are exactly those that arrived; and what is
    written later only extends what is written now. *)
Theorem blocks_written_in_order `{liblzma}
  (arrivals : list io_block_t) (n : nat) :
  Forall Writer.encoded arrivals ->
  (Z.of_nat (length arrivals) < SIZE_MAX_plus_1)%Z ->
  exists st final,
    Writer.main_loop (take n arrivals) Writer.start = Done st /\
    Writer.main_loop arrivals Writer.start = Done final /\
    map seq (Writer.gReadQ st) = seqZ 0 (Writer.next_seq st) /\
    Writer.gOutFile st = concat (map Writer.block_bytes (Writer.gReadQ st)) /\
    Writer.gIndex st = map Writer.index_record (Writer.gReadQ st) /\
    Forall (fun ib => seq ib <> Writer.next_seq st) (Writer.ibs st) /\
    Writer.gReadQ st ++ Writer.ibs st ≡ₚ take n arrivals /\
    Writer.gReadQ st `prefix_of` Writer.gReadQ final.
Proof.
  intros Henc Hmax.
  assert (Hsplit : arrivals = take n arrivals ++ drop n arrivals)
    by (now rewrite take_drop).
  assert (Henc1 : Forall Writer.encoded (take n arrivals))
    by (now apply Forall_take).
  assert (Henc2 : Forall Writer.encoded (drop n arrivals))
    by (now apply Forall_drop).
  assert (Hlen : length arrivals
                 = length (take n arrivals) + length (drop n arrivals)).
  { rewrite Hsplit at 1. apply length_app. }
  destruct (WriterFacts.main_loop_spec (take n arrivals) Writer.start)
    as (st & Hrun & Hw & Hpend & Hdr & _ & Hperm).
  - apply WriterFacts.wrote_start.
  - constructor.
  - constructor.
  - exact Henc1.
  - cbn. lia.
  - assert (Hlen1 : length (Writer.gReadQ st) + length (Writer.ibs st)
                    = length (take n arrivals)).
    { rewrite <- length_app, Hperm. reflexivity. }
    destruct (WriterFacts.main_loop_spec (drop n arrivals) st
                Hw Hpend Hdr Henc2)
      as (final & Hrun2 & _ & _ & _ & Hpre & _); [lia |].
    exists st, final. split; [exact Hrun |]. split.
    { rewrite Hsplit, WriterFacts.main_loop_app, Hrun. exact Hrun2. }
    destruct Hw as (Hseq & _ & Hout & Hidx).
    split; [exact Hseq |]. split; [exact Hout |]. split; [exact Hidx |].
    split; [exact Hdr |]. split; [exact Hperm | exact Hpre].
Qed.

(** A witness of C3: four blocks arriving as 2, 0, 3, 1; after the second
    arrival block 0 is written and block 2 waits. *)
Lemma blocks_written_in_order_witness :
  exists st final,
    @Writer.main_loop Small.store (take 2 Small.arrivals) Writer.start
      = Done st /\
    @Writer.main_loop Small.store Small.arrivals Writer.start = Done final /\
    map seq (Writer.gReadQ st) = [0%Z] /\
    map seq (Writer.gReadQ final) = [0; 1; 2; 3]%Z /\
    Writer.gOutFile final = Small.bytes "abbbccdddd".
Proof.
  assert (Henc : Forall Writer.encoded Small.arrivals).
  { repeat constructor; vm_compute; discriminate. }
  assert (Hmax : (Z.of_nat (length Small.arrivals) < SIZE_MAX_plus_1)%Z)
    by reflexivity.
  destruct (@blocks_written_in_order Small.store Small.arrivals 2 Henc Hmax)
    as (st & final & Hrun & Hfin & _).
  exists st, final. split; [exact Hrun |]. split; [exact Hfin |].
  vm_compute in Hrun. injection Hrun as <-.
  vm_compute in Hfin. injection Hfin as <-.
  repeat split.
Defined.


(** ** The file-index writer *)

Module IndexWriterFacts.
Import IndexWriter.

Section Codec.
Context `{pixz_h} `{liblzma}.
Variable work : lzma_coder -> nat -> nat.
Hypothesis contract : codec_contract work.
Hypothesis chunk : (0 < CHUNKSIZE < SIZE_MAX_plus_1)%Z.

(** The coder takes all that it is offered, whatever the fuel beyond
    the work it has to do. *)
Lemma code_loop_takes_all (w : nat) (action : lzma_action)
  (avail : list byte) (c : lzma_coder) (out dl : list byte) :
  work c (length avail) <= w ->
  exists c' out', forall fuel, w < fuel ->
    code_loop fuel action LZMA_OK avail c out dl
    = Done (c', out', dl ++ avail).
Proof.
  revert avail c out dl.
  induction w as [| w IH]; intros avail c out dl Hw.
  all: destruct (is_finish action || negb (is_nil avail)) eqn:Econd.
  all: try (exists c, out; intros fuel Hfuel;
            destruct fuel as [| k]; [lia |];
            cbn [code_loop is_stream_end negb andb]; rewrite Econd;
            destruct action; [| discriminate];
            destruct avail; [| discriminate];
            now rewrite app_nil_r).
  all: assert (Hcall : action = LZMA_FINISH \/ avail <> [])
         by (destruct action; [right | now left];
             destruct avail; discriminate).
  all: pose proof (no_error work contract c action avail CHUNKSIZE) as Hne.
  all: pose proof (end_takes_all work contract c action avail CHUNKSIZE)
         as Hend.
  all: pose proof (progress work contract c action avail CHUNKSIZE Hcall)
         as Hpr.
  all: set (r := lzma_code c action avail CHUNKSIZE) in *.
  all: assert (Hout : exists out1,
         (if is_nil (produced r) then Done out
          else fwrite (produced r) (Z.of_nat (length (produced r))) out)
         = Done out1)
         by (destruct (produced r) as [| b p] eqn:Ep; [now exists out |];
             cbn [is_nil]; unfold fwrite;
             destruct (Z.eqb_spec (Z.of_nat (length (b :: p))) 0);
               [simpl in *; lia |];
             rewrite Z.leb_refl; eauto).
  all: destruct Hout as [out1 Hout].
  all: destruct (ret r) eqn:Er; [| | congruence].
  all: try (specialize (Hpr eq_refl); lia).
  - exists (next_coder r), out1. intros fuel Hfuel.
    destruct fuel as [| k]; [lia |].
    cbn [code_loop is_stream_end negb andb]. rewrite Econd. fold r.
    rewrite Er, Hout. cbn [mbind outcome_bind].
    rewrite (Hend eq_refl), drop_all, firstn_all.
    destruct k; reflexivity.
  - destruct (IH (drop (consumed r) avail) (next_coder r) out1
                (dl ++ take (consumed r) avail)) as (c' & out' & Hrun).
    { rewrite length_drop. specialize (Hpr eq_refl). lia. }
    exists c', out'. intros fuel Hfuel.
    destruct fuel as [| k]; [lia |].
    cbn [code_loop is_stream_end negb andb]. rewrite Econd. fold r.
    rewrite Er, Hout. cbn [mbind outcome_bind].
    rewrite Hrun by lia. now rewrite <- app_assoc, take_drop.
  - exists (next_coder r), out1. intros fuel Hfuel.
    destruct fuel as [| k]; [lia |].
    cbn [code_loop is_stream_end negb andb]. rewrite Econd. fold r.
    rewrite Er, Hout. cbn [mbind outcome_bind].
    rewrite (Hend eq_refl), drop_all, firstn_all.
    destruct k; reflexivity.
Qed.

(** A flush hands the staged bytes to the coder and empties the buffer. *)
Lemma write_file_index_buf_spec (action : lzma_action) (st : state) :
  (0 <= gFileIndexBufPos st <= Z.of_nat (length (gFileIndexBuf st)))%Z ->
  exists st',
    returns (fun fuel => write_file_index_buf fuel action st) st' /\
    gFileIndexBuf st' = gFileIndexBuf st /\
    gFileIndexBufPos st' = 0%Z /\
    gIndex st' = gIndex st /\
    delivered st' = delivered st ++ pending st /\
    events st' = events st ++ [Flush action (gFileIndexBufPos st)].
Proof.
  intros Hpos.
  destruct (code_loop_takes_all
              (work (gStream st) (length (pending st))) action
              (pending st) (gStream st) (gOutFile st) (delivered st))
    as (c' & out' & Hrun); [lia |].
  eexists. split.
  - eexists. intros fuel Hfuel. unfold write_file_index_buf.
    destruct (Z.leb_spec (gFileIndexBufPos st)
                (Z.of_nat (length (gFileIndexBuf st)))); [| lia].
    fold (pending st). rewrite (Hrun fuel Hfuel). reflexivity.
  - cbn. now repeat split.
Qed.

Lemma run_app (b : bool) (t1 t2 : list event) :
  run b (t1 ++ t2) =
  match run b t1 with Some b' => run b' t2 | None => None end.
Proof.
  revert b. induction t1 as [| e t1 IH]; intros b; simpl; [reflexivity |].
  destruct (step b e); [apply IH | reflexivity].
Qed.

Lemma pending_after_copy (buf src : list byte) (pos bufpos len : Z) :
  (0 <= pos)%Z -> (0 <= len)%Z -> (0 <= bufpos)%Z ->
  (pos + len <= Z.of_nat (length buf))%Z ->
  (bufpos + len <= Z.of_nat (length src))%Z ->
  exists b,
    memcpy buf pos src bufpos len = Done b /\
    length b = length buf /\
    take (Z.to_nat (pos + len)) b =
    take (Z.to_nat pos) buf
    ++ take (Z.to_nat len) (drop (Z.to_nat bufpos) src).
Proof.
  intros Hp Hl Hb Hfit Hsrc. unfold memcpy.
  assert (E : ((pos + len <=? Z.of_nat (length buf)) &&
               (bufpos + len <=? Z.of_nat (length src)))%Z = true).
  { apply andb_true_iff. split; apply Z.leb_le; lia. }
  rewrite E. eexists. split; [reflexivity |].
  assert (Hchunk : length (take (Z.to_nat len) (drop (Z.to_nat bufpos) src))
                   = Z.to_nat len).
  { rewrite length_take, length_drop. lia. }
  split.
  - rewrite !length_app, Hchunk, length_take, length_drop. lia.
  - rewrite app_assoc. rewrite take_app_length'; [reflexivity |].
    rewrite length_app, Hchunk, length_take. lia.
Qed.

(** The copy loop: what is delivered and what is staged grow together by
    the bytes written, and the buffer is flushed exactly when full. *)
Lemma write_file_index_bytes_from_spec (rem : nat) (size : Z)
  (src : list byte) (bufpos : Z) (st : state) :
  ready st ->
  (size <= Z.of_nat (length src))%Z ->
  (size < SIZE_MAX_plus_1)%Z ->
  (0 <= bufpos <= size)%Z ->
  Z.to_nat (size - bufpos) <= rem ->
  exists st',
    returns (fun fuel => write_file_index_bytes_from fuel size src bufpos st)
            st' /\
    ready st' /\
    gIndex st' = gIndex st /\
    delivered st' ++ pending st' =
    delivered st ++ pending st
    ++ take (Z.to_nat (size - bufpos)) (drop (Z.to_nat bufpos) src).
Proof.
  revert bufpos st.
  induction rem as [| rem IH]; intros bufpos st Hready Hsrc Hsize Hbp Hrem.
  all: destruct (Z.ltb_spec bufpos size) as [Hlt | Hge].
  all: try lia.
  all: try (exists st; split;
            [ exists 0; intros fuel _; destruct fuel; simpl;
              destruct (Z.ltb_spec bufpos size); try lia; reflexivity
            | split; [exact Hready |]; split; [reflexivity |];
              replace (Z.to_nat (size - bufpos)) with 0 by lia;
              now rewrite take_0, !app_nil_r ]).
  destruct Hready as (Hbuf & Hpos & Hev).
  set (len := Z.min (size - bufpos) (CHUNKSIZE - gFileIndexBufPos st)).
  assert (Hlen : (0 < len)%Z) by (unfold len; lia).
  assert (Hlen' :
    (let l := to_size_t (size - bufpos) in
     let space := to_size_t (CHUNKSIZE - gFileIndexBufPos st) in
     if (l >? space)%Z then space else l) = len).
  { cbv zeta. rewrite !ReaderFacts.to_size_t_id by lia. unfold len.
    destruct (Z.gtb_spec (size - bufpos) (CHUNKSIZE - gFileIndexBufPos st));
      lia. }
  destruct (pending_after_copy (gFileIndexBuf st) src (gFileIndexBufPos st)
              bufpos len) as (b & Hcopy & Hblen & Hbtake);
    try (unfold len in *; lia).
  set (pos := (gFileIndexBufPos st + len)%Z).
  assert (Hposid : to_size_t (gFileIndexBufPos st + len) = pos)
    by (apply ReaderFacts.to_size_t_id; unfold pos, len; lia).
  assert (Hbpid : to_size_t (bufpos + len) = (bufpos + len)%Z)
    by (apply ReaderFacts.to_size_t_id; unfold len; lia).
  set (st1 := set_buf b pos [Fill pos] st).
  assert (Hstage : exists st2 n2,
    (forall k, n2 <= k ->
       (if (pos =? CHUNKSIZE)%Z
        then st' ← write_file_index_buf k LZMA_RUN st1;
             Done (set_buf (gFileIndexBuf st') 0 [] st')
        else Done st1) = Done st2) /\
    ready st2 /\ gIndex st2 = gIndex st /\
    delivered st2 ++ pending st2 =
    delivered st ++ pending st
    ++ take (Z.to_nat len) (drop (Z.to_nat bufpos) src)).
  { assert (Hfill : run false (events st ++ [Fill pos])
                    = Some (pos =? CHUNKSIZE)%Z).
    { rewrite run_app. unfold disciplined in Hev. rewrite Hev. simpl.
      destruct (Z.ltb_spec 0 pos); [| unfold pos in *; lia].
      destruct (Z.leb_spec pos CHUNKSIZE); [| unfold pos, len in *; lia].
      reflexivity. }
    destruct (Z.eqb_spec pos CHUNKSIZE) as [Hfull | Hpart].
    - destruct (write_file_index_buf_spec LZMA_RUN st1)
        as (stf & [nf Hrunf] & Hfb & Hfp & Hfi & Hfd & Hfe).
      { cbn. lia. }
      exists (set_buf (gFileIndexBuf stf) 0 [] stf), nf. split.
      { intros k Hk. now rewrite (Hrunf k Hk). }
      split.
      { unfold ready. cbn. rewrite Hfb. cbn. split; [lia |].
        split; [lia |]. unfold disciplined.
        rewrite app_nil_r, Hfe. cbn [events st1 set_buf gFileIndexBufPos].
        rewrite run_app, Hfill. simpl.
        destruct (Z.eqb_spec pos CHUNKSIZE); [reflexivity | lia]. }
      split; [cbn; now rewrite Hfi |].
      cbn [delivered set_buf]. rewrite Hfd. unfold pending at 1. cbn.
      rewrite app_nil_r. unfold pending. cbn. unfold pos at 1.
      rewrite Hbtake. now rewrite <- ?app_assoc.
    - exists st1, 0. split; [reflexivity |]. split.
      { unfold ready. cbn. split; [lia |].
        split; [unfold pos, len in *; lia |]. exact Hfill. }
      split; [reflexivity |].
      unfold pending. cbn. unfold pos. rewrite Hbtake.
      now rewrite <- ?app_assoc. }
  destruct Hstage as (st2 & n2 & Hrun2 & Hready2 & Hidx2 & Hdel2).
  destruct (IH (bufpos + len)%Z st2 Hready2 Hsrc Hsize)
    as (st' & [n' Hrun'] & Hready' & Hidx' & Hdel'); try lia.
  exists st'. split.
  - exists (S (Nat.max n2 n')). intros fuel Hfuel.
    destruct fuel as [| k]; [lia |].
    cbn [write_file_index_bytes_from].
    destruct (Z.ltb_spec bufpos size); [| lia].
    cbv zeta in Hlen'. rewrite Hlen', Hcopy. cbn [mbind outcome_bind].
    rewrite Hposid. fold st1. rewrite (Hrun2 k) by lia.
    cbn [mbind outcome_bind]. rewrite Hbpid. apply Hrun'. lia.
  - split; [exact Hready' |]. split; [congruence |].
    rewrite Hdel', app_assoc, Hdel2, <- ?app_assoc. do 2 f_equal.
    replace (Z.to_nat (size - bufpos))
      with (Z.to_nat len + Z.to_nat (size - (bufpos + len))) by lia.
    rewrite <- take_take_drop, drop_drop. do 3 f_equal. lia.
Qed.

Lemma write_file_index_bytes_spec (size : Z) (src : list byte) (st : state) :
  ready st ->
  (0 <= size <= Z.of_nat (length src))%Z ->
  (size < SIZE_MAX_plus_1)%Z ->
  exists st',
    returns (fun fuel => write_file_index_bytes fuel size src st) st' /\
    ready st' /\
    gIndex st' = gIndex st /\
    delivered st' ++ pending st' =
    delivered st ++ pending st ++ take (Z.to_nat size) src.
Proof.
  intros Hready Hsrc Hsize.
  destruct (write_file_index_bytes_from_spec (Z.to_nat size) size src 0 st)
    as (st' & Hrun & Hready' & Hidx & Hdel); try assumption; try lia.
  exists st'. split; [exact Hrun |]. split; [exact Hready' |].
  split; [exact Hidx |]. rewrite Hdel, Z.sub_0_r. reflexivity.
Qed.

Lemma finish_disciplined (st st' : state) :
  ready st ->
  events st' = events st ++ [Flush LZMA_FINISH (gFileIndexBufPos st)] ->
  disciplined (events st').
Proof.
  intros (_ & Hpos & Hev) ->. unfold disciplined in *.
  rewrite run_app, Hev. simpl.
  destruct (Z.leb_spec 0 (gFileIndexBufPos st)); [| lia].
  destruct (Z.ltb_spec (gFileIndexBufPos st) CHUNKSIZE); [| lia].
  reflexivity.
Qed.

Lemma take_with_nul (s : list byte) :
  take (S (strlen s)) (with_nul s) = c_str s ++ [x00].
Proof.
  unfold with_nul, c_str. induction s as [| c s IH]; [reflexivity |].
  simpl. destruct (Byte.eqb c x00) eqn:E.
  - apply byte_eqb_true in E. now subst c.
  - simpl. f_equal. exact IH.
Qed.

Lemma xle64enc_length (v : Z) : length (xle64enc v) = 8.
Proof. reflexivity. Qed.

Lemma byte_val_of_Z (z : Z) : byte_val (byte_of_Z z) = (z mod 256)%Z.
Proof.
  unfold byte_val, byte_of_Z.
  assert (Hr : (0 <= z mod 256 < 256)%Z) by (apply Z.mod_pos_bound; lia).
  destruct (Byte.of_N (Z.to_N (z mod 256))) as [b |] eqn:E.
  - apply Byte.to_of_N in E. rewrite E. lia.
  - apply Byte.of_N_None_iff in E. lia.
Qed.

(** The 8 bytes denote the offset as a 64-bit value. *)
Lemma le64dec_xle64enc (v : Z) : le64dec (xle64enc v) = to_size_t v.
Proof.
  unfold xle64enc. pose proof (ReaderFacts.to_size_t_range v) as Hv.
  set (u := to_size_t v) in *. unfold SIZE_MAX_plus_1 in Hv.
  cbn [List.seq map le64dec fold_right].
  rewrite !byte_val_of_Z, !Z.shiftr_div_pow2 by lia.
  change (8 * Z.of_nat 0)%Z with 0%Z. change (8 * Z.of_nat 1)%Z with 8%Z.
  change (8 * Z.of_nat 2)%Z with 16%Z. change (8 * Z.of_nat 3)%Z with 24%Z.
  change (8 * Z.of_nat 4)%Z with 32%Z. change (8 * Z.of_nat 5)%Z with 40%Z.
  change (8 * Z.of_nat 6)%Z with 48%Z. change (8 * Z.of_nat 7)%Z with 56%Z.
  assert (Hstep : forall k, (0 <= k)%Z ->
            (u / 2 ^ k = (u / 2 ^ k) mod 256 + 256 * (u / 2 ^ (k + 8)))%Z).
  { intros k Hk. rewrite Z.pow_add_r by lia.
    rewrite <- Z.div_div by lia. change (2 ^ 8)%Z with 256%Z.
    pose proof (Z.div_mod (u / 2 ^ k) 256). lia. }
  pose proof (Hstep 0%Z ltac:(lia)) as Hs0.
  pose proof (Hstep 8%Z ltac:(lia)) as Hs8.
  pose proof (Hstep 16%Z ltac:(lia)) as Hs16.
  pose proof (Hstep 24%Z ltac:(lia)) as Hs24.
  pose proof (Hstep 32%Z ltac:(lia)) as Hs32.
  pose proof (Hstep 40%Z ltac:(lia)) as Hs40.
  pose proof (Hstep 48%Z ltac:(lia)) as Hs48.
  pose proof (Hstep 56%Z ltac:(lia)) as Hs56.
  change (0 + 8)%Z with 8%Z in *. change (8 + 8)%Z with 16%Z in *.
  change (16 + 8)%Z with 24%Z in *. change (24 + 8)%Z with 32%Z in *.
  change (32 + 8)%Z with 40%Z in *. change (40 + 8)%Z with 48%Z in *.
  change (48 + 8)%Z with 56%Z in *. change (56 + 8)%Z with 64%Z in *.
  assert (Htop : (u / 2 ^ 64 = 0)%Z) by (apply Z.div_small; lia).
  change (2 ^ 0)%Z with 1%Z in *. rewrite Z.div_1_r in *.
  clear Hstep. lia.
Qed.

(** The loop over the chain stages and delivers the payload. *)
Lemma write_entries_spec (fs : list FileIndex.file_index_t) (st : state) :
  ready st ->
  Forall (fun f =>
            match FileIndex.name f with
            | Some n => (Z.of_nat (strlen n) + 1 < SIZE_MAX_plus_1)%Z
            | None => True
            end) fs ->
  exists st',
    returns (fun fuel => write_entries fuel fs st) st' /\
    ready st' /\
    gIndex st' = gIndex st /\
    delivered st' ++ pending st' = delivered st ++ pending st ++ payload fs.
Proof.
  revert st. induction fs as [| f fs IH]; intros st Hready Hall.
  - exists st. split; [now exists 0 |]. split; [exact Hready |].
    split; [reflexivity |]. simpl. now rewrite app_nil_r.
  - apply Forall_cons in Hall as [Hf Hall].
    set (name := match FileIndex.name f with Some n => n | None => [] end).
    assert (Hname : (Z.of_nat (strlen name) + 1 < SIZE_MAX_plus_1)%Z).
    { unfold name. destruct (FileIndex.name f); [exact Hf | reflexivity]. }
    assert (Hsz : to_size_t (Z.of_nat (strlen name) + 1)
                  = Z.of_nat (S (strlen name))).
    { rewrite ReaderFacts.to_size_t_id by lia. lia. }
    destruct (write_file_index_bytes_spec (Z.of_nat (S (strlen name)))
                (with_nul name) st)
      as (st1 & [n1 Hrun1] & Hready1 & Hidx1 & Hdel1); try assumption.
    { unfold with_nul. rewrite length_app. simpl.
      pose proof (strlen_le name). lia. }
    { lia. }
    destruct (write_file_index_bytes_spec 8 (xle64enc (FileIndex.offset f))
                st1)
      as (st2 & [n2 Hrun2] & Hready2 & Hidx2 & Hdel2); try assumption.
    { rewrite xle64enc_length. lia. }
    { reflexivity. }
    destruct (IH st2 Hready2 Hall)
      as (st' & [n' Hrun'] & Hready' & Hidx' & Hdel').
    exists st'. split.
    + exists (Nat.max n1 (Nat.max n2 n')). intros fuel Hfuel.
      cbn [write_entries]. fold name. rewrite Hsz.
      rewrite Hrun1 by lia. cbn [mbind outcome_bind].
      rewrite Hrun2 by lia. cbn [mbind outcome_bind]. apply Hrun'. lia.
    + split; [exact Hready' |]. split; [congruence |].
      rewrite Hdel', app_assoc, Hdel2, app_assoc, Hdel1.
      rewrite Nat2Z.id, take_with_nul.
      change (Z.to_nat 8) with (length (xle64enc (FileIndex.offset f))).
      rewrite firstn_all. simpl. unfold record_of. fold name.
      assert (Hc : match FileIndex.name f with
                   | Some n => c_str n
                   | None => []
                   end = c_str name).
      { unfold name. now destruct (FileIndex.name f). }
      rewrite Hc. now rewrite <- !app_assoc.
Qed.

Lemma ready_start (out : list byte) (idx : list (Z * Z)) :
  ready (start out idx).
Proof.
  unfold ready, start. cbn. rewrite repeat_length.
  split; [lia |]. split; [lia | reflexivity].
Qed.

(** A sequence of writes and the final flush: the run returns, the log of
    what the coder took grows by what was staged and by the arrays, and
    the buffer is flushed with RUN exactly when a copy has filled it. *)
Lemma write_all_spec (arrays : list (list byte)) (st : state) :
  ready st ->
  Forall (fun a => (Z.of_nat (length a) < SIZE_MAX_plus_1)%Z) arrays ->
  exists st',
    returns (fun fuel => write_all fuel arrays st) st' /\
    delivered st' = delivered st ++ pending st ++ concat arrays /\
    gFileIndexBufPos st' = 0%Z /\
    disciplined (events st').
Proof.
  revert st.
  induction arrays as [| a arrays IH]; intros st Hready Hall.
  - (* the final flush *)
    pose proof Hready as (Hbuf & Hpos & _).
    destruct (write_file_index_buf_spec LZMA_FINISH st)
      as (st' & Hrun & _ & Hp & _ & Hdel & Hev); [lia |].
    exists st'. split; [exact Hrun |]. simpl. rewrite app_nil_r.
    split; [exact Hdel |]. split; [exact Hp |].
    now apply (finish_disciplined st).
  - (* one write, then the rest *)
    apply Forall_cons in Hall as [Ha Hall].
    destruct (write_file_index_bytes_spec (Z.of_nat (length a)) a st)
      as (st1 & [n1 Hrun1] & Hready1 & _ & Hdel1); try assumption; try lia.
    destruct (IH st1 Hready1 Hall) as (st' & [n' Hrun'] & Hdel' & Hp & Hev).
    exists st'. split.
    + exists (Nat.max n1 n'). intros fuel Hfuel. simpl.
      rewrite Hrun1 by lia. cbn [mbind outcome_bind]. apply Hrun'. lia.
    + split; [| now split].
      rewrite Hdel', app_assoc, Hdel1, Nat2Z.id, firstn_all.
      simpl. now rewrite <- !app_assoc.
Qed.

End Codec.
End IndexWriterFacts.

(** ** The file-index writer and the coder *)

Module IndexCoderFacts.
Import IndexWriter.

Section Coder.
Context `{pixz_h} `{liblzma}.

Lemma fwrite_produced (made out out' : list byte) :
  (if is_nil made then Done out
   else fwrite made (Z.of_nat (length made)) out) = Done out' ->
  out' = out ++ made.
Proof.
  destruct made as [| b made]; cbn [is_nil].
  - intros [= <-]. now rewrite app_nil_r.
  - unfold fwrite.
    destruct (Z.of_nat (length (b :: made)) =? 0)%Z; [discriminate |].
    rewrite Z.leb_refl, Nat2Z.id, firstn_all. now intros [= <-].
Qed.

(** The loop of a flush drives the coder on, logs what the coder takes
    and appends what the coder makes to the output file. *)
Lemma code_loop_coded (c0 : lzma_coder) (fuel : nat) (action : lzma_action)
  (err : lzma_ret) (avail : list byte) (c : lzma_coder)
  (out dl taken made : list byte) (c' : lzma_coder) (out' dl' : list byte) :
  coded c0 taken made c ->
  code_loop fuel action err avail c out dl = Done (c', out', dl') ->
  exists taken' made',
    coded c0 (taken ++ taken') (made ++ made') c' /\
    dl' = dl ++ taken' /\ out' = out ++ made'.
Proof.
  revert err avail c out dl taken made.
  induction fuel as [| k IH]; intros err avail c out dl taken made Hc;
    cbn [code_loop];
    (destruct (negb (is_stream_end err)
               && (is_finish action || negb (is_nil avail)));
     [| intros [= <- <- <-]; exists [], []; now rewrite !app_nil_r]);
    [discriminate |].
  set (r := lzma_code c action avail CHUNKSIZE).
  destruct (ret r) eqn:Er; [| | discriminate].
  all: destruct (if is_nil (produced r) then Done out else _)
         as [out1 | | | |] eqn:Eout; try discriminate.
  all: apply fwrite_produced in Eout; subst out1.
  all: cbn [mbind outcome_bind]; intros Hrun.
  all: destruct (IH _ _ _ _ _ _ _
                   (coded_call c0 c taken made action avail Hc) Hrun)
         as (t' & m' & Hc' & -> & ->).
  all: exists (take (consumed r) avail ++ t'), (produced r ++ m').
  all: now rewrite !app_assoc.
Qed.

(** With FINISH the loop ends when the coder has reported the end of the
    stream. *)
Lemma code_loop_finished (c0 : lzma_coder) (fuel : nat) (avail : list byte)
  (c : lzma_coder) (out dl taken made : list byte) (c' : lzma_coder)
  (out' dl' : list byte) :
  coded c0 taken made c ->
  code_loop fuel LZMA_FINISH LZMA_OK avail c out dl = Done (c', out', dl') ->
  exists taken' made',
    finished c0 (taken ++ taken') (made ++ made') c' /\
    dl' = dl ++ taken' /\ out' = out ++ made'.
Proof.
  revert avail c out dl taken made.
  induction fuel as [| k IH]; intros avail c out dl taken made Hc;
    cbn [code_loop is_stream_end is_finish negb andb orb];
    [discriminate |].
  set (r := lzma_code c LZMA_FINISH avail CHUNKSIZE).
  destruct (ret r) eqn:Er; [| | discriminate].
  all: destruct (if is_nil (produced r) then Done out else _)
         as [out1 | | | |] eqn:Eout; try discriminate.
  all: apply fwrite_produced in Eout; subst out1.
  all: cbn [mbind outcome_bind]; intros Hrun.
  - destruct (IH _ _ _ _ _ _
                (coded_call c0 c taken made LZMA_FINISH avail Hc) Hrun)
      as (t' & m' & Hc' & -> & ->).
    exists (take (consumed r) avail ++ t'), (produced r ++ m').
    now rewrite !app_assoc.
  - assert (Hstop : code_loop k LZMA_FINISH LZMA_STREAM_END
                      (drop (consumed r) avail) (next_coder r)
                      (out ++ produced r) (dl ++ take (consumed r) avail)
                    = Done (next_coder r, out ++ produced r,
                            dl ++ take (consumed r) avail))
      by (destruct k; reflexivity).
    rewrite Hstop in Hrun. injection Hrun as <- <- <-.
    exists (take (consumed r) avail), (produced r).
    split; [| now split].
    exists c, taken, made, avail. now repeat split.
Qed.

Lemma tracks_refl (st : state) : tracks st st.
Proof.
  exists [], []. rewrite !app_nil_r. split; [constructor | now split].
Qed.

Lemma write_file_index_buf_tracks (st0 : state) (fuel : nat)
  (action : lzma_action) (st st' : state) :
  tracks st0 st ->
  write_file_index_buf fuel action st = Done st' ->
  tracks st0 st'.
Proof.
  intros (taken & made & Hc & Hdl & Hout). unfold write_file_index_buf.
  destruct (_ <=? _)%Z; [| discriminate].
  destruct (code_loop _ _ _ _ _ _ _) as [[[c out] dl] | | | |] eqn:Eloop;
    try discriminate.
  cbn [mbind outcome_bind]. intros [= <-].
  destruct (code_loop_coded _ _ _ _ _ _ _ _ _ _ _ _ _ Hc Eloop)
    as (t' & m' & Hc' & -> & ->).
  exists (taken ++ t'), (made ++ m'). cbn [gStream delivered gOutFile].
  rewrite Hdl, Hout, !app_assoc. now repeat split.
Qed.

(** The final flush runs the coder to the end of the stream. *)
Lemma write_file_index_buf_finishes (st0 : state) (fuel : nat)
  (st st' : state) :
  tracks st0 st ->
  write_file_index_buf fuel LZMA_FINISH st = Done st' ->
  exists taken made,
    finished (gStream st0) taken made (gStream st') /\
    delivered st' = delivered st0 ++ taken /\
    gOutFile st' = gOutFile st0 ++ made.
Proof.
  intros (taken & made & Hc & Hdl & Hout). unfold write_file_index_buf.
  destruct (_ <=? _)%Z; [| discriminate].
  destruct (code_loop _ _ _ _ _ _ _) as [[[c out] dl] | | | |] eqn:Eloop;
    try discriminate.
  cbn [mbind outcome_bind]. intros [= <-].
  destruct (code_loop_finished _ _ _ _ _ _ _ _ _ _ _ Hc Eloop)
    as (t' & m' & Hc' & -> & ->).
  exists (taken ++ t'), (made ++ m'). cbn [gStream delivered gOutFile].
  rewrite Hdl, Hout, !app_assoc. now repeat split.
Qed.

Lemma set_buf_tracks (st0 : state) (buf : list byte) (pos : Z)
  (ev : list event) (st : state) :
  tracks st0 st -> tracks st0 (set_buf buf pos ev st).
Proof. intros Ht. exact Ht. Qed.

Lemma write_file_index_bytes_from_tracks (st0 : state) (fuel : nat)
  (size : Z) (buf : list byte) (bufpos : Z) (st st' : state) :
  tracks st0 st ->
  write_file_index_bytes_from fuel size buf bufpos st = Done st' ->
  tracks st0 st'.
Proof.
  revert bufpos st.
  induction fuel as [| k IH]; intros bufpos st Ht;
    cbn [write_file_index_bytes_from];
    (destruct (bufpos <? size)%Z; [| now intros [= <-]]);
    [discriminate |].
  destruct (memcpy _ _ _ _ _) as [b | | | |]; try discriminate.
  cbn [mbind outcome_bind].
  match goal with
  | |- context [set_buf b ?pos [Fill ?pos] st] =>
      set (st1 := set_buf b pos [Fill pos] st);
      destruct (pos =? CHUNKSIZE)%Z
  end.
  - destruct (write_file_index_buf k LZMA_RUN st1) as [st2 | | | |] eqn:Ebuf;
      try discriminate.
    cbn [mbind outcome_bind]. apply IH.
    apply set_buf_tracks.
    eapply write_file_index_buf_tracks; [| exact Ebuf].
    now apply set_buf_tracks.
  - cbn [mbind outcome_bind]. apply IH. now apply set_buf_tracks.
Qed.

Lemma write_entries_tracks (st0 : state) (fuel : nat)
  (fs : list FileIndex.file_index_t) (st st' : state) :
  tracks st0 st -> write_entries fuel fs st = Done st' -> tracks st0 st'.
Proof.
  revert st. induction fs as [| f fs IH]; intros st Ht; cbn [write_entries].
  - now intros [= <-].
  - unfold write_file_index_bytes.
    destruct (write_file_index_bytes_from fuel _ _ 0 st) as [st1 | | | |]
      eqn:E1; try discriminate.
    cbn [mbind outcome_bind].
    destruct (write_file_index_bytes_from fuel 8 _ 0 st1) as [st2 | | | |]
      eqn:E2; try discriminate.
    cbn [mbind outcome_bind]. apply IH.
    eapply write_file_index_bytes_from_tracks; [| exact E2].
    eapply write_file_index_bytes_from_tracks; [| exact E1]. exact Ht.
Qed.

(** A sequence of writes and the final flush run the coder, from where it
    was, to the end of the stream. *)
Lemma write_all_finishes (st0 : state) (fuel : nat)
  (arrays : list (list byte)) (st st' : state) :
  tracks st0 st -> write_all fuel arrays st = Done st' ->
  exists taken made,
    finished (gStream st0) taken made (gStream st') /\
    delivered st' = delivered st0 ++ taken /\
    gOutFile st' = gOutFile st0 ++ made.
Proof.
  revert st. induction arrays as [| a arrays IH]; intros st Ht;
    cbn [write_all].
  - now apply write_file_index_buf_finishes.
  - unfold write_file_index_bytes.
    destruct (write_file_index_bytes_from fuel _ _ 0 st) as [st1 | | | |]
      eqn:E1; try discriminate.
    cbn [mbind outcome_bind]. apply IH.
    eapply write_file_index_bytes_from_tracks; [| exact E1]. exact Ht.
Qed.

End Coder.

End IndexCoderFacts.

(** What the storing coder of the small instance has kept is what it took
    and has not yet handed out. *)
Lemma store_coded (c taken made c' : list byte) :
  @IndexWriter.coded Small.h Small.store c taken made c' ->
  c ++ taken = made ++ c'.
Proof.
  induction 1 as [c | c c1 taken made action avail _ IH].
  - now rewrite app_nil_r.
  - cbn [lzma_code Small.store]. unfold Small.store_code.
    assert (Htake : forall l : list byte,
              take (Nat.min 3 (length l)) l = take 3 l)
      by (intros l; now rewrite <- take_take, firstn_all).
    destruct avail as [| b avail], action;
      cbn [consumed produced next_coder];
      rewrite ?Htake, ?take_0, ?take_nil, ?app_nil_r.
    + exact IH.
    + now rewrite <- app_assoc, take_drop.
    + now rewrite app_assoc, IH, app_assoc.
    + now rewrite app_assoc, IH, app_assoc.
Qed.

(** Once it has reported the end of the stream, the storing coder has
    handed out all that it took. *)
Lemma store_finished (c taken made c' : list byte) :
  @IndexWriter.finished Small.h Small.store c taken made c' ->
  c ++ taken = made /\ c' = [].
Proof.
  intros (c1 & taken1 & made1 & avail & Hc & Hret & -> & -> & ->).
  apply store_coded in Hc.
  cbn [lzma_code Small.store] in *. unfold Small.store_code in *.
  destruct avail as [| b avail]; cbn [ret consumed produced next_coder take]
    in *; [| discriminate].
  destruct (Nat.leb_spec (length c1)
              (Z.to_nat (Z.max 1 (@CHUNKSIZE Small.h)))) as [Hle | _];
    [| discriminate].
  rewrite take_ge, drop_ge by exact Hle.
  now rewrite !app_nil_r.
Qed.

(** The storing coder of the small instance keeps the contract. *)
Lemma store_contract : @IndexWriter.codec_contract Small.store Small.store_work.
Proof.
  split.
  - discriminate.
  - intros c a i o. cbn. unfold Small.store_code.
    destruct i, a; cbn; try discriminate.
    destruct (length c <=? Z.to_nat (Z.max 1 o)); discriminate.
  - intros c a i o. cbn -[Nat.min]. unfold Small.store_code.
    destruct i, a; cbn -[Nat.min]; lia.
  - intros c a i o. cbn. unfold Small.store_code.
    destruct i, a; cbn; try discriminate. reflexivity.
  - intros c a i o Hcall. cbn -[Nat.min Nat.mul take drop].
    unfold Small.store_code, Small.store_work.
    destruct i as [| b i], a; cbn -[Nat.min Nat.mul take drop].
    + destruct Hcall; congruence.
    + destruct (Nat.leb_spec (length c) (Z.to_nat (Z.max 1 o)));
        [discriminate |].
      intros _. rewrite length_drop. lia.
    + intros _. rewrite length_app, length_take. simpl length. lia.
    + intros _. rewrite length_app, length_take. simpl length. lia.
Qed.

(** C10.  The staging buffer is transparent: after any sequence of writes
    and the final flush with FINISH, the run returns and the block encoder
    itself has been run, from the coder it was, to the end of the stream
    by calls of [lzma_code] that took exactly the bytes staged before and
    then the arrays written, in order; what these calls made is what the
    output file has grown by.  The buffer position stays within CHUNKSIZE
    and the buffer is flushed with RUN exactly when a copy has filled it
    (the history of the buffer is disciplined). *)
Theorem staging_buffer_is_transparent `{pixz_h} `{liblzma}
  (work : lzma_coder -> nat -> nat) (arrays : list (list byte))
  (st : IndexWriter.state) :
  (0 < CHUNKSIZE < SIZE_MAX_plus_1)%Z ->
  IndexWriter.codec_contract work ->
  IndexWriter.ready st ->
  Forall (fun a => (Z.of_nat (length a) < SIZE_MAX_plus_1)%Z) arrays ->
  exists st' made,
    IndexWriter.returns
      (fun fuel => IndexWriter.write_all fuel arrays st) st' /\
    IndexWriter.finished (IndexWriter.gStream st)
      (IndexWriter.pending st ++ concat arrays) made
      (IndexWriter.gStream st') /\
    IndexWriter.gOutFile st' = IndexWriter.gOutFile st ++ made /\
    IndexWriter.delivered st' =
      IndexWriter.delivered st ++ IndexWriter.pending st ++ concat arrays /\
    IndexWriter.gFileIndexBufPos st' = 0%Z /\
    IndexWriter.disciplined (IndexWriter.events st').
Proof.
  intros Hchunk Hcontract Hready Hall.
  destruct (IndexWriterFacts.write_all_spec work Hcontract Hchunk arrays st
              Hready Hall) as (st' & [n Hrun] & Hdel & Hp & Hev).
  destruct (IndexCoderFacts.write_all_finishes st n arrays st st'
              (IndexCoderFacts.tracks_refl st) (Hrun n (le_n n)))
    as (taken & made & Hfin & Hdl & Hout).
  rewrite Hdel in Hdl. apply app_inv_head in Hdl. subst taken.
  exists st', made. split; [now exists n |].
  split; [exact Hfin |]. split; [exact Hout |]. now repeat split.
Qed.

(** A witness of C10: four arrays through a buffer of 4 bytes, to a coder
    that stores what it takes and hands it out at the end. *)
Lemma staging_buffer_is_transparent_witness :
  exists st',
    IndexWriter.returns
      (fun fuel =>
         @IndexWriter.write_all Small.h Small.store fuel
           [Small.bytes "abc"; Small.bytes "defghijklm"; Small.bytes "";
            Small.bytes "n"]
           (@IndexWriter.start Small.h Small.store [] [])) st' /\
    IndexWriter.gOutFile st' = Small.bytes "abcdefghijklmn" /\
    IndexWriter.gStream st' = [] /\
    IndexWriter.delivered st' = Small.bytes "abcdefghijklmn".
Proof.
  assert (Hchunk : (0 < @CHUNKSIZE Small.h < SIZE_MAX_plus_1)%Z)
    by (split; reflexivity).
  assert (Hall : Forall (fun a => (Z.of_nat (length a) < SIZE_MAX_plus_1)%Z)
                   [Small.bytes "abc"; Small.bytes "defghijklm";
                    Small.bytes ""; Small.bytes "n"])
    by (repeat constructor).
  destruct (@staging_buffer_is_transparent Small.h Small.store
              Small.store_work _ _ Hchunk store_contract
              (@IndexWriterFacts.ready_start Small.h Small.store Hchunk [] [])
              Hall)
    as (st' & made & Hret & Hfin & Hout & Hdel & _).
  apply store_finished in Hfin as [Hmade Hend].
  exists st'. split; [exact Hret |].
  split; [rewrite Hout, <- Hmade; reflexivity |].
  split; [exact Hend |]. rewrite Hdel. reflexivity.
Defined.

(** C4.  For every chain of entries, [write_file_index] returns, and the
    block encoder, set up anew behind the block header, has been run to
    the end of the stream by calls of [lzma_code] that took exactly the
    records of the entries in chain order: these bytes are the
    uncompressed payload of the file-index block, and what the calls made
    of them follows the block header in the output file.  The record of
    an entry is its name bytes, one NUL byte and 8 bytes that denote its
    offset least significant byte first, and an entry with a NULL name
    contributes the NUL byte alone before its offset.  The block, as the
    coder has filled it in, is appended to the stream index. *)
Theorem file_index_payload `{pixz_h} `{liblzma}
  (work : lzma_coder -> nat -> nat) (fs : list FileIndex.file_index_t)
  (out : list byte) (idx : list (Z * Z)) :
  (0 < CHUNKSIZE < SIZE_MAX_plus_1)%Z ->
  IndexWriter.codec_contract work ->
  Forall (fun f =>
            match FileIndex.name f with
            | Some n => (Z.of_nat (strlen n) + 1 < SIZE_MAX_plus_1)%Z
            | None => True
            end) fs ->
  exists st' made,
    IndexWriter.returns
      (fun fuel =>
         IndexWriter.write_file_index fuel fs (IndexWriter.start out idx))
      st' /\
    IndexWriter.finished lzma_block_encoder
      (flat_map IndexWriter.record_of fs) made (IndexWriter.gStream st') /\
    IndexWriter.gOutFile st' = out ++ block_header ++ made /\
    IndexWriter.delivered st' = flat_map IndexWriter.record_of fs /\
    (forall f, In f fs ->
       exists le,
         IndexWriter.record_of f =
           match FileIndex.name f with Some n => c_str n | None => [] end
           ++ [x00] ++ le /\
         length le = 8 /\
         IndexWriter.le64dec le = to_size_t (FileIndex.offset f)) /\
    (forall f, In f fs -> FileIndex.name f = None ->
       IndexWriter.record_of f
       = x00 :: IndexWriter.xle64enc (FileIndex.offset f)) /\
    IndexWriter.gIndex st' =
      idx ++ [(lzma_block_unpadded_size
                 (coder_block (IndexWriter.gStream st')),
               uncompressed_size (coder_block (IndexWriter.gStream st')))].
Proof.
  intros Hchunk Hcontract Hall.
  set (st0 :=
    {| IndexWriter.gFileIndexBuf :=
         IndexWriter.gFileIndexBuf (IndexWriter.start out idx);
       IndexWriter.gFileIndexBufPos :=
         IndexWriter.gFileIndexBufPos (IndexWriter.start out idx);
       IndexWriter.gStream := lzma_block_encoder;
       IndexWriter.gOutFile := out ++ block_header;
       IndexWriter.gIndex := IndexWriter.gIndex (IndexWriter.start out idx);
       IndexWriter.delivered := [];
       IndexWriter.events :=
         IndexWriter.events (IndexWriter.start out idx) |}).
  assert (Hready0 : IndexWriter.ready st0)
    by apply (IndexWriterFacts.ready_start Hchunk out idx).
  (* the block header goes to the output file *)
  assert (Hhdr : fwrite block_header (Z.of_nat (length block_header)) out
                 = Done (out ++ block_header)).
  { unfold fwrite.
    pose proof (IndexWriter.header_present work Hcontract) as Hne.
    destruct (Z.eqb_spec (Z.of_nat (length block_header)) 0) as [E | _].
    - destruct block_header; [congruence | simpl in E; lia].
    - rewrite Z.leb_refl, Nat2Z.id, firstn_all. reflexivity. }
  (* the entries are staged, then the buffer is flushed with FINISH *)
  destruct (IndexWriterFacts.write_entries_spec work Hcontract Hchunk fs st0
              Hready0 Hall)
    as (st1 & [n1 Hrun1] & Hready1 & Hidx1 & Hdel1).
  pose proof Hready1 as (Hbuf1 & Hpos1 & _).
  destruct (IndexWriterFacts.write_file_index_buf_spec work Hcontract
              LZMA_FINISH st1)
    as (st2 & [n2 Hrun2] & _ & _ & Hidx2 & Hdel2 & Hev2); [lia |].
  (* what the coder went through meanwhile *)
  pose proof (IndexCoderFacts.write_entries_tracks st0 _ fs st0 st1
                (IndexCoderFacts.tracks_refl st0)
                (Hrun1 (Nat.max n1 n2) (Nat.le_max_l n1 n2))) as Htr1.
  destruct (IndexCoderFacts.write_file_index_buf_finishes st0 _ st1 st2 Htr1
              (Hrun2 (Nat.max n1 n2) (Nat.le_max_r n1 n2)))
    as (taken & made & Hfin & Hdl & Hout).
  assert (Hpay : IndexWriter.delivered st2
                 = flat_map IndexWriter.record_of fs)
    by now rewrite Hdel2, Hdel1.
  cbn [st0 IndexWriter.delivered IndexWriter.gOutFile IndexWriter.gStream app]
    in Hdl, Hout, Hfin.
  rewrite Hpay in Hdl. subst taken.
  eexists. exists made. split.
  { exists (Nat.max n1 n2). intros fuel Hfuel.
    unfold IndexWriter.write_file_index.
    cbn [IndexWriter.gOutFile IndexWriter.start].
    rewrite Hhdr. cbn [mbind outcome_bind].
    fold st0. rewrite Hrun1 by lia. cbn [mbind outcome_bind].
    rewrite Hrun2 by lia. cbn [mbind outcome_bind]. reflexivity. }
  cbn [IndexWriter.delivered IndexWriter.gIndex IndexWriter.gStream
       IndexWriter.gOutFile].
  split; [exact Hfin |].
  split; [now rewrite Hout, <- app_assoc |].
  split; [exact Hpay |].
  split; [| split].
  - intros f _. exists (IndexWriter.xle64enc (FileIndex.offset f)).
    split; [reflexivity |]. split; [reflexivity |].
    apply IndexWriterFacts.le64dec_xle64enc.
  - intros f _ Hnull. unfold IndexWriter.record_of. now rewrite Hnull.
  - now rewrite Hidx2, Hidx1.
Qed.

(** A witness of C4: the index of ["a"] at 0, a fragment, ["foo"] at
    1536 and the sentinel at 4096, to a coder that stores what it takes
    and hands it out at the end. *)
Lemma file_index_payload_witness :
  exists st',
    IndexWriter.returns
      (fun fuel =>
         @IndexWriter.write_file_index Small.h Small.store fuel
           (FileIndex.file_index
              (FileIndex.add_files
                 [(0%Z, Some (Small.bytes "a"));
                  (512%Z, Some (Small.bytes "._foo"));
                  (1536%Z, Some (Small.bytes "foo"));
                  (4096%Z, None)] FileIndex.init))
           (@IndexWriter.start Small.h Small.store [] [])) st' /\
    IndexWriter.gOutFile st' =
      repeat x00 12
      ++ Small.bytes "a" ++ [x00; x00; x00; x00; x00; x00; x00; x00; x00]
      ++ Small.bytes "foo" ++ [x00; x00; x02; x00; x00; x00; x00; x00; x00]
      ++ [x00; x00; x10; x00; x00; x00; x00; x00; x00] /\
    IndexWriter.gStream st' = [] /\
    IndexWriter.gIndex st' = [(12, 0)]%Z.
Proof.
  assert (Hchunk : (0 < @CHUNKSIZE Small.h < SIZE_MAX_plus_1)%Z)
    by (split; reflexivity).
  set (fs := FileIndex.file_index _).
  assert (Hall : Forall (fun f =>
            match FileIndex.name f with
            | Some n => (Z.of_nat (strlen n) + 1 < SIZE_MAX_plus_1)%Z
            | None => True
            end) fs)
    by (repeat constructor).
  destruct (@file_index_payload Small.h Small.store Small.store_work fs
              [] [] Hchunk store_contract Hall)
    as (st' & made & Hret & Hfin & Hout & _ & _ & _ & Hidx).
  apply store_finished in Hfin as [Hmade Hend].
  exists st'. split; [exact Hret |].
  split; [rewrite Hout, <- Hmade; reflexivity |].
  split; [exact Hend |]. rewrite Hidx. reflexivity.
Defined.

(** ** The lister *)

Module ListerFacts.
Import Lister.

#[local] Open Scope string_scope.

Lemma string_length_append (s1 s2 : string) :
  String.length (s1 ++ s2) = String.length s1 + String.length s2.
Proof. induction s1 as [| c s1 IH]; simpl; [reflexivity | now rewrite IH]. Qed.

Lemma spaces_length (n : nat) : String.length (spaces n) = n.
Proof. induction n as [| n IH]; simpl; [reflexivity | now rewrite IH]. Qed.



(** A numeral read back and printed again is itself exactly when it has
    a digit and no zero in front of another. *)
Lemma numeral_is_decimal (s : string) (v : Z) :
  is_numeral s v -> s = decimal v.
Proof.
  intros (Hread & Hsome & Hzero). unfold reads_as in Hread. unfold decimal.
  destruct (NilEmpty.uint_of_string s) as [d |] eqn:Ed; [| discriminate].
  apply NilEmpty.sus in Ed. injection Hread as <-.
  rewrite N2Z.id, DecimalN.Unsigned.to_of. subst s.
  assert (Hnorm : Decimal.unorm d = d).
  { destruct d as [| u | u | u | u | u | u | u | u | u | u];
      try reflexivity.
    - now contradiction Hsome.
    - specialize (Hzero _ eq_refl). destruct u; try discriminate.
      reflexivity. }
  now rewrite Hnorm.
Qed.



Lemma right_aligned_9 (v : Z) (field : string) :
  right_aligned 9 (decimal v) field -> field = fmt_9ju v.
Proof.
  intros (k & -> & Hlen). unfold fmt_9ju.
  rewrite string_length_append, spaces_length in Hlen.
  f_equal. f_equal. lia.
Qed.

(** The words of the specification leave one line only: the one that
    [printf] prints. *)
Lemma block_line_unique (b : Z * Z) (line : string) :
  is_block_line b line -> line = print_block b.
Proof.
  intros (dl & dr & l & r & Hdl & Hdr & Hl & Hr & ->).
  apply numeral_is_decimal in Hdl, Hdr. subst dl dr.
  apply right_aligned_9 in Hl, Hr. now subst l r.
Qed.

Lemma option_loop_done (tar : bool) (chs : list byte) (res : bool) :
  option_loop tar chs = Done res ->
  res = tar && negb (existsb (fun ch => Byte.eqb ch "t"%byte) chs) /\
  Forall (fun ch => ch = "t"%byte) chs.
Proof.
  revert tar. induction chs as [| ch chs IH]; intros tar; simpl.
  - intros [= <-]. now rewrite andb_true_r.
  - destruct (Byte.eqb ch "t"%byte) eqn:E; [| discriminate].
    intros Hrun. destruct (IH _ Hrun) as [-> Hall]. simpl.
    split; [now rewrite andb_false_r |].
    constructor; [now apply byte_eqb_true | exact Hall].
Qed.

End ListerFacts.



(** ** The writer leaves nothing behind *)

(** X1.  When the blocks that arrive carry the sequence numbers 0 to n - 1,
    each once and in any order, the main loop returns with every block
    written, in the order of the sequence numbers, and with nothing
    pending. *)
Theorem all_blocks_written `{liblzma} (arrivals : list io_block_t) :
  Forall Writer.encoded arrivals ->
  (Z.of_nat (length arrivals) < SIZE_MAX_plus_1)%Z ->
  map seq arrivals ≡ₚ seqZ 0 (Z.of_nat (length arrivals)) ->
  exists final,
    Writer.main_loop arrivals Writer.start = Done final /\
    Writer.ibs final = [] /\
    Writer.gReadQ final ≡ₚ arrivals /\
    map seq (Writer.gReadQ final) = seqZ 0 (Z.of_nat (length arrivals)) /\
    Writer.gOutFile final
    = concat (map Writer.block_bytes (Writer.gReadQ final)).
Proof.
  intros Henc Hmax Hseqs.
  destruct (WriterFacts.main_loop_spec arrivals Writer.start)
    as (final & Hrun & Hw & _ & Hdr & _ & Hperm).
  - apply WriterFacts.wrote_start.
  - constructor.
  - constructor.
  - exact Henc.
  - cbn. lia.
  - cbn in Hperm. destruct Hw as (Hseq & Hn & Hout & _).
    assert (Hlen : length arrivals
                   = length (Writer.gReadQ final) + length (Writer.ibs final)).
    { rewrite <- Hperm. apply length_app. }
    assert (Hnone : Writer.ibs final = []).
    { destruct (Writer.ibs final) as [| ib rest] eqn:Epend; [reflexivity |].
      exfalso.
      assert (Hin : Writer.next_seq final ∈ map seq arrivals).
      { rewrite Hseqs. apply elem_of_seqZ. simpl in Hlen. lia. }
      rewrite <- Hperm, map_app in Hin.
      apply elem_of_app in Hin as [Hin | Hin].
      - rewrite Hseq in Hin. apply elem_of_seqZ in Hin. lia.
      - apply list_elem_of_In, in_map_iff in Hin as (b & Hb & Hbin).
        unfold Writer.drained in Hdr. rewrite Epend in Hdr.
        rewrite Forall_forall in Hdr.
        apply (Hdr b); [now apply list_elem_of_In | exact Hb]. }
    exists final. split; [exact Hrun |]. split; [exact Hnone |].
    rewrite Hnone, app_nil_r in Hperm. rewrite Hnone in Hlen.
    split; [exact Hperm |]. split; [| exact Hout].
    rewrite Hseq, Hn. f_equal. simpl in Hlen. lia.
Qed.

(** A witness of X1: the four blocks that arrive as 2, 0, 3, 1. *)
Lemma all_blocks_written_witness :
  exists final,
    @Writer.main_loop Small.store Small.arrivals Writer.start = Done final /\
    Writer.ibs final = [] /\
    map seq (Writer.gReadQ final) = [0; 1; 2; 3]%Z.
Proof.
  assert (Henc : Forall Writer.encoded Small.arrivals).
  { repeat constructor; vm_compute; discriminate. }
  assert (Hmax : (Z.of_nat (length Small.arrivals) < SIZE_MAX_plus_1)%Z)
    by reflexivity.
  assert (Hseqs : map seq Small.arrivals
                  ≡ₚ seqZ 0 (Z.of_nat (length Small.arrivals))).
  { change (map seq Small.arrivals) with [2; 0; 3; 1]%Z.
    change (seqZ 0 (Z.of_nat (length Small.arrivals))) with [0; 1; 2; 3]%Z.
    etrans; [apply Permutation_swap |]. apply Permutation_skip.
    exact (Permutation_app_comm [2; 3]%Z [1]%Z). }
  destruct (@all_blocks_written Small.store Small.arrivals Henc Hmax Hseqs)
    as (final & Hrun & Hnone & _ & Hs & _).
  exists final. split; [exact Hrun |]. split; [exact Hnone |]. exact Hs.
Defined.

(** ** More on multi-header detection and the file index *)

Module FileIndexMore.
Import FileIndex FileIndexFacts FileIndexOrder.

Lemma c_str_app_no_nul (s t : list byte) :
  ~ In x00 s -> c_str (s ++ t) = s ++ c_str t.
Proof.
  unfold c_str. induction s as [| c s IH]; intros Hs; [reflexivity |].
  simpl. destruct (Byte.eqb c x00) eqn:E.
  - apply byte_eqb_true in E. subst c. simpl in Hs. tauto.
  - simpl. f_equal. apply IH. simpl in Hs. tauto.
Qed.

Lemma c_str_cons (c : byte) (t : list byte) :
  c <> x00 -> c_str (c :: t) = c :: c_str t.
Proof.
  intros Hc. unfold c_str. simpl.
  apply byte_eqb_false in Hc. now rewrite Hc.
Qed.

Lemma c_str_subset (s : list byte) (c : byte) : In c (c_str s) -> In c s.
Proof.
  intros H. rewrite (c_str_split s). apply in_or_app. now left.
Qed.

(** What the names of the entries are: the names of the calls that are
    not fragments, in order. *)
Lemma entries_names (calls : list call) :
  map fst (entries (add_files calls init)) =
  map (fun c : call => match snd c with
                       | Some n => Some (xstrdup n)
                       | None => None
                       end)
      (List.filter (fun c : call => negb (is_fragment c)) calls).
Proof.
  induction calls as [| [off nm] calls IH] using rev_ind; [reflexivity |].
  rewrite add_files_app, List.filter_app, map_app.
  change (add_files [(off, nm)] (add_files calls init))
    with (add_file off nm (add_files calls init)).
  rewrite <- IH. clear IH.
  cbn [List.filter]. destruct (is_fragment (off, nm)) eqn:Ef; cbn [negb map].
  - unfold is_fragment in Ef. simpl in Ef. destruct nm as [m |]; [| easy].
    rewrite add_file_fragment by exact Ef. now rewrite app_nil_r.
  - destruct (add_file_entry off nm (add_files calls init)
                (wf_add_files _ _ wf_init) Ef) as [He _].
    rewrite He, map_app. reflexivity.
Qed.

Lemma add_files_ascending (calls : list call) :
  StronglySorted Z.lt (map fst calls) ->
  ascending (add_files calls init) /\
  forall o, Forall (fun c => (fst c < o)%Z) calls ->
            bounded_by o (add_files calls init).
Proof.
  induction calls as [| [off nm] calls IH] using rev_ind; intros Hs.
  - split; [split; [constructor | discriminate] |].
    intros o _. split; [constructor | discriminate].
  - rewrite map_app in Hs. apply StronglySorted_app in Hs.
    destruct Hs as (Hlt & Hs & _).
    destruct (IH Hs) as [[Hsorted Hbelow] Hbound]. clear IH.
    assert (Hoff : Forall (fun c => (fst c < off)%Z) calls).
    { apply Forall_forall. intros c Hc. apply (Hlt (fst c) off).
      - apply list_elem_of_fmap. now exists c.
      - simpl. apply list_elem_of_here. }
    destruct (Hbound off Hoff) as [Hb_e Hb_s].
    rewrite add_files_app. simpl.
    set (g := add_files calls init) in *.
    assert (Hg : wf g) by apply wf_add_files, wf_init.
    destruct (is_fragment (off, nm)) eqn:Ef.
    + unfold is_fragment in Ef. simpl in Ef. destruct nm as [m |]; [| easy].
      rewrite add_file_fragment by exact Ef.
      split.
      * split; [exact Hsorted |]. intros _. cbn.
        destruct (gMultiHeader g); [now apply Hbelow | exact Hb_e].
      * intros o Ho. apply Forall_app in Ho as [Ho1 Ho2].
        apply Forall_cons in Ho2 as [Ho2 _]. simpl in Ho2.
        destruct (Hbound o Ho1) as [He Hst].
        split; [exact He |]. intros _. cbn.
        destruct (gMultiHeader g); [now apply Hst | exact Ho2].
    + destruct (add_file_entry off nm g Hg Ef) as [He Hflag].
      split.
      * split; [| rewrite Hflag; discriminate].
        rewrite He, map_app. apply StronglySorted_app.
        split; [| split; [exact Hsorted | repeat constructor]].
        intros x1 x2 Hx1 Hx2. apply list_elem_of_singleton in Hx2.
        subst x2. apply list_elem_of_fmap in Hx1 as (e & -> & Hein).
        simpl. destruct (gMultiHeader g).
        -- specialize (Hbelow eq_refl).
           rewrite Forall_forall in Hbelow. now apply Hbelow.
        -- rewrite Forall_forall in Hb_e. now apply Hb_e.
      * intros o Ho. apply Forall_app in Ho as [Ho1 Ho2].
        apply Forall_cons in Ho2 as [Ho2 _]. simpl in Ho2.
        destruct (Hbound o Ho1) as [Hbe Hst].
        split; [| rewrite Hflag; discriminate].
        rewrite He. apply Forall_app. split; [exact Hbe |].
        constructor; [| constructor]. simpl.
        destruct (gMultiHeader g); [now apply Hst | exact Ho2].
Qed.

End FileIndexMore.

(** X2.  Whether a pathname is a multi-header fragment depends on its last
    component alone: a directory prefix does not change the answer, and a
    pathname that ends with ['/'] is never a fragment. *)
Theorem is_multi_header_ignores_directories (dir base : list byte) :
  ~ In x00 dir ->
  ~ In "/" base ->
  is_multi_header (dir ++ "/" :: base) = is_multi_header base /\
  is_multi_header (dir ++ ["/"]) = false.
Proof.
  intros Hdir Hbase.
  assert (Hfinal : forall t, ~ In "/" t ->
            final_component (c_str (dir ++ "/" :: t)) = c_str t).
  { intros t Ht. rewrite FileIndexMore.c_str_app_no_nul by exact Hdir.
    rewrite FileIndexMore.c_str_cons by discriminate.
    symmetry. apply is_final_component_unique. right. exists dir.
    split; [reflexivity |]. intros Hin. apply Ht.
    now apply FileIndexMore.c_str_subset. }
  split.
  - apply eq_true_iff_eq. rewrite !is_multi_header_final.
    rewrite (Hfinal base Hbase).
    assert (Hown : final_component (c_str base) = c_str base).
    { symmetry. apply is_final_component_unique. left.
      split; [| reflexivity]. intros Hin. apply Hbase.
      now apply FileIndexMore.c_str_subset. }
    now rewrite Hown.
  - apply not_true_iff_false. rewrite is_multi_header_final.
    rewrite (Hfinal [] (fun H => H)). intros [rest Hrest]. discriminate.
Qed.

(** A witness of X2: ["a/b/._c"] is a fragment as ["._c"] is. *)
Lemma is_multi_header_ignores_directories_witness :
  is_multi_header (Small.bytes "a/b" ++ "/" :: Small.bytes "._c") = true /\
  is_multi_header (Small.bytes "._c" ++ ["/"]) = false.
Proof.
  assert (Hdir : ~ In x00 (Small.bytes "a/b")).
  { intros H. repeat destruct H as [H | H]; discriminate || exact H. }
  assert (Hbase : ~ In "/" (Small.bytes "._c")).
  { intros H. repeat destruct H as [H | H]; discriminate || exact H. }
  destruct (is_multi_header_ignores_directories _ _ Hdir Hbase) as [H1 _].
  split; [rewrite H1; reflexivity | reflexivity].
Defined.

(** X3.  The names in the file index are the names of the calls that are
    not fragments, in the order of the calls; so the index has as many
    entries as there are such calls, and when no call is a fragment the
    index lists every call with its own offset. *)
Theorem file_index_lists_the_real_members (calls : list FileIndex.call) :
  map fst (FileIndex.entries (FileIndex.add_files calls FileIndex.init)) =
  map (fun c : FileIndex.call =>
         match snd c with
         | Some n => Some (xstrdup n)
         | None => None
         end)
      (List.filter (fun c : FileIndex.call =>
                      negb (FileIndex.is_fragment c)) calls) /\
  (Forall (fun c => FileIndex.is_fragment c = false) calls ->
   FileIndex.entries (FileIndex.add_files calls FileIndex.init) =
   map (fun c => (match snd c with
                  | Some n => Some (xstrdup n)
                  | None => None
                  end, fst c)) calls).
Proof.
  split; [apply FileIndexMore.entries_names |].
  induction calls as [| [off nm] calls IH] using rev_ind; intros Hall;
    [reflexivity |].
  apply Forall_app in Hall as [Hall Hlast].
  apply Forall_cons in Hlast as [Hlast _].
  rewrite FileIndexFacts.add_files_app. simpl.
  destruct (FileIndexFacts.add_file_entry off nm
              (FileIndex.add_files calls FileIndex.init)
              (FileIndexFacts.wf_add_files _ _ FileIndexFacts.wf_init) Hlast)
    as [He _].
  rewrite He, (IH Hall), map_app. simpl. do 3 f_equal.
  assert (Hflag : FileIndex.gMultiHeader
                    (FileIndex.add_files calls FileIndex.init) = false).
  { apply FileIndexFacts.run_can_start_flag. unfold FileIndex.run_can_start.
    destruct (last calls) as [c |] eqn:El; [| exact I].
    apply last_Some in El as [l' ->].
    apply Forall_app in Hall as [_ Hc].
    now apply Forall_cons in Hc as [Hc _]. }
  now rewrite Hflag.
Qed.

(** X4.  When the offsets passed to [add_file] increase strictly from call
    to call, the offsets of the file index increase strictly from entry to
    entry: collapsing a run of fragments into the entry that follows keeps
    the index sorted. *)
Theorem file_index_offsets_ascend (calls : list FileIndex.call) :
  StronglySorted Z.lt (map fst calls) ->
  StronglySorted Z.lt
    (map snd (FileIndex.entries (FileIndex.add_files calls FileIndex.init))).
Proof.
  intros Hs.
  now destruct (FileIndexMore.add_files_ascending calls Hs) as [[H _] _].
Qed.

(** A witness of X4: a fragment between two members. *)
Lemma file_index_offsets_ascend_witness :
  StronglySorted Z.lt
    (map snd (FileIndex.entries
                (FileIndex.add_files
                   [(0%Z, Some (Small.bytes "a"));
                    (512%Z, Some (Small.bytes "._b"));
                    (1024%Z, Some (Small.bytes "b"));
                    (2048%Z, None)] FileIndex.init))).
Proof.
  apply file_index_offsets_ascend.
  repeat constructor.
Defined.

(** ** The reader among the other threads *)

Module ReaderRunFacts.
Import Reader ReaderFacts ReaderSteps ReaderRun.

Lemma blocks_of_app (q1 q2 : list msg) :
  blocks_of (q1 ++ q2) = blocks_of q1 ++ blocks_of q2.
Proof. unfold blocks_of. apply flat_map_app. Qed.

Lemma blocks_of_STOPs (n : nat) : blocks_of (repeat MSG_STOP n) = [].
Proof. induction n as [| n IH]; [reflexivity | exact IH]. Qed.

Lemma blocks_of_blocks (bs : list io_block_t) :
  blocks_of (map MSG_BLOCK bs) = bs.
Proof. induction bs as [| b bs IH]; simpl; [reflexivity | now rewrite IH]. Qed.

(** One call of the pull callback, with the block, the free queue and the
    block counter that [acquire] yields. *)
Lemma tar_read_eq `{pixz_h} (st : reader) (ib : io_block_t)
  (q : list io_block_t) (num : Z) :
  (0 < CHUNKSIZE < SIZE_MAX_plus_1)%Z ->
  inv st ->
  acquire st = Done (ib, q, num) ->
  let space := Z.min CHUNKSIZE (gBlockInSize st - insize ib) in
  let data := take (Z.to_nat space) (gInFile st) in
  let rd := Z.of_nat (length data) in
  let buf := take (Z.to_nat (insize ib)) (input ib) ++ data
             ++ drop (Z.to_nat (insize ib) + length data) (input ib) in
  let ib' := set_block ib (seq ib) (insize ib + rd)%Z buf in
  let full := (insize ib' =? gBlockInSize st)%Z in
  tar_read st =
  Done (rd,
    {| gBlockInSize := gBlockInSize st;
       gBlockOutSize := gBlockOutSize st;
       gNumEncodeThreads := gNumEncodeThreads st;
       gReadQ := q;
       gEncodeQ := if full then gEncodeQ st ++ [MSG_BLOCK ib']
                   else gEncodeQ st;
       gWriteQ := gWriteQ st;
       gReadBlock := if full then None else Some ib';
       gBlockNum := num;
       gTotalRead := (gTotalRead st + rd)%Z;
       gInFile := drop (Z.to_nat space) (gInFile st);
       files := files st |}).
Proof.
  intros HC Hinv Ea space data rd buf ib' full.
  destruct (acquire_block _ _ _ _ Hinv Ea) as (Hi & Hl & Hq & _).
  pose proof Hinv as (HB & _ & _).
  assert (Hrd : (0 <= rd <= space)%Z).
  { unfold rd, data. rewrite length_take. lia. }
  assert (Hspace : (let s := to_size_t (gBlockInSize st - insize ib) in
                    if (s >? CHUNKSIZE)%Z then CHUNKSIZE else s) = space).
  { cbv zeta. rewrite to_size_t_id by lia. unfold space.
    destruct (Z.gtb_spec (gBlockInSize st - insize ib) CHUNKSIZE); lia. }
  assert (Hread : fread (input ib) (insize ib) space (gInFile st)
                  = Done (data, buf, drop (Z.to_nat space) (gInFile st))).
  { unfold fread.
    assert (E : (insize ib + space <=? Z.of_nat (length (input ib)))%Z = true)
      by (apply Z.leb_le; unfold space; lia).
    now rewrite E. }
  unfold tar_read. rewrite Ea. cbn [mbind outcome_bind].
  cbv zeta in Hspace. rewrite Hspace, Hread. cbn [mbind outcome_bind].
  fold rd. rewrite (to_size_t_id (insize ib + rd)) by (unfold space in *; lia).
  reflexivity.
Qed.

(** The bytes of the block after the call: those it held, then those
    read. *)
Lemma block_data_filled (ib : io_block_t) (data : list byte) (sq : Z) :
  (0 <= insize ib)%Z ->
  (insize ib + Z.of_nat (length data) <= Z.of_nat (length (input ib)))%Z ->
  block_data
    (set_block ib sq (insize ib + Z.of_nat (length data))%Z
       (take (Z.to_nat (insize ib)) (input ib) ++ data
        ++ drop (Z.to_nat (insize ib) + length data) (input ib)))
  = block_data ib ++ data.
Proof.
  intros H0 Hfit. unfold block_data. cbn [insize input set_block].
  rewrite app_assoc.
  rewrite take_app_length'; [reflexivity |].
  rewrite length_app, length_take. lia.
Qed.

Lemma concat_data_length (bin : Z) (bs : list io_block_t) :
  (0 <= bin)%Z ->
  Forall (fun ib => insize ib = bin /\ Z.of_nat (length (input ib)) = bin) bs ->
  Z.of_nat (length (concat (map block_data bs)))
  = (bin * Z.of_nat (length bs))%Z.
Proof.
  intros Hb. induction 1 as [| ib bs [Hi Hl] _ IH]; simpl; [lia |].
  rewrite length_app, Nat2Z.inj_add, IH. unfold block_data.
  rewrite length_take. lia.
Qed.

(** What [acquire] yields, in terms of the blocks taken so far. *)
Lemma acquire_cases (st : reader) :
  match gReadBlock st with
  | Some cur => acquire st = Done (cur, gReadQ st, gBlockNum st)
  | None =>
      match gReadQ st with
      | b :: q =>
          acquire st = Done (set_block b (gBlockNum st) 0 (input b), q,
                             to_size_t (gBlockNum st + 1))
      | [] => acquire st = Blocked
      end
  end.
Proof.
  unfold acquire. destruct (gReadBlock st); [reflexivity |].
  now destruct (gReadQ st).
Qed.

(** [tar_read] waits exactly when it has no block and the free queue is
    empty. *)
Lemma tar_read_blocked `{pixz_h} (st : reader) :
  gReadBlock st = None -> gReadQ st = [] -> tar_read st = Blocked.
Proof. intros Hn Hq. unfold tar_read, acquire. now rewrite Hn, Hq. Qed.

(** One pull keeps the split of the archive. *)
Lemma tar_read_splits `{pixz_h} (tar : list byte) (st : reader) :
  (0 < CHUNKSIZE < SIZE_MAX_plus_1)%Z ->
  (Z.of_nat (length tar) < 2 ^ 63)%Z ->
  inv st -> splits tar st ->
  forall rd st', tar_read st = Done (rd, st') -> splits tar st'.
Proof.
  intros HC Htar Hinv (Hcat & Htot & Hseq & Hnum & Hfull & Hmsgs).
  pose proof (acquire_cases st) as Hacq.
  assert (Hgoal : forall ib q num,
    acquire st = Done (ib, q, num) ->
    block_data ib = match gReadBlock st with
                    | Some cur => block_data cur | None => [] end ->
    seq ib = match gReadBlock st with
             | Some cur => seq cur
             | None => Z.of_nat (length (blocks_of (gEncodeQ st))) end ->
    num = Z.of_nat (S (length (blocks_of (gEncodeQ st)))) ->
    forall rd st', tar_read st = Done (rd, st') -> splits tar st').
  { intros ib q num Ea Hdata Hsq Hn rd st' Hdone.
    pose proof (tar_read_eq st ib q num HC Hinv Ea) as Hrun.
    destruct (acquire_block _ _ _ _ Hinv Ea) as (Hi & Hl & Hq & _).
    cbv zeta in Hrun.
    set (space := Z.min CHUNKSIZE (gBlockInSize st - insize ib)) in *.
    set (data := take (Z.to_nat space) (gInFile st)) in *.
    set (buf := take (Z.to_nat (insize ib)) (input ib) ++ data
                ++ drop (Z.to_nat (insize ib) + length data) (input ib)) in *.
    set (ib' := set_block ib (seq ib)
                  (insize ib + Z.of_nat (length data))%Z buf) in *.
    assert (Hlen : (Z.of_nat (length data) <= space)%Z)
      by (unfold data; rewrite length_take; lia).
    assert (Hlend : length data
                    = Nat.min (Z.to_nat space) (length (gInFile st)))
      by (unfold data; now rewrite length_take).
    assert (Hd' : block_data ib' = block_data ib ++ data).
    { unfold ib', buf. apply block_data_filled; unfold space in *; lia. }
    assert (Hbuf : Z.of_nat (length (input ib')) = gBlockInSize st).
    { cbn [ib' input set_block]. unfold buf.
      rewrite !length_app, length_take, length_drop.
      unfold space in *. lia. }
    assert (Hrest : data ++ drop (Z.to_nat space) (gInFile st) = gInFile st)
      by apply take_drop.
    rewrite Hrun in Hdone. injection Hdone as _ <-.
    (* the blocks taken after the call *)
    assert (Hacq' : forall full : bool,
      blocks_of (if full then gEncodeQ st ++ [MSG_BLOCK ib'] else gEncodeQ st)
      ++ match (if full then None else Some ib') with
         | Some b => [b] | None => [] end
      = blocks_of (gEncodeQ st) ++ [ib']).
    { intros [|]; [| reflexivity].
      rewrite blocks_of_app. simpl. now rewrite app_nil_r. }
    assert (Hold : concat (map block_data (acquired st))
                   = concat (map block_data (blocks_of (gEncodeQ st)))
                     ++ block_data ib).
    { unfold acquired. rewrite Hdata.
      destruct (gReadBlock st) as [cur |].
      - rewrite map_app, concat_app. simpl. now rewrite app_nil_r.
      - now rewrite !app_nil_r. }
    assert (Hnew : concat (map block_data (blocks_of (gEncodeQ st) ++ [ib']))
                   = concat (map block_data (acquired st)) ++ data).
    { rewrite map_app, concat_app. simpl.
      rewrite app_nil_r, Hd', Hold. now rewrite app_assoc. }
    assert (Hposted : (gBlockInSize st
                       * Z.of_nat (length (blocks_of (gEncodeQ st)))
                       <= Z.of_nat (length tar))%Z).
    { destruct Hinv as (HB & _).
      assert (H0 : (0 <= gBlockInSize st)%Z) by lia.
      rewrite <- (concat_data_length _ _ H0 Hfull).
      rewrite <- Hcat, Hold, !length_app. lia. }
    unfold splits, acquired.
      cbn [Reader.gEncodeQ gReadBlock gInFile gTotalRead gBlockNum
           Reader.gBlockInSize].
      rewrite Hacq', Hnew.
      split; [rewrite <- app_assoc, Hrest; exact Hcat |].
      split; [rewrite length_app, Htot; lia |].
      split.
      { rewrite map_app, length_app. cbn [map length].
        cbn [ib' seq set_block]. rewrite Hsq.
        replace (length (blocks_of (gEncodeQ st)) + 1)
          with (S (length (blocks_of (gEncodeQ st)))) by lia.
        rewrite seqZ_S. simpl. f_equal.
        - unfold acquired in Hseq. destruct (gReadBlock st) as [cur |].
          + rewrite map_app, length_app in Hseq. cbn [map length] in Hseq.
            replace (length (blocks_of (gEncodeQ st)) + 1)
              with (S (length (blocks_of (gEncodeQ st)))) in Hseq by lia.
            rewrite seqZ_S in Hseq. simpl in Hseq.
            now apply app_inj_tail in Hseq as [Hs _].
          + now rewrite app_nil_r in Hseq.
        - f_equal. unfold acquired in Hseq.
          destruct (gReadBlock st) as [cur |]; [| reflexivity].
          rewrite map_app, length_app in Hseq. cbn [map length] in Hseq.
          replace (length (blocks_of (gEncodeQ st)) + 1)
            with (S (length (blocks_of (gEncodeQ st)))) in Hseq by lia.
          rewrite seqZ_S in Hseq. simpl in Hseq.
          now apply app_inj_tail in Hseq as [_ Hs]. }
      split; [rewrite length_app; cbn [length]; lia |].
      destruct (Z.eqb_spec (insize ib + Z.of_nat (length data))
                  (gBlockInSize st)) as [Ef | Ef].
      + split.
        * rewrite blocks_of_app. apply Forall_app. split; [exact Hfull |].
          constructor; [| constructor]. split; [exact Ef | exact Hbuf].
        * rewrite blocks_of_app, map_app, <- Hmsgs. reflexivity.
      + split; assumption. }
  unfold acquired in Hseq, Hnum, Hcat.
  destruct (gReadBlock st) as [cur |] eqn:Ecur.
  - rewrite length_app in Hnum. cbn [length] in Hnum.
    apply (Hgoal _ _ _ Hacq); try reflexivity.
    rewrite Hnum. f_equal. lia.
  - rewrite app_nil_r in Hseq, Hnum, Hcat.
    destruct (gReadQ st) as [| b q] eqn:Eq.
    + intros rd st' Hdone. unfold tar_read in Hdone. rewrite Hacq in Hdone.
      discriminate.
    + apply (Hgoal _ _ _ Hacq).
      * reflexivity.
      * cbn [seq set_block]. exact Hnum.
      * rewrite Hnum.
        destruct Hinv as (HB & _).
        assert (Hposted : (gBlockInSize st
                           * Z.of_nat (length (blocks_of (gEncodeQ st)))
                           <= Z.of_nat (length tar))%Z).
        { assert (H0 : (0 <= gBlockInSize st)%Z) by lia.
          rewrite <- (concat_data_length _ _ H0 Hfull).
          rewrite <- Hcat, length_app. lia. }
        assert (Hfew : (Z.of_nat (length (blocks_of (gEncodeQ st)))
                        <= Z.of_nat (length tar))%Z) by nia.
        rewrite to_size_t_id; [lia |]. unfold SIZE_MAX_plus_1. lia.
Qed.

(** A pull returns or waits for a free block, and then keeps the
    invariant; it does not wait while the free queue has room for the
    rest of the input. *)
Lemma tar_read_safe `{pixz_h} (st : reader) :
  (0 < CHUNKSIZE < SIZE_MAX_plus_1)%Z ->
  inv st ->
  (tar_read st = Blocked /\ ~ roomy st) \/
  exists rd st', tar_read st = Done (rd, st') /\ inv st' /\
    gBlockInSize st' = gBlockInSize st /\
    gBlockOutSize st' = gBlockOutSize st /\
    gNumEncodeThreads st' = gNumEncodeThreads st /\
    gWriteQ st' = gWriteQ st /\
    (roomy st -> roomy st').
Proof.
  intros HC Hinv.
  pose proof (acquire_cases st) as Hacq.
  assert (Hgoal : forall ib q num,
    acquire st = Done (ib, q, num) ->
    (roomy st ->
     (Z.of_nat (length (gInFile st))
      < gBlockInSize st - insize ib
        + gBlockInSize st * Z.of_nat (length q))%Z) ->
    exists rd st', tar_read st = Done (rd, st') /\ inv st' /\
      gBlockInSize st' = gBlockInSize st /\
      gBlockOutSize st' = gBlockOutSize st /\
      gNumEncodeThreads st' = gNumEncodeThreads st /\
      gWriteQ st' = gWriteQ st /\
      (roomy st -> roomy st')).
  { intros ib q num Ea Hroom.
    pose proof (tar_read_eq st ib q num HC Hinv Ea) as Hrun.
    destruct (acquire_block _ _ _ _ Hinv Ea) as (Hi & Hl & Hq & _).
    cbv zeta in Hrun.
    set (space := Z.min CHUNKSIZE (gBlockInSize st - insize ib)) in *.
    set (data := take (Z.to_nat space) (gInFile st)) in *.
    assert (Hlend : length data
                    = Nat.min (Z.to_nat space) (length (gInFile st)))
      by (unfold data; now rewrite length_take).
    destruct (tar_read_keeps st _ _ HC Hinv Hrun) as [Hinv' _].
    eexists _, _. split; [exact Hrun |]. split; [exact Hinv' |].
    do 4 (split; [reflexivity |]).
    intros Hr. specialize (Hroom Hr). unfold roomy.
    cbn [Reader.gEncodeQ gReadBlock gInFile gTotalRead gBlockNum
         Reader.gBlockInSize Reader.gReadQ].
    rewrite length_drop.
    destruct (Z.eqb_spec
                (insize (set_block ib (seq ib)
                           (insize ib + Z.of_nat (length data))%Z
                           (take (Z.to_nat (insize ib)) (input ib) ++ data
                            ++ drop (Z.to_nat (insize ib) + length data)
                                 (input ib))))
                (gBlockInSize st)) as [Ef | Ef];
      cbn [insize set_block] in *; unfold space in *; lia. }
  destruct (gReadBlock st) as [cur |] eqn:Ecur.
  - right. apply (Hgoal _ _ _ Hacq). unfold roomy. rewrite Ecur. lia.
  - destruct (gReadQ st) as [| b q] eqn:Eq.
    + left. split; [now apply tar_read_blocked |].
      unfold roomy. rewrite Ecur, Eq. simpl. lia.
    + right. apply (Hgoal _ _ _ Hacq).
      unfold roomy. rewrite Ecur, Eq. cbn [insize set_block length]. lia.
Qed.

Lemma recycle_inv (ib : io_block_t) (st : reader) :
  inv st -> Z.of_nat (length (input ib)) = gBlockInSize st ->
  inv (recycle ib st) /\ (roomy st -> roomy (recycle ib st)).
Proof.
  intros (HB & Hcur & Hfree) Hib. split.
  - split; [exact HB |]. split; [exact Hcur |].
    intros b Hb. cbn [Reader.gReadQ recycle] in Hb.
    apply in_app_or in Hb as [Hb | [<- | []]]; [now apply Hfree | exact Hib].
  - unfold roomy. cbn [recycle gInFile gReadBlock Reader.gBlockInSize
                       Reader.gReadQ].
    rewrite length_app. cbn [length]. nia.
Qed.

(** The run returns or waits for a free block; it never leaves a
    buffer. *)
Lemma run_safe `{pixz_h} (evs : list event) (st : reader) :
  (0 < CHUNKSIZE < SIZE_MAX_plus_1)%Z ->
  inv st ->
  Forall (fun ib => Z.of_nat (length (input ib)) = gBlockInSize st)
         (recycled evs) ->
  (run evs st = Blocked /\ ~ roomy st) \/
  exists st', run evs st = Done st' /\ inv st' /\
    gBlockInSize st' = gBlockInSize st /\
    gBlockOutSize st' = gBlockOutSize st /\
    gNumEncodeThreads st' = gNumEncodeThreads st /\
    gWriteQ st' = gWriteQ st.
Proof.
  intros HC. revert st.
  induction evs as [| [[| pos nm] | ib] evs IH]; intros st Hinv Hrec.
  - right. exists st. split; [reflexivity |]. split; [exact Hinv |].
    now repeat split.
  - cbn [run]. destruct (tar_read_safe st HC Hinv)
      as [[Hb Hnr] | (rd & st1 & Hrun & Hinv1 & HB & HO & HN & HW & Hr)].
    + left. rewrite Hb. now split.
    + rewrite Hrun. cbn [mbind outcome_bind snd].
      destruct (IH st1 Hinv1) as [[Hb Hnr] | (st' & Hrun' & Hinv' & E)].
      * rewrite HB. exact Hrec.
      * left. split; [exact Hb | tauto].
      * right. exists st'. split; [exact Hrun' |]. split; [exact Hinv' |].
        destruct E as (-> & -> & -> & ->). now repeat split.
  - cbn [run]. apply (IH (register pos (Some nm) st)); assumption.
  - cbn [run]. cbn [recycled flat_map app] in Hrec.
    change (flat_map _ evs) with (recycled evs) in Hrec.
    apply Forall_cons in Hrec as [Hib Hrec].
    destruct (recycle_inv ib st Hinv Hib) as [Hinv1 Hr].
    destruct (IH (recycle ib st) Hinv1 Hrec)
      as [[Hb Hnr] | (st' & Hrun' & Hinv' & E)].
    + left. split; [exact Hb | tauto].
    + right. exists st'. split; [exact Hrun' |]. split; [exact Hinv' |].
      exact E.
Qed.

(** The run keeps the split of the archive. *)
Lemma run_splits `{pixz_h} (tar : list byte) (evs : list event)
  (st st' : reader) :
  (0 < CHUNKSIZE < SIZE_MAX_plus_1)%Z ->
  (Z.of_nat (length tar) < 2 ^ 63)%Z ->
  inv st -> splits tar st ->
  Forall (fun ib => Z.of_nat (length (input ib)) = gBlockInSize st)
         (recycled evs) ->
  run evs st = Done st' -> splits tar st'.
Proof.
  intros HC Htar. revert st.
  induction evs as [| [[| pos nm] | ib] evs IH]; intros st Hinv Hsp Hrec.
  - now intros [= <-].
  - cbn [run]. destruct (tar_read_safe st HC Hinv)
      as [[Hb Hnr] | (rd & st1 & Hrun & Hinv1 & HB & _)].
    + rewrite Hb. discriminate.
    + rewrite Hrun. cbn [mbind outcome_bind snd].
      apply (IH st1 Hinv1).
      * exact (tar_read_splits tar st HC Htar Hinv Hsp rd st1 Hrun).
      * rewrite HB. exact Hrec.
  - cbn [run]. apply (IH (register pos (Some nm) st)); assumption.
  - cbn [run]. cbn [recycled flat_map app] in Hrec.
    change (flat_map _ evs) with (recycled evs) in Hrec.
    apply Forall_cons in Hrec as [Hib Hrec].
    destruct (recycle_inv ib st Hinv Hib) as [Hinv1 _].
    apply (IH (recycle ib st) Hinv1); assumption.
Qed.

Lemma splits_start (p : Setup.pool) (tar : list byte) :
  splits tar (start p tar).
Proof. unfold splits, start, acquired. cbn. repeat split. constructor. Qed.

(** What is on the encode queue from end-of-archive on. *)
Lemma finish_posts (tar : list byte) (st1 : reader) :
  inv st1 -> splits tar st1 ->
  exists full partial,
    gEncodeQ (finish st1) =
      map MSG_BLOCK (full ++ partial)
      ++ repeat MSG_STOP (Z.to_nat (gNumEncodeThreads st1)) /\
    concat (map block_data (full ++ partial))
      = take (Z.to_nat (gTotalRead (finish st1))) tar /\
    map seq (full ++ partial)
      = seqZ 0 (Z.of_nat (length (full ++ partial))) /\
    Forall (fun ib => insize ib = gBlockInSize st1) full /\
    (partial = [] \/
     exists ib, partial = [ib] /\ gReadBlock st1 = Some ib /\
                (0 < insize ib < gBlockInSize st1)%Z) /\
    Forall (fun ib => Z.of_nat (length (input ib)) = gBlockInSize st1)
           (full ++ partial).
Proof.
  intros Hinv1 (Hcat & Htot & Hseq & Hnum & Hfull & Hmsgs).
  pose proof (ReaderEnd.finish_queues st1) as Hq.
  destruct (finish_files st1) as [_ Htr].
  assert (Hfull' : Forall (fun ib => insize ib = gBlockInSize st1)
                     (blocks_of (gEncodeQ st1))).
  { eapply Forall_impl; [exact Hfull |]. now intros ib [Hi _]. }
  assert (Hin' : Forall (fun ib => Z.of_nat (length (input ib))
                                   = gBlockInSize st1)
                   (blocks_of (gEncodeQ st1))).
  { eapply Forall_impl; [exact Hfull |]. now intros ib [_ Hl]. }
  assert (Htake : forall l : list byte,
            l ++ gInFile st1 = tar ->
            gTotalRead st1 = Z.of_nat (length l) ->
            l = take (Z.to_nat (gTotalRead (finish st1))) tar).
  { intros l <- Hl. rewrite Htr, Hl, Nat2Z.id.
    now rewrite take_app_length. }
  unfold acquired in Hcat, Htot, Hseq, Hnum.
  unfold STOPs in Hq.
  destruct (gReadBlock st1) as [cur |] eqn:Ecur.
  - destruct Hinv1 as (_ & Hcur & _).
    destruct (Hcur cur Ecur) as [Hi Hlc].
    revert Hq.
    destruct (Z.eqb_spec (insize cur) 0) as [E0 | N0]; intros [Hq _].
    + (* the last block is empty and goes back to the free queue *)
      assert (Hnil : block_data cur = [])
        by (unfold block_data; now rewrite E0).
      exists (blocks_of (gEncodeQ st1)), [].
      rewrite app_nil_r.
      split; [now rewrite Hq, <- Hmsgs |].
      rewrite map_app, concat_app in Hcat, Htot. simpl in Hcat, Htot.
      rewrite Hnil, !app_nil_r in Hcat, Htot.
      split; [now apply Htake |].
      split; [| split; [exact Hfull' |]; split; [now left | exact Hin']].
      rewrite map_app, length_app in Hseq. cbn [map length] in Hseq.
      replace (length (blocks_of (gEncodeQ st1)) + 1)
        with (S (length (blocks_of (gEncodeQ st1))))
        in Hseq by lia.
      rewrite seqZ_S in Hseq.
      now apply app_inj_tail in Hseq as [Hs _].
    + exists (blocks_of (gEncodeQ st1)), [cur].
      split.
      { rewrite Hq, map_app, <- Hmsgs. simpl. now rewrite <- app_assoc. }
      split; [now apply Htake |].
      split; [exact Hseq |]. split; [exact Hfull' |].
      split; [right; exists cur; split; [reflexivity |]; split;
              [reflexivity | lia] |].
      apply Forall_app. split; [exact Hin' |].
      constructor; [exact Hlc | constructor].
  - destruct Hq as [Hq _]. rewrite app_nil_r in Hcat, Htot, Hseq, Hnum.
    exists (blocks_of (gEncodeQ st1)), [].
    rewrite app_nil_r.
    split; [now rewrite Hq, <- Hmsgs |].
    split; [now apply Htake |].
    split; [exact Hseq |]. split; [exact Hfull' |].
    split; [now left | exact Hin'].
Qed.

(** What the reader has posted when it returns. *)
Lemma read_thread_posts `{pixz_h} (p : Setup.pool)
  (tar : list byte) (evs : list event) (st' : reader) :
  (0 < CHUNKSIZE < SIZE_MAX_plus_1)%Z ->
  inv (start p tar) ->
  (Z.of_nat (length tar) < 2 ^ 63)%Z ->
  Forall (fun ib => Z.of_nat (length (input ib)) = Setup.gBlockInSize p)
         (recycled evs) ->
  read_thread evs (start p tar) = Done st' ->
  exists full partial,
    gEncodeQ st' =
      map MSG_BLOCK (full ++ partial)
      ++ repeat MSG_STOP (Z.to_nat (Setup.gNumEncodeThreads p)) /\
    gWriteQ st' = [MSG_STOP] /\
    concat (map block_data (full ++ partial))
      = take (Z.to_nat (gTotalRead st')) tar /\
    map seq (full ++ partial)
      = seqZ 0 (Z.of_nat (length (full ++ partial))) /\
    Forall (fun ib => insize ib = Setup.gBlockInSize p) full /\
    (partial = [] \/
     exists ib, partial = [ib] /\
                (0 < insize ib < Setup.gBlockInSize p)%Z) /\
    Forall (fun ib => Z.of_nat (length (input ib)) = Setup.gBlockInSize p)
           (full ++ partial) /\
    exists st1, run evs (start p tar) = Done st1 /\
                st' = finish st1.
Proof.
  intros HC Hinv Htar Hrec Hrun.
  unfold read_thread in Hrun.
  destruct (run_safe evs (start p tar) HC Hinv Hrec)
    as [[Hb _] | (st1 & Hrun1 & Hinv1 & HB & _ & HN & HW)].
  { rewrite Hb in Hrun. discriminate. }
  rewrite Hrun1 in Hrun. cbn [mbind outcome_bind] in Hrun.
  injection Hrun as <-.
  pose proof (run_splits tar evs _ st1 HC Htar Hinv
                (splits_start p tar) Hrec Hrun1) as Hsp.
  cbn [start gBlockInSize gNumEncodeThreads gWriteQ] in HB, HN, HW.
  destruct (finish_posts tar st1 Hinv1 Hsp)
    as (full & partial & Hq & Hcat & Hseq & Hfull & Hlast & Hin).
  rewrite HB in Hfull, Hlast, Hin. rewrite HN in Hq.
  exists full, partial.
  split; [exact Hq |]. split.
  { unfold finish. destruct (last_block _). cbn. now rewrite HW. }
  split; [exact Hcat |]. split; [exact Hseq |]. split; [exact Hfull |].
  split.
  { destruct Hlast as [-> | (ib & -> & _ & Hi)]; [now left |].
    right. now exists ib. }
  split; [exact Hin |]. now exists st1.
Qed.

End ReaderRunFacts.

(** X5.  The blocks that the reader posts split the bytes it has read: read
    one after another they are the first [gTotalRead] bytes of the
    archive, they carry the sequence numbers 0, 1, 2, ..., all of them are
    full except possibly the last one, which is not empty, and behind
    them the encode queue holds one STOP for each encoder and the write
    queue one STOP.  This holds whatever blocks the writer hands back in
    between. *)
Theorem reader_splits_the_archive `{pixz_h} (p : Setup.pool)
  (tar : list byte) (evs : list ReaderRun.event) (st' : Reader.reader) :
  (0 < CHUNKSIZE < SIZE_MAX_plus_1)%Z ->
  Reader.inv (Reader.start p tar) ->
  (Z.of_nat (length tar) < 2 ^ 63)%Z ->
  Forall (fun ib => Z.of_nat (length (input ib)) = Setup.gBlockInSize p)
         (ReaderRun.recycled evs) ->
  ReaderRun.read_thread evs (Reader.start p tar) = Done st' ->
  exists full partial,
    Reader.gEncodeQ st' =
      map MSG_BLOCK (full ++ partial)
      ++ repeat MSG_STOP (Z.to_nat (Setup.gNumEncodeThreads p)) /\
    Reader.gWriteQ st' = [MSG_STOP] /\
    concat (map ReaderRun.block_data (full ++ partial))
      = take (Z.to_nat (Reader.gTotalRead st')) tar /\
    map seq (full ++ partial)
      = seqZ 0 (Z.of_nat (length (full ++ partial))) /\
    Forall (fun ib => insize ib = Setup.gBlockInSize p) full /\
    (partial = [] \/
     exists ib, partial = [ib] /\
                (0 < insize ib < Setup.gBlockInSize p)%Z).
Proof.
  intros HC Hinv Htar Hrec Hrun.
  destruct (ReaderRunFacts.read_thread_posts p tar evs st'
              HC Hinv Htar Hrec Hrun)
    as (full & partial & Hq & Hw & Hcat & Hseq & Hfull & Hlast & _).
  exists full, partial. now repeat split.
Qed.

(** A witness of X5: ten bytes through blocks of four bytes, while the
    writer hands the first block back. *)
Lemma reader_splits_the_archive_witness :
  exists st' full partial,
    @ReaderRun.read_thread Small.h SmallRun.recycling Small.reader0 = Done st' /\
    Reader.gEncodeQ st' = map MSG_BLOCK (full ++ partial) ++ [MSG_STOP] /\
    map ReaderRun.block_data (full ++ partial)
      = [Small.bytes "0123"; Small.bytes "4567"; Small.bytes "89"].
Proof.
  assert (HC : (0 < @CHUNKSIZE Small.h < SIZE_MAX_plus_1)%Z)
    by (split; reflexivity).
  assert (Hinv : Reader.inv Small.reader0).
  { apply (@ReaderEnd.start_inv Small.store). split; reflexivity. }
  assert (Htar : (Z.of_nat (length (Small.bytes "0123456789")) < 2 ^ 63)%Z)
    by reflexivity.
  assert (Hrec : Forall (fun ib => Z.of_nat (length (input ib))
                                   = Setup.gBlockInSize Small.pool)
                   (ReaderRun.recycled SmallRun.recycling))
    by (repeat constructor).
  destruct (@ReaderRun.read_thread Small.h SmallRun.recycling Small.reader0)
    as [st' | | | |] eqn:Hrun; try (vm_compute in Hrun; discriminate).
  destruct (@reader_splits_the_archive Small.h Small.pool
              (Small.bytes "0123456789") SmallRun.recycling st'
              HC Hinv Htar Hrec Hrun)
    as (full & partial & Hq & _ & _ & _ & _ & _).
  exists st', full, partial. split; [reflexivity |]. split; [exact Hq |].
  vm_compute in Hrun. injection Hrun as <-.
  cbn [Reader.gEncodeQ] in Hq.
  apply (f_equal Reader.blocks_of) in Hq.
  rewrite ReaderRunFacts.blocks_of_app, ReaderRunFacts.blocks_of_blocks,
    ReaderRunFacts.blocks_of_STOPs, app_nil_r in Hq.
  rewrite <- Hq. reflexivity.
Defined.

(** X6.  The reader never reads or writes outside a buffer: from the
    state after start-up its run either returns or waits for a free
    block, whatever the parser asks for and whatever blocks come back. *)
Theorem reader_stays_in_its_buffers `{pixz_h} (p : Setup.pool)
  (tar : list byte) (evs : list ReaderRun.event) :
  (0 < CHUNKSIZE < SIZE_MAX_plus_1)%Z ->
  Reader.inv (Reader.start p tar) ->
  Forall (fun ib => Z.of_nat (length (input ib)) = Setup.gBlockInSize p)
         (ReaderRun.recycled evs) ->
  ReaderRun.read_thread evs (Reader.start p tar) = Blocked \/
  exists st', ReaderRun.read_thread evs (Reader.start p tar) = Done st'.
Proof.
  intros HC Hinv Hrec. unfold ReaderRun.read_thread.
  destruct (ReaderRunFacts.run_safe evs (Reader.start p tar) HC Hinv Hrec)
    as [[Hb _] | (st1 & Hrun1 & _)].
  - left. now rewrite Hb.
  - right. rewrite Hrun1. now eexists.
Qed.

(** A witness of X6: the parser pulls far more often than the pool of six
    blocks of four bytes and the input of ten bytes ask for. *)
Lemma reader_stays_in_its_buffers_witness :
  @ReaderRun.read_thread Small.h
     (repeat (ReaderRun.Parser Reader.Pull) 40)
     (Reader.start Small.pool (repeat x00 40)) = Blocked \/
  exists st',
    @ReaderRun.read_thread Small.h
      (repeat (ReaderRun.Parser Reader.Pull) 40)
      (Reader.start Small.pool (repeat x00 40)) = Done st'.
Proof.
  apply (@reader_stays_in_its_buffers Small.h).
  - split; reflexivity.
  - apply (@ReaderEnd.start_inv Small.store). split; reflexivity.
  - constructor.
Defined.

(** X7.  When the archive is shorter than the buffers of the pool taken
    together, the reader never waits: its run returns. *)
Theorem reader_never_waits_on_a_small_archive `{pixz_h} (p : Setup.pool)
  (tar : list byte) (evs : list ReaderRun.event) :
  (0 < CHUNKSIZE < SIZE_MAX_plus_1)%Z ->
  Reader.inv (Reader.start p tar) ->
  Forall (fun ib => Z.of_nat (length (input ib)) = Setup.gBlockInSize p)
         (ReaderRun.recycled evs) ->
  (Z.of_nat (length tar)
   < Setup.gBlockInSize p * Z.of_nat (length (Setup.gReadQ p)))%Z ->
  exists st', ReaderRun.read_thread evs (Reader.start p tar) = Done st'.
Proof.
  intros HC Hinv Hrec Hsmall. unfold ReaderRun.read_thread.
  destruct (ReaderRunFacts.run_safe evs (Reader.start p tar) HC Hinv Hrec)
    as [[_ Hnr] | (st1 & Hrun1 & _)].
  - exfalso. apply Hnr. unfold ReaderRun.roomy. cbn. lia.
  - rewrite Hrun1. now eexists.
Qed.

Lemma reader_never_waits_on_a_small_archive_witness :
  exists st',
    @ReaderRun.read_thread Small.h
      (repeat (ReaderRun.Parser Reader.Pull) 40)
      (Reader.start Small.pool (repeat x00 23)) = Done st'.
Proof.
  apply (@reader_never_waits_on_a_small_archive Small.h).
  - split; reflexivity.
  - apply (@ReaderEnd.start_inv Small.store). split; reflexivity.
  - constructor.
  - reflexivity.
Defined.

(** ** The encoder threads *)

Module EncoderFacts.
Import Encoder.

(** A block that fits is encoded, and this is what the encoding changes. *)
Lemma encode_done `{block_codec} (bin bout : Z) (ib : io_block_t) :
  buffer_contract bin bout -> fits bin bout ib ->
  exists ib', encode bout ib = Done ib' /\
    seq ib' = seq ib /\ input ib' = input ib /\ insize ib' = insize ib /\
    length (output ib') = length (output ib) /\
    Writer.encoded ib'.
Proof.
  intros [Hh He] (Hin & Hbin & Hout). unfold encode, block_init.
  set (b1 := {| header_size := header_size (block ib);
                compressed_size := LZMA_VLI_UNKNOWN;
                uncompressed_size := LZMA_VLI_UNKNOWN |}).
  specialize (Hh b1). destruct (lzma_block_header_size b1) as [r hs].
  simpl in Hh. subst r. cbn [mbind outcome_bind].
  destruct (Z.leb_spec (insize ib) (Z.of_nat (length (input ib)))); [| lia].
  set (blk := {| header_size := hs |}).
  specialize (He blk (take (Z.to_nat (insize ib)) (input ib))).
  destruct (lzma_block_buffer_encode blk _ bout) as [[r blk'] bytes].
  simpl in He. destruct He as [-> Hlen].
  { rewrite length_take. lia. }
  destruct (Nat.leb_spec (length bytes) (length (output ib))); [| lia].
  eexists. split; [reflexivity |]. unfold Writer.encoded.
  cbn [seq input insize output outsize].
  rewrite length_app, length_drop. repeat split; lia.
Qed.

(** The encodings of blocks that fit carry their sequence numbers and
    are as the writer expects them. *)
Lemma encoded_blocks `{block_codec} (bin bout : Z)
  (bs outs : list io_block_t) :
  buffer_contract bin bout -> Forall (fits bin bout) bs ->
  Forall2 (fun ib ib' => encode bout ib = Done ib') bs outs ->
  map seq outs = map seq bs /\ Forall Writer.encoded outs.
Proof.
  intros Hc Hfit Henc.
  induction Henc as [| ib ib' bs outs He _ IH]; [now split |].
  apply Forall_cons in Hfit as [Hib Hfit].
  destruct (encode_done bin bout ib Hc Hib) as (ib2 & He2 & Hs & _ & _ & _ & Hw).
  rewrite He in He2. injection He2 as <-.
  destruct (IH Hfit) as [IH1 IH2]. split.
  - simpl. now rewrite Hs, IH1.
  - now constructor.
Qed.

Lemma split_at {A : Type} (l : list A) (i : nat) (x : A) :
  l !! i = Some x ->
  exists l1 l2, l = l1 ++ x :: l2 /\
                forall y, <[i := y]> l = l1 ++ y :: l2.
Proof.
  intros Hi. exists (take i l), (drop (S i) l). split.
  - symmetry. now apply take_drop_middle.
  - intros y. apply insert_take_drop. now apply lookup_lt_Some in Hi.
Qed.

Lemma holding_app (t1 t2 : list thread) :
  holding (t1 ++ t2) = holding t1 ++ holding t2.
Proof. unfold holding. apply flat_map_app. Qed.

Lemma filter_all {A : Type} (p : A -> bool) (l : list A) :
  length (List.filter p l) = length l -> Forall (fun x => p x = true) l.
Proof.
  induction l as [| a l IH]; simpl; [constructor |].
  pose proof (List.filter_length_le p l) as Hle.
  destruct (p a) eqn:E; simpl; intros Hlen.
  - constructor; [exact E | apply IH; lia].
  - lia.
Qed.

Lemma holding_exited (ts : list thread) :
  Forall (fun t => is_exited t = true) ts -> holding ts = [].
Proof.
  induction 1 as [| t ts Ht _ IH]; [reflexivity |].
  destruct t; try discriminate. exact IH.
Qed.

Lemma filter_stop_blocks (bs : list io_block_t) :
  List.filter is_stop (map MSG_BLOCK bs) = [].
Proof. induction bs as [| b bs IH]; [reflexivity | exact IH]. Qed.

Lemma filter_stop_STOPs (n : nat) :
  List.filter is_stop (repeat MSG_STOP n) = repeat MSG_STOP n.
Proof. induction n as [| n IH]; simpl; [reflexivity | now rewrite IH]. Qed.

Lemma accounts_start `{block_codec} (bout : Z) (n : nat) :
  accounts bout n [] (start n).
Proof.
  assert (Hh : forall k, holding (repeat Popping k) = [])
    by (induction k as [| k IH]; [reflexivity | exact IH]).
  assert (He : forall k, List.filter is_exited (repeat Popping k) = [])
    by (induction k as [| k IH]; [reflexivity | exact IH]).
  exists [], []. cbn.
  rewrite Hh, He, repeat_length. repeat split; constructor.
Qed.

(** One step keeps the account. *)
Lemma step_accounts `{block_codec} (bin bout : Z) (n : nat) (e : event)
  (pushed : list msg) (s : pool) :
  buffer_contract bin bout ->
  Forall (fits bin bout) (Reader.blocks_of pushed) ->
  accounts bout n pushed s ->
  exists s', step bout e s = Done s' /\
             accounts bout n (pushed ++ pushes [e]) s' /\
             (forall i, e = Turn i ->
                (exists ib, threads s !! i = Some (Pushing ib)) \/
                (threads s !! i = Some Popping /\ gEncodeQ s <> []) ->
                todo s' < todo s).
Proof.
  intros Hc Hfit (popped & outs & Hq & Henc & Hperm & Hw & Hcount & Hn).
  destruct e as [m | i].
  - (* the reader pushes *)
    eexists. split; [reflexivity |]. split; [| discriminate].
    exists popped, outs. cbn.
    split; [now rewrite Hq, app_assoc |]. now repeat split.
  - cbn [pushes flat_map app]. rewrite app_nil_r. unfold step.
    destruct (threads s !! i) as [[| ib |] |] eqn:Hi.
    + (* the thread pops *)
      destruct (split_at _ _ _ Hi) as (t1 & t2 & Hts & Hins).
      destruct (gEncodeQ s) as [| [ib |] q] eqn:Eq.
      * exists s. split; [reflexivity |]. split.
        { exists popped, outs. rewrite Eq. now repeat split. }
        intros j [= <-] [[ib Hp] | [_ Hne]]; congruence.
      * assert (Hib : fits bin bout ib).
        { rewrite Hq, ReaderRunFacts.blocks_of_app in Hfit.
          apply Forall_app in Hfit as [_ Hfit]. simpl in Hfit.
          now apply Forall_cons in Hfit as [Hfit _]. }
        destruct (encode_done bin bout ib Hc Hib) as (ib' & Hrun & _).
        rewrite Hrun. cbn [mbind outcome_bind].
        eexists. split; [reflexivity |]. split.
        -- exists (popped ++ [MSG_BLOCK ib]), (outs ++ [ib']).
           cbn [gEncodeQ gWriteQ threads].
           split; [now rewrite <- app_assoc |].
           split.
           { rewrite ReaderRunFacts.blocks_of_app. simpl.
             apply Forall2_app; [exact Henc |]. now constructor. }
           split.
           { rewrite Hins, holding_app. simpl.
             rewrite Hts, holding_app in Hperm. simpl in Hperm.
             rewrite <- Hperm.
             transitivity (ib' :: Reader.blocks_of (gWriteQ s)
                             ++ holding t1 ++ holding t2).
             - rewrite !app_assoc. symmetry. apply Permutation_middle.
             - apply Permutation_cons_append. }
           split; [exact Hw |].
           split.
           { rewrite List.filter_app, length_app. simpl.
             rewrite Hins, List.filter_app, length_app. simpl.
             rewrite Hts, List.filter_app, length_app in Hcount.
             simpl in Hcount. lia. }
           rewrite Hins, length_app. simpl.
           rewrite Hts, length_app in Hn. simpl in Hn. lia.
        -- intros _ _ _. unfold todo. cbn [gEncodeQ threads].
           rewrite Hins, Hts, Eq. simpl.
           rewrite !holding_app, !List.filter_app, !length_app. simpl. lia.
      * eexists. split; [reflexivity |]. split.
        -- exists (popped ++ [MSG_STOP]), outs.
           cbn [gEncodeQ gWriteQ threads].
           split; [now rewrite <- app_assoc |].
           split.
           { rewrite ReaderRunFacts.blocks_of_app. simpl.
             now rewrite app_nil_r. }
           split.
           { rewrite Hins, holding_app. simpl.
             rewrite Hts, holding_app in Hperm. exact Hperm. }
           split; [exact Hw |].
           split.
           { rewrite List.filter_app, length_app. simpl.
             rewrite Hins, List.filter_app, length_app. simpl.
             rewrite Hts, List.filter_app, length_app in Hcount.
             simpl in Hcount. lia. }
           rewrite Hins, length_app. simpl.
           rewrite Hts, length_app in Hn. simpl in Hn. lia.
        -- intros _ _ _. unfold todo. cbn [gEncodeQ threads].
           rewrite Hins, Hts, Eq. simpl.
           rewrite !holding_app, !List.filter_app, !length_app. simpl. lia.
    + (* the thread pushes the block it holds *)
      destruct (split_at _ _ _ Hi) as (t1 & t2 & Hts & Hins).
      eexists. split; [reflexivity |]. split.
      * exists popped, outs. cbn [gEncodeQ gWriteQ threads].
        split; [exact Hq |]. split; [exact Henc |].
        split.
        { rewrite ReaderRunFacts.blocks_of_app. simpl.
          rewrite Hins, holding_app. simpl.
          rewrite Hts, holding_app in Hperm. simpl in Hperm.
          rewrite <- Hperm, <- app_assoc. simpl.
          apply Permutation_app_head. apply Permutation_middle. }
        split.
        { rewrite ReaderRunFacts.blocks_of_app, map_app, <- Hw.
          reflexivity. }
        split.
        { rewrite Hins, List.filter_app, length_app. simpl.
          rewrite Hts, List.filter_app, length_app in Hcount.
          simpl in Hcount. lia. }
        rewrite Hins, length_app. simpl.
        rewrite Hts, length_app in Hn. simpl in Hn. lia.
      * intros _ _ _. unfold todo. cbn [gEncodeQ threads].
        rewrite Hins, Hts. simpl.
        rewrite !holding_app, !List.filter_app, !length_app. simpl. lia.
    + exists s. split; [reflexivity |]. split.
      { exists popped, outs. now repeat split. }
      intros j [= <-] [[ib Hp] | [Hp _]]; congruence.
    + exists s. split; [reflexivity |]. split.
      { exists popped, outs. now repeat split. }
      intros j [= <-] [[ib Hp] | [Hp _]]; congruence.
Qed.

Lemma pushes_app (e1 e2 : list event) :
  pushes (e1 ++ e2) = pushes e1 ++ pushes e2.
Proof. unfold pushes. apply flat_map_app. Qed.

Lemma pushes_turns (turns : list nat) : pushes (map Turn turns) = [].
Proof. induction turns as [| i turns IH]; [reflexivity | exact IH]. Qed.

Lemma run_schedule_app `{block_codec} (bout : Z) (e1 e2 : list event) (s : pool) :
  run bout (e1 ++ e2) s = s' ← run bout e1 s; run bout e2 s'.
Proof.
  revert s. induction e1 as [| e e1 IH]; intros s; simpl; [reflexivity |].
  destruct (step bout e s) as [s1 | | | |]; cbn [mbind outcome_bind];
    try reflexivity.
  apply IH.
Qed.

(** Every schedule runs through and keeps the account. *)
Lemma run_accounts `{block_codec} (bin bout : Z) (n : nat)
  (evs : list event) (pushed : list msg) (s : pool) :
  buffer_contract bin bout ->
  Forall (fits bin bout) (Reader.blocks_of (pushed ++ pushes evs)) ->
  accounts bout n pushed s ->
  exists s', run bout evs s = Done s' /\
             accounts bout n (pushed ++ pushes evs) s'.
Proof.
  intros Hc. revert pushed s.
  induction evs as [| e evs IH]; intros pushed s Hfit Hacc.
  - exists s. cbn. rewrite app_nil_r. now split.
  - change (e :: evs) with ([e] ++ evs) in Hfit.
    rewrite pushes_app, app_assoc in Hfit.
    destruct (step_accounts bin bout n e pushed s Hc) as (s1 & Hs & Ha & _).
    { rewrite ReaderRunFacts.blocks_of_app in Hfit.
      apply Forall_app in Hfit as [Hfit _].
      rewrite ReaderRunFacts.blocks_of_app in Hfit.
      now apply Forall_app in Hfit as [Hfit _]. }
    { exact Hacc. }
    destruct (IH _ s1 Hfit Ha) as (s' & Hrun & Ha').
    exists s'. cbn [run]. rewrite Hs. cbn [mbind outcome_bind].
    split; [exact Hrun |].
    change (e :: evs) with ([e] ++ evs). now rewrite pushes_app, app_assoc.
Qed.

(** With the queue empty after all the pushes, every thread has exited
    and the write queue holds the encoded blocks. *)
Lemma accounts_done `{block_codec} (bout : Z) (n : nat)
  (bs : list io_block_t) (s : pool) :
  accounts bout n (map MSG_BLOCK bs ++ repeat MSG_STOP n) s ->
  gEncodeQ s = [] ->
  Forall (fun t => t = Exited) (threads s) /\
  exists outs,
    Forall2 (fun ib ib' => encode bout ib = Done ib') bs outs /\
    Reader.blocks_of (gWriteQ s) ≡ₚ outs /\
    gWriteQ s = map MSG_BLOCK (Reader.blocks_of (gWriteQ s)).
Proof.
  intros (popped & outs & Hq & Henc & Hperm & Hw & Hcount & Hn) Hempty.
  rewrite Hempty, app_nil_r in Hq. subst popped.
  rewrite List.filter_app, filter_stop_blocks, filter_stop_STOPs in Hcount.
  simpl in Hcount. rewrite repeat_length, <- Hn in Hcount.
  symmetry in Hcount. apply filter_all in Hcount.
  rewrite (holding_exited _ Hcount), app_nil_r in Hperm.
  rewrite ReaderRunFacts.blocks_of_app, ReaderRunFacts.blocks_of_blocks,
    ReaderRunFacts.blocks_of_STOPs, app_nil_r in Henc.
  split.
  - eapply Forall_impl; [exact Hcount |]. intros [| ib |]; simpl; congruence.
  - exists outs. now repeat split.
Qed.

(** A thread that has not exited. *)
Lemma exists_live (ts : list thread) :
  length (List.filter is_exited ts) < length ts ->
  exists i t, ts !! i = Some t /\ is_exited t = false.
Proof.
  induction ts as [| t ts IH]; simpl; [lia |].
  destruct (is_exited t) eqn:E; simpl; intros Hlen.
  - destruct IH as (i & t' & Hi & Ht); [lia |]. now exists (S i), t'.
  - now exists 0, t.
Qed.

(** What is left of a queue that ends with STOPs holds a STOP. *)
Lemma rest_holds_STOP (bs : list io_block_t) (n : nat) (popped q : list msg) :
  map MSG_BLOCK bs ++ repeat MSG_STOP n = popped ++ q ->
  0 < n -> q <> [] -> 0 < length (List.filter is_stop q).
Proof.
  intros Hq Hn Hne.
  destruct (exists_last Hne) as (q' & m & ->).
  destruct n as [| n]; [lia |].
  cbn [repeat] in Hq. rewrite repeat_cons, !app_assoc in Hq.
  apply app_inj_tail in Hq as [_ <-].
  rewrite List.filter_app, length_app. simpl. lia.
Qed.

(** From any state that a schedule with all the pushes reaches, turns of
    the threads empty the encode queue. *)
Lemma can_finish `{block_codec} (bin bout : Z) (n : nat)
  (bs : list io_block_t) (k : nat) (s : pool) :
  buffer_contract bin bout -> Forall (fits bin bout) bs -> 0 < n ->
  accounts bout n (map MSG_BLOCK bs ++ repeat MSG_STOP n) s ->
  todo s <= k ->
  exists turns s',
    run bout (map Turn turns) s = Done s' /\ gEncodeQ s' = [] /\
    accounts bout n (map MSG_BLOCK bs ++ repeat MSG_STOP n) s'.
Proof.
  intros Hc Hfit Hn. revert s.
  assert (Hfit' : Forall (fits bin bout)
            (Reader.blocks_of (map MSG_BLOCK bs ++ repeat MSG_STOP n))).
  { now rewrite ReaderRunFacts.blocks_of_app, ReaderRunFacts.blocks_of_blocks,
      ReaderRunFacts.blocks_of_STOPs, app_nil_r. }
  induction k as [| k IH]; intros s Hacc Hk;
    (destruct (gEncodeQ s) as [| m q] eqn:Eq;
     [exists [], s; now repeat split |]).
  all: pose proof Hacc as (popped & outs & Hq & _ & _ & _ & Hcount & Hlen).
  all: assert (Hstop : 0 < length (List.filter is_stop (gEncodeQ s)))
         by (apply (rest_holds_STOP bs n popped); [exact Hq | exact Hn |];
             rewrite Eq; discriminate).
  all: assert (Hlive : length (List.filter is_exited (threads s))
                       < length (threads s))
         by (apply (f_equal (fun l => length (List.filter is_stop l))) in Hq;
             rewrite !List.filter_app, !length_app, filter_stop_blocks,
               filter_stop_STOPs, repeat_length in Hq; simpl in Hq; lia).
  all: destruct (exists_live _ Hlive) as (i & t & Hi & Ht).
  all: destruct (step_accounts bin bout n (Turn i) _ s Hc Hfit' Hacc)
         as (s1 & Hs & Ha1 & Hdown).
  all: cbn [pushes flat_map app] in Ha1; rewrite app_nil_r in Ha1.
  all: assert (Hlt : todo s1 < todo s)
         by (apply (Hdown i eq_refl); destruct t as [| ib |];
             [right; split; [exact Hi | rewrite Eq; discriminate]
             | left; now exists ib
             | discriminate]).
  - lia.
  - destruct (IH s1 Ha1) as (turns & s' & Hrun & He & Ha'); [lia |].
    exists (i :: turns), s'. cbn [map run]. rewrite Hs.
    cbn [mbind outcome_bind]. now repeat split.
Qed.

End EncoderFacts.

Lemma small_codec_contract : @Encoder.buffer_contract SmallRun.codec 4 68.
Proof.
  split; [reflexivity |]. intros b d Hd. cbn [fst snd SmallRun.codec
    Encoder.lzma_block_buffer_encode length].
  split; [reflexivity | lia].
Qed.

(** X8.  Whatever the schedule of the encoder threads and of the reader's
    pushes, as long as the reader pushes blocks that fit and then one STOP
    for each thread: no thread dies or leaves a buffer, and once the
    encode queue is empty every thread has exited and the write queue
    holds, in some order, exactly the encodings of the blocks pushed, each
    with its sequence number. *)
Theorem encoders_deliver_every_block `{Encoder.block_codec} (bin bout : Z)
  (n : nat) (bs : list io_block_t) (evs : list Encoder.event) :
  Encoder.buffer_contract bin bout ->
  Forall (Encoder.fits bin bout) bs ->
  Encoder.pushes evs = map MSG_BLOCK bs ++ repeat MSG_STOP n ->
  exists s',
    Encoder.run bout evs (Encoder.start n) = Done s' /\
    (Encoder.gEncodeQ s' = [] ->
     Forall (fun t => t = Encoder.Exited) (Encoder.threads s') /\
     exists outs,
       Forall2 (fun ib ib' => Encoder.encode bout ib = Done ib') bs outs /\
       map seq outs = map seq bs /\
       Encoder.gWriteQ s' ≡ₚ map MSG_BLOCK outs).
Proof.
  intros Hc Hfit Hpush.
  destruct (EncoderFacts.run_accounts bin bout n evs [] (Encoder.start n) Hc)
    as (s' & Hrun & Hacc).
  - cbn [app]. rewrite Hpush, ReaderRunFacts.blocks_of_app,
      ReaderRunFacts.blocks_of_blocks, ReaderRunFacts.blocks_of_STOPs.
    now rewrite app_nil_r.
  - apply EncoderFacts.accounts_start.
  - exists s'. split; [exact Hrun |]. intros Hempty.
    cbn [app] in Hacc. rewrite Hpush in Hacc.
    destruct (EncoderFacts.accounts_done bout n bs s' Hacc Hempty)
      as (Hex & outs & Henc & Hperm & Hw).
    split; [exact Hex |]. exists outs. split; [exact Henc |]. split.
    + now apply (EncoderFacts.encoded_blocks bin bout bs outs Hc Hfit).
    + rewrite Hw. now apply Permutation_map.
Qed.

(** A witness of X8: three blocks through two threads. *)
Lemma encoders_deliver_every_block_witness :
  exists s',
    @Encoder.run SmallRun.codec 68 SmallRun.schedule (Encoder.start 2)
      = Done s' /\
    Encoder.gEncodeQ s' = [] /\
    map seq (Reader.blocks_of (Encoder.gWriteQ s')) = [1; 0; 2]%Z.
Proof.
  assert (Hfit : Forall (Encoder.fits 4 68) SmallRun.posted).
  { repeat constructor; vm_compute; discriminate. }
  destruct (@encoders_deliver_every_block SmallRun.codec 4 68 2
              SmallRun.posted SmallRun.schedule small_codec_contract
              Hfit eq_refl) as (s' & Hrun & _).
  exists s'. split; [exact Hrun |].
  vm_compute in Hrun. injection Hrun as <-. now split.
Defined.

(** X9.  The encoders cannot get stuck: with at least one thread, after
    any schedule in which the reader has pushed its blocks and one STOP
    for each thread, there are turns of the threads after which the encode
    queue is empty and every thread has exited. *)
Theorem encoders_can_always_finish `{Encoder.block_codec} (bin bout : Z)
  (n : nat) (bs : list io_block_t) (evs : list Encoder.event) :
  Encoder.buffer_contract bin bout ->
  Forall (Encoder.fits bin bout) bs ->
  0 < n ->
  Encoder.pushes evs = map MSG_BLOCK bs ++ repeat MSG_STOP n ->
  exists turns s',
    Encoder.run bout (evs ++ map Encoder.Turn turns) (Encoder.start n)
      = Done s' /\
    Encoder.gEncodeQ s' = [] /\
    Forall (fun t => t = Encoder.Exited) (Encoder.threads s').
Proof.
  intros Hc Hfit Hn Hpush.
  destruct (EncoderFacts.run_accounts bin bout n evs [] (Encoder.start n) Hc)
    as (s1 & Hrun & Hacc).
  - cbn [app]. rewrite Hpush, ReaderRunFacts.blocks_of_app,
      ReaderRunFacts.blocks_of_blocks, ReaderRunFacts.blocks_of_STOPs.
    now rewrite app_nil_r.
  - apply EncoderFacts.accounts_start.
  - cbn [app] in Hacc. rewrite Hpush in Hacc.
    destruct (EncoderFacts.can_finish bin bout n bs (Encoder.todo s1) s1
                Hc Hfit Hn Hacc (le_n _))
      as (turns & s' & Hrun' & Hempty & Hacc').
    exists turns, s'. rewrite EncoderFacts.run_schedule_app, Hrun.
    cbn [mbind outcome_bind]. split; [exact Hrun' |].
    split; [exact Hempty |].
    now destruct (EncoderFacts.accounts_done bout n bs s' Hacc' Hempty).
Qed.

(** A witness of X9: the reader has pushed everything and no thread has
    taken a turn yet. *)
Lemma encoders_can_always_finish_witness :
  exists turns s',
    @Encoder.run SmallRun.codec 68
      (map Encoder.Push (map MSG_BLOCK SmallRun.posted ++ [MSG_STOP; MSG_STOP])
       ++ map Encoder.Turn turns) (Encoder.start 2) = Done s' /\
    Encoder.gEncodeQ s' = [].
Proof.
  assert (Hfit : Forall (Encoder.fits 4 68) SmallRun.posted).
  { repeat constructor; vm_compute; discriminate. }
  destruct (@encoders_can_always_finish SmallRun.codec 4 68 2
              SmallRun.posted
              (map Encoder.Push
                 (map MSG_BLOCK SmallRun.posted ++ [MSG_STOP; MSG_STOP]))
              small_codec_contract Hfit (le_S _ _ (le_n 1)) eq_refl)
    as (turns & s' & Hrun & Hempty & _).
  now exists turns, s'.
Defined.

(** ** The three stages together *)

Module PipelineFacts.
Import Pipeline.

Lemma tar_read_outputs `{pixz_h} (st st' : Reader.reader) (rd : Z) :
  Reader.tar_read st = Done (rd, st') ->
  outputs_sized st -> outputs_sized st'.
Proof.
  intros Hrun (Hq & Hcur & Hposted).
  apply ReaderFacts.tar_read_done in Hrun
    as (ib & q & num & data & buf & rest & space & Ha & _ & _ & _ & ->).
  assert (Hib : Z.of_nat (length (output ib)) = Reader.gBlockOutSize st /\
                Forall (fun b => Z.of_nat (length (output b))
                                 = Reader.gBlockOutSize st) q).
  { unfold Reader.acquire in Ha.
    destruct (Reader.gReadBlock st) as [cur |].
    - injection Ha as <- <- _. split; [now apply Hcur | exact Hq].
    - destruct (Reader.gReadQ st) as [| b q0]; [discriminate |].
      injection Ha as <- <- _. apply Forall_cons in Hq as [Hb Hq].
      now split. }
  destruct Hib as [Hib Hq'].
  unfold outputs_sized.
  cbn [Reader.gReadQ Reader.gReadBlock Reader.gEncodeQ Reader.gBlockOutSize].
  split; [exact Hq' |].
  destruct (_ =? _)%Z.
  - split; [discriminate |].
    rewrite ReaderRunFacts.blocks_of_app. apply Forall_app.
    split; [exact Hposted |]. constructor; [exact Hib | constructor].
  - split; [| exact Hposted]. now intros b [= <-].
Qed.

Lemma run_outputs `{pixz_h} (evs : list ReaderRun.event)
  (st st' : Reader.reader) :
  ReaderRun.run evs st = Done st' ->
  Forall (fun ib => Z.of_nat (length (output ib)) = Reader.gBlockOutSize st)
         (ReaderRun.recycled evs) ->
  outputs_sized st ->
  outputs_sized st' /\ Reader.gBlockOutSize st' = Reader.gBlockOutSize st.
Proof.
  revert st. induction evs as [| [[| pos nm] | ib] evs IH]; intros st.
  - intros [= <-] _ Hs. now split.
  - cbn [ReaderRun.run].
    destruct (Reader.tar_read st) as [[rd st1] | | | |] eqn:Et;
      try discriminate.
    cbn [mbind outcome_bind snd]. intros Hrun Hrec Hs.
    destruct (ReaderFacts.tar_read_files _ _ _ Et) as (_ & _ & HO & _).
    destruct (IH st1 Hrun) as [Hs' HO'].
    + now rewrite HO.
    + exact (tar_read_outputs st st1 rd Et Hs).
    + split; [exact Hs' | congruence].
  - cbn [ReaderRun.run]. intros Hrun Hrec Hs.
    exact (IH (Reader.register pos (Some nm) st) Hrun Hrec Hs).
  - cbn [ReaderRun.run]. intros Hrun Hrec Hs.
    cbn [ReaderRun.recycled flat_map app] in Hrec.
    change (flat_map _ evs) with (ReaderRun.recycled evs) in Hrec.
    apply Forall_cons in Hrec as [Hib Hrec].
    apply (IH (ReaderRun.recycle ib st) Hrun Hrec).
    destruct Hs as (Hq & Hcur & Hposted).
    split; [| now split].
    cbn [ReaderRun.recycle Reader.gReadQ Reader.gBlockOutSize].
    apply Forall_app. split; [exact Hq |]. now constructor.
Qed.

(** The blocks on the encode queue at the end have output buffers of the
    size chosen at start-up. *)
Lemma finish_outputs (st : Reader.reader) :
  outputs_sized st ->
  Forall (fun ib => Z.of_nat (length (output ib)) = Reader.gBlockOutSize st)
         (Reader.blocks_of (Reader.gEncodeQ (Reader.finish st))).
Proof.
  intros (_ & Hcur & Hposted).
  pose proof (ReaderEnd.finish_queues st) as Hq.
  destruct (Reader.gReadBlock st) as [cur |].
  - destruct (insize cur =? 0)%Z; destruct Hq as [-> _];
      rewrite !ReaderRunFacts.blocks_of_app;
      unfold Reader.STOPs; rewrite ReaderRunFacts.blocks_of_STOPs.
    + now rewrite app_nil_r.
    + simpl. apply Forall_app. split; [exact Hposted |].
      constructor; [now apply Hcur | constructor].
  - destruct Hq as [-> _]. rewrite ReaderRunFacts.blocks_of_app.
    unfold Reader.STOPs. rewrite ReaderRunFacts.blocks_of_STOPs.
    now rewrite app_nil_r.
Qed.

(** Up to the STOP the loop on the write queue is the loop over the blocks
    that arrive. *)
Lemma main_loop_queue `{liblzma} (arrivals : list io_block_t)
  (rest : list msg) (st : Writer.writer) :
  WriterQueue.main_loop (map MSG_BLOCK arrivals ++ MSG_STOP :: rest) st
  = Writer.main_loop arrivals st.
Proof.
  revert st. induction arrivals as [| ib arrivals IH]; intros st; simpl.
  - reflexivity.
  - destruct (Writer.receive ib st) as [st1 | | | |];
      cbn [mbind outcome_bind]; try reflexivity.
    apply IH.
Qed.

(** Two arrangements of the same blocks with the same distinct keys, in
    the same order, are the same list. *)
Lemma same_keys {A B : Type} (f : A -> B) (l1 l2 : list A) :
  l1 ≡ₚ l2 -> map f l1 = map f l2 -> NoDup (map f l1) -> l1 = l2.
Proof.
  revert l2. induction l1 as [| a l1 IH]; intros l2 Hp Hm Hnd.
  - apply Permutation_nil in Hp. now subst.
  - destruct l2 as [| b l2]; [discriminate |].
    simpl in Hm, Hnd. injection Hm as Hab Hm.
    apply NoDup_cons in Hnd as [Hnot Hnd].
    assert (Ha : a = b).
    { assert (Hin : a ∈ b :: l2) by (rewrite <- Hp; left).
      apply elem_of_cons in Hin as [Hin | Hin]; [exact Hin |].
      exfalso. apply Hnot. rewrite Hm.
      apply list_elem_of_fmap. now exists a. }
    subst b. f_equal. apply IH; [| exact Hm | exact Hnd].
    now apply Permutation_cons_inv in Hp.
Qed.

(** The main loop over blocks that carry the sequence numbers 0 to n - 1
    in any order. *)
Lemma main_loop_all `{liblzma} (arrivals : list io_block_t) :
  Forall Writer.encoded arrivals ->
  (Z.of_nat (length arrivals) < SIZE_MAX_plus_1)%Z ->
  map seq arrivals ≡ₚ seqZ 0 (Z.of_nat (length arrivals)) ->
  exists final,
    Writer.main_loop arrivals Writer.start = Done final /\
    Writer.ibs final = [] /\
    Writer.gReadQ final ≡ₚ arrivals /\
    Writer.wrote final /\
    Writer.next_seq final = Z.of_nat (length arrivals).
Proof.
  intros Henc Hmax Hseqs.
  destruct (WriterFacts.main_loop_spec arrivals Writer.start)
    as (final & Hrun & Hw & _ & Hdr & _ & Hperm).
  - apply WriterFacts.wrote_start.
  - constructor.
  - constructor.
  - exact Henc.
  - cbn. lia.
  - cbn in Hperm. pose proof Hw as (Hseq & Hn & Hout & _).
    assert (Hlen : length arrivals
                   = length (Writer.gReadQ final) + length (Writer.ibs final)).
    { rewrite <- Hperm. apply length_app. }
    assert (Hnone : Writer.ibs final = []).
    { destruct (Writer.ibs final) as [| ib rest] eqn:Epend; [reflexivity |].
      exfalso.
      assert (Hin : Writer.next_seq final ∈ map seq arrivals).
      { rewrite Hseqs. apply elem_of_seqZ. simpl in Hlen. lia. }
      rewrite <- Hperm, map_app in Hin.
      apply elem_of_app in Hin as [Hin | Hin].
      - rewrite Hseq in Hin. apply elem_of_seqZ in Hin. lia.
      - apply list_elem_of_In, in_map_iff in Hin as (b & Hb & Hbin).
        unfold Writer.drained in Hdr. rewrite Epend in Hdr.
        rewrite Forall_forall in Hdr.
        apply (Hdr b); [now apply list_elem_of_In | exact Hb]. }
    exists final. split; [exact Hrun |]. split; [exact Hnone |].
    rewrite Hnone, app_nil_r in Hperm. rewrite Hnone in Hlen.
    split; [exact Hperm |]. split; [exact Hw |]. simpl in Hlen. lia.
Qed.

End PipelineFacts.

(** X10.  The pipeline as a whole.  Let the reader return after any run of
    the parser with any blocks of the right size handed back in between,
    let the encoder threads run under any schedule over what the reader
    pushed until the encode queue is empty, and let the main loop take
    what the threads pushed, in that order, and then the reader's STOP.
    Then the main loop returns with nothing pending, and the output file
    is the encodings of the reader's blocks in the order of their
    sequence numbers, whatever the order in which they arrived; the
    stream index lists them in the same order; and the blocks, read one
    after another, are the bytes that the reader took from the input. *)
Theorem pipeline_writes_the_input_in_order
  `{pixz_h} `{liblzma} `{Encoder.block_codec} (p : Setup.pool)
  (tar : list byte) (evs : list ReaderRun.event) (st' : Reader.reader)
  (sched : list Encoder.event) (s' : Encoder.pool) :
  (0 < CHUNKSIZE < SIZE_MAX_plus_1)%Z ->
  (0 < Setup.gBlockInSize p < SIZE_MAX_plus_1)%Z ->
  (Z.of_nat (length tar) < 2 ^ 63)%Z ->
  Forall (ReaderRun.sized (Setup.gBlockInSize p) (Setup.gBlockOutSize p))
         (Setup.gReadQ p ++ ReaderRun.recycled evs) ->
  Encoder.buffer_contract (Setup.gBlockInSize p) (Setup.gBlockOutSize p) ->
  ReaderRun.read_thread evs (Reader.start p tar) = Done st' ->
  Encoder.pushes sched = Reader.gEncodeQ st' ->
  Encoder.run (Setup.gBlockOutSize p) sched
    (Encoder.start (Z.to_nat (Setup.gNumEncodeThreads p))) = Done s' ->
  Encoder.gEncodeQ s' = [] ->
  exists blocks outs final,
    concat (map ReaderRun.block_data blocks)
      = take (Z.to_nat (Reader.gTotalRead st')) tar /\
    Forall2 (fun ib ib' =>
               Encoder.encode (Setup.gBlockOutSize p) ib = Done ib')
            blocks outs /\
    WriterQueue.main_loop (Encoder.gWriteQ s' ++ Reader.gWriteQ st')
      Writer.start = Done final /\
    Writer.ibs final = [] /\
    Writer.gOutFile final = concat (map Writer.block_bytes outs) /\
    Writer.gIndex final = map Writer.index_record outs /\
    Writer.gReadQ final = outs.
Proof.
  intros HC HB Htar Hsized Hc Hread Hpush Hrun Hempty.
  apply Forall_app in Hsized as [Hpool Hrec].
  assert (Hinv : Reader.inv (Reader.start p tar)).
  { split; [exact HB |]. split; [discriminate |].
    intros ib Hin. cbn [Reader.start Reader.gReadQ Reader.gBlockInSize] in *.
    rewrite Forall_forall in Hpool.
    now destruct (Hpool ib (proj2 (list_elem_of_In _ _) Hin)). }
  assert (Hrec_in : Forall (fun ib => Z.of_nat (length (input ib))
                                      = Setup.gBlockInSize p)
                      (ReaderRun.recycled evs))
    by (eapply Forall_impl; [exact Hrec |]; now intros ib [Hi _]).
  (* the reader *)
  destruct (ReaderRunFacts.read_thread_posts p tar evs st'
              HC Hinv Htar Hrec_in Hread)
    as (full & partial & Hq & Hw & Hcat & Hseq & Hfull & Hlast & Hin
        & st1 & Hrun1 & ->).
  set (blocks := full ++ partial) in *.
  assert (Hout : Forall (fun ib => Z.of_nat (length (output ib))
                                   = Setup.gBlockOutSize p) blocks).
  { destruct (PipelineFacts.run_outputs evs _ st1 Hrun1) as [Hs HO].
    - eapply Forall_impl; [exact Hrec |]. now intros ib [_ Ho].
    - split; [| split; [discriminate | constructor]].
      eapply Forall_impl; [exact Hpool |]. now intros ib [_ Ho].
    - pose proof (PipelineFacts.finish_outputs st1 Hs) as Hfin.
      rewrite Hq, ReaderRunFacts.blocks_of_app,
        ReaderRunFacts.blocks_of_blocks, ReaderRunFacts.blocks_of_STOPs,
        app_nil_r in Hfin.
      now rewrite HO in Hfin. }
  assert (Hsizes : Forall (fun ib => (0 < insize ib
                                      <= Setup.gBlockInSize p)%Z) blocks).
  { apply Forall_app. split.
    - eapply Forall_impl; [exact Hfull |]. intros ib ->. lia.
    - destruct Hlast as [-> | (ib & -> & Hi)]; [constructor |].
      constructor; [lia | constructor]. }
  assert (Hfit : Forall (Encoder.fits (Setup.gBlockInSize p)
                           (Setup.gBlockOutSize p)) blocks).
  { rewrite Forall_forall in Hout, Hsizes, Hin. apply Forall_forall.
    intros ib Hib. specialize (Hout ib Hib). specialize (Hsizes ib Hib).
    specialize (Hin ib Hib). unfold Encoder.fits. lia. }
  (* the encoders *)
  destruct (EncoderFacts.run_accounts _ _
              (Z.to_nat (Setup.gNumEncodeThreads p)) sched []
              (Encoder.start (Z.to_nat (Setup.gNumEncodeThreads p))) Hc)
    as (s2 & Hrun2 & Hacc).
  { cbn [app]. rewrite Hpush, Hq, ReaderRunFacts.blocks_of_app,
      ReaderRunFacts.blocks_of_blocks, ReaderRunFacts.blocks_of_STOPs.
    now rewrite app_nil_r. }
  { apply EncoderFacts.accounts_start. }
  rewrite Hrun in Hrun2. injection Hrun2 as <-.
  cbn [app] in Hacc. rewrite Hpush, Hq in Hacc.
  destruct (EncoderFacts.accounts_done _ _ blocks s' Hacc Hempty)
    as (_ & outs & Henc & Hperm & Hwq).
  destruct (EncoderFacts.encoded_blocks _ _ blocks outs Hc Hfit Henc)
    as [Hseqs Hencoded].
  (* the writer *)
  set (arrivals := Reader.blocks_of (Encoder.gWriteQ s')) in *.
  assert (Hlen : length arrivals = length blocks).
  { rewrite Hperm. symmetry. eapply Forall2_length. exact Henc. }
  assert (Hfew : (Z.of_nat (length blocks) < SIZE_MAX_plus_1)%Z).
  { assert (Hl : (Z.of_nat (length (concat (map ReaderRun.block_data full)))
                  = Setup.gBlockInSize p * Z.of_nat (length full))%Z).
    { apply ReaderRunFacts.concat_data_length; [lia |].
      apply Forall_app in Hin as [Hin _].
      rewrite Forall_forall in Hfull, Hin. apply Forall_forall.
      intros ib Hib. split; [now apply Hfull | now apply Hin]. }
    assert (Hle : length (concat (map ReaderRun.block_data full))
                  <= length tar).
    { unfold blocks in Hcat. rewrite map_app, concat_app in Hcat.
      apply (f_equal length) in Hcat.
      rewrite length_app, length_take in Hcat. lia. }
    assert (Hp : length partial <= 1)
      by (destruct Hlast as [-> | (ib & -> & _)]; simpl; lia).
    unfold blocks. rewrite length_app. unfold SIZE_MAX_plus_1. nia. }
  destruct (PipelineFacts.main_loop_all arrivals)
    as (final & Hmain & Hnone & Hpermw & Hwrote & Hnext).
  { now rewrite Hperm. }
  { lia. }
  { rewrite Hlen, Hperm, Hseqs, Hseq. reflexivity. }
  assert (Hsame : Writer.gReadQ final = outs).
  { destruct Hwrote as (Hs & _).
    apply (PipelineFacts.same_keys seq).
    - now rewrite Hpermw.
    - rewrite Hs, Hnext, Hlen, Hseqs. now symmetry.
    - rewrite Hs. apply NoDup_seqZ. }
  exists blocks, outs, final.
  split; [exact Hcat |]. split; [exact Henc |].
  split.
  { rewrite Hwq, Hw. fold arrivals.
    now rewrite PipelineFacts.main_loop_queue. }
  split; [exact Hnone |].
  destruct Hwrote as (_ & _ & Hfile & Hidx). rewrite Hsame in Hfile, Hidx.
  now repeat split.
Qed.

(** A witness of X10: ten bytes, blocks of four bytes, two encoders; the
    second block reaches the writer first. *)
Lemma pipeline_writes_the_input_in_order_witness :
  exists st' s' final,
    @ReaderRun.read_thread Small.h SmallRun.recycling
      (Reader.start SmallRun.pool2 (Small.bytes "0123456789")) = Done st' /\
    @Encoder.run SmallRun.codec 68
      (SmallRun.late_turns (Reader.gEncodeQ st')) (Encoder.start 2)
      = Done s' /\
    map seq (Reader.blocks_of (Encoder.gWriteQ s')) = [1; 0; 2]%Z /\
    @WriterQueue.main_loop Small.store
      (Encoder.gWriteQ s' ++ Reader.gWriteQ st') Writer.start = Done final /\
    Writer.gOutFile final
    = x00 :: Small.bytes "0123" ++ x00 :: Small.bytes "4567"
      ++ x00 :: Small.bytes "89".
Proof.
  destruct (@ReaderRun.read_thread Small.h SmallRun.recycling
              (Reader.start SmallRun.pool2 (Small.bytes "0123456789")))
    as [st' | | | |] eqn:Hread; try (vm_compute in Hread; discriminate).
  assert (Hst : exists v, v = st') by (now exists st').
  destruct Hst as [v Hv]. pose proof Hread as Hval.
  vm_compute in Hval. injection Hval as Hval. subst st'.
  destruct (@Encoder.run SmallRun.codec 68
              (SmallRun.late_turns (Reader.gEncodeQ v)) (Encoder.start 2))
    as [s' | | | |] eqn:Hrun;
    [| exfalso; subst v; vm_compute in Hrun; discriminate Hrun ..].
  assert (Hs : Encoder.gEncodeQ s' = [] /\
               map seq (Reader.blocks_of (Encoder.gWriteQ s')) = [1; 0; 2]%Z).
  { pose proof Hrun as Hval2. subst v. vm_compute in Hval2.
    injection Hval2 as <-. now split. }
  destruct Hs as [Hempty Horder].
  assert (HC : (0 < @CHUNKSIZE Small.h < SIZE_MAX_plus_1)%Z)
    by (split; reflexivity).
  assert (HB : (0 < Setup.gBlockInSize SmallRun.pool2 < SIZE_MAX_plus_1)%Z)
    by (split; reflexivity).
  assert (Htar : (Z.of_nat (length (Small.bytes "0123456789")) < 2 ^ 63)%Z)
    by reflexivity.
  assert (Hsized : Forall (ReaderRun.sized
                             (Setup.gBlockInSize SmallRun.pool2)
                             (Setup.gBlockOutSize SmallRun.pool2))
                     (Setup.gReadQ SmallRun.pool2
                      ++ ReaderRun.recycled SmallRun.recycling))
    by (repeat constructor).
  assert (Hpush : Encoder.pushes (SmallRun.late_turns (Reader.gEncodeQ v))
                  = Reader.gEncodeQ v)
    by (subst v; reflexivity).
  destruct (@pipeline_writes_the_input_in_order Small.h Small.store
              SmallRun.codec SmallRun.pool2 (Small.bytes "0123456789")
              SmallRun.recycling v _ s' HC HB Htar Hsized
              small_codec_contract Hread Hpush Hrun Hempty)
    as (blocks & outs & final & _ & Henc & Hmain & _ & Hfile & _).
  exists v, s', final.
  split; [reflexivity |]. split; [exact Hrun |]. split; [exact Horder |].
  split; [exact Hmain |].
  subst v. vm_compute in Hrun. injection Hrun as <-.
  vm_compute in Hmain. injection Hmain as <-. reflexivity.
Defined.

(** ** The container that [main] writes *)

Module MainFacts.
Import Main.

Lemma fwrite_behind (pre p f : list byte) (size : Z) :
  fwrite p size (pre ++ f) = outcome_map (app pre) (fwrite p size f).
Proof.
  unfold fwrite, outcome_map. destruct (size =? 0)%Z; [reflexivity |].
  destruct (size <=? _)%Z; [| reflexivity].
  cbn. now rewrite app_assoc.
Qed.

(** *** The writer behind the stream header *)

Lemma write_blocks_unfold `{liblzma} (st : Writer.writer) :
  Writer.write_blocks st =
  match Writer.find_block (Writer.next_seq st) (Writer.ibs st) with
  | Some (ib, rest) => st' ← Writer.emit ib rest st; Writer.write_blocks st'
  | None => Done st
  end.
Proof.
  funelim (Writer.write_blocks st);
    repeat match goal with
           | Hs : sigmaI _ _ _ = _ |- _ => clear Hs
           end;
    repeat match goal with
           | Hf : Writer.find_block _ _ = _ |- _ => rewrite Hf
           | He : Writer.emit _ _ _ = _ |- _ => rewrite He
           end;
    reflexivity.
Qed.

Lemma emit_behind `{liblzma} (pre : list byte) (ipre : list (Z * Z))
  (ib : io_block_t) (rest : list io_block_t) (st : Writer.writer) :
  Writer.emit ib rest (behind_writer pre ipre st)
  = outcome_map (behind_writer pre ipre) (Writer.emit ib rest st).
Proof.
  unfold Writer.emit. cbn [behind_writer Writer.gOutFile].
  rewrite fwrite_behind. unfold outcome_map.
  destruct (fwrite _ _ _) as [f | | | |]; cbn; try reflexivity.
  unfold behind_writer. cbn. now rewrite app_assoc.
Qed.

Lemma write_blocks_behind `{liblzma} (pre : list byte) (ipre : list (Z * Z))
  (st : Writer.writer) :
  Writer.write_blocks (behind_writer pre ipre st)
  = outcome_map (behind_writer pre ipre) (Writer.write_blocks st).
Proof.
  remember (length (Writer.ibs st)) as n eqn:Hn.
  revert st Hn. induction n as [n IH] using lt_wf_ind. intros st Hn.
  rewrite (write_blocks_unfold st), (write_blocks_unfold (behind_writer _ _ _)).
  cbn [behind_writer Writer.next_seq Writer.ibs].
  destruct (Writer.find_block _ _) as [[ib rest] |] eqn:Hf; [| reflexivity].
  change {| Writer.next_seq := Writer.next_seq st |}
    with (behind_writer pre ipre st).
  rewrite emit_behind. unfold outcome_map at 1.
  destruct (Writer.emit ib rest st) as [st1 | | | |] eqn:He;
    cbn [mbind outcome_bind]; try reflexivity.
  apply (IH (length (Writer.ibs st1))); [| reflexivity].
  subst n. unfold Writer.emit in He.
  destruct (fwrite _ _ _); try discriminate. injection He as <-. cbn.
  eapply Writer.find_block_length. exact Hf.
Qed.

Lemma main_loop_behind `{liblzma} (pre : list byte) (ipre : list (Z * Z))
  (arrivals : list io_block_t) (st : Writer.writer) :
  Writer.main_loop arrivals (behind_writer pre ipre st)
  = outcome_map (behind_writer pre ipre) (Writer.main_loop arrivals st).
Proof.
  revert st. induction arrivals as [| ib arrivals IH]; intros st.
  - reflexivity.
  - cbn [Writer.main_loop]. unfold Writer.receive.
    change {| Writer.next_seq := Writer.next_seq (behind_writer pre ipre st) |}
      with (behind_writer pre ipre
              {| Writer.next_seq := Writer.next_seq st;
                 Writer.ibs := ib :: Writer.ibs st;
                 Writer.gOutFile := Writer.gOutFile st;
                 Writer.gIndex := Writer.gIndex st;
                 Writer.gReadQ := Writer.gReadQ st |}).
    rewrite write_blocks_behind. unfold outcome_map at 1.
    destruct (Writer.write_blocks _) as [st1 | | | |];
      cbn [mbind outcome_bind]; try reflexivity.
    apply IH.
Qed.

(** *** The file-index block behind the data blocks *)

Lemma code_loop_behind `{pixz_h} `{liblzma} (pre : list byte) (fuel : nat)
  (action : lzma_action) (err : lzma_ret) (avail : list byte)
  (c : lzma_coder) (out dl : list byte) :
  IndexWriter.code_loop fuel action err avail c (pre ++ out) dl
  = outcome_map (fun r => (fst (fst r), pre ++ snd (fst r), snd r))
      (IndexWriter.code_loop fuel action err avail c out dl).
Proof.
  revert err avail c out dl.
  induction fuel as [| k IH]; intros err avail c out dl;
    cbn [IndexWriter.code_loop];
    destruct (negb (IndexWriter.is_stream_end err)
              && (IndexWriter.is_finish action
                  || negb (IndexWriter.is_nil avail)));
    try reflexivity.
  destruct (ret (lzma_code c action avail CHUNKSIZE)); try reflexivity.
  all: destruct (IndexWriter.is_nil
                   (produced (lzma_code c action avail CHUNKSIZE)));
    [cbn [mbind outcome_bind]; apply IH |].
  all: rewrite fwrite_behind; unfold outcome_map at 1;
    destruct (fwrite _ _ out) as [o | | | |];
    cbn [mbind outcome_bind]; try reflexivity; apply IH.
Qed.

Lemma write_file_index_buf_behind `{pixz_h} `{liblzma} (pre : list byte)
  (ipre : list (Z * Z)) (fuel : nat) (action : lzma_action)
  (st : IndexWriter.state) :
  IndexWriter.write_file_index_buf fuel action (behind pre ipre st)
  = outcome_map (behind pre ipre)
      (IndexWriter.write_file_index_buf fuel action st).
Proof.
  unfold IndexWriter.write_file_index_buf.
  cbn [behind IndexWriter.gFileIndexBuf IndexWriter.gFileIndexBufPos
       IndexWriter.gStream IndexWriter.gOutFile IndexWriter.delivered
       IndexWriter.gIndex IndexWriter.events].
  destruct (_ <=? _)%Z; [| reflexivity].
  rewrite code_loop_behind. unfold outcome_map.
  destruct (IndexWriter.code_loop _ _ _ _ _ _ _) as [[[c o] d] | | | |];
    reflexivity.
Qed.

Lemma set_buf_behind `{liblzma} (pre : list byte) (ipre : list (Z * Z))
  (buf : list byte) (pos : Z) (ev : list IndexWriter.event)
  (st : IndexWriter.state) :
  IndexWriter.set_buf buf pos ev (behind pre ipre st)
  = behind pre ipre (IndexWriter.set_buf buf pos ev st).
Proof. reflexivity. Qed.

Lemma write_file_index_bytes_from_behind `{pixz_h} `{liblzma}
  (pre : list byte) (ipre : list (Z * Z)) (fuel : nat) (size : Z)
  (buf : list byte) (bufpos : Z) (st : IndexWriter.state) :
  IndexWriter.write_file_index_bytes_from fuel size buf bufpos
    (behind pre ipre st)
  = outcome_map (behind pre ipre)
      (IndexWriter.write_file_index_bytes_from fuel size buf bufpos st).
Proof.
  revert bufpos st. induction fuel as [| k IH]; intros bufpos st;
    cbn [IndexWriter.write_file_index_bytes_from];
    destruct (bufpos <? size)%Z; try reflexivity.
  cbn [behind IndexWriter.gFileIndexBuf IndexWriter.gFileIndexBufPos].
  destruct (memcpy _ _ _ _ _) as [b | | | |]; cbn [mbind outcome_bind];
    try reflexivity.
  rewrite !set_buf_behind.
  destruct (_ =? CHUNKSIZE)%Z.
  - rewrite write_file_index_buf_behind. unfold outcome_map at 1.
    destruct (IndexWriter.write_file_index_buf _ _ _) as [st1 | | | |];
      cbn [mbind outcome_bind]; try reflexivity.
    cbn [behind IndexWriter.gFileIndexBuf]. rewrite set_buf_behind. apply IH.
  - cbn [mbind outcome_bind]. apply IH.
Qed.

Lemma write_entries_behind `{pixz_h} `{liblzma} (pre : list byte)
  (ipre : list (Z * Z)) (fuel : nat) (fs : list FileIndex.file_index_t)
  (st : IndexWriter.state) :
  IndexWriter.write_entries fuel fs (behind pre ipre st)
  = outcome_map (behind pre ipre) (IndexWriter.write_entries fuel fs st).
Proof.
  revert st. induction fs as [| f fs IH]; intros st; [reflexivity |].
  cbn [IndexWriter.write_entries]. unfold IndexWriter.write_file_index_bytes.
  rewrite write_file_index_bytes_from_behind. unfold outcome_map at 1.
  destruct (IndexWriter.write_file_index_bytes_from _ _ _ _ st)
    as [st1 | | | |]; cbn [mbind outcome_bind]; try reflexivity.
  rewrite write_file_index_bytes_from_behind. unfold outcome_map at 1.
  destruct (IndexWriter.write_file_index_bytes_from _ _ _ _ st1)
    as [st2 | | | |]; cbn [mbind outcome_bind]; try reflexivity.
  apply IH.
Qed.

(** The file-index block is written behind what is there as it is
    written to an empty file. *)
Lemma write_file_index_behind `{pixz_h} `{liblzma} (pre : list byte)
  (ipre : list (Z * Z)) (fuel : nat) (fs : list FileIndex.file_index_t)
  (st : IndexWriter.state) :
  IndexWriter.write_file_index fuel fs (behind pre ipre st)
  = outcome_map (behind pre ipre) (IndexWriter.write_file_index fuel fs st).
Proof.
  unfold IndexWriter.write_file_index.
  cbn [behind IndexWriter.gOutFile IndexWriter.gFileIndexBuf
       IndexWriter.gFileIndexBufPos IndexWriter.gIndex IndexWriter.events].
  rewrite fwrite_behind. unfold outcome_map at 1.
  destruct (fwrite block_header _ (IndexWriter.gOutFile st)) as [o | | | |];
    cbn [mbind outcome_bind]; try reflexivity.
  change {| IndexWriter.gFileIndexBuf := IndexWriter.gFileIndexBuf st;
            IndexWriter.gFileIndexBufPos := IndexWriter.gFileIndexBufPos st;
            IndexWriter.gStream := lzma_block_encoder;
            IndexWriter.gOutFile := pre ++ o;
            IndexWriter.gIndex := ipre ++ IndexWriter.gIndex st;
            IndexWriter.delivered := [];
            IndexWriter.events := IndexWriter.events st |}
    with (behind pre ipre
            {| IndexWriter.gFileIndexBuf := IndexWriter.gFileIndexBuf st;
               IndexWriter.gFileIndexBufPos := IndexWriter.gFileIndexBufPos st;
               IndexWriter.gStream := lzma_block_encoder;
               IndexWriter.gOutFile := o;
               IndexWriter.gIndex := IndexWriter.gIndex st;
               IndexWriter.delivered := [];
               IndexWriter.events := IndexWriter.events st |}).
  rewrite write_entries_behind. unfold outcome_map at 1.
  destruct (IndexWriter.write_entries _ _ _) as [st1 | | | |];
    cbn [mbind outcome_bind]; try reflexivity.
  rewrite write_file_index_buf_behind. unfold outcome_map at 1.
  destruct (IndexWriter.write_file_index_buf _ _ st1) as [st2 | | | |];
    cbn [mbind outcome_bind]; try reflexivity.
  unfold outcome_map, behind. cbn. now rewrite app_assoc.
Qed.

Lemma start_behind `{pixz_h} `{liblzma} (pre : list byte)
  (ipre : list (Z * Z)) :
  IndexWriter.start pre ipre = behind pre ipre (IndexWriter.start [] []).
Proof. unfold IndexWriter.start, behind. cbn. now rewrite !app_nil_r. Qed.

(** *** The stream index and the edges *)

Lemma index_loop_behind `{pixz_h} `{liblzma} (pre : list byte) (fuel : nat)
  (err : lzma_ret) (avail : list byte) (c : lzma_coder) (out : list byte) :
  index_loop fuel err avail c (pre ++ out)
  = outcome_map (app pre) (index_loop fuel err avail c out).
Proof.
  revert err avail c out.
  induction fuel as [| k IH]; intros err avail c out; cbn [index_loop];
    destruct (IndexWriter.is_stream_end err); try reflexivity.
  destruct (ret (lzma_code c LZMA_RUN avail CHUNKSIZE)); try reflexivity.
  all: destruct (IndexWriter.is_nil
                   (produced (lzma_code c LZMA_RUN avail CHUNKSIZE)));
    [cbn [mbind outcome_bind]; apply IH |].
  all: rewrite fwrite_behind; unfold outcome_map at 1;
    destruct (fwrite _ _ out) as [o | | | |];
    cbn [mbind outcome_bind]; try reflexivity; apply IH.
Qed.

Lemma encode_index_behind `{pixz_h} `{liblzma_stream} (pre : list byte)
  (fuel : nat) (idx : list (Z * Z)) (avail : list byte) :
  encode_index fuel idx avail pre
  = outcome_map (app pre) (encode_index fuel idx avail []).
Proof.
  unfold encode_index.
  destruct (lzma_index_encoder idx) as [[| |] c]; try reflexivity.
  rewrite <- (app_nil_r pre) at 1. apply index_loop_behind.
Qed.

Lemma fwrite_all (p f : list byte) :
  p <> [] -> fwrite p (Z.of_nat (length p)) f = Done (f ++ p).
Proof.
  intros Hp. unfold fwrite.
  destruct (Z.eqb_spec (Z.of_nat (length p)) 0) as [E | _].
  - destruct p; [congruence | simpl in E; lia].
  - rewrite Z.leb_refl, Nat2Z.id, firstn_all. reflexivity.
Qed.

(** An edge is 12 bytes appended to the output file: the header when
    [backward_size] is unknown, the footer otherwise. *)
Lemma stream_edge_done `{liblzma_stream} (ic : lzma_coder -> Prop)
  (iw : lzma_coder -> nat) (b : Z) (out : list byte) :
  stream_contract ic iw ->
  stream_edge b out =
  Done (out ++ snd (if (b =? Encoder.LZMA_VLI_UNKNOWN)%Z
                    then lzma_stream_header_encode b
                    else lzma_stream_footer_encode b)).
Proof.
  intros Hc. unfold stream_edge.
  assert (Hok : fst (if (b =? Encoder.LZMA_VLI_UNKNOWN)%Z
                     then lzma_stream_header_encode b
                     else lzma_stream_footer_encode b) = LZMA_OK /\
                Z.of_nat (length (snd (if (b =? Encoder.LZMA_VLI_UNKNOWN)%Z
                                       then lzma_stream_header_encode b
                                       else lzma_stream_footer_encode b)))
                = LZMA_STREAM_HEADER_SIZE).
  { destruct (b =? Encoder.LZMA_VLI_UNKNOWN)%Z;
      [apply (header_ok ic iw Hc) | apply (footer_ok ic iw Hc)]. }
  destruct (if (b =? Encoder.LZMA_VLI_UNKNOWN)%Z then _ else _)
    as [r bytes].
  cbn [fst snd] in *. destruct Hok as [-> Hlen].
  unfold Setup.malloc, LZMA_STREAM_HEADER_SIZE in *.
  rewrite repeat_length.
  destruct (Nat.leb_spec (length bytes) (Z.to_nat 12)); [| lia].
  rewrite drop_ge by (rewrite repeat_length; lia).
  rewrite app_nil_r, <- Hlen. apply fwrite_all.
  destruct bytes; [simpl in Hlen; lia | discriminate].
Qed.

(** The loop of [encode_index] ends. *)
Lemma index_loop_returns `{pixz_h} `{liblzma_stream}
  (ic : lzma_coder -> Prop) (iw : lzma_coder -> nat) (avail : list byte)
  (c : lzma_coder) (out : list byte) :
  stream_contract ic iw -> ic c ->
  exists out', forall fuel, iw c < fuel ->
    index_loop fuel LZMA_OK avail c out = Done out'.
Proof.
  intros Hc. remember (iw c) as n eqn:Hn. revert avail c out Hn.
  induction n as [n IH] using lt_wf_ind. intros avail c out Hn Hic.
  pose proof (index_no_error ic iw Hc c avail CHUNKSIZE Hic) as Hne.
  pose proof (index_progress ic iw Hc c avail CHUNKSIZE Hic) as Hpr.
  set (r := lzma_code c LZMA_RUN avail CHUNKSIZE) in *.
  assert (Hout : exists out1,
            (if IndexWriter.is_nil (produced r) then Done out
             else fwrite (produced r) (Z.of_nat (length (produced r))) out)
            = Done out1).
  { destruct (produced r) as [| b p] eqn:Ep; [now exists out |].
    cbn [IndexWriter.is_nil]. rewrite fwrite_all by discriminate. eauto. }
  destruct Hout as [out1 Hout].
  destruct (ret r) eqn:Er; [| | congruence].
  - destruct (Hpr eq_refl) as [Hic' Hlt].
    destruct (IH (iw (next_coder r)) ltac:(lia) (drop (consumed r) avail)
                (next_coder r) out1 eq_refl Hic') as [out' Hrun].
    exists out'. intros fuel Hfuel. destruct fuel as [| k]; [lia |].
    cbn [index_loop IndexWriter.is_stream_end]. fold r.
    rewrite Er, Hout. cbn [mbind outcome_bind]. apply Hrun. lia.
  - exists out1. intros fuel Hfuel. destruct fuel as [| k]; [lia |].
    cbn [index_loop IndexWriter.is_stream_end]. fold r.
    rewrite Er, Hout. cbn [mbind outcome_bind].
    destruct k; reflexivity.
Qed.

(** The file-index block is written, whatever the chain. *)
Lemma write_file_index_returns `{pixz_h} `{liblzma}
  (work : lzma_coder -> nat -> nat) (fs : list FileIndex.file_index_t) :
  (0 < CHUNKSIZE < SIZE_MAX_plus_1)%Z ->
  IndexWriter.codec_contract work ->
  Forall (fun f =>
            match FileIndex.name f with
            | Some n => (Z.of_nat (strlen n) + 1 < SIZE_MAX_plus_1)%Z
            | None => True
            end) fs ->
  exists st',
    IndexWriter.returns
      (fun fuel =>
         IndexWriter.write_file_index fuel fs (IndexWriter.start [] [])) st'.
Proof.
  intros Hchunk Hcontract Hall.
  set (st0 :=
    {| IndexWriter.gFileIndexBuf :=
         IndexWriter.gFileIndexBuf (IndexWriter.start [] []);
       IndexWriter.gFileIndexBufPos :=
         IndexWriter.gFileIndexBufPos (IndexWriter.start [] []);
       IndexWriter.gStream := lzma_block_encoder;
       IndexWriter.gOutFile := [] ++ block_header;
       IndexWriter.gIndex := IndexWriter.gIndex (IndexWriter.start [] []);
       IndexWriter.delivered := [];
       IndexWriter.events :=
         IndexWriter.events (IndexWriter.start [] []) |}).
  assert (Hready0 : IndexWriter.ready st0)
    by apply (IndexWriterFacts.ready_start Hchunk [] []).
  assert (Hhdr : fwrite block_header (Z.of_nat (length block_header)) []
                 = Done ([] ++ block_header)).
  { apply fwrite_all. apply (IndexWriter.header_present work Hcontract). }
  destruct (IndexWriterFacts.write_entries_spec work Hcontract Hchunk fs st0
              Hready0 Hall)
    as (st1 & [n1 Hrun1] & Hready1 & _).
  pose proof Hready1 as (Hbuf1 & Hpos1 & _).
  destruct (IndexWriterFacts.write_file_index_buf_spec work Hcontract
              LZMA_FINISH st1)
    as (st2 & [n2 Hrun2] & _); [lia |].
  eexists. exists (Nat.max n1 n2). intros fuel Hfuel.
  unfold IndexWriter.write_file_index.
  cbn [IndexWriter.gOutFile IndexWriter.start].
  rewrite Hhdr. cbn [mbind outcome_bind].
  fold st0. rewrite Hrun1 by lia. cbn [mbind outcome_bind].
  rewrite Hrun2 by lia. cbn [mbind outcome_bind]. reflexivity.
Qed.

End MainFacts.

Lemma framed_contract :
  @IndexWriter.codec_contract SmallRun.framed SmallRun.framed_work.
Proof.
  pose proof store_contract as [_ Hne Hin Hend Hpr].
  split; try (intros [[|] c] a i o); cbn [lzma_code SmallRun.framed
    SmallRun.framed_code SmallRun.framed_work fst snd ret consumed
    next_coder].
  - discriminate.
  - now destruct (_ <=? _).
  - apply (Hne c a i o).
  - reflexivity.
  - apply (Hin c a i o).
  - reflexivity.
  - apply (Hend c a i o).
  - intros _. destruct (Nat.leb_spec (length c) (Z.to_nat (Z.max 1 o)));
      [discriminate |].
    intros _. rewrite length_drop. lia.
  - apply (Hpr c a i o).
Qed.

Lemma framed_stream_contract :
  @Main.stream_contract SmallRun.framed SmallRun.stream
    (fun c => fst c = true) (fun c => length (snd c)).
Proof.
  split.
  - intros b. now split.
  - intros b. now split.
  - intros idx. cbn. unfold Encoder.LZMA_VLI_UNKNOWN, SIZE_MAX_plus_1. lia.
  - intros idx. now split.
  - intros [b c] i o Hb. cbn in Hb. subst b. cbn.
    now destruct (_ <=? _).
  - intros [b c] i o Hb. cbn in Hb. subst b. cbn -[Z.to_nat].
    destruct (Nat.leb_spec (length c) (Z.to_nat (Z.max 1 o)));
      [discriminate |].
    intros _. split; [reflexivity |]. rewrite length_drop. lia.
Qed.

(** X11.  The container.  When the blocks that arrive on the write queue
    carry the sequence numbers 0 to n - 1 in any order and are followed
    by STOP, [main] returns and the output file is, in this order: the
    12 bytes of the stream header; the blocks in the order of their
    sequence numbers; the file-index block, byte for byte as
    [write_file_index] writes it to an empty file; the stream index,
    encoded from the records of the blocks in that order followed by the
    record of the file-index block; and the 12 bytes of the stream footer,
    encoded with the size of that index as its backward size. *)
Theorem main_writes_the_container `{pixz_h} `{Main.liblzma_stream}
  (work : lzma_coder -> nat -> nat) (ic : lzma_coder -> Prop)
  (iw : lzma_coder -> nat) (arrivals : list io_block_t)
  (fs : list FileIndex.file_index_t) (avail : list byte) :
  (0 < CHUNKSIZE < SIZE_MAX_plus_1)%Z ->
  IndexWriter.codec_contract work ->
  Main.stream_contract ic iw ->
  Forall Writer.encoded arrivals ->
  (Z.of_nat (length arrivals) < SIZE_MAX_plus_1)%Z ->
  map seq arrivals ≡ₚ seqZ 0 (Z.of_nat (length arrivals)) ->
  Forall (fun f =>
            match FileIndex.name f with
            | Some n => (Z.of_nat (strlen n) + 1 < SIZE_MAX_plus_1)%Z
            | None => True
            end) fs ->
  exists blocks fi ix,
    blocks ≡ₚ arrivals /\
    map seq blocks = seqZ 0 (Z.of_nat (length arrivals)) /\
    IndexWriter.returns
      (fun fuel =>
         IndexWriter.write_file_index fuel fs (IndexWriter.start [] [])) fi /\
    let idx := map Writer.index_record blocks ++ IndexWriter.gIndex fi in
    IndexWriter.returns
      (fun fuel => Main.encode_index fuel idx avail []) ix /\
    IndexWriter.returns
      (fun fuel =>
         Main.main fuel (map MSG_BLOCK arrivals ++ [MSG_STOP]) fs avail)
      (snd (Main.lzma_stream_header_encode Encoder.LZMA_VLI_UNKNOWN)
       ++ concat (map Writer.block_bytes blocks)
       ++ IndexWriter.gOutFile fi
       ++ ix
       ++ snd (Main.lzma_stream_footer_encode (Main.lzma_index_size idx))).
Proof.
  intros Hchunk Hcontract Hstream Henc Hmax Hseqs Hall.
  (* the data blocks *)
  destruct (PipelineFacts.main_loop_all arrivals Henc Hmax Hseqs)
    as (final & Hmain & Hnone & Hperm & Hwrote & Hnext).
  destruct Hwrote as (Hseq & _ & Hfile & Hidx).
  set (blocks := Writer.gReadQ final) in *.
  (* the file-index block *)
  destruct (MainFacts.write_file_index_returns work fs Hchunk Hcontract Hall)
    as (fi & n1 & Hfi).
  set (idx := map Writer.index_record blocks ++ IndexWriter.gIndex fi).
  (* the stream index *)
  destruct (Main.index_encoder_ok ic iw Hstream idx) as [Hie Hic].
  destruct (MainFacts.index_loop_returns ic iw avail
              (snd (Main.lzma_index_encoder idx)) [] Hstream Hic)
    as (ix & Hix).
  assert (Hix' : forall fuel,
            iw (snd (Main.lzma_index_encoder idx)) < fuel ->
            Main.encode_index fuel idx avail [] = Done ix).
  { intros fuel Hfuel. unfold Main.encode_index.
    destruct (Main.lzma_index_encoder idx) as [r c]. cbn [fst snd] in *.
    subst r. now apply Hix. }
  exists blocks, fi, ix.
  split; [exact Hperm |]. split; [now rewrite Hseq, Hnext |].
  split; [now exists n1 |]. cbv zeta. fold idx.
  split.
  { exists (S (iw (snd (Main.lzma_index_encoder idx)))).
    intros fuel Hfuel. apply Hix'. lia. }
  exists (Nat.max n1 (S (iw (snd (Main.lzma_index_encoder idx))))).
  intros fuel Hfuel. unfold Main.main.
  rewrite (MainFacts.stream_edge_done ic iw _ _ Hstream).
  rewrite Z.eqb_refl. cbn [app mbind outcome_bind].
  set (hdr := snd (Main.lzma_stream_header_encode Encoder.LZMA_VLI_UNKNOWN)).
  rewrite PipelineFacts.main_loop_queue.
  assert (Hw0 : {| Writer.next_seq := 0; Writer.ibs := [];
                   Writer.gOutFile := hdr; Writer.gIndex := [];
                   Writer.gReadQ := [] |}
                = Main.behind_writer hdr [] Writer.start).
  { unfold Main.behind_writer, Writer.start. cbn. now rewrite app_nil_r. }
  rewrite Hw0, MainFacts.main_loop_behind, Hmain.
  unfold Main.outcome_map at 1. cbn [mbind outcome_bind].
  cbn [Main.behind_writer Writer.gOutFile Writer.gIndex app].
  rewrite MainFacts.start_behind, MainFacts.write_file_index_behind.
  rewrite Hfi by lia.
  unfold Main.outcome_map at 1. cbn [mbind outcome_bind].
  cbn [Main.behind IndexWriter.gOutFile IndexWriter.gIndex].
  rewrite Hidx. fold blocks. fold idx.
  rewrite MainFacts.encode_index_behind, Hix' by lia.
  unfold Main.outcome_map at 1. cbn [mbind outcome_bind].
  rewrite (MainFacts.stream_edge_done ic iw _ _ Hstream).
  destruct (Z.eqb_spec (Main.lzma_index_size idx) Encoder.LZMA_VLI_UNKNOWN)
    as [E | _]; [now apply (Main.index_size_known ic iw Hstream) in E |].
  rewrite Hfile. fold blocks. now rewrite <- !app_assoc.
Qed.

(** A witness of X11: four blocks arriving as 2, 0, 3, 1 and the chain of
    an archive with two members. *)
Lemma main_writes_the_container_witness :
  exists blocks fi ix,
    map seq blocks = [0; 1; 2; 3]%Z /\
    IndexWriter.returns
      (fun fuel =>
         @Main.main Small.h SmallRun.framed SmallRun.stream fuel
           (map MSG_BLOCK Small.arrivals ++ [MSG_STOP]) SmallRun.chain [])
      (Small.bytes "HEADERheader"
       ++ concat (map Writer.block_bytes blocks)
       ++ @IndexWriter.gOutFile SmallRun.framed fi
       ++ ix
       ++ snd (@Main.lzma_stream_footer_encode SmallRun.framed SmallRun.stream
                 (@Main.lzma_index_size SmallRun.framed SmallRun.stream
                    (map (@Writer.index_record SmallRun.framed) blocks
                     ++ @IndexWriter.gIndex SmallRun.framed fi)))).
Proof.
  assert (Hchunk : (0 < @CHUNKSIZE Small.h < SIZE_MAX_plus_1)%Z)
    by (split; reflexivity).
  assert (Henc : Forall Writer.encoded Small.arrivals).
  { repeat constructor; vm_compute; discriminate. }
  assert (Hmax : (Z.of_nat (length Small.arrivals) < SIZE_MAX_plus_1)%Z)
    by reflexivity.
  assert (Hseqs : map seq Small.arrivals
                  ≡ₚ seqZ 0 (Z.of_nat (length Small.arrivals))).
  { change (map seq Small.arrivals) with [2; 0; 3; 1]%Z.
    change (seqZ 0 (Z.of_nat (length Small.arrivals))) with [0; 1; 2; 3]%Z.
    etrans; [apply Permutation_swap |]. apply Permutation_skip.
    exact (Permutation_app_comm [2; 3]%Z [1]%Z). }
  assert (Hall : Forall (fun f =>
            match FileIndex.name f with
            | Some n => (Z.of_nat (strlen n) + 1 < SIZE_MAX_plus_1)%Z
            | None => True
            end) SmallRun.chain)
    by (repeat constructor).
  destruct (@main_writes_the_container Small.h SmallRun.framed
              SmallRun.stream SmallRun.framed_work _ _ Small.arrivals
              SmallRun.chain [] Hchunk framed_contract
              framed_stream_contract Henc Hmax Hseqs Hall)
    as (blocks & fi & ix & _ & Hseq & _ & _ & Hmain).
  exists blocks, fi, ix. split; [exact Hseq | exact Hmain].
Defined.

(** ** What the writer and the lister refuse *)

(** X12.  The writer never writes a block out of turn.  When no block with
    the sequence number [k] arrives, the main loop still returns, but
    every block written has a sequence number below [k] and every block
    with a sequence number above [k] is left on the pending list,
    unwritten. *)
Theorem writer_never_skips_a_block `{liblzma} (arrivals : list io_block_t)
  (k : Z) :
  Forall Writer.encoded arrivals ->
  (Z.of_nat (length arrivals) < SIZE_MAX_plus_1)%Z ->
  (0 <= k)%Z ->
  ~ In k (map seq arrivals) ->
  exists final,
    Writer.main_loop arrivals Writer.start = Done final /\
    (Writer.next_seq final <= k)%Z /\
    Forall (fun ib => (seq ib < k)%Z) (Writer.gReadQ final) /\
    Writer.gOutFile final
      = concat (map Writer.block_bytes (Writer.gReadQ final)) /\
    forall ib, In ib arrivals -> (k < seq ib)%Z -> In ib (Writer.ibs final).
Proof.
  intros Henc Hmax Hk Hgap.
  destruct (WriterFacts.main_loop_spec arrivals Writer.start)
    as (final & Hrun & Hw & _ & _ & _ & Hperm).
  - apply WriterFacts.wrote_start.
  - constructor.
  - constructor.
  - exact Henc.
  - cbn. lia.
  - cbn in Hperm. destruct Hw as (Hseq & Hn & Hout & _).
    assert (Hnext : (Writer.next_seq final <= k)%Z).
    { destruct (Z.le_gt_cases (Writer.next_seq final) k) as [Hle | Hgt];
        [exact Hle |].
      exfalso. apply Hgap.
      assert (Hin : k ∈ map seq (Writer.gReadQ final))
        by (rewrite Hseq; apply elem_of_seqZ; lia).
      apply list_elem_of_In. rewrite <- Hperm, map_app.
      apply elem_of_app. now left. }
    assert (Hbelow : Forall (fun ib => (seq ib < k)%Z) (Writer.gReadQ final)).
    { apply Forall_forall. intros ib Hib.
      assert (Hin : seq ib ∈ map seq (Writer.gReadQ final))
        by (apply list_elem_of_fmap; now exists ib).
      rewrite Hseq in Hin. apply elem_of_seqZ in Hin. lia. }
    exists final. split; [exact Hrun |]. split; [exact Hnext |].
    split; [exact Hbelow |]. split; [exact Hout |].
    intros ib Hib Hlarge.
    apply list_elem_of_In in Hib. rewrite <- Hperm in Hib.
    apply elem_of_app in Hib as [Hib | Hib].
    + rewrite Forall_forall in Hbelow. specialize (Hbelow ib Hib). lia.
    + now apply list_elem_of_In.
Qed.

(** A witness of X12: the blocks 2, 0 and 3 arrive, block 1 never does. *)
Lemma writer_never_skips_a_block_witness :
  exists final,
    @Writer.main_loop Small.store (take 3 Small.arrivals) Writer.start
      = Done final /\
    Writer.gOutFile final = Small.bytes "a" /\
    map seq (Writer.ibs final) = [3; 2]%Z.
Proof.
  assert (Henc : Forall Writer.encoded (take 3 Small.arrivals)).
  { repeat constructor; vm_compute; discriminate. }
  assert (Hmax : (Z.of_nat (length (take 3 Small.arrivals))
                  < SIZE_MAX_plus_1)%Z) by reflexivity.
  assert (Hgap : ~ In 1%Z (map seq (take 3 Small.arrivals))).
  { cbn. intros [E | [E | [E | []]]]; discriminate. }
  destruct (@writer_never_skips_a_block Small.store (take 3 Small.arrivals)
              1 Henc Hmax (Z.le_0_1) Hgap)
    as (final & Hrun & _).
  exists final. split; [exact Hrun |].
  vm_compute in Hrun. injection Hrun as <-. now split.
Defined.

Lemma option_loop_cases (tar : bool) (chs : list byte) :
  (exists res, Lister.option_loop tar chs = Done res) \/
  Lister.option_loop tar chs = Died.
Proof.
  revert tar. induction chs as [| ch chs IH]; intros tar; simpl.
  - left. now exists tar.
  - destruct (Byte.eqb ch "t"%byte); [apply IH | now right].
Qed.

(** X13.  The lister refuses a bad command line: with an option other
    than [-t], with more than one operand (or an operand count that is
    not 0 or 1), or with a file that cannot be opened, [main] dies,
    whatever the input holds.  The file is the operand in the array as
    [getopt] has left it. *)
Theorem lister_rejects_bad_command_lines `{Lister.env} (argc : Z)
  (argv : list string) (g : Lister.getopt_run) :
  (exists ch, In ch (Lister.options g) /\ ch <> "t"%byte) \/
  (Lister.operands argc g <> 0%Z /\ Lister.operands argc g <> 1%Z) \/
  (Lister.operands argc g = 1%Z /\ (1 <= Lister.optind g)%Z /\
   Lister.fopen (nth (Z.to_nat (Lister.optind g)) (Lister.permuted g)
                   ""%string) = false) ->
  Lister.main argc argv g = Died.
Proof.
  intros Hbad. unfold Lister.main.
  destruct (option_loop_cases true (Lister.options g)) as [[tar Eopt] | ->];
    [| reflexivity].
  rewrite Eopt.
  destruct (ListerFacts.option_loop_done _ _ _ Eopt) as [_ Hall].
  cbn [mbind outcome_bind]. unfold Lister.operands in Hbad.
  destruct Hbad as [(ch & Hin & Hch) | [[H0 H1] | (H1 & Hind & Hopen)]].
  - rewrite Forall_forall in Hall. exfalso. apply Hch, Hall.
    now apply list_elem_of_In.
  - destruct (Z.eqb_spec (argc - (Lister.optind g - 1)) 1); [lia |].
    destruct (Z.eqb_spec (argc - (Lister.optind g - 1)) 2); [lia |].
    reflexivity.
  - destruct (Z.eqb_spec (argc - (Lister.optind g - 1)) 1); [lia |].
    destruct (Z.eqb_spec (argc - (Lister.optind g - 1)) 2); [| lia].
    cbv zeta. rewrite nth_skipn.
    replace (Z.to_nat (Lister.optind g - 1) + 1)
      with (Z.to_nat (Lister.optind g)) by lia.
    now rewrite Hopen.
Qed.

(** A witness of X13: the command line [list b.tpxz -t], which [getopt]
    leaves as [list -t b.tpxz], with a file that cannot be opened. *)
Lemma lister_rejects_bad_command_lines_witness :
  @Lister.main Small.lister_env 3 ["list"; "b.tpxz"; "-t"]%string
    {| Lister.options := ["t"%byte]; Lister.optind := 2;
       Lister.permuted := ["list"; "-t"; "b.tpxz"]%string |} = Died.
Proof.
  apply (@lister_rejects_bad_command_lines Small.lister_env).
  right. right. split; [reflexivity |]. split; [simpl; lia | reflexivity].
Defined.

(** ** The program as a whole *)

Module SystemFacts.
Import System.

Lemma accounts_extend `{Encoder.block_codec} (bout : Z) (n : nat)
  (pushed extra : list msg) (e : Encoder.pool) :
  Encoder.accounts bout n pushed e ->
  Encoder.accounts bout n (pushed ++ extra)
    (deliver pushed (pushed ++ extra) e).
Proof.
  intros (popped & outs & Hq & Henc & Hperm & Hw & Hcount & Hn).
  exists popped, outs. cbn [deliver Encoder.gEncodeQ Encoder.gWriteQ
                            Encoder.threads].
  rewrite drop_app_length. split; [now rewrite Hq, app_assoc |].
  now repeat split.
Qed.

Lemma fits_of_sized (bin bout : Z) (ib : io_block_t) :
  ReaderRun.sized bin bout ib /\ (0 <= insize ib <= bin)%Z ->
  Encoder.fits bin bout ib.
Proof. intros [[Hi Ho] Hs]. unfold Encoder.fits. lia. Qed.

(** What the encodings of well-sized blocks look like. *)
Lemma encoded_sized `{Encoder.block_codec} (bin bout : Z)
  (bs outs : list io_block_t) :
  Encoder.buffer_contract bin bout ->
  Forall (fun ib => ReaderRun.sized bin bout ib /\ (0 <= insize ib <= bin)%Z)
         bs ->
  Forall2 (fun ib ib' => Encoder.encode bout ib = Done ib') bs outs ->
  Forall (fun ib => Writer.encoded ib /\ ReaderRun.sized bin bout ib) outs.
Proof.
  intros Hc Hbs Henc.
  induction Henc as [| ib ib' bs outs He _ IH]; [constructor |].
  apply Forall_cons in Hbs as [Hib Hbs].
  destruct (EncoderFacts.encode_done bin bout ib Hc (fits_of_sized _ _ _ Hib))
    as (ib2 & He2 & _ & Hin & _ & Hout & Hw).
  rewrite He in He2. injection He2 as <-.
  constructor; [| exact (IH Hbs)].
  split; [exact Hw |]. destruct Hib as [[Hi Ho] _].
  split; [now rewrite Hin | now rewrite Hout].
Qed.

(** What the threads have pushed so far. *)
Lemma accounts_written `{Encoder.block_codec} (bin bout : Z) (n : nat)
  (pushed : list msg) (e : Encoder.pool) :
  Encoder.buffer_contract bin bout ->
  Forall (fun ib => ReaderRun.sized bin bout ib /\ (0 <= insize ib <= bin)%Z)
         (Reader.blocks_of pushed) ->
  Encoder.accounts bout n pushed e ->
  Encoder.gWriteQ e = map MSG_BLOCK (Reader.blocks_of (Encoder.gWriteQ e)) /\
  Forall (fun ib => Writer.encoded ib /\ ReaderRun.sized bin bout ib)
         (Reader.blocks_of (Encoder.gWriteQ e)) /\
  length (Encoder.gWriteQ e) <= length (Reader.blocks_of pushed).
Proof.
  intros Hc Hok (popped & outs & Hq & Henc & Hperm & Hw & _).
  split; [exact Hw |].
  rewrite Hq, ReaderRunFacts.blocks_of_app in Hok.
  apply Forall_app in Hok as [Hok _].
  pose proof (encoded_sized bin bout _ outs Hc Hok Henc) as Houts.
  rewrite <- Hperm in Houts. apply Forall_app in Houts as [Houts _].
  split; [exact Houts |].
  rewrite Hw at 1. rewrite length_map.
  rewrite Hq, ReaderRunFacts.blocks_of_app, length_app.
  rewrite (Forall2_length _ _ _ Henc).
  apply Permutation_length in Hperm.
  rewrite length_app in Hperm. lia.
Qed.

(** A turn of a thread only appends to the write queue. *)
Lemma turn_appends `{Encoder.block_codec} (bout : Z) (i : nat)
  (e e' : Encoder.pool) :
  Encoder.step bout (Encoder.Turn i) e = Done e' ->
  exists extra, Encoder.gWriteQ e' = Encoder.gWriteQ e ++ extra.
Proof.
  unfold Encoder.step.
  destruct (Encoder.threads e !! i) as [[| ib |] |].
  - destruct (Encoder.gEncodeQ e) as [| [ib |] q].
    + intros [= <-]. exists []. now rewrite app_nil_r.
    + destruct (Encoder.encode bout ib) as [ib' | | | |]; try discriminate.
      intros [= <-]. exists []. cbn. now rewrite app_nil_r.
    + intros [= <-]. exists []. cbn. now rewrite app_nil_r.
  - intros [= <-]. now eexists.
  - intros [= <-]. exists []. now rewrite app_nil_r.
  - intros [= <-]. exists []. now rewrite app_nil_r.
Qed.

(** Once all threads have exited, a turn changes nothing. *)
Lemma turn_exited `{Encoder.block_codec} (bout : Z) (i : nat)
  (e : Encoder.pool) :
  Forall (fun t => t = Encoder.Exited) (Encoder.threads e) ->
  Encoder.step bout (Encoder.Turn i) e = Done e.
Proof.
  intros Hall. unfold Encoder.step.
  destruct (Encoder.threads e !! i) as [t |] eqn:Hi; [| reflexivity].
  rewrite Forall_forall in Hall.
  rewrite (Hall t (list_elem_of_lookup_2 _ _ _ Hi)). reflexivity.
Qed.

(** With every thread exited after all the pushes, nothing is left on the
    encode queue. *)
Lemma accounts_all_exited `{Encoder.block_codec} (bout : Z) (n : nat)
  (bs : list io_block_t) (e : Encoder.pool) :
  0 < n ->
  Encoder.accounts bout n (map MSG_BLOCK bs ++ repeat MSG_STOP n) e ->
  forallb Encoder.is_exited (Encoder.threads e) = true ->
  Forall (fun t => t = Encoder.Exited) (Encoder.threads e) /\
  Encoder.gEncodeQ e = [].
Proof.
  intros Hn (popped & outs & Hq & _ & _ & _ & Hcount & Hlen) Hall.
  rewrite forallb_forall in Hall.
  split.
  { apply Forall_forall. intros t Ht.
    specialize (Hall t (proj1 (list_elem_of_In _ _) Ht)).
    now destruct t. }
  destruct (Encoder.gEncodeQ e) as [| m q] eqn:Eq; [reflexivity |].
  exfalso.
  assert (Hstop : 0 < length (List.filter Encoder.is_stop (m :: q)))
    by (apply (EncoderFacts.rest_holds_STOP bs n popped);
        [exact Hq | exact Hn | discriminate]).
  assert (Hex : length (List.filter Encoder.is_exited (Encoder.threads e))
                = length (Encoder.threads e)).
  { clear -Hall. induction (Encoder.threads e) as [| t ts IH];
      [reflexivity |].
    simpl. rewrite (Hall t) by now left. simpl. f_equal.
    apply IH. intros x Hx. apply Hall. now right. }
  apply (f_equal (fun l => length (List.filter Encoder.is_stop l))) in Hq.
  rewrite !List.filter_app, !length_app, EncoderFacts.filter_stop_blocks,
    EncoderFacts.filter_stop_STOPs, repeat_length in Hq.
  cbn [length] in Hq. lia.
Qed.

(** *** The reader's globals *)

Lemma recycle_ok (p : Setup.pool) (tar : list byte) (on : bool)
  (ib : io_block_t) (r : Reader.reader) :
  reader_ok p tar on r ->
  ReaderRun.sized (Setup.gBlockInSize p) (Setup.gBlockOutSize p) ib ->
  reader_ok p tar on (ReaderRun.recycle ib r).
Proof.
  intros (HB & HO & HN & Hout & Hfree & Hon & Hposted & Hfew) [Hi Ho].
  split; [exact HB |]. split; [exact HO |]. split; [exact HN |].
  split.
  { destruct Hout as (Hq & Hcur & Hp). split; [| now split].
    cbn [ReaderRun.recycle Reader.gReadQ Reader.gBlockOutSize].
    apply Forall_app. split; [exact Hq |].
    constructor; [congruence | constructor]. }
  split.
  { cbn [ReaderRun.recycle Reader.gReadQ].
    apply Forall_app. split; [exact Hfree |]. now constructor. }
  split; [| now split].
  destruct on; [| exact Hon].
  destruct Hon as [Hinv Hsp]. split; [| exact Hsp].
  apply ReaderRunFacts.recycle_inv; [exact Hinv | congruence].
Qed.

Lemma give_back_ok (p : Setup.pool) (tar : list byte) (on : bool)
  (old new : list io_block_t) (r : Reader.reader) :
  reader_ok p tar on r ->
  Forall (ReaderRun.sized (Setup.gBlockInSize p) (Setup.gBlockOutSize p))
         new ->
  reader_ok p tar on (give_back old new r) /\
  Reader.gEncodeQ (give_back old new r) = Reader.gEncodeQ r.
Proof.
  intros Hr Hnew. unfold give_back.
  apply (Forall_drop _ (length old)) in Hnew.
  revert r Hr. induction Hnew as [| ib l Hib _ IH]; intros r Hr.
  - now split.
  - cbn [fold_left].
    destruct (IH (ReaderRun.recycle ib r) (recycle_ok p tar on ib r Hr Hib))
      as [Hok Hq].
    split; [exact Hok |]. now rewrite Hq.
Qed.

(** While the reader reads, the blocks posted are full and few. *)
Lemma posted_ok (p : Setup.pool) (tar : list byte) (r : Reader.reader) :
  Reader.gBlockInSize r = Setup.gBlockInSize p ->
  Reader.gBlockOutSize r = Setup.gBlockOutSize p ->
  Reader.inv r -> ReaderRun.splits tar r -> Pipeline.outputs_sized r ->
  Forall (fun ib => ReaderRun.sized (Setup.gBlockInSize p)
                      (Setup.gBlockOutSize p) ib /\
                    (0 <= insize ib <= Setup.gBlockInSize p)%Z)
         (Reader.blocks_of (Reader.gEncodeQ r)) /\
  (Z.of_nat (length (Reader.blocks_of (Reader.gEncodeQ r)))
   <= Z.of_nat (length tar) + 1)%Z.
Proof.
  intros HB HO (Hpos & _) (Hcat & _ & _ & _ & Hfull & _) (_ & _ & Hout).
  split.
  - rewrite Forall_forall in Hfull, Hout. apply Forall_forall.
    intros ib Hib. destruct (Hfull ib Hib) as [Hi Hl].
    specialize (Hout ib Hib). cbv zeta in Hout. unfold ReaderRun.sized.
    rewrite <- HB, <- HO. lia.
  - assert (H0 : (0 <= Reader.gBlockInSize r)%Z) by lia.
    pose proof (ReaderRunFacts.concat_data_length _ _ H0 Hfull) as Hlen.
    apply (f_equal (@length byte)) in Hcat.
    unfold ReaderRun.acquired in Hcat.
    rewrite map_app, concat_app, !length_app in Hcat. nia.
Qed.

(** A pull keeps the reader's globals in order and only appends to the
    log of the encode queue. *)
Lemma pull_ok `{pixz_h} (p : Setup.pool) (tar : list byte)
  (r : Reader.reader) :
  (0 < CHUNKSIZE < SIZE_MAX_plus_1)%Z ->
  (Z.of_nat (length tar) < 2 ^ 63)%Z ->
  reader_ok p tar true r ->
  Reader.tar_read r = Blocked \/
  exists rd r', Reader.tar_read r = Done (rd, r') /\
    reader_ok p tar true r' /\
    exists extra, Reader.gEncodeQ r' = Reader.gEncodeQ r ++ extra.
Proof.
  intros HC Htar (HB & HO & HN & Hout & Hfree & [Hinv Hsp] & _).
  destruct (ReaderRunFacts.tar_read_safe r HC Hinv)
    as [[Hb _] | (rd & r' & Hrun & Hinv' & HB' & HO' & HN' & _)];
    [now left | right].
  exists rd, r'. split; [exact Hrun |].
  pose proof (ReaderRunFacts.tar_read_splits tar r HC Htar Hinv Hsp rd r' Hrun)
    as Hsp'.
  pose proof (PipelineFacts.tar_read_outputs r r' rd Hrun Hout) as Hout'.
  assert (HBp : Reader.gBlockInSize r' = Setup.gBlockInSize p) by congruence.
  assert (HOp : Reader.gBlockOutSize r' = Setup.gBlockOutSize p)
    by congruence.
  split.
  - split; [exact HBp |]. split; [exact HOp |]. split; [congruence |].
    split; [exact Hout' |]. split.
    { destruct Hinv' as (_ & _ & Hq). apply Forall_forall. intros ib Hib.
      rewrite <- HBp. apply Hq. now apply list_elem_of_In. }
    split; [now split |].
    exact (posted_ok p tar r' HBp HOp Hinv' Hsp' Hout').
  - destruct (ReaderSteps.tar_read_keeps r r' rd HC Hinv Hrun)
      as [_ [-> | (ib' & -> & _)]]; [exists [] | now eexists].
    now rewrite app_nil_r.
Qed.

Lemma header_ok (p : Setup.pool) (tar : list byte) (pos : Z)
  (nm : option (list byte)) (r : Reader.reader) :
  reader_ok p tar true r ->
  reader_ok p tar true (Reader.register pos nm r).
Proof.
  intros (HB & HO & HN & Hout & Hfree & [Hinv Hsp] & Hposted).
  split; [exact HB |]. split; [exact HO |]. split; [exact HN |].
  split; [exact Hout |]. split; [exact Hfree |].
  split; [now split | exact Hposted].
Qed.

Lemma finish_outputs_sized (r : Reader.reader) :
  Pipeline.outputs_sized r -> Pipeline.outputs_sized (Reader.finish r).
Proof.
  intros Hs. pose proof (PipelineFacts.finish_outputs r Hs) as Hposted.
  destruct Hs as (Hq & Hcur & _).
  pose proof (ReaderEnd.finish_queues r) as Hfin.
  destruct (ReaderEnd.finish_sizes r) as [_ HO].
  unfold Pipeline.outputs_sized. rewrite HO.
  split; [| split; [| exact Hposted]].
  - destruct (Reader.gReadBlock r) as [cur |].
    + destruct (insize cur =? 0)%Z; destruct Hfin as [_ ->]; [| exact Hq].
      apply Forall_app. split; [exact Hq |].
      constructor; [now apply Hcur | constructor].
    + now destruct Hfin as [_ ->].
  - unfold Reader.finish. destruct (Reader.last_block _). discriminate.
Qed.

(** End-of-archive: the reader's globals from then on. *)
Lemma finish_ok (p : Setup.pool) (tar : list byte) (r : Reader.reader) :
  reader_ok p tar true r ->
  reader_ok p tar false (Reader.finish r) /\
  exists extra, Reader.gEncodeQ (Reader.finish r) = Reader.gEncodeQ r ++ extra.
Proof.
  intros (HB & HO & HN & Hout & Hfree & [Hinv Hsp] & _).
  destruct (ReaderEnd.finish_sizes r) as [HB' HO'].
  assert (HN' : Reader.gNumEncodeThreads (Reader.finish r)
                = Reader.gNumEncodeThreads r)
    by (unfold Reader.finish; now destruct (Reader.last_block _)).
  pose proof (finish_outputs_sized r Hout) as Hout'.
  pose proof (PipelineFacts.finish_outputs r Hout) as Hposted.
  destruct (ReaderRunFacts.finish_posts tar r Hinv Hsp)
    as (full & partial & Hq & Hcat & Hseq & Hfull & Hlast & Hin).
  pose proof (ReaderEnd.finish_queues r) as Hfin.
  assert (Hblocks : Reader.blocks_of (Reader.gEncodeQ (Reader.finish r))
                    = full ++ partial).
  { rewrite Hq, ReaderRunFacts.blocks_of_app,
      ReaderRunFacts.blocks_of_blocks, ReaderRunFacts.blocks_of_STOPs.
    apply app_nil_r. }
  pose proof Hinv as (Hpos & Hcur & _).
  split.
  - split; [congruence |]. split; [congruence |]. split; [congruence |].
    split; [exact Hout' |]. split.
    { destruct (Reader.gReadBlock r) as [cur |] eqn:Ecur.
      - destruct (insize cur =? 0)%Z; destruct Hfin as [_ ->];
          [| exact Hfree].
        apply Forall_app. split; [exact Hfree |].
        constructor; [| constructor].
        destruct (Hcur cur eq_refl) as [_ Hl]. congruence.
      - now destruct Hfin as [_ ->]. }
    split.
    { exists (full ++ partial). rewrite <- HN. now repeat split. }
    rewrite Hblocks. rewrite Hblocks in Hposted.
    assert (Hsizes : Forall (fun ib => (0 <= insize ib
                                        <= Reader.gBlockInSize r)%Z)
                       (full ++ partial)).
    { apply Forall_app. split.
      - eapply Forall_impl; [exact Hfull |]. intros ib ->. lia.
      - destruct Hlast as [-> | (ib & -> & _ & Hi)]; [constructor |].
        constructor; [lia | constructor]. }
    split.
    + rewrite Forall_forall in Hposted, Hsizes, Hin. apply Forall_forall.
      intros ib Hib. specialize (Hposted ib Hib).
      specialize (Hsizes ib Hib). specialize (Hin ib Hib).
      unfold ReaderRun.sized. rewrite <- HB, <- HO. lia.
    + assert (H0 : (0 <= Reader.gBlockInSize r)%Z) by lia.
      assert (Hfull2 : Forall (fun ib => insize ib = Reader.gBlockInSize r /\
                                 Z.of_nat (length (input ib))
                                 = Reader.gBlockInSize r) full).
      { apply Forall_app in Hin as [Hin _].
        rewrite Forall_forall in Hfull, Hin. apply Forall_forall.
        intros ib Hib. split; [now apply Hfull | now apply Hin]. }
      pose proof (ReaderRunFacts.concat_data_length _ _ H0 Hfull2) as Hlen.
      apply (f_equal (@length byte)) in Hcat.
      rewrite map_app, concat_app, length_app, length_take in Hcat.
      assert (Hp : length partial <= 1)
        by (destruct Hlast as [-> | (ib & -> & _)]; simpl; lia).
      rewrite length_app. nia.
  - destruct (Reader.gReadBlock r) as [cur |].
    + destruct (insize cur =? 0)%Z; destruct Hfin as [-> _]; now eexists.
    + destruct Hfin as [-> _]. now eexists.
Qed.

(** *** The writer at the end *)

Lemma writer_done `{liblzma} (w : Writer.writer) (outs : list io_block_t) :
  Writer.wrote w -> Writer.drained w ->
  Writer.gReadQ w ++ Writer.ibs w ≡ₚ outs ->
  map seq outs = seqZ 0 (Z.of_nat (length outs)) ->
  Writer.ibs w = [] /\ Writer.gReadQ w = outs.
Proof.
  intros (Hseq & Hn & _) Hdr Hperm Hs.
  assert (Hlen : length outs
                 = length (Writer.gReadQ w) + length (Writer.ibs w)).
  { rewrite <- Hperm. apply length_app. }
  assert (Hnone : Writer.ibs w = []).
  { destruct (Writer.ibs w) as [| ib rest] eqn:Epend; [reflexivity |].
    exfalso.
    assert (Hin : Writer.next_seq w ∈ map seq outs).
    { rewrite Hs. apply elem_of_seqZ. simpl in Hlen. lia. }
    rewrite <- Hperm, map_app in Hin.
    apply elem_of_app in Hin as [Hin | Hin].
    - rewrite Hseq in Hin. apply elem_of_seqZ in Hin. lia.
    - apply list_elem_of_In, in_map_iff in Hin as (b & Hb & Hbin).
      unfold Writer.drained in Hdr. rewrite Epend in Hdr.
      rewrite Forall_forall in Hdr.
      apply (Hdr b); [now apply list_elem_of_In | exact Hb]. }
  split; [exact Hnone |].
  rewrite Hnone, app_nil_r in Hperm. rewrite Hnone in Hlen. simpl in Hlen.
  apply (PipelineFacts.same_keys seq); [exact Hperm | |].
  - rewrite Hseq, Hs, Hn. f_equal. lia.
  - rewrite Hseq. apply NoDup_seqZ.
Qed.

(** *** Every step keeps the stages consistent *)

Section Steps.
Context `{pixz_h} `{liblzma} `{Encoder.block_codec}.
Variable p : Setup.pool.
Variable tar : list byte.
Hypothesis chunk : (0 < CHUNKSIZE < SIZE_MAX_plus_1)%Z.
Hypothesis short : (Z.of_nat (length tar) < 2 ^ 63)%Z.
Hypothesis threads : 0 < Z.to_nat (Setup.gNumEncodeThreads p).
Hypothesis contract :
  Encoder.buffer_contract (Setup.gBlockInSize p) (Setup.gBlockOutSize p).

Lemma with_reader_consistent (r' : Reader.reader) (on : bool) (s : state) :
  consistent p tar s -> reading s = true ->
  reader_ok p tar on r' ->
  (exists extra, Reader.gEncodeQ r' = Reader.gEncodeQ (rd s) ++ extra) ->
  consistent p tar (with_reader r' on s).
Proof.
  intros (_ & Hacc & Hw & Henc & Hdr & Hperm & Hjoin & Hstop) Hon Hr
    [extra Hq].
  assert (Hj : joined s = false).
  { destruct (joined s); [| reflexivity].
    destruct (Hjoin eq_refl) as [Hoff _]. congruence. }
  split; [exact Hr |]. split.
  { cbn [with_reader rd enc]. rewrite Hq. now apply accounts_extend. }
  split; [exact Hw |]. split; [exact Henc |]. split; [exact Hdr |].
  split; [exact Hperm |]. split.
  - cbn [with_reader joined]. congruence.
  - exact Hstop.
Qed.

Lemma step_consistent (e : event) (s : state) :
  consistent p tar s ->
  exists s', step e s = Done s' /\ consistent p tar s'.
Proof.
  intros Hs.
  pose proof Hs as (Hr & Hacc & Hw & Henc & Hdr & Hperm & Hjoin & Hstop).
  pose proof Hr as (HB & HO & HN & _ & _ & Hon & Hposted & Hfew).
  destruct e as [[| pos nm] | | | i |]; cbn [step].
  - (* the parser pulls *)
    destruct (reading s) eqn:Eon; [| now exists s].
    destruct (pull_ok p tar (rd s) chunk short Hr)
      as [-> | (rd & r' & -> & Hr' & Hext)]; [now exists s |].
    cbn [mbind outcome_bind snd]. eexists. split; [reflexivity |].
    now apply with_reader_consistent.
  - (* the parser reports a header *)
    destruct (reading s) eqn:Eon; [| now exists s].
    eexists. split; [reflexivity |].
    apply with_reader_consistent; [exact Hs | exact Eon | |].
    + now apply header_ok.
    + exists []. cbn. now rewrite app_nil_r.
  - (* end-of-archive *)
    destruct (reading s) eqn:Eon; [| now exists s].
    destruct (finish_ok p tar (rd s) Hr) as [Hr' Hext].
    eexists. split; [reflexivity |].
    now apply with_reader_consistent.
  - (* the reader joins the encoders *)
    destruct (reading s) eqn:Eon; cbn [negb andb]; [now exists s |].
    destruct (forallb Encoder.is_exited (Encoder.threads (enc s))) eqn:Eex;
      [| now exists s].
    destruct Hon as (blocks & Hq & _).
    rewrite Hq in Hacc.
    destruct (accounts_all_exited _ _ blocks (enc s) threads Hacc Eex)
      as [Hall Hempty].
    eexists. split; [reflexivity |].
    split; [exact Hr |].
    split; [cbn [rd enc]; now rewrite Hq |].
    split; [exact Hw |]. split; [exact Henc |]. split; [exact Hdr |].
    split; [exact Hperm |]. split; [now intros _ |].
    cbn [stopped joined popped enc]. destruct (stopped s); [| exact Hstop].
    split; [reflexivity | now destruct Hstop].
  - (* an encoder takes its turn *)
    rewrite HO.
    destruct (joined s) eqn:Ej.
    + destruct (Hjoin eq_refl) as (_ & Hall & _).
      rewrite (turn_exited _ i (enc s) Hall). cbn [mbind outcome_bind].
      exists s. split; [| exact Hs]. f_equal.
      destruct s; cbn in *. now rewrite Ej.
    + assert (Hfit : Forall (Encoder.fits (Setup.gBlockInSize p)
                               (Setup.gBlockOutSize p))
                       (Reader.blocks_of (Reader.gEncodeQ (rd s)))).
      { eapply Forall_impl; [exact Hposted |]. apply fits_of_sized. }
      destruct (EncoderFacts.step_accounts _ _ _ (Encoder.Turn i) _ (enc s)
                  contract Hfit Hacc) as (e' & Hstep & Hacc' & _).
      cbn [Encoder.pushes flat_map app] in Hacc'.
      rewrite app_nil_r in Hacc'.
      destruct (turn_appends _ i (enc s) e' Hstep) as [extra Hext].
      rewrite Hstep. cbn [mbind outcome_bind].
      eexists. split; [reflexivity |].
      assert (Hst : stopped s = false).
      { destruct (stopped s); [| reflexivity]. destruct Hstop. congruence. }
      rewrite Hst in Hstop.
      split; [exact Hr |]. split; [exact Hacc' |].
      split; [exact Hw |]. split; [exact Henc |]. split; [exact Hdr |].
      cbn [wr popped enc joined stopped reading].
      split; [rewrite Hext, take_app_le by exact Hstop; exact Hperm |].
      split; [congruence |].
      rewrite Hst, Hext, length_app. lia.
  - (* main pops from the write queue *)
    destruct (stopped s) eqn:Est; [now exists s |].
    destruct (accounts_written _ _ _ _ (enc s) contract Hposted Hacc)
      as (Hwq & Hwritten & Hcount).
    unfold write_queue.
    destruct (decide (popped s < length (Encoder.gWriteQ (enc s))))
      as [Hlt | Hge].
    + (* a block *)
      rewrite lookup_app_l by exact Hlt.
      destruct (lookup_lt_is_Some_2 _ _ Hlt) as [m Hm].
      rewrite Hm.
      assert (Hib : exists ib, m = MSG_BLOCK ib /\
                               In ib (Reader.blocks_of
                                        (Encoder.gWriteQ (enc s)))).
      { rewrite Hwq in Hm. rewrite list_lookup_fmap in Hm.
        destruct (Reader.blocks_of (Encoder.gWriteQ (enc s)) !! popped s)
          as [ib |] eqn:Eib; [| discriminate].
        injection Hm as <-. exists ib. split; [reflexivity |].
        apply list_elem_of_In. eapply list_elem_of_lookup_2. exact Eib. }
      destruct Hib as (ib & -> & Hin).
      pose proof Hwritten as Hall. rewrite Forall_forall in Hall.
      destruct (Hall ib (proj2 (list_elem_of_In _ _) Hin)) as [Hibenc Hibsz].
      assert (Hpop : Reader.blocks_of
                       (take (S (popped s)) (Encoder.gWriteQ (enc s)))
                     = Reader.blocks_of
                         (take (popped s) (Encoder.gWriteQ (enc s)))
                       ++ [ib]).
      { rewrite (take_S_r _ _ _ Hm), ReaderRunFacts.blocks_of_app.
        reflexivity. }
      assert (Hlen : length (Writer.gReadQ (wr s))
                     + length (Writer.ibs (wr s)) = popped s).
      { rewrite <- length_app, Hperm.
        rewrite Hwq, <- fmap_take, ReaderRunFacts.blocks_of_blocks.
        rewrite length_take. rewrite Hwq, length_map in Hlt. lia. }
      set (w0 := {| Writer.next_seq := Writer.next_seq (wr s);
                    Writer.ibs := ib :: Writer.ibs (wr s);
                    Writer.gOutFile := Writer.gOutFile (wr s);
                    Writer.gIndex := Writer.gIndex (wr s);
                    Writer.gReadQ := Writer.gReadQ (wr s) |}).
      destruct (WriterFacts.write_blocks_spec w0)
        as (w' & Hrun & Hw' & Henc' & Hdr' & Hpre & Hperm').
      { exact Hw. }
      { now constructor. }
      { cbn [w0 Writer.gReadQ Writer.ibs length]. unfold SIZE_MAX_plus_1.
        lia. }
      unfold Writer.receive. fold w0. rewrite Hrun.
      cbn [mbind outcome_bind]. eexists. split; [reflexivity |].
      cbn [w0 Writer.gReadQ Writer.ibs] in Hperm', Hpre.
      assert (Hall' : Forall (ReaderRun.sized (Setup.gBlockInSize p)
                                (Setup.gBlockOutSize p))
                        (Writer.gReadQ w')).
      { assert (Hold : forall b,
                  b ∈ Writer.gReadQ (wr s) ++ Writer.ibs (wr s) ->
                  ReaderRun.sized (Setup.gBlockInSize p)
                    (Setup.gBlockOutSize p) b).
        { intros b Hb. rewrite Hperm in Hb.
          assert (Hsub : b ∈ Reader.blocks_of (Encoder.gWriteQ (enc s))).
          { rewrite <- (take_drop (popped s) (Encoder.gWriteQ (enc s))).
            rewrite ReaderRunFacts.blocks_of_app. apply elem_of_app.
            now left. }
          now destruct (Hall b Hsub). }
        apply Forall_forall. intros b Hb.
        assert (Hb' : b ∈ Writer.gReadQ w' ++ Writer.ibs w')
          by (apply elem_of_app; now left).
        rewrite Hperm' in Hb'. apply elem_of_app in Hb' as [Hb' | Hb'].
        - apply Hold, elem_of_app. now left.
        - apply elem_of_cons in Hb' as [-> | Hb']; [exact Hibsz |].
          apply Hold, elem_of_app. now right. }
      destruct (give_back_ok p tar (reading s) (Writer.gReadQ (wr s))
                  (Writer.gReadQ w') (rd s) Hr Hall') as [Hr' Hq'].
      split; [exact Hr' |].
      cbn [rd enc wr popped joined stopped reading].
      split; [now rewrite Hq' |].
      split; [exact Hw' |]. split; [exact Henc' |]. split; [exact Hdr' |].
      split.
      { rewrite Hpop, Hperm', <- Hperm.
        rewrite <- app_assoc. apply Permutation_app_head.
        apply Permutation_cons_append. }
      split; [exact Hjoin |]. lia.
    + (* no block is left *)
      assert (Heq : popped s = length (Encoder.gWriteQ (enc s))) by lia.
      rewrite lookup_app_r by lia.
      replace (popped s - length (Encoder.gWriteQ (enc s))) with 0 by lia.
      destruct (joined s) eqn:Ej; [| now exists s].
      cbn [lookup list_lookup]. eexists. split; [reflexivity |].
      split; [exact Hr |]. split; [exact Hacc |].
      split; [exact Hw |]. split; [exact Henc |]. split; [exact Hdr |].
      cbn [rd enc wr popped joined stopped reading].
      split.
      { rewrite take_ge by lia. rewrite Heq, firstn_all in Hperm.
        exact Hperm. }
      split; [exact Hjoin |]. split; [reflexivity | now rewrite Heq].
Qed.

(** Every schedule runs through and keeps the stages consistent. *)
Lemma run_consistent (evs : list event) (s : state) :
  consistent p tar s ->
  exists s', run evs s = Done s' /\ consistent p tar s'.
Proof.
  revert s. induction evs as [| e evs IH]; intros s Hs.
  - now exists s.
  - destruct (step_consistent e s Hs) as (s1 & Hstep & Hs1).
    destruct (IH s1 Hs1) as (s' & Hrun & Hs').
    exists s'. cbn [run]. rewrite Hstep. now split.
Qed.

End Steps.

Lemma consistent_start `{liblzma} `{Encoder.block_codec} (p : Setup.pool)
  (tar : list byte) :
  (0 < Setup.gBlockInSize p < SIZE_MAX_plus_1)%Z ->
  Forall (ReaderRun.sized (Setup.gBlockInSize p) (Setup.gBlockOutSize p))
         (Setup.gReadQ p) ->
  consistent p tar (start p tar).
Proof.
  intros HB Hpool.
  assert (Hin : Forall (fun ib => Z.of_nat (length (input ib))
                                  = Setup.gBlockInSize p) (Setup.gReadQ p))
    by (eapply Forall_impl; [exact Hpool |]; now intros ib [Hi _]).
  split.
  { split; [reflexivity |]. split; [reflexivity |]. split; [reflexivity |].
    split.
    { split; [| split; [discriminate | constructor]].
      eapply Forall_impl; [exact Hpool |]. now intros ib [_ Ho]. }
    split; [exact Hin |]. split.
    { split; [| apply ReaderRunFacts.splits_start].
      split; [exact HB |]. split; [discriminate |].
      intros ib Hib. rewrite Forall_forall in Hin.
      now apply Hin, list_elem_of_In. }
    split; [constructor | cbn; lia]. }
  split; [apply EncoderFacts.accounts_start |].
  split; [apply WriterFacts.wrote_start |].
  split; [constructor |]. split; [constructor |].
  split; [reflexivity |]. split; [discriminate | cbn; lia].
Qed.

End SystemFacts.

(** X14.  The program under every schedule.  From the state after
    start-up, with at least one encoder and a codec that meets its bound,
    every interleaving of the steps of the reader, of the encoder threads
    and of [main] runs through: no thread dies and none leaves a buffer.
    And once [main] has popped STOP, nothing is pending, and the output
    file is the encodings of the reader's blocks in the order of their
    sequence numbers, where the blocks, read one after another, are the
    bytes that the reader took from the input; the stream index lists the
    blocks in the same order. *)
Theorem pipeline_is_correct_under_every_schedule
  `{pixz_h} `{liblzma} `{Encoder.block_codec} (p : Setup.pool)
  (tar : list byte) (evs : list System.event) :
  (0 < CHUNKSIZE < SIZE_MAX_plus_1)%Z ->
  (0 < Setup.gBlockInSize p < SIZE_MAX_plus_1)%Z ->
  (Z.of_nat (length tar) < 2 ^ 63)%Z ->
  (0 < Setup.gNumEncodeThreads p)%Z ->
  Forall (ReaderRun.sized (Setup.gBlockInSize p) (Setup.gBlockOutSize p))
         (Setup.gReadQ p) ->
  Encoder.buffer_contract (Setup.gBlockInSize p) (Setup.gBlockOutSize p) ->
  exists s,
    System.run evs (System.start p tar) = Done s /\
    (System.stopped s = true ->
     exists blocks outs,
       concat (map ReaderRun.block_data blocks)
         = take (Z.to_nat (Reader.gTotalRead (System.rd s))) tar /\
       Forall2 (fun ib ib' =>
                  Encoder.encode (Setup.gBlockOutSize p) ib = Done ib')
               blocks outs /\
       Writer.ibs (System.wr s) = [] /\
       Writer.gReadQ (System.wr s) = outs /\
       Writer.gOutFile (System.wr s) = concat (map Writer.block_bytes outs) /\
       Writer.gIndex (System.wr s) = map Writer.index_record outs).
Proof.
  intros HC HB Htar HN Hpool Hc.
  assert (Hn : 0 < Z.to_nat (Setup.gNumEncodeThreads p)) by lia.
  destruct (SystemFacts.run_consistent p tar HC Htar Hn Hc evs
              (System.start p tar)
              (SystemFacts.consistent_start p tar HB Hpool))
    as (s & Hrun & Hr & Hacc & Hw & _ & Hdr & Hperm & Hjoin & Hstop).
  exists s. split; [exact Hrun |]. intros Hst. rewrite Hst in Hstop.
  destruct Hstop as [Hj Hpop].
  destruct (Hjoin Hj) as (Hoff & _ & Hempty).
  destruct Hr as (_ & _ & _ & _ & _ & Hon & Hposted & _).
  rewrite Hoff in Hon. destruct Hon as (blocks & Hq & Hcat & Hseq).
  rewrite Hq in Hacc.
  destruct (EncoderFacts.accounts_done _ _ blocks _ Hacc Hempty)
    as (_ & outs & Henc & Hwq & _).
  assert (Hfit : Forall (Encoder.fits (Setup.gBlockInSize p)
                           (Setup.gBlockOutSize p)) blocks).
  { rewrite Hq, ReaderRunFacts.blocks_of_app,
      ReaderRunFacts.blocks_of_blocks, ReaderRunFacts.blocks_of_STOPs,
      app_nil_r in Hposted.
    eapply Forall_impl; [exact Hposted |]. apply SystemFacts.fits_of_sized. }
  destruct (EncoderFacts.encoded_blocks _ _ blocks outs Hc Hfit Henc)
    as [Hseqs _].
  rewrite take_ge in Hperm by lia. rewrite Hwq in Hperm.
  destruct (SystemFacts.writer_done (System.wr s) outs Hw Hdr Hperm)
    as [Hnone Hsame].
  { rewrite Hseqs, Hseq. f_equal. f_equal.
    eapply Forall2_length. exact Henc. }
  exists blocks, outs. split; [exact Hcat |]. split; [exact Henc |].
  split; [exact Hnone |]. split; [exact Hsame |].
  destruct Hw as (_ & _ & Hfile & Hidx). rewrite Hsame in Hfile, Hidx.
  now split.
Qed.

(** A witness of X14: ten bytes, blocks of four bytes and two encoders,
    with the three stages interleaved; the second block reaches [main]
    before the first one. *)
Lemma pipeline_is_correct_under_every_schedule_witness :
  exists s,
    @System.run Small.h Small.store SmallRun.codec SmallRun.interleaved
      (System.start SmallRun.pool2 (Small.bytes "0123456789")) = Done s /\
    System.stopped s = true /\
    Writer.gOutFile (System.wr s)
    = x00 :: Small.bytes "0123" ++ x00 :: Small.bytes "4567"
      ++ x00 :: Small.bytes "89".
Proof.
  assert (HC : (0 < @CHUNKSIZE Small.h < SIZE_MAX_plus_1)%Z)
    by (split; reflexivity).
  assert (HB : (0 < Setup.gBlockInSize SmallRun.pool2 < SIZE_MAX_plus_1)%Z)
    by (split; reflexivity).
  assert (Htar : (Z.of_nat (length (Small.bytes "0123456789")) < 2 ^ 63)%Z)
    by reflexivity.
  assert (HN : (0 < Setup.gNumEncodeThreads SmallRun.pool2)%Z)
    by reflexivity.
  assert (Hpool : Forall (ReaderRun.sized
                            (Setup.gBlockInSize SmallRun.pool2)
                            (Setup.gBlockOutSize SmallRun.pool2))
                    (Setup.gReadQ SmallRun.pool2))
    by (repeat constructor).
  destruct (@pipeline_is_correct_under_every_schedule Small.h Small.store
              SmallRun.codec SmallRun.pool2 (Small.bytes "0123456789")
              SmallRun.interleaved HC HB Htar HN Hpool small_codec_contract)
    as (s & Hrun & _).
  exists s. split; [exact Hrun |].
  vm_compute in Hrun. injection Hrun as <-. now split.
Defined.

(** ** The pool is conserved *)

Module PoolFacts.
Import System.

(** A pull moves at most one block from the free queue to the reader's
    hands and at most one from there to the encode queue. *)
Lemma tar_read_count `{pixz_h} (r r' : Reader.reader) (rd : Z) :
  Reader.tar_read r = Done (rd, r') ->
  length (Reader.gReadQ r')
  + length (match Reader.gReadBlock r' with Some ib => [ib] | None => [] end)
  + length (Reader.blocks_of
              (drop (length (Reader.gEncodeQ r)) (Reader.gEncodeQ r')))
  = length (Reader.gReadQ r)
    + length (match Reader.gReadBlock r with Some ib => [ib] | None => [] end).
Proof.
  intros Hrun.
  apply ReaderFacts.tar_read_done in Hrun
    as (ib & q & num & data & buf & rest & space & Ha & _ & _ & _ & ->).
  cbn [Reader.gReadQ Reader.gReadBlock Reader.gEncodeQ].
  assert (Hq : length q + 1
               = length (Reader.gReadQ r)
                 + length (match Reader.gReadBlock r with
                           | Some ib => [ib] | None => [] end)).
  { unfold Reader.acquire in Ha. destruct (Reader.gReadBlock r) as [cur |].
    - injection Ha as _ <- _. reflexivity.
    - destruct (Reader.gReadQ r) as [| b q0]; [discriminate |].
      injection Ha as _ <- _. simpl. lia. }
  destruct (_ =? _)%Z.
  - rewrite drop_app_length. simpl. lia.
  - rewrite drop_all. simpl. lia.
Qed.

Lemma finish_count (r : Reader.reader) :
  length (Reader.gReadQ (Reader.finish r))
  + length (match Reader.gReadBlock (Reader.finish r) with
            | Some ib => [ib] | None => [] end)
  + length (Reader.blocks_of
              (drop (length (Reader.gEncodeQ r))
                 (Reader.gEncodeQ (Reader.finish r))))
  = length (Reader.gReadQ r)
    + length (match Reader.gReadBlock r with Some ib => [ib] | None => [] end).
Proof.
  pose proof (ReaderEnd.finish_queues r) as Hq.
  assert (Hcur : Reader.gReadBlock (Reader.finish r) = None)
    by (unfold Reader.finish; now destruct (Reader.last_block _)).
  rewrite Hcur. unfold Reader.STOPs in Hq.
  destruct (Reader.gReadBlock r) as [cur |].
  - destruct (insize cur =? 0)%Z; destruct Hq as [-> ->];
      rewrite drop_app_length, ?ReaderRunFacts.blocks_of_app,
        ?ReaderRunFacts.blocks_of_STOPs, ?length_app; simpl; lia.
  - destruct Hq as [-> ->].
    rewrite drop_app_length, ReaderRunFacts.blocks_of_STOPs. simpl. lia.
Qed.

(** A turn moves at most one block, from the encode queue to the
    thread's hands or from there to the write queue. *)
Lemma turn_count `{Encoder.block_codec} (bout : Z) (i : nat)
  (e e' : Encoder.pool) :
  Encoder.step bout (Encoder.Turn i) e = Done e' ->
  length (Reader.blocks_of (Encoder.gEncodeQ e'))
  + length (Encoder.holding (Encoder.threads e'))
  + length (Reader.blocks_of (Encoder.gWriteQ e'))
  = length (Reader.blocks_of (Encoder.gEncodeQ e))
    + length (Encoder.holding (Encoder.threads e))
    + length (Reader.blocks_of (Encoder.gWriteQ e)).
Proof.
  unfold Encoder.step.
  destruct (Encoder.threads e !! i) as [[| ib |] |] eqn:Hi.
  - destruct (EncoderFacts.split_at _ _ _ Hi) as (t1 & t2 & Hts & Hins).
    destruct (Encoder.gEncodeQ e) as [| [ib |] q] eqn:Eq.
    + intros [= <-]. now rewrite Eq.
    + destruct (Encoder.encode bout ib) as [ib' | | | |]; try discriminate.
      intros [= <-]. cbn [Encoder.gEncodeQ Encoder.gWriteQ Encoder.threads].
      rewrite Hins, Hts, !EncoderFacts.holding_app, !length_app. simpl. lia.
    + intros [= <-]. cbn [Encoder.gEncodeQ Encoder.gWriteQ Encoder.threads].
      rewrite Hins, Hts, !EncoderFacts.holding_app, !length_app. simpl. lia.
  - destruct (EncoderFacts.split_at _ _ _ Hi) as (t1 & t2 & Hts & Hins).
    intros [= <-]. cbn [Encoder.gEncodeQ Encoder.gWriteQ Encoder.threads].
    rewrite Hins, Hts, !EncoderFacts.holding_app,
      ReaderRunFacts.blocks_of_app, !length_app. simpl. lia.
  - now intros [= <-].
  - now intros [= <-].
Qed.

(** [write_blocks] hands back blocks that were pending, and only those. *)
Lemma write_blocks_count `{liblzma} (st final : Writer.writer) :
  Writer.write_blocks st = Done final ->
  Writer.gReadQ st `prefix_of` Writer.gReadQ final /\
  length (Writer.gReadQ final) + length (Writer.ibs final)
  = length (Writer.gReadQ st) + length (Writer.ibs st).
Proof.
  assert (Hgen : forall n st0, length (Writer.ibs st0) < n ->
            Writer.write_blocks st0 = Done final ->
            Writer.gReadQ st0 `prefix_of` Writer.gReadQ final /\
            length (Writer.gReadQ final) + length (Writer.ibs final)
            = length (Writer.gReadQ st0) + length (Writer.ibs st0)).
  { induction n as [| n IH]; intros st0 Hn; [lia |].
    rewrite (MainFacts.write_blocks_unfold st0).
    destruct (Writer.find_block _ _) as [[ib rest] |] eqn:Hf.
    - unfold Writer.emit.
      destruct (fwrite _ _ _) as [f | | | |]; try discriminate.
      cbn [mbind outcome_bind]. intros Hrun.
      pose proof (Writer.find_block_length _ _ _ _ Hf) as Hlt.
      destruct (WriterFacts.find_block_some _ _ _ _ Hf) as [_ Hperm].
      apply Permutation_length in Hperm. cbn [length] in Hperm.
      apply IH in Hrun; cbn [Writer.ibs Writer.gReadQ] in *; [| lia].
      destruct Hrun as [Hpre Hcount]. split.
      + etrans; [| exact Hpre]. now apply prefix_app_r.
      + rewrite Hcount, length_app. simpl. lia.
    - intros [= <-]. split; reflexivity. }
  apply (Hgen (S (length (Writer.ibs st)))). lia.
Qed.

Lemma give_back_queue (old new : list io_block_t) (r : Reader.reader) :
  Reader.gReadQ (give_back old new r)
  = Reader.gReadQ r ++ drop (length old) new /\
  Reader.gReadBlock (give_back old new r) = Reader.gReadBlock r.
Proof.
  unfold give_back. generalize (drop (length old) new). intros l.
  revert r. induction l as [| ib l IH]; intros r.
  - now rewrite app_nil_r.
  - cbn [fold_left]. destruct (IH (ReaderRun.recycle ib r)) as [-> ->].
    cbn [ReaderRun.recycle Reader.gReadQ Reader.gReadBlock].
    now rewrite <- app_assoc.
Qed.

Lemma blocks_of_split (n : nat) (q : list msg) :
  length (Reader.blocks_of q)
  = length (Reader.blocks_of (take n q))
    + length (Reader.blocks_of (drop n q)).
Proof.
  rewrite <- (take_drop n q) at 1.
  now rewrite ReaderRunFacts.blocks_of_app, length_app.
Qed.

Section Steps.
Context `{pixz_h} `{liblzma} `{Encoder.block_codec}.
Variable p : Setup.pool.
Variable tar : list byte.
Hypothesis chunk : (0 < CHUNKSIZE < SIZE_MAX_plus_1)%Z.
Hypothesis short : (Z.of_nat (length tar) < 2 ^ 63)%Z.
Hypothesis threads : 0 < Z.to_nat (Setup.gNumEncodeThreads p).
Hypothesis contract :
  Encoder.buffer_contract (Setup.gBlockInSize p) (Setup.gBlockOutSize p).

Lemma with_reader_count (r' : Reader.reader) (on : bool) (s : state) :
  length (Reader.gReadQ r')
  + length (match Reader.gReadBlock r' with Some ib => [ib] | None => [] end)
  + length (Reader.blocks_of
              (drop (length (Reader.gEncodeQ (rd s))) (Reader.gEncodeQ r')))
  = length (Reader.gReadQ (rd s))
    + length (match Reader.gReadBlock (rd s) with
              | Some ib => [ib] | None => [] end) ->
  length (everywhere (with_reader r' on s)) = length (everywhere s).
Proof.
  intros Hcount. unfold everywhere.
  cbn [with_reader rd enc wr popped deliver Encoder.gEncodeQ
       Encoder.gWriteQ Encoder.threads].
  rewrite ReaderRunFacts.blocks_of_app, !length_app. lia.
Qed.

(** A step moves blocks about and neither loses nor makes one. *)
Lemma step_conserves (e : event) (s s' : state) :
  consistent p tar s -> step e s = Done s' ->
  length (everywhere s') = length (everywhere s).
Proof.
  intros (Hr & Hacc & Hw & Henc & Hdr & Hperm & Hjoin & Hstop).
  destruct e as [[| pos nm] | | | i |]; cbn [step].
  - destruct (reading s); [| now intros [= <-]].
    destruct (Reader.tar_read (rd s)) as [[rd r'] | | | |] eqn:Et;
      try discriminate; [| now intros [= <-]].
    cbn [mbind outcome_bind snd]. intros [= <-].
    apply with_reader_count. exact (tar_read_count _ _ _ Et).
  - destruct (reading s); intros [= <-]; [| reflexivity].
    apply with_reader_count.
    cbn [Reader.register Reader.gReadQ Reader.gReadBlock Reader.gEncodeQ].
    rewrite drop_all. simpl. lia.
  - destruct (reading s); intros [= <-]; [| reflexivity].
    apply with_reader_count, finish_count.
  - destruct (negb (reading s) && _); now intros [= <-].
  - destruct (Encoder.step _ _ (enc s)) as [e' | | | |] eqn:Estep;
      try discriminate.
    cbn [mbind outcome_bind]. intros [= <-].
    pose proof (turn_count _ _ _ _ Estep) as Hcount.
    destruct (SystemFacts.turn_appends _ _ _ _ Estep) as [extra Hext].
    unfold everywhere. cbn [rd enc wr popped]. rewrite !length_app.
    assert (Hpop : Reader.blocks_of (take (popped s) (Encoder.gWriteQ e'))
                   = Reader.blocks_of
                       (take (popped s) (Encoder.gWriteQ (enc s)))).
    { destruct (stopped s).
      - destruct Hstop as [Hj _]. destruct (Hjoin Hj) as (_ & Hall & _).
        rewrite (SystemFacts.turn_exited _ i (enc s) Hall) in Estep.
        now injection Estep as <-.
      - now rewrite Hext, take_app_le. }
    pose proof (blocks_of_split (popped s) (Encoder.gWriteQ e')) as Hs1.
    pose proof (blocks_of_split (popped s) (Encoder.gWriteQ (enc s))) as Hs2.
    rewrite Hpop in Hs1. lia.
  - destruct (stopped s); [now intros [= <-] |].
    unfold write_queue.
    destruct (decide (popped s < length (Encoder.gWriteQ (enc s))))
      as [Hlt | Hge].
    + rewrite lookup_app_l by exact Hlt.
      destruct (lookup_lt_is_Some_2 _ _ Hlt) as [m Hm]. rewrite Hm.
      pose proof (drop_S _ _ _ Hm) as Hdrop.
      destruct m as [ib |].
      * destruct (Writer.receive ib (wr s)) as [w |  | | |] eqn:Erecv;
          try discriminate.
        cbn [mbind outcome_bind]. intros [= <-].
        apply write_blocks_count in Erecv as [[extra Hpre] Hcount].
        cbn [Writer.gReadQ Writer.ibs length] in Hpre, Hcount.
        destruct (give_back_queue (Writer.gReadQ (wr s)) (Writer.gReadQ w)
                    (rd s)) as [Hfree Hcur].
        unfold everywhere. cbn [rd enc wr popped].
        rewrite Hfree, Hcur, Hdrop, Hpre, drop_app_length.
        rewrite Hpre, length_app in Hcount.
        rewrite !length_app. cbn [Reader.blocks_of flat_map app length].
        fold (Reader.blocks_of
                (drop (S (popped s)) (Encoder.gWriteQ (enc s)))).
        lia.
      * intros [= <-]. unfold everywhere. cbn [rd enc wr popped].
        rewrite Hdrop. reflexivity.
    + assert (Heq : popped s = length (Encoder.gWriteQ (enc s))) by lia.
      rewrite lookup_app_r by lia.
      replace (popped s - length (Encoder.gWriteQ (enc s))) with 0 by lia.
      destruct (joined s); [| now intros [= <-]].
      cbn [lookup list_lookup]. intros [= <-].
      unfold everywhere. cbn [rd enc wr popped].
      now rewrite !drop_ge by lia.
Qed.

(** Once the reader has left its header loop it holds no block. *)
Lemma step_idle (e : event) (s s' : state) :
  idle s -> step e s = Done s' -> idle s'.
Proof.
  unfold idle. intros Hidle Hstep.
  assert (Hsame : reading s' = reading s /\
                  Reader.gReadBlock (rd s') = Reader.gReadBlock (rd s) \/
                  reading s' = true \/
                  Reader.gReadBlock (rd s') = None).
  { destruct e as [[| pos nm] | | | i |]; cbn [step] in Hstep.
    - destruct (reading s) eqn:Eon; [| injection Hstep as <-; now left].
      destruct (Reader.tar_read (rd s)) as [[n r'] | | | |];
        try discriminate; injection Hstep as <-;
        [right; now left | now left].
    - destruct (reading s) eqn:Eon; injection Hstep as <-;
        [right; now left | now left].
    - destruct (reading s) eqn:Eon; injection Hstep as <-; [| now left].
      right. right. cbn [with_reader rd]. unfold Reader.finish.
      now destruct (Reader.last_block _).
    - destruct (negb (reading s) && _); injection Hstep as <-; now left.
    - destruct (Encoder.step _ _ (enc s)); try discriminate.
      injection Hstep as <-. now left.
    - destruct (stopped s); [injection Hstep as <-; now left |].
      destruct (write_queue s !! popped s) as [[ib |] |];
        [| injection Hstep as <-; now left ..].
      destruct (Writer.receive ib (wr s)) as [w | | | |]; try discriminate.
      injection Hstep as <-. left. cbn [rd reading].
      split; [reflexivity |].
      apply (give_back_queue (Writer.gReadQ (wr s)) (Writer.gReadQ w)
               (rd s)). }
  intros Hoff. destruct Hsame as [[Hon Hcur] | [Hon | Hcur]].
  - rewrite Hcur. apply Hidle. congruence.
  - congruence.
  - exact Hcur.
Qed.

(** Once [main] has popped STOP, every block is back in the free queue. *)
Lemma stopped_all_free (s : state) :
  consistent p tar s -> idle s -> stopped s = true ->
  everywhere s = Reader.gReadQ (rd s).
Proof.
  intros (Hr & Hacc & Hw & _ & Hdr & Hperm & Hjoin & Hstop) Hidle Hst.
  rewrite Hst in Hstop. destruct Hstop as [Hj Hpop].
  destruct (Hjoin Hj) as (Hoff & Hall & Hempty).
  destruct Hr as (_ & _ & _ & _ & _ & Hon & Hposted & _).
  rewrite Hoff in Hon. destruct Hon as (blocks & Hq & Hcat & Hseq).
  rewrite Hq in Hacc.
  destruct (EncoderFacts.accounts_done _ _ blocks _ Hacc Hempty)
    as (_ & outs & Henc & Hwq & _).
  assert (Hfit : Forall (Encoder.fits (Setup.gBlockInSize p)
                           (Setup.gBlockOutSize p)) blocks).
  { rewrite Hq, ReaderRunFacts.blocks_of_app,
      ReaderRunFacts.blocks_of_blocks, ReaderRunFacts.blocks_of_STOPs,
      app_nil_r in Hposted.
    eapply Forall_impl; [exact Hposted |]. apply SystemFacts.fits_of_sized. }
  destruct (EncoderFacts.encoded_blocks _ _ blocks outs contract Hfit Henc)
    as [Hseqs _].
  rewrite take_ge in Hperm by lia. rewrite Hwq in Hperm.
  destruct (SystemFacts.writer_done (wr s) outs Hw Hdr Hperm)
    as [Hnone _].
  { rewrite Hseqs, Hseq. f_equal. f_equal.
    eapply Forall2_length. exact Henc. }
  unfold everywhere.
  rewrite (Hidle Hoff), Hempty, Hnone, drop_ge by lia.
  rewrite EncoderFacts.holding_exited.
  - cbn [Reader.blocks_of flat_map app]. now rewrite app_nil_r.
  - eapply Forall_impl; [exact Hall |]. now intros t ->.
Qed.

Lemma run_conserves (evs : list event) (s s' : state) :
  consistent p tar s -> idle s -> run evs s = Done s' ->
  consistent p tar s' /\ idle s' /\
  length (everywhere s') = length (everywhere s).
Proof.
  revert s. induction evs as [| e evs IH]; intros s Hs Hidle.
  - now intros [= <-].
  - destruct (SystemFacts.step_consistent p tar chunk short threads contract
                e s Hs) as (s1 & Hstep & Hs1).
    cbn [run]. rewrite Hstep. cbn [mbind outcome_bind]. intros Hrun.
    destruct (IH s1 Hs1 (step_idle e s s1 Hidle Hstep) Hrun)
      as (Hs' & Hidle' & Hcount).
    split; [exact Hs' |]. split; [exact Hidle' |].
    rewrite Hcount. exact (step_conserves e s s1 Hs Hstep).
Qed.

End Steps.

(** At start-up every block is in the free queue. *)
Lemma everywhere_start (p : Setup.pool) (tar : list byte) :
  everywhere (start p tar) = Setup.gReadQ p.
Proof.
  unfold everywhere.
  cbn [start rd enc wr popped Reader.start Reader.gReadQ Reader.gReadBlock
       Encoder.start Encoder.gEncodeQ Encoder.gWriteQ Encoder.threads
       Writer.start Writer.ibs drop Reader.blocks_of flat_map app].
  assert (Hnone : forall n,
            Encoder.holding (repeat Encoder.Popping n) = []).
  { induction n as [| n IH]; [reflexivity | exact IH]. }
  rewrite Hnone. now rewrite app_nil_r.
Qed.

End PoolFacts.

(** X15.  The pool of blocks is conserved.  Under every schedule of the
    reader, the encoder threads and [main], the blocks in the free queue,
    in the reader's hands, in the encode queue, in the encoders' hands,
    unpopped in the write queue and pending in [main] number those
    allocated at start-up: no block is lost and none is in two places.
    Once [main] has popped STOP, all of them are back in the free queue. *)
Theorem pool_is_conserved
  `{pixz_h} `{liblzma} `{Encoder.block_codec} (p : Setup.pool)
  (tar : list byte) (evs : list System.event) :
  (0 < CHUNKSIZE < SIZE_MAX_plus_1)%Z ->
  (0 < Setup.gBlockInSize p < SIZE_MAX_plus_1)%Z ->
  (Z.of_nat (length tar) < 2 ^ 63)%Z ->
  (0 < Setup.gNumEncodeThreads p)%Z ->
  Forall (ReaderRun.sized (Setup.gBlockInSize p) (Setup.gBlockOutSize p))
         (Setup.gReadQ p) ->
  Encoder.buffer_contract (Setup.gBlockInSize p) (Setup.gBlockOutSize p) ->
  exists s,
    System.run evs (System.start p tar) = Done s /\
    length (System.everywhere s) = length (Setup.gReadQ p) /\
    (System.stopped s = true ->
     System.everywhere s = Reader.gReadQ (System.rd s)).
Proof.
  intros HC HB Htar HN Hpool Hc.
  assert (Hn : 0 < Z.to_nat (Setup.gNumEncodeThreads p)) by lia.
  pose proof (SystemFacts.consistent_start p tar HB Hpool) as Hs0.
  destruct (SystemFacts.run_consistent p tar HC Htar Hn Hc evs
              (System.start p tar) Hs0) as (s & Hrun & _).
  assert (Hidle0 : System.idle (System.start p tar)) by discriminate.
  destruct (PoolFacts.run_conserves p tar HC Htar Hn Hc evs _ s Hs0 Hidle0
              Hrun) as (Hs & Hidle & Hcount).
  exists s. split; [exact Hrun |]. split.
  - rewrite Hcount. now rewrite PoolFacts.everywhere_start.
  - intros Hst.
    exact (PoolFacts.stopped_all_free p tar Hn Hc s Hs Hidle Hst).
Qed.

(** A witness of X15: after the first nine steps of the interleaved run,
    five of the eight blocks of the pool are free, the reader and an
    encoder hold one each and one is pending in [main]; at the end of the
    run all eight are in the free queue. *)
Lemma pool_is_conserved_witness :
  (exists s,
     @System.run Small.h Small.store SmallRun.codec
       (take 9 SmallRun.interleaved)
       (System.start SmallRun.pool2 (Small.bytes "0123456789")) = Done s /\
     length (System.everywhere s) = 8 /\
     length (Reader.gReadQ (System.rd s)) = 5 /\
     length (Writer.ibs (System.wr s)) = 1) /\
  (exists s,
     @System.run Small.h Small.store SmallRun.codec SmallRun.interleaved
       (System.start SmallRun.pool2 (Small.bytes "0123456789")) = Done s /\
     System.stopped s = true /\
     length (Reader.gReadQ (System.rd s)) = 8).
Proof.
  assert (HC : (0 < @CHUNKSIZE Small.h < SIZE_MAX_plus_1)%Z)
    by (split; reflexivity).
  assert (HB : (0 < Setup.gBlockInSize SmallRun.pool2 < SIZE_MAX_plus_1)%Z)
    by (split; reflexivity).
  assert (Htar : (Z.of_nat (length (Small.bytes "0123456789")) < 2 ^ 63)%Z)
    by reflexivity.
  assert (HN : (0 < Setup.gNumEncodeThreads SmallRun.pool2)%Z)
    by reflexivity.
  assert (Hpool : Forall (ReaderRun.sized
                            (Setup.gBlockInSize SmallRun.pool2)
                            (Setup.gBlockOutSize SmallRun.pool2))
                    (Setup.gReadQ SmallRun.pool2))
    by (repeat constructor).
  split.
  - destruct (@pool_is_conserved Small.h Small.store SmallRun.codec
                SmallRun.pool2 (Small.bytes "0123456789")
                (take 9 SmallRun.interleaved) HC HB Htar HN Hpool
                small_codec_contract) as (s & Hrun & Hcount & _).
    exists s. split; [exact Hrun |]. split; [exact Hcount |].
    vm_compute in Hrun. injection Hrun as <-. split; reflexivity.
  - destruct (@pool_is_conserved Small.h Small.store SmallRun.codec
                SmallRun.pool2 (Small.bytes "0123456789")
                SmallRun.interleaved HC HB Htar HN Hpool
                small_codec_contract) as (s & Hrun & Hcount & Hfree).
    exists s. split; [exact Hrun |].
    assert (Hst : System.stopped s = true)
      by (vm_compute in Hrun; injection Hrun as <-; reflexivity).
    split; [exact Hst |]. rewrite <- (Hfree Hst). exact Hcount.
Defined.

(** ** The threads can always shut down *)

Module ShutdownFacts.
Import System.

Lemma run_events_app `{pixz_h} `{liblzma} `{Encoder.block_codec}
  (e1 e2 : list event) (s : state) :
  run (e1 ++ e2) s = s' ← run e1 s; run e2 s'.
Proof.
  revert s. induction e1 as [| e e1 IH]; intros s; [reflexivity |].
  cbn [app run].
  destruct (step e s) as [s1 | | | |]; cbn [mbind outcome_bind];
    try reflexivity.
  apply IH.
Qed.

(** Turns of the encoder threads touch the pool of threads only. *)
Lemma run_turns `{pixz_h} `{liblzma} `{Encoder.block_codec}
  (turns : list nat) (s : state) (e' : Encoder.pool) :
  Encoder.run (Reader.gBlockOutSize (rd s)) (map Encoder.Turn turns) (enc s)
  = Done e' ->
  run (map Turn turns) s
  = Done {| rd := rd s; enc := e'; wr := wr s; popped := popped s;
            reading := reading s; joined := joined s;
            stopped := stopped s |}.
Proof.
  revert s. induction turns as [| i turns IH]; intros s.
  - cbn [map Encoder.run run]. intros [= <-]. now destruct s.
  - cbn [map Encoder.run run step].
    destruct (Encoder.step _ _ (enc s)) as [e1 | | | |];
      cbn [mbind outcome_bind]; try discriminate.
    intros Hrun. now rewrite IH.
Qed.

Section Steps.
Context `{pixz_h} `{liblzma} `{Encoder.block_codec}.
Variable p : Setup.pool.
Variable tar : list byte.
Hypothesis chunk : (0 < CHUNKSIZE < SIZE_MAX_plus_1)%Z.
Hypothesis short : (Z.of_nat (length tar) < 2 ^ 63)%Z.
Hypothesis threads : 0 < Z.to_nat (Setup.gNumEncodeThreads p).
Hypothesis contract :
  Encoder.buffer_contract (Setup.gBlockInSize p) (Setup.gBlockOutSize p).

(** A consistent state after one step, with the step in hand. *)
Lemma step_next (e : event) (s : state) :
  consistent p tar s ->
  exists s', step e s = Done s' /\ consistent p tar s'.
Proof.
  exact (SystemFacts.step_consistent p tar chunk short threads contract e s).
Qed.

(** [main] pops a block that waits in the write queue. *)
Lemma pop_block (s : state) :
  consistent p tar s -> stopped s = false ->
  popped s < length (Encoder.gWriteQ (enc s)) ->
  exists s', step Pop s = Done s' /\ consistent p tar s' /\
             enc s' = enc s /\ popped s' = S (popped s) /\
             reading s' = reading s /\ joined s' = joined s /\
             stopped s' = false.
Proof.
  intros Hs Hst Hlt.
  destruct (step_next Pop s Hs) as (s' & Hstep & Hs').
  exists s'. split; [exact Hstep |]. split; [exact Hs' |].
  destruct Hs as (Hr & Hacc & _).
  destruct Hr as (_ & _ & _ & _ & _ & _ & Hposted & _).
  destruct (SystemFacts.accounts_written _ _ _ _ (enc s) contract Hposted
              Hacc) as (Hwq & _).
  cbn [step] in Hstep. rewrite Hst in Hstep. unfold write_queue in Hstep.
  rewrite lookup_app_l in Hstep by exact Hlt.
  destruct (lookup_lt_is_Some_2 _ _ Hlt) as [m Hm].
  rewrite Hm in Hstep.
  assert (Hib : exists ib, m = MSG_BLOCK ib).
  { rewrite Hwq, list_lookup_fmap in Hm.
    destruct (_ !! popped s) as [ib |]; [| discriminate].
    injection Hm as <-. now exists ib. }
  destruct Hib as [ib ->].
  destruct (Writer.receive ib (wr s)) as [w | | | |]; try discriminate.
  injection Hstep as <-. cbn [enc popped reading joined stopped].
  split; [reflexivity |]. split; [reflexivity |].
  split; [reflexivity |]. split; reflexivity.
Qed.

(** [main] can pop all that waits in the write queue. *)
Lemma pop_all (n : nat) (s : state) :
  consistent p tar s -> stopped s = false ->
  length (Encoder.gWriteQ (enc s)) - popped s <= n ->
  exists k s', run (repeat Pop k) s = Done s' /\ consistent p tar s' /\
               enc s' = enc s /\
               popped s' = length (Encoder.gWriteQ (enc s)) /\
               reading s' = reading s /\ joined s' = joined s /\
               stopped s' = false.
Proof.
  revert s. induction n as [| n IH]; intros s Hs Hst Hn;
    pose proof Hs as (_ & _ & _ & _ & _ & _ & _ & Hstop);
    rewrite Hst in Hstop;
    (destruct (decide (popped s < length (Encoder.gWriteQ (enc s))))
       as [Hlt | Hge];
     [| exists 0, s; split; [reflexivity |]; split; [exact Hs |];
        split; [reflexivity |]; split; [lia |]; now repeat split]).
  - lia.
  - destruct (pop_block s Hs Hst Hlt)
      as (s1 & Hstep & Hs1 & He & Hp & Hon & Hj & Hst1).
    destruct (IH s1 Hs1 Hst1) as (k & s' & Hrun & Hs' & He' & Hp' & Hon' &
                                  Hj' & Hst').
    { rewrite He, Hp. lia. }
    exists (S k), s'. cbn [repeat run]. rewrite Hstep.
    cbn [mbind outcome_bind]. split; [exact Hrun |].
    split; [exact Hs' |]. rewrite <- He.
    split; [congruence |]. split; [exact Hp' |].
    split; [congruence |]. split; [congruence | exact Hst'].
Qed.

(** Once the reader is out of its loop, the encoders can finish, the
    reader can join them and [main] can pop up to STOP. *)
Lemma can_stop (s : state) :
  consistent p tar s -> reading s = false ->
  exists turns k s',
    run (map Turn turns ++ Join :: repeat Pop k) s = Done s' /\
    consistent p tar s' /\ stopped s' = true.
Proof.
  intros Hs Hoff.
  pose proof Hs as (Hr & Hacc & _).
  destruct Hr as (_ & Hbout & _ & _ & _ & Hon & Hposted & _).
  rewrite Hoff in Hon. destruct Hon as (blocks & Hq & _).
  rewrite Hq in Hacc.
  assert (Hfit : Forall (Encoder.fits (Setup.gBlockInSize p)
                           (Setup.gBlockOutSize p)) blocks).
  { rewrite Hq, ReaderRunFacts.blocks_of_app,
      ReaderRunFacts.blocks_of_blocks, ReaderRunFacts.blocks_of_STOPs,
      app_nil_r in Hposted.
    eapply Forall_impl; [exact Hposted |]. apply SystemFacts.fits_of_sized. }
  destruct (EncoderFacts.can_finish _ _ _ blocks (Encoder.todo (enc s))
              (enc s) contract Hfit threads Hacc (le_n _))
    as (turns & e' & Hturns & Hempty & Hacc').
  destruct (EncoderFacts.accounts_done _ _ blocks e' Hacc' Hempty)
    as (Hall & _).
  rewrite <- Hbout in Hturns. apply run_turns in Hturns.
  set (s1 := {| rd := rd s; enc := e' |}) in Hturns.
  assert (Hs1 : consistent p tar s1).
  { destruct (SystemFacts.run_consistent p tar chunk short threads contract
                (map Turn turns) s Hs) as (s1' & Hrun & Hs1').
    rewrite Hturns in Hrun. now injection Hrun as <-. }
  assert (Hexit : forallb Encoder.is_exited (Encoder.threads e') = true).
  { apply forallb_forall. intros t Ht. rewrite Forall_forall in Hall.
    now rewrite (Hall t (proj2 (list_elem_of_In _ _) Ht)). }
  set (s2 := {| rd := rd s; enc := e'; wr := wr s; popped := popped s;
                reading := reading s; joined := true;
                stopped := stopped s |}).
  assert (Hjoin : step Join s1 = Done s2).
  { unfold s1, s2. cbn [step reading enc rd wr popped joined stopped].
    now rewrite Hoff, Hexit. }
  assert (Hs2 : consistent p tar s2).
  { destruct (step_next Join s1 Hs1) as (s2' & Hstep & Hs2').
    rewrite Hjoin in Hstep. now injection Hstep as <-. }
  destruct (stopped s) eqn:Est.
  - exists turns, 0, s2. rewrite run_events_app, Hturns.
    cbn [mbind outcome_bind repeat run]. rewrite Hjoin.
    cbn [mbind outcome_bind]. split; [reflexivity |].
    split; [exact Hs2 | reflexivity].
  - destruct (pop_all (length (Encoder.gWriteQ e')) s2 Hs2 eq_refl)
      as (k & s3 & Hpops & Hs3 & He3 & Hp3 & _ & Hj3 & Hst3);
      [cbn [s2 enc]; lia |].
    cbn [s2 enc joined] in He3, Hp3, Hj3.
    destruct (step_next Pop s3 Hs3) as (s4 & Hpop & Hs4).
    exists turns, (k + 1), s4.
    rewrite run_events_app, Hturns. cbn [mbind outcome_bind run].
    rewrite Hjoin. cbn [mbind outcome_bind].
    rewrite repeat_app, run_events_app, Hpops. cbn [mbind outcome_bind].
    cbn [repeat run]. rewrite Hpop. cbn [mbind outcome_bind].
    split; [reflexivity |]. split; [exact Hs4 |].
    cbn [step] in Hpop. rewrite Hst3 in Hpop. unfold write_queue in Hpop.
    rewrite He3, Hj3, Hp3, lookup_app_r, Nat.sub_diag in Hpop by lia.
    cbn [lookup list_lookup] in Hpop. now injection Hpop as <-.
Qed.

End Steps.

End ShutdownFacts.

(** ** The reader never starves *)

Module DrainFacts.
Import Encoder.

Lemma find_pushing (ts : list thread) :
  (exists i ib, ts !! i = Some (Pushing ib)) \/ holding ts = [].
Proof.
  induction ts as [| t ts IH]; [now right |].
  destruct t as [| ib |].
  - destruct IH as [(i & ib & Hi) | Hnone]; [left | now right].
    now exists (S i), ib.
  - left. now exists 0, ib.
  - destruct IH as [(i & ib & Hi) | Hnone]; [left | now right].
    now exists (S i), ib.
Qed.

(** While no thread has exited and work is left, a thread can move. *)
Lemma pick_thread (ts : list thread) (q : list msg) :
  length (List.filter is_exited ts) = 0 -> 0 < length ts ->
  holding ts <> [] \/ q <> [] ->
  exists i, (exists ib, ts !! i = Some (Pushing ib)) \/
            (ts !! i = Some Popping /\ q <> []).
Proof.
  intros Hnone Hlen Hwork.
  destruct (find_pushing ts) as [(i & ib & Hi) | Hhold].
  - exists i. left. now exists ib.
  - destruct Hwork as [Hwork | Hq]; [contradiction |].
    destruct ts as [| [| ib |] ts]; simpl in *; try lia.
    + exists 0. now right.
    + discriminate.
Qed.

(** Before the reader posts its STOPs, turns of the threads bring every
    block posted so far to the write queue. *)
Lemma can_drain `{block_codec} (bin bout : Z) (n : nat)
  (bs : list io_block_t) (k : nat) (s : pool) :
  buffer_contract bin bout -> Forall (fits bin bout) bs -> 0 < n ->
  accounts bout n (map MSG_BLOCK bs) s ->
  todo s <= k ->
  exists turns s',
    run bout (map Turn turns) s = Done s' /\
    accounts bout n (map MSG_BLOCK bs) s' /\
    gEncodeQ s' = [] /\ holding (threads s') = [].
Proof.
  intros Hc Hfit Hn. revert s.
  assert (Hfit' : Forall (fits bin bout)
                    (Reader.blocks_of (map MSG_BLOCK bs)))
    by now rewrite ReaderRunFacts.blocks_of_blocks.
  induction k as [| k IH]; intros s Hacc Hk.
  all: destruct (gEncodeQ s) as [| m q] eqn:Eq;
    [destruct (holding (threads s)) as [| h hs] eqn:Eh;
     [exists [], s; now repeat split |] |].
  all: pose proof Hacc as (popped & outs & Hq & _ & _ & _ & Hcount & Hlen).
  all: assert (Hnone : length (List.filter is_exited (threads s)) = 0)
         by (apply (f_equal (fun l => length (List.filter is_stop l))) in Hq;
             rewrite List.filter_app, length_app, EncoderFacts.filter_stop_blocks in Hq;
             simpl in Hq; lia).
  all: destruct (pick_thread (threads s) (gEncodeQ s) Hnone) as [i Hi];
    [lia | rewrite ?Eq, ?Eh; first [now left | now right] |].
  all: destruct (EncoderFacts.step_accounts bin bout n (Turn i) _ s Hc Hfit' Hacc)
         as (s1 & Hs & Ha1 & Hdown).
  all: cbn [pushes flat_map app] in Ha1; rewrite app_nil_r in Ha1.
  all: pose proof (Hdown i eq_refl Hi) as Hlt.
  all: try lia.
  all: destruct (IH s1 Ha1) as (turns & s' & Hrun & Ha' & He & Hh);
    [lia |].
  all: exists (i :: turns), s'; cbn [map run]; rewrite Hs;
    cbn [mbind outcome_bind]; now repeat split.
Qed.

End DrainFacts.

Module ReaderFed.
Import System.

Lemma seqs_prefix (l1 l2 : list io_block_t) :
  map seq (l1 ++ l2) = seqZ 0 (Z.of_nat (length (l1 ++ l2))) ->
  map seq l1 = seqZ 0 (Z.of_nat (length l1)).
Proof.
  rewrite map_app, length_app, Nat2Z.inj_add, seqZ_app by lia.
  intros Heq. apply app_inj_1 in Heq; [now destruct Heq |].
  rewrite length_map, length_seqZ. lia.
Qed.

Section Steps.
Context `{pixz_h} `{liblzma} `{Encoder.block_codec}.
Variable p : Setup.pool.
Variable tar : list byte.
Hypothesis chunk : (0 < CHUNKSIZE < SIZE_MAX_plus_1)%Z.
Hypothesis short : (Z.of_nat (length tar) < 2 ^ 63)%Z.
Hypothesis threads : 0 < Z.to_nat (Setup.gNumEncodeThreads p).
Hypothesis contract :
  Encoder.buffer_contract (Setup.gBlockInSize p) (Setup.gBlockOutSize p).

(** While the reader is in its loop, the encoders and [main] can bring
    every block that is under way back to the free queue. *)
Lemma can_recycle (s : state) :
  consistent p tar s -> reading s = true ->
  exists turns k s',
    run (map Turn turns ++ repeat Pop k) s = Done s' /\
    consistent p tar s' /\ reading s' = true /\
    everywhere s'
    = Reader.gReadQ (rd s')
      ++ match Reader.gReadBlock (rd s') with
         | Some ib => [ib] | None => [] end.
Proof.
  intros Hs Hon.
  pose proof Hs as (Hr & Hacc & _ & _ & _ & _ & Hjoin & Hstop).
  assert (Hst : stopped s = false).
  { destruct (stopped s); [| reflexivity].
    destruct Hstop as [Hj _]. destruct (Hjoin Hj) as [Hoff _]. congruence. }
  destruct Hr as (_ & Hbout & _ & _ & _ & Hloop & Hposted & _).
  rewrite Hon in Hloop. destruct Hloop as [_ Hsp].
  destruct Hsp as (_ & _ & _ & _ & _ & Hq).
  rewrite Hq in Hacc.
  assert (Hfit : Forall (Encoder.fits (Setup.gBlockInSize p)
                           (Setup.gBlockOutSize p))
                   (Reader.blocks_of (Reader.gEncodeQ (rd s)))).
  { eapply Forall_impl; [exact Hposted |]. apply SystemFacts.fits_of_sized. }
  destruct (DrainFacts.can_drain _ _ _ _ (Encoder.todo (enc s)) (enc s)
              contract Hfit threads Hacc (le_n _))
    as (turns & e' & Hturns & _ & Hempty & Hnone).
  rewrite <- Hbout in Hturns. apply ShutdownFacts.run_turns in Hturns.
  set (s1 := {| rd := rd s; enc := e' |}) in Hturns.
  assert (Hs1 : consistent p tar s1).
  { destruct (SystemFacts.run_consistent p tar chunk short threads contract
                (map Turn turns) s Hs) as (s1' & Hrun & Hs1').
    rewrite Hturns in Hrun. now injection Hrun as <-. }
  destruct (ShutdownFacts.pop_all p tar chunk short threads contract
              (length (Encoder.gWriteQ e')) s1 Hs1 Hst)
    as (k & s2 & Hpops & Hs2 & He2 & Hp2 & Hon2 & _ & Hst2);
    [unfold s1; cbn [enc]; lia |].
  unfold s1 in He2, Hp2, Hon2. cbn [enc reading] in He2, Hp2, Hon2.
  exists turns, k, s2.
  rewrite ShutdownFacts.run_events_app, Hturns. cbn [mbind outcome_bind].
  split; [exact Hpops |]. split; [exact Hs2 |].
  split; [congruence |].
  (* nothing is left with the encoders or with [main] *)
  pose proof Hs2 as (Hr2 & Hacc2 & Hw2 & _ & Hdr2 & Hperm2 & _).
  destruct Hr2 as (_ & _ & _ & _ & _ & Hloop2 & Hposted2 & _).
  rewrite Hon2, Hon in Hloop2. destruct Hloop2 as [_ Hsp2].
  destruct Hsp2 as (_ & _ & Hseq2 & _ & _ & Hq2).
  unfold ReaderRun.acquired in Hseq2. apply seqs_prefix in Hseq2.
  destruct Hacc2 as (popped_e & outs & Hpushed & Henc & Hperm & _).
  rewrite He2, Hempty, app_nil_r in Hpushed.
  rewrite He2, Hnone, app_nil_r in Hperm.
  rewrite He2, take_ge, Hperm in Hperm2 by lia.
  rewrite <- Hpushed in Henc.
  assert (Hfit2 : Forall (Encoder.fits (Setup.gBlockInSize p)
                            (Setup.gBlockOutSize p))
                    (Reader.blocks_of (Reader.gEncodeQ (rd s2)))).
  { eapply Forall_impl; [exact Hposted2 |]. apply SystemFacts.fits_of_sized. }
  destruct (EncoderFacts.encoded_blocks _ _ _ outs contract Hfit2 Henc)
    as [Hseqs _].
  destruct (SystemFacts.writer_done (wr s2) outs Hw2 Hdr2 Hperm2)
    as [Hpend _].
  { rewrite Hseqs, Hseq2. f_equal. f_equal.
    eapply Forall2_length. exact Henc. }
  unfold everywhere.
  rewrite He2, Hempty, Hnone, Hpend, drop_ge by lia.
  cbn [Reader.blocks_of flat_map app]. now rewrite app_nil_r.
Qed.

End Steps.

(** From a pool that is not empty, the blocks under way come back and the
    reader's next pull returns. *)
Lemma fed
  `{pixz_h} `{liblzma} `{Encoder.block_codec} (p : Setup.pool)
  (tar : list byte) (evs : list event) (s1 : state) :
  (0 < CHUNKSIZE < SIZE_MAX_plus_1)%Z ->
  (0 < Setup.gBlockInSize p < SIZE_MAX_plus_1)%Z ->
  (Z.of_nat (length tar) < 2 ^ 63)%Z ->
  (0 < Setup.gNumEncodeThreads p)%Z ->
  Forall (ReaderRun.sized (Setup.gBlockInSize p) (Setup.gBlockOutSize p))
         (Setup.gReadQ p) ->
  Encoder.buffer_contract (Setup.gBlockInSize p) (Setup.gBlockOutSize p) ->
  Setup.gReadQ p <> [] ->
  run evs (start p tar) = Done s1 ->
  reading s1 = true ->
  exists turns k s,
    run (map Turn turns ++ repeat Pop k) s1 = Done s /\
    length (Reader.gReadQ (rd s))
    + length (match Reader.gReadBlock (rd s) with
              | Some ib => [ib] | None => [] end)
    = length (Setup.gReadQ p) /\
    exists n r, Reader.tar_read (rd s) = Done (n, r).
Proof.
  intros HC HB Htar HN Hpool Hc Hsome Hrun Hon.
  assert (Hn : 0 < Z.to_nat (Setup.gNumEncodeThreads p)) by lia.
  pose proof (SystemFacts.consistent_start p tar HB Hpool) as Hs0.
  assert (Hidle0 : idle (start p tar)) by discriminate.
  destruct (PoolFacts.run_conserves p tar HC Htar Hn Hc evs _ s1 Hs0 Hidle0
              Hrun) as (Hs1 & Hidle1 & Hcount1).
  destruct (can_recycle p tar HC Htar Hn Hc s1 Hs1 Hon)
    as (turns & k & s & Hmore & Hs & Hon' & Hall).
  destruct (PoolFacts.run_conserves p tar HC Htar Hn Hc _ s1 s Hs1 Hidle1
              Hmore) as (_ & _ & Hcount).
  exists turns, k, s. split; [exact Hmore |].
  rewrite Hcount1, PoolFacts.everywhere_start in Hcount.
  rewrite Hall, length_app in Hcount. split; [exact Hcount |].
  destruct Hs as (Hr & _).
  destruct Hr as (_ & _ & _ & _ & _ & Hloop & _).
  rewrite Hon' in Hloop. destruct Hloop as [Hinv _].
  assert (Hpos : 0 < length (Setup.gReadQ p))
    by (destruct (Setup.gReadQ p); [contradiction | simpl; lia]).
  pose proof (ReaderRunFacts.acquire_cases (rd s)) as Hacq.
  destruct (Reader.gReadBlock (rd s)) as [cur |] eqn:Ecur.
  - eexists _, _. exact (ReaderRunFacts.tar_read_eq _ _ _ _ HC Hinv Hacq).
  - destruct (Reader.gReadQ (rd s)) as [| b q] eqn:Efree;
      [simpl in Hcount; lia |].
    eexists _, _. exact (ReaderRunFacts.tar_read_eq _ _ _ _ HC Hinv Hacq).
Qed.

End ReaderFed.

(** X17.  The reader never starves.  With a pool that is not empty, in
    every state that the program reaches while the reader is in its header
    loop, there are turns of the encoder threads and pops of [main] after
    which every block of the pool is free or in the reader's hands, and
    the reader's next pull returns without waiting. *)
Theorem reader_never_starves
  `{pixz_h} `{liblzma} `{Encoder.block_codec} (p : Setup.pool)
  (tar : list byte) (evs : list System.event) (s1 : System.state) :
  (0 < CHUNKSIZE < SIZE_MAX_plus_1)%Z ->
  (0 < Setup.gBlockInSize p < SIZE_MAX_plus_1)%Z ->
  (Z.of_nat (length tar) < 2 ^ 63)%Z ->
  (0 < Setup.gNumEncodeThreads p)%Z ->
  Forall (ReaderRun.sized (Setup.gBlockInSize p) (Setup.gBlockOutSize p))
         (Setup.gReadQ p) ->
  Encoder.buffer_contract (Setup.gBlockInSize p) (Setup.gBlockOutSize p) ->
  Setup.gReadQ p <> [] ->
  System.run evs (System.start p tar) = Done s1 ->
  System.reading s1 = true ->
  exists turns k s,
    System.run (map System.Turn turns ++ repeat System.Pop k) s1 = Done s /\
    length (Reader.gReadQ (System.rd s))
    + length (match Reader.gReadBlock (System.rd s) with
              | Some ib => [ib] | None => [] end)
    = length (Setup.gReadQ p) /\
    exists n r, Reader.tar_read (System.rd s) = Done (n, r).
Proof. exact (ReaderFed.fed p tar evs s1). Qed.

(** A witness of X17: after nine steps of the interleaved run the reader
    is in its loop, five blocks are free, one is with an encoder and one
    is pending in [main]. *)
Lemma reader_never_starves_witness :
  exists s1,
    @System.run Small.h Small.store SmallRun.codec
      (take 9 SmallRun.interleaved)
      (System.start SmallRun.pool2 (Small.bytes "0123456789")) = Done s1 /\
    System.reading s1 = true /\
    exists turns k s,
      @System.run Small.h Small.store SmallRun.codec
        (map System.Turn turns ++ repeat System.Pop k) s1 = Done s /\
      length (Reader.gReadQ (System.rd s))
      + length (match Reader.gReadBlock (System.rd s) with
                | Some ib => [ib] | None => [] end) = 8 /\
      exists n r, @Reader.tar_read Small.h (System.rd s) = Done (n, r).
Proof.
  assert (HC : (0 < @CHUNKSIZE Small.h < SIZE_MAX_plus_1)%Z)
    by (split; reflexivity).
  assert (HB : (0 < Setup.gBlockInSize SmallRun.pool2 < SIZE_MAX_plus_1)%Z)
    by (split; reflexivity).
  assert (Htar : (Z.of_nat (length (Small.bytes "0123456789")) < 2 ^ 63)%Z)
    by reflexivity.
  assert (HN : (0 < Setup.gNumEncodeThreads SmallRun.pool2)%Z)
    by reflexivity.
  assert (Hpool : Forall (ReaderRun.sized
                            (Setup.gBlockInSize SmallRun.pool2)
                            (Setup.gBlockOutSize SmallRun.pool2))
                    (Setup.gReadQ SmallRun.pool2))
    by (repeat constructor).
  assert (Hsome : Setup.gReadQ SmallRun.pool2 <> []) by discriminate.
  destruct (@System.run Small.h Small.store SmallRun.codec
              (take 9 SmallRun.interleaved)
              (System.start SmallRun.pool2 (Small.bytes "0123456789")))
    as [s1 | | | |] eqn:Hrun;
    [| exfalso; vm_compute in Hrun; discriminate Hrun ..].
  assert (Hon : System.reading s1 = true).
  { pose proof Hrun as Hrun'. vm_compute in Hrun'.
    injection Hrun' as <-. reflexivity. }
  exists s1. split; [reflexivity |]. split; [exact Hon |].
  exact (@reader_never_starves Small.h Small.store SmallRun.codec
           SmallRun.pool2 (Small.bytes "0123456789")
           (take 9 SmallRun.interleaved) s1 HC HB Htar HN Hpool
           small_codec_contract Hsome Hrun Hon).
Defined.

(** ** The program can always run to its end *)

Module RunToEnd.
Import System.

Lemma smooth_app `{pixz_h} `{liblzma} `{Encoder.block_codec}
  (e1 e2 : list event) (s s1 : state) :
  smooth e1 s = true -> run e1 s = Done s1 -> smooth e2 s1 = true ->
  smooth (e1 ++ e2) s = true.
Proof.
  revert s. induction e1 as [| e e1 IH]; intros s; cbn [app smooth run].
  - now intros _ [= <-].
  - destruct (negb (is_parser e) || negb (reading s) || can_pull s);
      [| discriminate].
    destruct (step e s) as [s' | | | |]; try discriminate.
    cbn [andb mbind outcome_bind]. apply IH.
Qed.

(** The steps of the threads alone keep nobody waiting. *)
Lemma smooth_threads `{pixz_h} `{liblzma} `{Encoder.block_codec}
  (evs : list event) (s s' : state) :
  parser_events evs = [] -> run evs s = Done s' -> smooth evs s = true.
Proof.
  unfold parser_events.
  revert s. induction evs as [| e evs IH]; intros s; [reflexivity |].
  cbn [List.filter smooth run].
  destruct (is_parser e); [discriminate |].
  destruct (step e s) as [s1 | | | |]; try discriminate.
  cbn [negb orb andb mbind outcome_bind]. apply IH.
Qed.

Lemma parser_events_app (e1 e2 : list event) :
  parser_events (e1 ++ e2) = parser_events e1 ++ parser_events e2.
Proof. apply List.filter_app. Qed.

Lemma parser_events_turns (turns : list nat) :
  parser_events (map Turn turns) = [].
Proof. induction turns as [| i turns IH]; [reflexivity | exact IH]. Qed.

Lemma parser_events_pops (k : nat) : parser_events (repeat Pop k) = [].
Proof. induction k as [| k IH]; [reflexivity | exact IH]. Qed.

Section Steps.
Context `{pixz_h} `{liblzma} `{Encoder.block_codec}.
Variable p : Setup.pool.
Variable tar : list byte.
Hypothesis chunk : (0 < CHUNKSIZE < SIZE_MAX_plus_1)%Z.
Hypothesis short : (Z.of_nat (length tar) < 2 ^ 63)%Z.
Hypothesis threads : 0 < Z.to_nat (Setup.gNumEncodeThreads p).
Hypothesis contract :
  Encoder.buffer_contract (Setup.gBlockInSize p) (Setup.gBlockOutSize p).
Hypothesis room : Setup.gReadQ p <> [].

(** While the reader is in its loop, the other threads can bring the
    blocks back until a pull would return. *)
Lemma refill (s : state) :
  consistent p tar s -> idle s ->
  length (everywhere s) = length (Setup.gReadQ p) ->
  reading s = true ->
  exists sched s',
    run sched s = Done s' /\ parser_events sched = [] /\
    consistent p tar s' /\ idle s' /\
    length (everywhere s') = length (Setup.gReadQ p) /\
    reading s' = true /\ can_pull s' = true.
Proof.
  intros Hs Hidle Hcount Hon.
  destruct (ReaderFed.can_recycle p tar chunk short threads contract s Hs Hon)
    as (turns & k & s' & Hrun & Hs' & Hon' & Hall).
  destruct (PoolFacts.run_conserves p tar chunk short threads contract _ s s'
              Hs Hidle Hrun) as (_ & Hidle' & Hcount').
  exists (map Turn turns ++ repeat Pop k), s'.
  split; [exact Hrun |]. split.
  { now rewrite parser_events_app, parser_events_turns, parser_events_pops. }
  split; [exact Hs' |]. split; [exact Hidle' |].
  split; [congruence |]. split; [exact Hon' |].
  rewrite Hcount, Hall, length_app in Hcount'.
  pose proof Hs' as (Hr & _).
  destruct Hr as (_ & _ & _ & _ & _ & Hloop & _).
  rewrite Hon' in Hloop. destruct Hloop as [Hinv _].
  assert (Hpos : 0 < length (Setup.gReadQ p))
    by (destruct (Setup.gReadQ p); [contradiction | simpl; lia]).
  pose proof (ReaderRunFacts.acquire_cases (rd s')) as Hacq.
  unfold can_pull.
  destruct (Reader.gReadBlock (rd s')) as [cur |] eqn:Ecur.
  - now rewrite (ReaderRunFacts.tar_read_eq _ _ _ _ chunk Hinv Hacq).
  - destruct (Reader.gReadQ (rd s')) as [| b q] eqn:Efree;
      [simpl in Hcount'; lia |].
    now rewrite (ReaderRunFacts.tar_read_eq _ _ _ _ chunk Hinv Hacq).
Qed.

(** Whatever the parser goes through, the other threads can keep step
    with it so that it never waits. *)
Lemma carry_out (todo : list Reader.tar_event) (s : state) :
  consistent p tar s -> idle s ->
  length (everywhere s) = length (Setup.gReadQ p) ->
  reading s = true ->
  exists sched s',
    run sched s = Done s' /\ parser_events sched = map Read todo /\
    smooth sched s = true /\
    consistent p tar s' /\ idle s' /\
    length (everywhere s') = length (Setup.gReadQ p) /\
    reading s' = true.
Proof.
  revert s. induction todo as [| ev todo IH]; intros s Hs Hidle Hcount Hon.
  - exists [], s. split; [reflexivity |]. split; [reflexivity |].
    split; [reflexivity |]. split; [exact Hs |]. now repeat split.
  - destruct (refill s Hs Hidle Hcount Hon)
      as (pre & s1 & Hpre & Hquiet & Hs1 & Hidle1 & Hcount1 & Hon1 & Hpull).
    destruct (SystemFacts.step_consistent p tar chunk short threads contract
                (Read ev) s1 Hs1) as (s2 & Hstep & Hs2).
    assert (Hrun2 : run [Read ev] s1 = Done s2)
      by (cbn [run]; now rewrite Hstep).
    destruct (PoolFacts.run_conserves p tar chunk short threads contract _ s1
                s2 Hs1 Hidle1 Hrun2) as (_ & Hidle2 & Hcount2).
    assert (Hon2 : reading s2 = true).
    { cbn [step] in Hstep. rewrite Hon1 in Hstep.
      unfold can_pull in Hpull. destruct ev as [| pos nm].
      - destruct (Reader.tar_read (rd s1)) as [r | | | |];
          try discriminate; now injection Hstep as <-.
      - now injection Hstep as <-. }
    destruct (IH s2 Hs2 Hidle2) as (rest & s' & Hrest & Hev & Hsm & Hgood);
      [congruence | exact Hon2 |].
    exists (pre ++ Read ev :: rest), s'. split.
    { rewrite ShutdownFacts.run_events_app, Hpre.
      cbn [mbind outcome_bind run]. now rewrite Hstep. }
    split.
    { rewrite parser_events_app, Hquiet. cbn [app]. unfold parser_events.
      cbn [List.filter is_parser map]. f_equal. exact Hev. }
    split; [| exact Hgood].
    apply (smooth_app pre _ s s1);
      [now apply (smooth_threads pre s s1) | exact Hpre |].
    cbn [smooth is_parser negb orb]. now rewrite Hpull, orb_true_r, Hstep.
Qed.

(** From any state, the program can be run to its end without the parser
    ever waiting. *)
Lemma run_to_end (todo : list Reader.tar_event) (s : state) :
  consistent p tar s -> idle s ->
  length (everywhere s) = length (Setup.gReadQ p) ->
  exists sched s',
    run sched s = Done s' /\ stopped s' = true /\
    parser_events sched
    = (if reading s then map Read todo ++ [EndOfArchive] else []) /\
    smooth sched s = true.
Proof.
  intros Hs Hidle Hcount.
  assert (Hstop : forall s0, consistent p tar s0 -> reading s0 = false ->
            exists sched s', run sched s0 = Done s' /\ stopped s' = true /\
                             parser_events sched = [] /\
                             smooth sched s0 = true).
  { intros s0 Hs0 Hoff.
    destruct (ShutdownFacts.can_stop p tar chunk short threads contract s0
                Hs0 Hoff) as (turns & k & s' & Hrun & _ & Hst).
    exists (map Turn turns ++ Join :: repeat Pop k), s'.
    assert (Hquiet : parser_events (map Turn turns ++ Join :: repeat Pop k)
                     = []).
    { rewrite parser_events_app, parser_events_turns. cbn [app].
      unfold parser_events. cbn [List.filter is_parser].
      apply parser_events_pops. }
    split; [exact Hrun |]. split; [exact Hst |]. split; [exact Hquiet |].
    now apply (smooth_threads _ s0 s'). }
  destruct (reading s) eqn:Hon; [| now apply Hstop].
  destruct (carry_out todo s Hs Hidle Hcount Hon)
    as (first & s1 & Hfirst & Hev1 & Hsm1 & Hs1 & Hidle1 & Hcount1 & Hon1).
  destruct (refill s1 Hs1 Hidle1 Hcount1 Hon1)
    as (pre & s2 & Hpre & Hquiet & Hs2 & _ & _ & Hon2 & Hpull).
  destruct (SystemFacts.step_consistent p tar chunk short threads contract
              EndOfArchive s2 Hs2) as (s3 & Hend & Hs3).
  assert (Hoff : reading s3 = false).
  { cbn [step] in Hend. rewrite Hon2 in Hend. now injection Hend as <-. }
  destruct (Hstop s3 Hs3 Hoff) as (last & s' & Hlast & Hst & Hquiet' & Hsm').
  exists (first ++ pre ++ EndOfArchive :: last), s'. split.
  { rewrite ShutdownFacts.run_events_app, Hfirst. cbn [mbind outcome_bind].
    rewrite ShutdownFacts.run_events_app, Hpre.
    cbn [mbind outcome_bind run]. now rewrite Hend. }
  split; [exact Hst |]. split.
  { rewrite !parser_events_app, Hev1, Hquiet. cbn [app].
    unfold parser_events in *. cbn [List.filter is_parser].
    now rewrite Hquiet'. }
  apply (smooth_app first _ s s1); [exact Hsm1 | exact Hfirst |].
  apply (smooth_app pre _ s1 s2);
    [now apply (smooth_threads pre s1 s2) | exact Hpre |].
  cbn [smooth is_parser negb orb]. now rewrite Hpull, orb_true_r, Hend.
Qed.

End Steps.

End RunToEnd.

(** X16.  The program can always run to its end.  With a pool that is
    not empty, from every state that the program reaches, and whatever
    pulls and headers the parser still goes through before it reports
    the end of the archive, there is a schedule with exactly these steps
    of the parser, and turns of the encoder threads, the join and pops of
    [main] in between and behind, under which the parser is never kept
    waiting for a free block and [main] pops STOP.  Once the end of the
    archive has been reported, the threads get there by themselves. *)
Theorem shutdown_is_always_possible
  `{pixz_h} `{liblzma} `{Encoder.block_codec} (p : Setup.pool)
  (tar : list byte) (evs : list System.event) (s1 : System.state)
  (todo : list Reader.tar_event) :
  (0 < CHUNKSIZE < SIZE_MAX_plus_1)%Z ->
  (0 < Setup.gBlockInSize p < SIZE_MAX_plus_1)%Z ->
  (Z.of_nat (length tar) < 2 ^ 63)%Z ->
  (0 < Setup.gNumEncodeThreads p)%Z ->
  Forall (ReaderRun.sized (Setup.gBlockInSize p) (Setup.gBlockOutSize p))
         (Setup.gReadQ p) ->
  Encoder.buffer_contract (Setup.gBlockInSize p) (Setup.gBlockOutSize p) ->
  Setup.gReadQ p <> [] ->
  System.run evs (System.start p tar) = Done s1 ->
  exists sched s,
    System.run sched s1 = Done s /\
    System.stopped s = true /\
    System.parser_events sched
    = (if System.reading s1
       then map System.Read todo ++ [System.EndOfArchive] else []) /\
    System.smooth sched s1 = true.
Proof.
  intros HC HB Htar HN Hpool Hc Hsome Hrun.
  assert (Hn : 0 < Z.to_nat (Setup.gNumEncodeThreads p)) by lia.
  pose proof (SystemFacts.consistent_start p tar HB Hpool) as Hs0.
  assert (Hidle0 : System.idle (System.start p tar)) by discriminate.
  destruct (PoolFacts.run_conserves p tar HC Htar Hn Hc evs _ s1 Hs0 Hidle0
              Hrun) as (Hs1 & Hidle1 & Hcount1).
  rewrite PoolFacts.everywhere_start in Hcount1.
  exact (RunToEnd.run_to_end p tar HC Htar Hn Hc Hsome todo s1 Hs1 Hidle1
           Hcount1).
Qed.

(** A witness of X16: the interleaved run is cut after nine steps, while
    the reader is in its loop and blocks are under way; the parser still
    pulls once and reports a header. *)
Lemma shutdown_is_always_possible_witness :
  exists s1,
    @System.run Small.h Small.store SmallRun.codec
      (take 9 SmallRun.interleaved)
      (System.start SmallRun.pool2 (Small.bytes "0123456789")) = Done s1 /\
    exists sched s,
      @System.run Small.h Small.store SmallRun.codec sched s1 = Done s /\
      System.stopped s = true /\
      System.parser_events sched
      = [System.Read Reader.Pull;
         System.Read (Reader.Header 10 (Small.bytes "b.txt"));
         System.EndOfArchive] /\
      @System.smooth Small.h Small.store SmallRun.codec sched s1 = true.
Proof.
  assert (HC : (0 < @CHUNKSIZE Small.h < SIZE_MAX_plus_1)%Z)
    by (split; reflexivity).
  assert (HB : (0 < Setup.gBlockInSize SmallRun.pool2 < SIZE_MAX_plus_1)%Z)
    by (split; reflexivity).
  assert (Htar : (Z.of_nat (length (Small.bytes "0123456789")) < 2 ^ 63)%Z)
    by reflexivity.
  assert (HN : (0 < Setup.gNumEncodeThreads SmallRun.pool2)%Z)
    by reflexivity.
  assert (Hpool : Forall (ReaderRun.sized
                            (Setup.gBlockInSize SmallRun.pool2)
                            (Setup.gBlockOutSize SmallRun.pool2))
                    (Setup.gReadQ SmallRun.pool2))
    by (repeat constructor).
  assert (Hsome : Setup.gReadQ SmallRun.pool2 <> []) by discriminate.
  destruct (@System.run Small.h Small.store SmallRun.codec
              (take 9 SmallRun.interleaved)
              (System.start SmallRun.pool2 (Small.bytes "0123456789")))
    as [s1 | | | |] eqn:Hrun;
    [| exfalso; vm_compute in Hrun; discriminate Hrun ..].
  assert (Hon : System.reading s1 = true).
  { pose proof Hrun as Hrun'. vm_compute in Hrun'.
    injection Hrun' as <-. reflexivity. }
  exists s1. split; [reflexivity |].
  destruct (@shutdown_is_always_possible Small.h Small.store SmallRun.codec
              SmallRun.pool2 (Small.bytes "0123456789")
              (take 9 SmallRun.interleaved) s1
              [Reader.Pull; Reader.Header 10 (Small.bytes "b.txt")]
              HC HB Htar HN Hpool small_codec_contract Hsome Hrun)
    as (sched & s & Hsched & Hst & Hev & Hsm).
  rewrite Hon in Hev.
  exists sched, s. now repeat split.
Defined.

(** X18.  An empty pool starves the reader for good.  When start-up has
    put no block in the free queue, no schedule of the reader, the encoder
    threads and [main] ever brings one up: in every state reached no block
    is anywhere, and while the reader is in its header loop its pull waits
    for a free block. *)
Theorem empty_pool_starves_the_reader
  `{pixz_h} `{liblzma} `{Encoder.block_codec} (p : Setup.pool)
  (tar : list byte) (evs : list System.event) (s : System.state) :
  (0 < CHUNKSIZE < SIZE_MAX_plus_1)%Z ->
  (0 < Setup.gBlockInSize p < SIZE_MAX_plus_1)%Z ->
  (Z.of_nat (length tar) < 2 ^ 63)%Z ->
  (0 < Setup.gNumEncodeThreads p)%Z ->
  Encoder.buffer_contract (Setup.gBlockInSize p) (Setup.gBlockOutSize p) ->
  Setup.gReadQ p = [] ->
  System.run evs (System.start p tar) = Done s ->
  System.everywhere s = [] /\
  (System.reading s = true -> Reader.tar_read (System.rd s) = Blocked).
Proof.
  intros HC HB Htar HN Hc Hnone Hrun.
  assert (Hn : 0 < Z.to_nat (Setup.gNumEncodeThreads p)) by lia.
  assert (Hpool : Forall (ReaderRun.sized (Setup.gBlockInSize p)
                            (Setup.gBlockOutSize p)) (Setup.gReadQ p))
    by (rewrite Hnone; constructor).
  pose proof (SystemFacts.consistent_start p tar HB Hpool) as Hs0.
  assert (Hidle0 : System.idle (System.start p tar)) by discriminate.
  destruct (PoolFacts.run_conserves p tar HC Htar Hn Hc evs _ s Hs0 Hidle0
              Hrun) as (_ & _ & Hcount).
  rewrite PoolFacts.everywhere_start, Hnone in Hcount.
  apply length_zero_iff_nil in Hcount. split; [exact Hcount |].
  intros _. unfold System.everywhere in Hcount.
  apply app_eq_nil in Hcount as [Hfree Hrest].
  apply app_eq_nil in Hrest as [Hcur _].
  apply ReaderRunFacts.tar_read_blocked; [| exact Hfree].
  now destruct (Reader.gReadBlock (System.rd s)).
Qed.

(** A witness of X18: a pool of no block and two encoders, after a pull,
    a turn, a header and a pop. *)
Lemma empty_pool_starves_the_reader_witness :
  exists s,
    @System.run Small.h Small.store SmallRun.codec
      [System.Read Reader.Pull; System.Turn 0;
       System.Read (Reader.Header 0 (Small.bytes "hello.txt")); System.Pop]
      (System.start SmallRun.no_pool (Small.bytes "0123456789")) = Done s /\
    System.reading s = true /\
    @Reader.tar_read Small.h (System.rd s) = Blocked.
Proof.
  assert (HC : (0 < @CHUNKSIZE Small.h < SIZE_MAX_plus_1)%Z)
    by (split; reflexivity).
  assert (HB : (0 < Setup.gBlockInSize SmallRun.no_pool < SIZE_MAX_plus_1)%Z)
    by (split; reflexivity).
  assert (Htar : (Z.of_nat (length (Small.bytes "0123456789")) < 2 ^ 63)%Z)
    by reflexivity.
  assert (HN : (0 < Setup.gNumEncodeThreads SmallRun.no_pool)%Z)
    by reflexivity.
  destruct (@System.run Small.h Small.store SmallRun.codec
              [System.Read Reader.Pull; System.Turn 0;
               System.Read (Reader.Header 0 (Small.bytes "hello.txt"));
               System.Pop]
              (System.start SmallRun.no_pool (Small.bytes "0123456789")))
    as [s | | | |] eqn:Hrun;
    [| exfalso; vm_compute in Hrun; discriminate Hrun ..].
  assert (Hon : System.reading s = true).
  { pose proof Hrun as Hrun'. vm_compute in Hrun'.
    injection Hrun' as <-. reflexivity. }
  exists s. split; [reflexivity |]. split; [exact Hon |].
  exact (proj2 (@empty_pool_starves_the_reader Small.h Small.store
                  SmallRun.codec SmallRun.no_pool
                  (Small.bytes "0123456789") _ s HC HB Htar HN
                  small_codec_contract eq_refl Hrun) Hon).
Defined.
